(** * IMP: bytecode generator and stack virtual machine

    A shallow embedding of the code generator ([codegen.cpp], [codegen.h]),
    the bytecode container ([program.h]), the interpreter ([interp.h],
    [interp.cpp]) and the two runtime primitives ([runtime.cpp]), followed by
    the properties of the calling convention, of the label/fixup table and of
    the failure behaviour of the interpreter. The front end, the lexer
    ([lexer.h], [lexer.cpp]) and the parser ([parser.h], [parser.cpp]), is
    embedded after the back end, with its own conventions.

    Conventions of the model
    - the target is the usual LP64 little-endian one: [sizeof(Opcode) = 1],
      [sizeof(unsigned) = sizeof(uint32_t) = 4],
      [sizeof(size_t) = sizeof(RuntimeFn) = 8];
    - a byte is an integer in [0, 256); unsigned 32 and 64 bit arithmetic is
      written with its wrap-around;
    - [std::vector<Value> stack_] is a list whose head is the back of the
      vector (the top of the stack);
    - a failed [assert] is a failure of the generator ([None]) and a fault of
      the interpreter ([AssertFail]); a [throw] is the fault [Throw]. *)

From stdpp Require Import gmap strings list fin_maps.
From Stdlib Require Import ZArith Lia Ascii.

Local Open Scope Z_scope.

(** ** Machine integers and the little-endian encoding *)

Definition wrap32 (z : Z) : Z := z mod 2 ^ 32.
Definition wrap64 (z : Z) : Z := z mod 2 ^ 64.

(** The [n] low-order bytes of [v], least significant first: what
    [memcpy(dst, &v, n)] copies on a little-endian machine. *)
Fixpoint le_bytes (n : nat) (v : Z) : list Z :=
  match n with
  | O => []
  | S n' => v mod 256 :: le_bytes n' (v / 256)
  end.

(** The value of a little-endian byte string. *)
Fixpoint le_value (bs : list Z) : Z :=
  match bs with
  | [] => 0
  | b :: bs' => b + 256 * le_value bs'
  end.

(** ** program.h: opcodes and the bytecode container *)

Inductive Opcode :=
| PUSH_FUNC | PUSH_PROTO | PEEK | POP | CALL | ADD | RET
| JUMP_FALSE | JUMP | STOP.

(** [enum class Opcode : uint8_t]: the enumerators in declaration order. *)
Definition Opcode_byte (op : Opcode) : Z :=
  match op with
  | PUSH_FUNC => 0 | PUSH_PROTO => 1 | PEEK => 2 | POP => 3 | CALL => 4
  | ADD => 5 | RET => 6 | JUMP_FALSE => 7 | JUMP => 8 | STOP => 9
  end.

Definition Opcode_of_byte (b : Z) : option Opcode :=
  if decide (b = 0) then Some PUSH_FUNC
  else if decide (b = 1) then Some PUSH_PROTO
  else if decide (b = 2) then Some PEEK
  else if decide (b = 3) then Some POP
  else if decide (b = 4) then Some CALL
  else if decide (b = 5) then Some ADD
  else if decide (b = 6) then Some RET
  else if decide (b = 7) then Some JUMP_FALSE
  else if decide (b = 8) then Some JUMP
  else if decide (b = 9) then Some STOP
  else None.

(** ** runtime.h: the native primitives *)

Inductive RuntimeFn := PrintInt | ReadInt.

Global Instance RuntimeFn_eq_dec : EqDecision RuntimeFn.
Proof. solve_decision. Defined.

(** [kRuntimeFns]: the registry of primitives, by name. *)
Definition kRuntimeFns : gmap string RuntimeFn :=
  <["print_int" := PrintInt]> (<["read_int" := ReadInt]> ∅).

(** ** ast.h: the syntax tree *)

Inductive BinaryKind := ADD_KIND.

Unset Elimination Schemes.

Inductive Expr :=
| RefExpr (name : string)
| BinaryExpr (kind : BinaryKind) (lhs rhs : Expr)
| CallExpr (callee : Expr) (args : list Expr).

Inductive Stmt :=
| BlockStmt (body : list Stmt)
| WhileStmt (cond : Expr) (stmt : Stmt)
| ExprStmt (expr : Expr)
| ReturnStmt (expr : Expr).

Set Elimination Schemes.

(** Induction over the trees, with the hypothesis for every element of a
    nested list. *)
Definition Expr_ind (P : Expr → Prop)
  (Href : ∀ name, P (RefExpr name))
  (Hbin : ∀ kind lhs rhs, P lhs → P rhs → P (BinaryExpr kind lhs rhs))
  (Hcall : ∀ callee args, P callee → Forall P args → P (CallExpr callee args))
  : ∀ e, P e :=
  fix go (e : Expr) : P e :=
    match e with
    | RefExpr name => Href name
    | BinaryExpr kind lhs rhs => Hbin kind lhs rhs (go lhs) (go rhs)
    | CallExpr callee args =>
        Hcall callee args (go callee)
          ((fix go_args (l : list Expr) : Forall P l :=
              match l with
              | [] => @List.Forall_nil _ P
              | a :: l' => @List.Forall_cons _ P a l' (go a) (go_args l')
              end) args)
    end.

Definition Stmt_ind (P : Stmt → Prop)
  (Hblock : ∀ body, Forall P body → P (BlockStmt body))
  (Hwhile : ∀ cond stmt, P stmt → P (WhileStmt cond stmt))
  (Hexpr : ∀ expr, P (ExprStmt expr))
  (Hret : ∀ expr, P (ReturnStmt expr))
  : ∀ s, P s :=
  fix go (s : Stmt) : P s :=
    match s with
    | BlockStmt body =>
        Hblock body
          ((fix go_body (l : list Stmt) : Forall P l :=
              match l with
              | [] => @List.Forall_nil _ P
              | a :: l' => @List.Forall_cons _ P a l' (go a) (go_body l')
              end) body)
    | WhileStmt cond stmt => Hwhile cond stmt (go stmt)
    | ExprStmt expr => Hexpr expr
    | ReturnStmt expr => Hret expr
    end.

(** [FuncOrProtoDecl::ArgList]: pairs of a parameter name and a type name. *)
Abbreviation ArgList := (list (string * string)) (only parsing).

Record FuncDecl := mkFuncDecl {
  func_name : string;
  func_args : ArgList;
  func_type : string;
  func_body : list Stmt   (* the statements of the body [BlockStmt] *)
}.

Record ProtoDecl := mkProtoDecl {
  proto_name : string;
  proto_args : ArgList;
  proto_type : string;
  proto_primitive : string
}.

Inductive TopLevelStmt :=
| TopFunc (f : FuncDecl)
| TopProto (p : ProtoDecl)
| TopStmt (s : Stmt).

(** [class Module]: the list of top-level constructs. *)
Abbreviation Module_ := (list TopLevelStmt) (only parsing).

(** ** codegen.h: bindings and the scope chain *)

(** [struct Label { unsigned ID; }] *)
Abbreviation Label := Z (only parsing).

Inductive Binding :=
| FUNC (Entry : Label)
| PROTO (Fn : RuntimeFn)
| ARG (Index : Z).

Inductive Scope :=
| GlobalScope (funcs : gmap string Z) (protos : gmap string RuntimeFn)
| FuncScope (parent : Scope) (args : gmap string Z)
| BlockScope (parent : Scope).

(** [Scope::Lookup]; [None] is the failed [assert(!"name not bound")]. *)
Fixpoint Lookup (scope : Scope) (name : string) : option Binding :=
  match scope with
  | GlobalScope funcs protos =>
      match funcs !! name with
      | Some entry => Some (FUNC entry)
      | None =>
          match protos !! name with
          | Some fn => Some (PROTO fn)
          | None => None
          end
      end
  | FuncScope parent args =>
      match args !! name with
      | Some index => Some (ARG index)
      | None => Lookup parent name
      end
  | BlockScope parent => Lookup parent name
  end.

(** ** codegen.h: the state of the generator *)

Record Codegen := mkCodegen {
  code_ : list Z;                       (* std::vector<uint8_t> *)
  depth_ : Z;                           (* unsigned *)
  func_ : option FuncDecl;              (* const FuncDecl *, nullptr = None *)
  nextLabel_ : Z;                       (* unsigned *)
  fixups_ : gmap Z (list nat);          (* label -> offsets to patch *)
  labelToAddress_ : gmap Z Z;           (* label -> unsigned address *)
  funcs_ : gmap string Z                (* function name -> entry label *)
}.

(** A freshly constructed [Codegen]. The member [func_] has no initialiser in
    the source; it only matters for a [return] outside of every function,
    where the model takes it to be [nullptr]. *)
Definition Codegen_new : Codegen :=
  {| code_ := []; depth_ := 0; func_ := None; nextLabel_ := 0;
     fixups_ := ∅; labelToAddress_ := ∅; funcs_ := ∅ |}.

Definition set_code (c : list Z) (cg : Codegen) : Codegen :=
  {| code_ := c; depth_ := depth_ cg; func_ := func_ cg;
     nextLabel_ := nextLabel_ cg; fixups_ := fixups_ cg;
     labelToAddress_ := labelToAddress_ cg; funcs_ := funcs_ cg |}.

Definition set_depth (d : Z) (cg : Codegen) : Codegen :=
  {| code_ := code_ cg; depth_ := d; func_ := func_ cg;
     nextLabel_ := nextLabel_ cg; fixups_ := fixups_ cg;
     labelToAddress_ := labelToAddress_ cg; funcs_ := funcs_ cg |}.

Definition set_func (f : option FuncDecl) (cg : Codegen) : Codegen :=
  {| code_ := code_ cg; depth_ := depth_ cg; func_ := f;
     nextLabel_ := nextLabel_ cg; fixups_ := fixups_ cg;
     labelToAddress_ := labelToAddress_ cg; funcs_ := funcs_ cg |}.

Definition set_nextLabel (n : Z) (cg : Codegen) : Codegen :=
  {| code_ := code_ cg; depth_ := depth_ cg; func_ := func_ cg;
     nextLabel_ := n; fixups_ := fixups_ cg;
     labelToAddress_ := labelToAddress_ cg; funcs_ := funcs_ cg |}.

Definition set_fixups (fx : gmap Z (list nat)) (cg : Codegen) : Codegen :=
  {| code_ := code_ cg; depth_ := depth_ cg; func_ := func_ cg;
     nextLabel_ := nextLabel_ cg; fixups_ := fx;
     labelToAddress_ := labelToAddress_ cg; funcs_ := funcs_ cg |}.

Definition set_labelToAddress (la : gmap Z Z) (cg : Codegen) : Codegen :=
  {| code_ := code_ cg; depth_ := depth_ cg; func_ := func_ cg;
     nextLabel_ := nextLabel_ cg; fixups_ := fixups_ cg;
     labelToAddress_ := la; funcs_ := funcs_ cg |}.

Definition set_funcs (fs : gmap string Z) (cg : Codegen) : Codegen :=
  {| code_ := code_ cg; depth_ := depth_ cg; func_ := func_ cg;
     nextLabel_ := nextLabel_ cg; fixups_ := fixups_ cg;
     labelToAddress_ := labelToAddress_ cg; funcs_ := fs |}.

(** [std::map::emplace]: insert unless the key is already present. *)
Definition emplace `{Countable K} {V} (k : K) (v : V) (m : gmap K V) : gmap K V :=
  match m !! k with
  | Some _ => m
  | None => <[k := v]> m
  end.

(** ** codegen.cpp: emission *)

(** [MakeLabel]: [return Label(++nextLabel_)]. *)
Definition MakeLabel (cg : Codegen) : Label * Codegen :=
  let l := wrap32 (nextLabel_ cg + 1) in (l, set_nextLabel l cg).

(** [Emit<T>(t)] with [sizeof(T) = n]: append the [n] bytes of [t]. *)
Definition Emit (n : nat) (t : Z) (cg : Codegen) : Codegen :=
  set_code (code_ cg ++ le_bytes n t) cg.

Definition EmitOpcode (op : Opcode) (cg : Codegen) : Codegen :=
  Emit 1 (Opcode_byte op) cg.

(** [memcpy(code_.data() + loc, src, |src|)]; writing past the end of the
    vector is undefined and modelled by [None]. *)
Definition memcpy (code : list Z) (loc : nat) (src : list Z) : option (list Z) :=
  if decide (loc + length src ≤ length code)%nat
  then Some (take loc code ++ src ++ drop (loc + length src) code)
  else None.

(** The loop of [EmitLabel]: the first [sizeof(unsigned)] bytes of the
    [size_t] address are copied over every recorded location. *)
Fixpoint patch_fixups (address : Z) (locs : list nat) (code : list Z)
  : option (list Z) :=
  match locs with
  | [] => Some code
  | loc :: locs' =>
      code' ← memcpy code loc (le_bytes 4 address);
      patch_fixups address locs' code'
  end.

(** [EmitLabel]. Note that [fixups_[label]] default-inserts an empty entry
    and that the entry is left in the table after the loop. *)
Definition EmitLabel (label : Label) (cg : Codegen) : option Codegen :=
  let address := Z.of_nat (length (code_ cg)) in
  let locs := default [] (fixups_ cg !! label) in
  code' ← patch_fixups address locs (code_ cg);
  Some (set_labelToAddress
          (emplace label (wrap32 address) (labelToAddress_ cg))
          (set_fixups (<[label := locs]> (fixups_ cg))
             (set_code code' cg))).

(** [EmitFixup]. *)
Definition EmitFixup (label : Label) (cg : Codegen) : Codegen :=
  match labelToAddress_ cg !! label with
  | Some address => Emit 8 address cg
  | None =>
      let locs := default [] (fixups_ cg !! label) in
      Emit 8 0
        (set_fixups (<[label := locs ++ [length (code_ cg)]]> (fixups_ cg)) cg)
  end.

(** [EmitPop]; [None] is the failed [assert(depth_ > 0)]. *)
Definition EmitPop (cg : Codegen) : option Codegen :=
  if decide (0 < depth_ cg)
  then Some (EmitOpcode POP (set_depth (depth_ cg - 1) cg))
  else None.

(** [EmitCall]: the argument count is not used. *)
Definition EmitCall (nargs : Z) (cg : Codegen) : Codegen :=
  EmitOpcode CALL cg.

Definition EmitPushFunc (entry : Label) (cg : Codegen) : Codegen :=
  EmitFixup entry (EmitOpcode PUSH_FUNC (set_depth (wrap32 (depth_ cg + 1)) cg)).

Section Generator.

(** The address of each primitive in the process image: the bytes that
    [Emit<RuntimeFn>] writes. *)
Variable fn_ptr : RuntimeFn → Z.

Definition EmitPushProto (fn : RuntimeFn) (cg : Codegen) : Codegen :=
  Emit 8 (fn_ptr fn) (EmitOpcode PUSH_PROTO (set_depth (wrap32 (depth_ cg + 1)) cg)).

Definition EmitPeek (index : Z) (cg : Codegen) : Codegen :=
  Emit 4 index (EmitOpcode PEEK (set_depth (wrap32 (depth_ cg + 1)) cg)).

(** [FuncOrProtoDecl::arg_size] *)
Definition arg_size (f : FuncDecl) : Z := Z.of_nat (length (func_args f)).

Definition EmitReturn (cg : Codegen) : option Codegen :=
  if decide (0 < depth_ cg) then
    let cg1 := set_depth (depth_ cg - 1) cg in
    let cg2 := EmitOpcode RET cg1 in
    let cg3 := Emit 4 (depth_ cg2) cg2 in
    Some (Emit 4 (match func_ cg3 with Some f => arg_size f | None => 0 end) cg3)
  else None.

Definition EmitAdd (cg : Codegen) : option Codegen :=
  if decide (0 < depth_ cg)
  then Some (EmitOpcode ADD (set_depth (depth_ cg - 1) cg))
  else None.

Definition EmitJumpFalse (label : Label) (cg : Codegen) : option Codegen :=
  if decide (0 < depth_ cg)
  then Some (EmitFixup label (EmitOpcode JUMP_FALSE (set_depth (depth_ cg - 1) cg)))
  else None.

Definition EmitJump (label : Label) (cg : Codegen) : Codegen :=
  EmitFixup label (EmitOpcode JUMP cg).

(** ** codegen.cpp: lowering *)

Definition LowerRefExpr (scope : Scope) (name : string) (cg : Codegen)
  : option Codegen :=
  binding ← Lookup scope name;
  match binding with
  | FUNC entry => Some (EmitPushFunc entry cg)
  | PROTO fn => Some (EmitPushProto fn cg)
  | ARG index => Some (EmitPeek (wrap32 (depth_ cg + index + 1)) cg)
  end.

(** [LowerExpr] with [LowerBinaryExpr] and [LowerCallExpr]. The inner [fix]
    is the loop from [arg_rbegin] to [arg_rend]: the tail of the argument
    list is lowered before its head. *)
Fixpoint LowerExpr (scope : Scope) (expr : Expr) (cg : Codegen)
  : option Codegen :=
  match expr with
  | RefExpr name => LowerRefExpr scope name cg
  | BinaryExpr ADD_KIND lhs rhs =>
      cg1 ← LowerExpr scope lhs cg;
      cg2 ← LowerExpr scope rhs cg1;
      EmitAdd cg2
  | CallExpr callee args =>
      cg1 ← (fix lower_args (l : list Expr) (cg : Codegen) : option Codegen :=
               match l with
               | [] => Some cg
               | a :: l' => cg' ← lower_args l' cg; LowerExpr scope a cg'
               end) args cg;
      cg2 ← LowerExpr scope callee cg1;
      let cg3 := EmitCall (Z.of_nat (length args)) cg2 in
      Some (set_depth (wrap32 (depth_ cg3 - Z.of_nat (length args))) cg3)
  end.

(** The argument loop of [LowerCallExpr], named. *)
Fixpoint LowerArgs (scope : Scope) (args : list Expr) (cg : Codegen)
  : option Codegen :=
  match args with
  | [] => Some cg
  | a :: l' => cg' ← LowerArgs scope l' cg; LowerExpr scope a cg'
  end.

Definition LowerExprStmt (scope : Scope) (expr : Expr) (cg : Codegen)
  : option Codegen :=
  cg1 ← LowerExpr scope expr cg; EmitPop cg1.

Definition LowerReturnStmt (scope : Scope) (expr : Expr) (cg : Codegen)
  : option Codegen :=
  cg1 ← LowerExpr scope expr cg; EmitReturn cg1.

(** [LowerStmt] with [LowerBlockStmt] and [LowerWhileStmt]. *)
Fixpoint LowerStmt (scope : Scope) (stmt : Stmt) (cg : Codegen)
  : option Codegen :=
  match stmt with
  | BlockStmt body =>
      let depthIn := depth_ cg in
      cg1 ← (fix lower_body (l : list Stmt) (cg : Codegen) : option Codegen :=
               match l with
               | [] => Some cg
               | s :: l' =>
                   cg' ← LowerStmt (BlockScope scope) s cg; lower_body l' cg'
               end) body cg;
      if decide (depth_ cg1 = depthIn) then Some cg1 else None
  | WhileStmt cond body =>
      let '(entry, cg1) := MakeLabel cg in
      let '(exit, cg2) := MakeLabel cg1 in
      cg3 ← EmitLabel entry cg2;
      cg4 ← LowerExpr scope cond cg3;
      cg5 ← EmitJumpFalse exit cg4;
      cg6 ← LowerStmt scope body cg5;
      EmitLabel exit (EmitJump entry cg6)
  | ExprStmt expr => LowerExprStmt scope expr cg
  | ReturnStmt expr => LowerReturnStmt scope expr cg
  end.

(** The statement loop of [LowerBlockStmt], named. *)
Fixpoint LowerStmts (scope : Scope) (body : list Stmt) (cg : Codegen)
  : option Codegen :=
  match body with
  | [] => Some cg
  | s :: l' => cg' ← LowerStmt scope s cg; LowerStmts scope l' cg'
  end.

Definition LowerBlockStmt (scope : Scope) (body : list Stmt) (cg : Codegen)
  : option Codegen :=
  LowerStmt scope (BlockStmt body) cg.

(** The parameter map built by [LowerFuncDecl]:
    [args[it->first] = args.size()], the size being taken before the
    insertion (the right operand of an assignment is sequenced first). *)
Definition func_arg_map (params : ArgList) : gmap string Z :=
  foldl (λ (args : gmap string Z) p,
           <[p.1 := wrap32 (Z.of_nat (size args))]> args) ∅ params.

Definition LowerFuncDecl (scope : Scope) (decl : FuncDecl) (cg : Codegen)
  : option Codegen :=
  label ← funcs_ cg !! func_name decl;
  cg1 ← EmitLabel label cg;
  let cg2 := set_func (Some decl) cg1 in
  if decide (depth_ cg2 = 0) then
    cg3 ← LowerBlockStmt (FuncScope scope (func_arg_map (func_args decl)))
            (func_body decl) cg2;
    if decide (depth_ cg3 = 0) then Some (set_func None cg3) else None
  else None.

(** The first loop of [Translate]: the local map [protos] and the member
    [funcs_]. A label is made for every function declaration, also when the
    name is already taken and [emplace] keeps the older label. *)
Fixpoint collect_decls (mod_ : Module_) (protos : gmap string RuntimeFn)
  (cg : Codegen) : option (gmap string RuntimeFn * Codegen) :=
  match mod_ with
  | [] => Some (protos, cg)
  | TopProto p :: rest =>
      fn ← kRuntimeFns !! proto_primitive p;
      collect_decls rest (emplace (proto_name p) fn protos) cg
  | TopFunc f :: rest =>
      let '(l, cg1) := MakeLabel cg in
      collect_decls rest protos
        (set_funcs (emplace (func_name f) l (funcs_ cg1)) cg1)
  | TopStmt _ :: rest => collect_decls rest protos cg
  end.

Fixpoint lower_top_stmts (global : Scope) (mod_ : Module_) (cg : Codegen)
  : option Codegen :=
  match mod_ with
  | [] => Some cg
  | TopStmt s :: rest =>
      cg1 ← LowerStmt global s cg; lower_top_stmts global rest cg1
  | _ :: rest => lower_top_stmts global rest cg
  end.

Fixpoint lower_top_funcs (global : Scope) (mod_ : Module_) (cg : Codegen)
  : option Codegen :=
  match mod_ with
  | [] => Some cg
  | TopFunc f :: rest =>
      cg1 ← LowerFuncDecl global f cg; lower_top_funcs global rest cg1
  | _ :: rest => lower_top_funcs global rest cg
  end.

(** [Translate], run on the generator [cg]; the result is the generator
    after the last function, whose [code_] is moved into the [Program]. *)
Definition Translate_from (cg : Codegen) (mod_ : Module_) : option Codegen :=
  if decide (code_ cg = []) then
    '(protos, cg1) ← collect_decls mod_ ∅ cg;
    let global := GlobalScope (funcs_ cg1) protos in
    cg2 ← lower_top_stmts global mod_ cg1;
    let cg3 := EmitOpcode STOP cg2 in
    lower_top_funcs global mod_ cg3
  else None.

(** [Codegen().Translate(mod)] *)
Definition Translate_state (mod_ : Module_) : option Codegen :=
  Translate_from Codegen_new mod_.

Definition Translate (mod_ : Module_) : option (list Z) :=
  code_ <$> Translate_state mod_.

End Generator.

(** ** interp.h: values and the state of the interpreter *)

(** [Interp::Value]: the tag and the payload. A [PROTO] value holds a
    function pointer, that is an address in the process image. *)
Inductive Value :=
| VProto (Proto : Z)
| VAddr (Addr : Z)
| VInt (Int : Z).

(** [Value::operator bool] *)
Definition Value_bool (v : Value) : bool :=
  match v with
  | VProto _ => true
  | VAddr _ => true
  | VInt n => bool_decide (n ≠ 0)
  end.

(** The interpreter state, with the standard streams the primitives use:
    [cin_] are the integers still to be read, [cout_] the integers printed
    so far, oldest first. *)
Record Interp := mkInterp {
  pc_ : Z;                 (* size_t *)
  stack_ : list Value;     (* head = top *)
  cin_ : list Z;
  cout_ : list Z
}.

Definition set_pc (pc : Z) (st : Interp) : Interp :=
  {| pc_ := pc; stack_ := stack_ st; cin_ := cin_ st; cout_ := cout_ st |}.

Definition set_stack (s : list Value) (st : Interp) : Interp :=
  {| pc_ := pc_ st; stack_ := s; cin_ := cin_ st; cout_ := cout_ st |}.

(** [Interp(prog)] before [Run], reading the integers [input]. *)
Definition Interp_new (input : list Z) : Interp :=
  {| pc_ := 0; stack_ := []; cin_ := input; cout_ := [] |}.

Inductive Exception :=
| RuntimeError (msg : string)   (* class RuntimeError of interp.h *)
| length_error.                 (* std::vector::resize beyond max_size *)

(** The ways in which an instruction does not complete. *)
Inductive Fault :=
| AssertFail (msg : string)     (* a failed assert: the process aborts *)
| Throw (e : Exception)         (* a C++ exception leaves [Run] *)
| Undefined (msg : string).     (* undefined behaviour *)

(** Interpreter actions: a fault comes with the state it was raised in,
    effects of the failing instruction included. *)
Definition VM (A : Type) : Type := Interp → (Fault * Interp) + (A * Interp).

Global Instance VM_ret : MRet VM := λ A a st, inr (a, st).
Global Instance VM_bind : MBind VM := λ A B f m st,
  match m st with
  | inl e => inl e
  | inr (a, st') => f a st'
  end.

Definition fault {A} (f : Fault) : VM A := λ st, inl (f, st).
Definition get_pc : VM Z := λ st, inr (pc_ st, st).
Definition put_pc (pc : Z) : VM unit := λ st, inr (tt, set_pc pc st).

(** [Interp::Pop] *)
Definition Pop : VM Value := λ st,
  match stack_ st with
  | [] => inl (AssertFail "stack empty", st)
  | t :: s => inr (t, set_stack s st)
  end.

(** [Interp::PopInt] *)
Definition PopInt : VM Z :=
  v ← Pop;
  match v with
  | VInt n => mret n
  | _ => fault (AssertFail "v.Kind == Value::Kind::INT")
  end.

(** [Interp::PopAddr] *)
Definition PopAddr : VM Z :=
  v ← Pop;
  match v with
  | VAddr a => mret a
  | _ => fault (AssertFail "v.Kind == Value::Kind::ADDR")
  end.

(** [Interp::PeekInt]: [*stack_.rbegin()] is not guarded. *)
Definition PeekInt : VM Z := λ st,
  match stack_ st with
  | [] => inl (Undefined "rbegin of an empty stack", st)
  | VInt n :: _ => inr (n, st)
  | _ :: _ => inl (AssertFail "v.Kind == Value::Kind::INT", st)
  end.

(** [Interp::Push] *)
Definition Push (v : Value) : VM unit := λ st,
  inr (tt, set_stack (v :: stack_ st) st).

(** [stack_.resize(stack_.size() - n)]: the difference is taken in
    [size_t], so that a stack shorter than [n] asks for a size beyond
    [max_size]. *)
Definition shrink (n : Z) : VM unit := λ st,
  if decide (n ≤ Z.of_nat (length (stack_ st)))
  then inr (tt, set_stack (drop (Z.to_nat n) (stack_ st)) st)
  else inl (Throw length_error, st).

(** [Program::Read<T>(pc_)] with [sizeof(T) = n]. The asserted sum is
    taken in [size_t]. *)
Definition Read (n : nat) (code : list Z) : VM Z := λ st,
  let pc := pc_ st in
  if decide (wrap64 (pc + Z.of_nat n) ≤ Z.of_nat (length code)) then
    if decide (pc + Z.of_nat n ≤ Z.of_nat (length code))
    then inr (le_value (take n (drop (Z.to_nat pc) code)),
              set_pc (pc + Z.of_nat n) st)
    else inl (Undefined "read outside of the code", st)
  else inl (AssertFail "pc + sizeof(T) <= code_.size()", st).

(** ** runtime.cpp: the primitives *)

(** [std::cout << v] *)
Definition cout_put (v : Z) : VM unit := λ st,
  inr (tt, {| pc_ := pc_ st; stack_ := stack_ st; cin_ := cin_ st;
              cout_ := cout_ st ++ [v] |}).

(** The bounds of [int64_t]. *)
Definition INT64_MIN : Z := - 2 ^ 63.
Definition INT64_MAX : Z := 2 ^ 63 - 1.

(** [std::cin >> val] with [int64_t val]. The next integer of the input is
    extracted. One that does not fit is extracted as well, but [val] becomes
    the bound it exceeds and the stream fails; a failed stream extracts
    nothing any more, which the model renders by an input that holds
    nothing more. On an exhausted (or failed) input [val] is left without
    a value. *)
Definition cin_get : VM Z := λ st,
  match cin_ st with
  | [] => inl (Undefined "val is not initialised", st)
  | v :: rest =>
      if decide (INT64_MIN ≤ v ≤ INT64_MAX) then
        inr (v, {| pc_ := pc_ st; stack_ := stack_ st; cin_ := rest;
                   cout_ := cout_ st |})
      else
        inr (if decide (v < INT64_MIN) then INT64_MIN else INT64_MAX,
             {| pc_ := pc_ st; stack_ := stack_ st; cin_ := [];
                cout_ := cout_ st |})
  end.

Definition run_PrintInt : VM unit :=
  v ← PeekInt;
  cout_put v;;
  Push (VInt v).

Definition run_ReadInt : VM unit :=
  val ← cin_get;
  Push (VInt val).

Definition run_RuntimeFn (fn : RuntimeFn) : VM unit :=
  match fn with
  | PrintInt => run_PrintInt
  | ReadInt => run_ReadInt
  end.

(** ** interp.cpp: the main loop *)

Inductive Flow := Continue | Return.

Section Interpreter.

Variable fn_ptr : RuntimeFn → Z.

(** The routine a function pointer designates, if any. *)
Definition fn_at (p : Z) : option RuntimeFn :=
  if decide (p = fn_ptr PrintInt) then Some PrintInt
  else if decide (p = fn_ptr ReadInt) then Some ReadInt
  else None.

(** The [CALL] case. *)
Definition do_CALL : VM Flow :=
  callee ← Pop;
  match callee with
  | VProto p =>
      match fn_at p with
      | Some fn => run_RuntimeFn fn;; mret Continue
      | None => fault (Undefined "call through a wild pointer")
      end
  | VAddr a => pc ← get_pc; Push (VAddr pc);; put_pc a;; mret Continue
  | VInt _ => fault (Throw (RuntimeError "cannot call integer"))
  end.

(** The [ADD] case; the sum of two [int64_t] must not overflow. *)
Definition do_ADD : VM Flow :=
  rhs ← PopInt;
  lhs ← PopInt;
  if decide (- 2 ^ 63 ≤ lhs + rhs < 2 ^ 63)
  then Push (VInt (lhs + rhs));; mret Continue
  else fault (Undefined "signed integer overflow").

(** The [RET] case. *)
Definition do_RET (code : list Z) : VM Flow :=
  depth ← Read 4 code;
  nargs ← Read 4 code;
  v ← Pop;
  shrink depth;;
  pc ← PopAddr;
  put_pc pc;;
  shrink nargs;;
  Push v;;
  mret Continue.

(** The [PEEK] case: [*(stack_.rbegin() + idx)] is not guarded. *)
Definition stack_at (idx : Z) : VM Value := λ st,
  match stack_ st !! Z.to_nat idx with
  | Some v => inr (v, st)
  | None => inl (Undefined "peek below the stack", st)
  end.

Definition do_PEEK (code : list Z) : VM Flow :=
  idx ← Read 4 code;
  v ← stack_at idx;
  Push v;;
  mret Continue.

(** The [JUMP_FALSE] case. *)
Definition do_JUMP_FALSE (code : list Z) : VM Flow :=
  cond ← Pop;
  addr ← Read 8 code;
  (if Value_bool cond then mret tt else put_pc addr : VM unit);;
  mret Continue.

(** The [switch] of [Interp::Run]. A byte that is no opcode matches no case
    and the loop goes on with the next byte. *)
Definition dispatch (code : list Z) (op : option Opcode) : VM Flow :=
  match op with
  | Some PUSH_FUNC => a ← Read 8 code; Push (VAddr a);; mret Continue
  | Some PUSH_PROTO => p ← Read 8 code; Push (VProto p);; mret Continue
  | Some PEEK => do_PEEK code
  | Some POP => Pop;; mret Continue
  | Some CALL => do_CALL
  | Some ADD => do_ADD
  | Some RET => do_RET code
  | Some JUMP_FALSE => do_JUMP_FALSE code
  | Some JUMP => a ← Read 8 code; put_pc a;; mret Continue
  | Some STOP => mret Return
  | None => mret Continue
  end.

(** One turn of the loop of [Interp::Run]. *)
Definition Step (code : list Z) : VM Flow :=
  op ← Read 1 code;
  dispatch code (Opcode_of_byte op).

Inductive Result :=
| Stopped (st : Interp)             (* [Run] returned at a STOP *)
| Faulted (f : Fault) (st : Interp) (* [Run] was left by a fault *)
| OutOfFuel (st : Interp).          (* still running after [fuel] turns *)

(** [Interp::Run], for at most [fuel] turns of the loop. *)
Fixpoint Run (fuel : nat) (code : list Z) (st : Interp) : Result :=
  match fuel with
  | O => OutOfFuel st
  | S fuel' =>
      match Step code st with
      | inl (f, st') => Faulted f st'
      | inr (Return, st') => Stopped st'
      | inr (Continue, st') => Run fuel' code st'
      end
  end.

End Interpreter.

(** ** Notions used by the statements *)

(** The bytes [bs] are in the container at offset [pc]. *)
Definition code_at (code : list Z) (pc : Z) (bs : list Z) : Prop :=
  0 ≤ pc ∧ pc + Z.of_nat (length bs) ≤ Z.of_nat (length code) ∧
  take (length bs) (drop (Z.to_nat pc) code) = bs.

(** The eight-byte operand stored at offset [loc]: what [Read<size_t>]
    returns there. *)
Definition operand (code : list Z) (loc : nat) : Z :=
  le_value (take 8 (drop loc code)).

(** [v.Kind == Value::Kind::INT] *)
Definition is_int (v : Value) : bool :=
  match v with
  | VInt _ => true
  | _ => false
  end.

(** A label is placed once [EmitLabel] has recorded its address. *)
Definition placed (cg : Codegen) (l : Label) : Prop :=
  is_Some (labelToAddress_ cg !! l).

(** The offsets recorded for a label in the fixup table. *)
Definition fixup_locs (cg : Codegen) (l : Label) : list nat :=
  default [] (fixups_ cg !! l).

(** The two halves of the eight-byte operand at [loc]. *)
Definition low4 (code : list Z) (loc : nat) : Z :=
  le_value (take 4 (drop loc code)).
Definition high4 (code : list Z) (loc : nat) : Z :=
  le_value (take 4 (drop (loc + 4) code)).

(** The shape of the fixup table in every state the generator reaches:
    each recorded offset is that of an eight-byte operand inside the
    container, operands do not overlap, the four high-order bytes of each
    are zero, the four low-order bytes hold an offset of the container (zero
    as long as the label is not placed), and an entry without offsets
    belongs to a placed label. *)
Record fixups_wf (cg : Codegen) : Prop := mk_fixups_wf {
  wf_bound : ∀ l loc, loc ∈ fixup_locs cg l →
    (loc + 8 ≤ length (code_ cg))%nat;
  wf_apart : ∀ l1 l2 loc1 loc2,
    loc1 ∈ fixup_locs cg l1 → loc2 ∈ fixup_locs cg l2 →
    (l1 = l2 ∧ loc1 = loc2) ∨ (loc1 + 8 ≤ loc2)%nat ∨ (loc2 + 8 ≤ loc1)%nat;
  wf_high : ∀ l loc, loc ∈ fixup_locs cg l →
    take 4 (drop (loc + 4) (code_ cg)) = [0; 0; 0; 0];
  wf_low : ∀ l loc, loc ∈ fixup_locs cg l →
    0 ≤ low4 (code_ cg) loc ≤ Z.of_nat (length (code_ cg));
  wf_zero : ∀ l loc, loc ∈ fixup_locs cg l → ¬ placed cg l →
    take 4 (drop loc (code_ cg)) = [0; 0; 0; 0];
  wf_entry : ∀ l, fixups_ cg !! l = Some [] → placed cg l
}.

(** Every label with a recorded fixup is placed, or is one of the labels
    [P] that are still to be placed. *)
Definition no_dangling (P : Label → Prop) (cg : Codegen) : Prop :=
  ∀ l loc, loc ∈ fixup_locs cg l → placed cg l ∨ P l.

Definition gen_inv (P : Label → Prop) (cg : Codegen) : Prop :=
  fixups_wf cg ∧ no_dangling P cg.

(** The generator only adds: placed labels stay placed, recorded fixups
    stay recorded, the container grows, the function labels are kept. *)
Record extends (cg cg' : Codegen) : Prop := mk_extends {
  ext_placed : ∀ l, placed cg l → placed cg' l;
  ext_fixups : ∀ l loc, loc ∈ fixup_locs cg l → loc ∈ fixup_locs cg' l;
  ext_funcs : funcs_ cg' = funcs_ cg;
  ext_length : (length (code_ cg) ≤ length (code_ cg'))%nat
}.

(** A step of the generator from [cg] to [cg'] that keeps the invariant. *)
Definition keeps (P : Label → Prop) (cg cg' : Codegen) : Prop :=
  gen_inv P cg → gen_inv P cg' ∧ extends cg cg'.

(** The function labels a scope chain resolves to are among [P]. *)
Definition scope_labels (P : Label → Prop) (scope : Scope) : Prop :=
  ∀ name entry, Lookup scope name = Some (FUNC entry) → P entry.

(** Expressions over the parameters alone: references that resolve to an
    argument slot, and additions. *)
Fixpoint arg_only (scope : Scope) (e : Expr) : bool :=
  match e with
  | RefExpr name =>
      match Lookup scope name with
      | Some (ARG _) => true
      | _ => false
      end
  | BinaryExpr _ lhs rhs => arg_only scope lhs && arg_only scope rhs
  | CallExpr _ _ => false
  end.

(** The number of instructions such an expression is lowered to. *)
Fixpoint instr_count (e : Expr) : nat :=
  match e with
  | RefExpr _ => 1
  | BinaryExpr _ lhs rhs => instr_count lhs + instr_count rhs + 1
  | CallExpr _ _ => 0
  end.

(** The number of [while] statements of a statement: each one makes two
    labels. *)
Fixpoint while_count (s : Stmt) : nat :=
  match s with
  | BlockStmt body =>
      (fix go (l : list Stmt) : nat :=
         match l with
         | [] => 0%nat
         | s' :: l' => (while_count s' + go l')%nat
         end) body
  | WhileStmt _ stmt => S (while_count stmt)
  | ExprStmt _ => 0%nat
  | ReturnStmt _ => 0%nat
  end.

Fixpoint while_count_list (l : list Stmt) : nat :=
  match l with
  | [] => 0%nat
  | s :: l' => (while_count s + while_count_list l')%nat
  end.

(** The names of the functions a module declares, in order. *)
Fixpoint func_names (mod_ : Module_) : list string :=
  match mod_ with
  | [] => []
  | TopFunc f :: rest => func_name f :: func_names rest
  | _ :: rest => func_names rest
  end.

(** The loops of the top-level statements and of the function bodies. *)
Fixpoint top_whiles (mod_ : Module_) : nat :=
  match mod_ with
  | [] => 0%nat
  | TopStmt s :: rest => (while_count s + top_whiles rest)%nat
  | _ :: rest => top_whiles rest
  end.

Fixpoint body_whiles (mod_ : Module_) : nat :=
  match mod_ with
  | [] => 0%nat
  | TopFunc f :: rest => (while_count_list (func_body f) + body_whiles rest)%nat
  | _ :: rest => body_whiles rest
  end.

(** The number of labels the translation of a module makes: one for every
    function declaration and two for every [while]. *)
Definition label_count (mod_ : Module_) : nat :=
  (length (func_names mod_) + 2 * top_whiles mod_ + 2 * body_whiles mod_)%nat.

(** The labels in use are among those made so far, and the recorded fixups
    of a placed label hold its recorded address. *)
Record labels_wf (cg : Codegen) : Prop := mk_labels_wf {
  lw_next : 0 ≤ nextLabel_ cg;
  lw_placed : ∀ l, placed cg l → 0 < l ≤ nextLabel_ cg;
  lw_patched : ∀ l loc a, loc ∈ fixup_locs cg l →
    labelToAddress_ cg !! l = Some a → low4 (code_ cg) loc = a
}.

(** The labels of the functions are among the labels made so far, and no two
    functions share a label. *)
Definition funcs_ok (cg : Codegen) : Prop :=
  (∀ name l, funcs_ cg !! name = Some l → 0 < l ≤ nextLabel_ cg) ∧
  (∀ n1 n2 l, funcs_ cg !! n1 = Some l → funcs_ cg !! n2 = Some l → n1 = n2).

(** A step of the generator that keeps the table and the labels well formed
    and neither makes nor places a label. *)
Definition quiet (cg cg' : Codegen) : Prop :=
  fixups_wf cg → labels_wf cg →
  fixups_wf cg' ∧ labels_wf cg' ∧
  nextLabel_ cg' = nextLabel_ cg ∧ labelToAddress_ cg' = labelToAddress_ cg.

(** Addresses of the two primitives in one process image, for the
    executions of concrete programs. *)
Definition sample_fn_ptr (fn : RuntimeFn) : Z :=
  match fn with
  | PrintInt => 4198400
  | ReadInt => 4198464
  end.

(** Scenario A: a two-argument addition function, the output primitive, and
    the statement [output(add(2, 3))]. The language has no integer literal
    (the lexer rejects digits and [Expr] has no literal node): the only
    source of integers is the primitive [read_int], so the two arguments are
    read from the standard input. The arguments of a call are lowered from
    the right, hence the input [3 2] for the call [add(2, 3)]. *)
Definition add_decl : FuncDecl :=
  mkFuncDecl "add" [("a", "int"); ("b", "int")] "int"
    [ReturnStmt (BinaryExpr ADD_KIND (RefExpr "a") (RefExpr "b"))].

Definition output_decl : ProtoDecl :=
  mkProtoDecl "output" [("x", "int")] "int" "print_int".

Definition input_decl : ProtoDecl :=
  mkProtoDecl "input" [] "int" "read_int".

Definition scenario_A : Module_ :=
  [TopFunc add_decl; TopProto output_decl; TopProto input_decl;
   TopStmt (ExprStmt
     (CallExpr (RefExpr "output")
        [CallExpr (RefExpr "add")
           [CallExpr (RefExpr "input") []; CallExpr (RefExpr "input") []]]))].

Definition scenario_A_input : list Z := [3; 2].

(** The call [output(input())] in the scope of the two prototypes. *)
Definition print_call : Expr :=
  CallExpr (RefExpr "output") [CallExpr (RefExpr "input") []].

Definition proto_scope : Scope :=
  GlobalScope ∅ (<["output" := PrintInt]> (<["input" := ReadInt]> ∅)).

(** A call of a function that is declared later (Scenario C). *)
Definition forward_call : Module_ :=
  [TopStmt (ExprStmt (CallExpr (RefExpr "f") []));
   TopFunc (mkFuncDecl "f" [] "int" [ReturnStmt (RefExpr "f")])].

(** Scenario D: the result of an addition is called. *)
Definition scenario_D : Module_ :=
  [TopProto input_decl; TopProto output_decl;
   TopStmt (ExprStmt
     (CallExpr (RefExpr "output")
        [CallExpr
           (BinaryExpr ADD_KIND (CallExpr (RefExpr "input") [])
              (CallExpr (RefExpr "input") []))
           []]))].

(** A function that calls the output primitive before it returns: the
    program [f(input())] with [func f(a: int): int { output(a); return rd(a) }],
    [rd] being a second name of the input primitive, and its input. *)
Definition rd_decl : ProtoDecl :=
  mkProtoDecl "rd" [("x", "int")] "int" "read_int".

Definition stray_decl : FuncDecl :=
  mkFuncDecl "f" [("a", "int")] "int"
    [ExprStmt (CallExpr (RefExpr "output") [RefExpr "a"]);
     ReturnStmt (CallExpr (RefExpr "rd") [RefExpr "a"])].

Definition stray_call : Module_ :=
  [TopProto output_decl; TopProto input_decl; TopProto rd_decl;
   TopFunc stray_decl;
   TopStmt (ExprStmt (CallExpr (RefExpr "f") [CallExpr (RefExpr "input") []]))].

Definition stray_call_input : list Z := [7; 9].

(** The scope of the body of [f] in [stray_call]. *)
Definition stray_scope : Scope :=
  BlockScope
    (FuncScope
       (GlobalScope (<["f" := 1]> ∅)
          (<["output" := PrintInt]>
             (<["input" := ReadInt]> (<["rd" := ReadInt]> ∅))))
       (func_arg_map (func_args stray_decl))).

(** The forward call of a function that is declared twice. *)
Definition twice_declared : Module_ :=
  [TopStmt (ExprStmt (CallExpr (RefExpr "f") []));
   TopFunc (mkFuncDecl "f" [] "int" [ReturnStmt (RefExpr "f")]);
   TopFunc (mkFuncDecl "f" [] "int" [ReturnStmt (RefExpr "f")])].

(** A loop that ends the last function:
    [func f(): int { while (f) {} }]. *)
Definition end_loop : Module_ :=
  [TopFunc (mkFuncDecl "f" [] "int" [WhileStmt (RefExpr "f") (BlockStmt [])])].

(** ** Notions used by the further properties of the interpreter *)

(** The state a run ends in. *)
Definition result_state (r : Result) : Interp :=
  match r with
  | Stopped st => st
  | Faulted _ st => st
  | OutOfFuel st => st
  end.

(** The state an action leaves, and the fault it ends in, if any. *)
Definition final_state {A} (r : (Fault * Interp) + (A * Interp)) : Interp :=
  match r with
  | inl (_, st) => st
  | inr (_, st) => st
  end.

Definition fault_of {A} (r : (Fault * Interp) + (A * Interp)) : option Fault :=
  match r with
  | inl (f, _) => Some f
  | inr _ => None
  end.

(** From [st] to [st'] the output has only been appended to and the input
    has only been taken from the front. *)
Definition streams_grow (st st' : Interp) : Prop :=
  cout_ st `prefix_of` cout_ st' ∧ cin_ st' `suffix_of` cin_ st.

(** From [st] to [st'] the streams are untouched. *)
Definition streams_same (st st' : Interp) : Prop :=
  cout_ st' = cout_ st ∧ cin_ st' = cin_ st.

(** Actions of the interpreter that treat the streams that way, faults
    included. *)
Definition stream_safe {A} (m : VM A) : Prop :=
  ∀ st, streams_grow st (final_state (m st)).

Definition stream_quiet {A} (m : VM A) : Prop :=
  ∀ st, streams_same st (final_state (m st)).

(** ** Notions used by the further properties of the generator *)

(** A step of the generator that only appends to the container: no byte
    already emitted is changed, no label is made or placed, and the function
    table and the current function are kept. *)
Definition appends (cg cg' : Codegen) : Prop :=
  (∃ bytes, code_ cg' = code_ cg ++ bytes) ∧
  nextLabel_ cg' = nextLabel_ cg ∧
  labelToAddress_ cg' = labelToAddress_ cg ∧
  funcs_ cg' = funcs_ cg ∧
  func_ cg' = func_ cg.

(** The names of the prototypes a module declares, in order. *)
Fixpoint proto_names (mod_ : Module_) : list string :=
  match mod_ with
  | [] => []
  | TopProto p :: rest => proto_name p :: proto_names rest
  | _ :: rest => proto_names rest
  end.

(** The number of nodes of an expression: a bound on the number of values
    its evaluation holds on the stack at any time. *)
Fixpoint expr_size (e : Expr) : nat :=
  match e with
  | RefExpr _ => 1
  | BinaryExpr _ lhs rhs => S (expr_size lhs + expr_size rhs)
  | CallExpr callee args =>
      S (expr_size callee +
         (fix go (l : list Expr) : nat :=
            match l with
            | [] => 0%nat
            | a :: l' => (expr_size a + go l')%nat
            end) args)
  end.

Fixpoint exprs_size (l : list Expr) : nat :=
  match l with
  | [] => 0%nat
  | a :: l' => (expr_size a + exprs_size l')%nat
  end.

(** Every name the expression refers to is among the [known] ones. *)
Fixpoint expr_closed (known : string → bool) (e : Expr) : bool :=
  match e with
  | RefExpr name => known name
  | BinaryExpr _ lhs rhs => expr_closed known lhs && expr_closed known rhs
  | CallExpr callee args =>
      expr_closed known callee &&
      (fix go (l : list Expr) : bool :=
         match l with
         | [] => true
         | a :: l' => expr_closed known a && go l'
         end) args
  end.

Fixpoint exprs_closed (known : string → bool) (l : list Expr) : bool :=
  match l with
  | [] => true
  | a :: l' => expr_closed known a && exprs_closed known l'
  end.

(** Every expression of the statement satisfies [ok]. *)
Fixpoint stmt_all (ok : Expr → bool) (s : Stmt) : bool :=
  match s with
  | BlockStmt body =>
      (fix go (l : list Stmt) : bool :=
         match l with
         | [] => true
         | s' :: l' => stmt_all ok s' && go l'
         end) body
  | WhileStmt cond stmt => ok cond && stmt_all ok stmt
  | ExprStmt expr => ok expr
  | ReturnStmt expr => ok expr
  end.

Fixpoint stmts_all (ok : Expr → bool) (l : list Stmt) : bool :=
  match l with
  | [] => true
  | s :: l' => stmt_all ok s && stmts_all ok l'
  end.

(** A name that is one of [params], or the name of a function or of a
    prototype declared anywhere in the module. *)
Definition declared (mod_ : Module_) (params : list string) (name : string)
  : bool :=
  bool_decide (name ∈ params ∨ name ∈ func_names mod_ ∨ name ∈ proto_names mod_).

(** A closed module: every prototype names a primitive of the registry, and
    every name used in a top-level statement or in a function body is
    declared, the parameters of a function being known in its body. *)
Definition top_closed (mod_ : Module_) (t : TopLevelStmt) : bool :=
  match t with
  | TopFunc f =>
      stmts_all (expr_closed (declared mod_ (func_args f).*1)) (func_body f)
  | TopProto p => bool_decide (is_Some (kRuntimeFns !! proto_primitive p))
  | TopStmt s => stmt_all (expr_closed (declared mod_ [])) s
  end.

Definition module_closed (mod_ : Module_) : bool :=
  forallb (top_closed mod_) mod_.

(** No expression of the module has [2^32] nodes or more. *)
Definition expr_small (e : Expr) : bool :=
  bool_decide (Z.of_nat (expr_size e) < 2 ^ 32).

Definition top_small (t : TopLevelStmt) : bool :=
  match t with
  | TopFunc f => stmts_all expr_small (func_body f)
  | TopProto _ => true
  | TopStmt s => stmt_all expr_small s
  end.

Definition module_small (mod_ : Module_) : bool := forallb top_small mod_.

(** The byte at offset [p] lies outside the four bytes that [EmitLabel]
    rewrites at any placeholder recorded in the fixup table. *)
Definition settled (cg : Codegen) (p : nat) : Prop :=
  ∀ l loc, loc ∈ fixup_locs cg l → (p < loc ∨ loc + 4 ≤ p)%nat.

(** A step of the generator that leaves what is settled as it is: recorded
    addresses are kept, new placeholders lie in new code, and bytes outside
    the placeholders are not changed. *)
Record frame (cg cg' : Codegen) : Prop := mk_frame {
  fr_addr : ∀ l a,
    labelToAddress_ cg !! l = Some a → labelToAddress_ cg' !! l = Some a;
  fr_fixups : ∀ l loc, loc ∈ fixup_locs cg' l →
    loc ∈ fixup_locs cg l ∨ (length (code_ cg) ≤ loc)%nat;
  fr_code : ∀ p, (p < length (code_ cg))%nat → settled cg p →
    code_ cg' !! p = code_ cg !! p;
  fr_length : (length (code_ cg) ≤ length (code_ cg'))%nat
}.

(** The position of a name in a parameter list, counted from 0. *)
Fixpoint param_index (params : list string) (name : string) : option nat :=
  match params with
  | [] => None
  | p :: ps =>
      if decide (p = name) then Some 0%nat else S <$> param_index ps name
  end.

(** The value of an expression over the parameters [params] when the
    arguments are the integers [vals], the first parameter first: sums in
    [int64_t]. There is none when the expression refers to another name,
    holds a call, or an addition leaves [int64_t]. *)
Fixpoint eval_params (params : list string) (vals : list Z) (e : Expr)
  : option Z :=
  match e with
  | RefExpr name => i ← param_index params name; vals !! i
  | BinaryExpr ADD_KIND lhs rhs =>
      a ← eval_params params vals lhs;
      b ← eval_params params vals rhs;
      if decide (- 2 ^ 63 ≤ a + b < 2 ^ 63) then Some (a + b) else None
  | CallExpr _ _ => None
  end.

(** ** The references to labels *)

(** Every address-sized operand that stands for a label is emitted by
    [EmitFixup], and [EmitFixup] is called by [EmitPushFunc],
    [EmitJumpFalse] and [EmitJump], each time behind the opcode it has just
    emitted. A reference is the offset of such an operand with the label it
    stands for: [EmitFixup label] on the generator [cg] emits its operand
    at the end of the container. The functions below list the references a
    lowering function emits on [cg], call by call as the source makes them;
    they run the lowering functions themselves to get the generator each
    call finds. *)

Definition EmitFixup_ref (label : Label) (cg : Codegen) : nat * Z :=
  (length (code_ cg), label).

Definition EmitPushFunc_refs (entry : Label) (cg : Codegen) : list (nat * Z) :=
  [EmitFixup_ref entry
     (EmitOpcode PUSH_FUNC (set_depth (wrap32 (depth_ cg + 1)) cg))].

Definition EmitJumpFalse_refs (label : Label) (cg : Codegen)
  : list (nat * Z) :=
  [EmitFixup_ref label
     (EmitOpcode JUMP_FALSE (set_depth (depth_ cg - 1) cg))].

Definition EmitJump_refs (label : Label) (cg : Codegen) : list (nat * Z) :=
  [EmitFixup_ref label (EmitOpcode JUMP cg)].

(** What follows a call that has returned the generator [r]. *)
Definition after {A} (r : option Codegen) (k : Codegen → list A) : list A :=
  match r with
  | Some cg => k cg
  | None => []
  end.

Section References.

Variable fn_ptr : RuntimeFn → Z.

Definition LowerRefExpr_refs (scope : Scope) (name : string) (cg : Codegen)
  : list (nat * Z) :=
  match Lookup scope name with
  | Some (FUNC entry) => EmitPushFunc_refs entry cg
  | _ => []
  end.

Fixpoint LowerExpr_refs (scope : Scope) (expr : Expr) (cg : Codegen)
  : list (nat * Z) :=
  match expr with
  | RefExpr name => LowerRefExpr_refs scope name cg
  | BinaryExpr ADD_KIND lhs rhs =>
      LowerExpr_refs scope lhs cg ++
      after (LowerExpr fn_ptr scope lhs cg) (LowerExpr_refs scope rhs)
  | CallExpr callee args =>
      (fix args_refs (l : list Expr) (cg : Codegen) : list (nat * Z) :=
         match l with
         | [] => []
         | a :: l' =>
             args_refs l' cg ++
             after (LowerArgs fn_ptr scope l' cg) (LowerExpr_refs scope a)
         end) args cg ++
      after (LowerArgs fn_ptr scope args cg) (LowerExpr_refs scope callee)
  end.

(** The argument loop of [LowerCallExpr], named. *)
Fixpoint LowerArgs_refs (scope : Scope) (args : list Expr) (cg : Codegen)
  : list (nat * Z) :=
  match args with
  | [] => []
  | a :: l' =>
      LowerArgs_refs scope l' cg ++
      after (LowerArgs fn_ptr scope l' cg) (LowerExpr_refs scope a)
  end.

Fixpoint LowerStmt_refs (scope : Scope) (stmt : Stmt) (cg : Codegen)
  : list (nat * Z) :=
  match stmt with
  | BlockStmt body =>
      (fix body_refs (l : list Stmt) (cg : Codegen) : list (nat * Z) :=
         match l with
         | [] => []
         | s :: l' =>
             LowerStmt_refs (BlockScope scope) s cg ++
             after (LowerStmt fn_ptr (BlockScope scope) s cg) (body_refs l')
         end) body cg
  | WhileStmt cond body =>
      let '(entry, cg1) := MakeLabel cg in
      let '(exit, cg2) := MakeLabel cg1 in
      after (EmitLabel entry cg2) (λ cg3,
        LowerExpr_refs scope cond cg3 ++
        after (LowerExpr fn_ptr scope cond cg3) (λ cg4,
          EmitJumpFalse_refs exit cg4 ++
          after (EmitJumpFalse exit cg4) (λ cg5,
            LowerStmt_refs scope body cg5 ++
            after (LowerStmt fn_ptr scope body cg5) (λ cg6,
              EmitJump_refs entry cg6))))
  | ExprStmt expr => LowerExpr_refs scope expr cg
  | ReturnStmt expr => LowerExpr_refs scope expr cg
  end.

(** The statement loop of [LowerBlockStmt], named. *)
Fixpoint LowerStmts_refs (scope : Scope) (body : list Stmt) (cg : Codegen)
  : list (nat * Z) :=
  match body with
  | [] => []
  | s :: l' =>
      LowerStmt_refs scope s cg ++
      after (LowerStmt fn_ptr scope s cg) (LowerStmts_refs scope l')
  end.

Definition LowerFuncDecl_refs (scope : Scope) (decl : FuncDecl) (cg : Codegen)
  : list (nat * Z) :=
  match funcs_ cg !! func_name decl with
  | Some label =>
      after (EmitLabel label cg) (λ cg1,
        LowerStmt_refs (FuncScope scope (func_arg_map (func_args decl)))
          (BlockStmt (func_body decl)) (set_func (Some decl) cg1))
  | None => []
  end.

Fixpoint lower_top_stmts_refs (global : Scope) (mod_ : Module_) (cg : Codegen)
  : list (nat * Z) :=
  match mod_ with
  | [] => []
  | TopStmt s :: rest =>
      LowerStmt_refs global s cg ++
      after (LowerStmt fn_ptr global s cg) (lower_top_stmts_refs global rest)
  | _ :: rest => lower_top_stmts_refs global rest cg
  end.

Fixpoint lower_top_funcs_refs (global : Scope) (mod_ : Module_) (cg : Codegen)
  : list (nat * Z) :=
  match mod_ with
  | [] => []
  | TopFunc f :: rest =>
      LowerFuncDecl_refs global f cg ++
      after (LowerFuncDecl fn_ptr global f cg) (lower_top_funcs_refs global rest)
  | _ :: rest => lower_top_funcs_refs global rest cg
  end.

(** The references [Codegen().Translate(mod)] emits. *)
Definition Translate_refs (mod_ : Module_) : list (nat * Z) :=
  match collect_decls mod_ ∅ Codegen_new with
  | Some (protos, cg1) =>
      let global := GlobalScope (funcs_ cg1) protos in
      lower_top_stmts_refs global mod_ cg1 ++
      after (lower_top_stmts fn_ptr global mod_ cg1) (λ cg2,
        lower_top_funcs_refs global mod_ (EmitOpcode STOP cg2))
  | None => []
  end.

End References.

(** The addresses recorded for the labels are offsets of the container
    that fit 32 bits. *)
Definition addr_ok (cg : Codegen) : Prop :=
  ∀ l a, labelToAddress_ cg !! l = Some a →
    0 ≤ a ≤ Z.of_nat (length (code_ cg)) ∧ a < 2 ^ 32.

(** The state of a reference [r] in the generator [cg]: its operand lies in
    the container behind the opcode of a PUSH_FUNC, a JUMP_FALSE or a JUMP,
    and either it is recorded in the fixup table for its label, or it was
    emitted as the address recorded for its label and no entry of the table
    reaches into it. *)
Definition referenced (cg : Codegen) (r : nat * Z) : Prop :=
  (0 < r.1)%nat ∧ (r.1 + 8 ≤ length (code_ cg))%nat ∧
  (∃ op, op ∈ [PUSH_FUNC; JUMP_FALSE; JUMP] ∧
     code_ cg !! (r.1 - 1)%nat = Some (Opcode_byte op)) ∧
  settled cg (r.1 - 1) ∧
  (r.1 ∈ fixup_locs cg r.2 ∨
   ∃ a, labelToAddress_ cg !! r.2 = Some a ∧
     take 8 (drop r.1 (code_ cg)) = le_bytes 8 a ∧
     ∀ p, (r.1 ≤ p < r.1 + 8)%nat → settled cg p).

(** A run of the generator from [cg] to [cg'] that has emitted the
    references [refs]. *)
Record advance (cg cg' : Codegen) (refs : list (nat * Z)) : Prop :=
  mk_advance {
  adv_wf : fixups_wf cg';
  adv_addr : addr_ok cg';
  adv_frame : frame cg cg';
  adv_extends : extends cg cg';
  adv_refs : ∀ r, r ∈ refs → referenced cg' r
}.

(** * The front end *)

(** The lexer ([lexer.h], [lexer.cpp]) and the recursive descent parser
    ([parser.h], [parser.cpp]).

    Conventions of the model
    - a character is an [ascii]; [char] is signed, and [int] has 32 bits;
    - [std::ifstream is_] is the list of the characters still to be read
      and its [eofbit]: [eof()] is true only once a read has hit the end,
      and [get(c)] at the end leaves [c] as it is;
    - the [<cctype>] classifiers are those of the "C" locale (the program
      never calls [setlocale]); their argument, a [char] converted to
      [int], must be representable as [unsigned char] or be [EOF], else the
      behaviour is undefined;
    - a [throw] of the lexer or of the parser, a failed [assert] and
      undefined behaviour end the front end with a [Stop]. *)

(** ** lexer.h: locations and tokens *)

Record Location := mkLocation {
  Name : string;
  Line : Z;
  Column : Z
}.

Module Token.

Inductive Kind :=
| FUNC | RETURN | WHILE
| LPAREN | RPAREN | LBRACE | RBRACE | COLON | SEMI | EQUAL | COMMA | PLUS
| INT | STRING | IDENT | END.

Global Instance Kind_eq_dec : EqDecision Kind.
Proof. solve_decision. Defined.

End Token.

(** [class Token]: the payload of the union is a string for the kinds
    STRING and IDENT; no constructor writes the integer payload. *)
Record Token := mkToken {
  loc_ : Location;
  kind_ : Token.Kind;
  value_ : option string
}.

(** The characters that have no printable notation. *)
Definition NUL : ascii := "000"%char.
Definition QUOTE : ascii := "034"%char.

(** [operator<<(std::ostream &, const Token::Kind)] *)
Definition print_Kind (kind : Token.Kind) : string :=
  match kind with
  | Token.FUNC => "func"
  | Token.RETURN => "return"
  | Token.WHILE => "while"
  | Token.LPAREN => "("
  | Token.RPAREN => ")"
  | Token.LBRACE => "{"
  | Token.RBRACE => "}"
  | Token.COLON => ":"
  | Token.SEMI => ";"
  | Token.EQUAL => "="
  | Token.COMMA => ","
  | Token.PLUS => "+"
  | Token.END => "END"
  | Token.INT => "INT"
  | Token.STRING => "STRING"
  | Token.IDENT => "IDENT"
  end.

(** [Token::Print], for the tokens the lexer makes (the integer payload of
    an INT token is never written, its print is left out). *)
Definition print_Token (tk : Token) : string :=
  print_Kind (kind_ tk) +:+
  match kind_ tk, value_ tk with
  | Token.STRING, Some s => "(" +:+ String QUOTE (s +:+ String QUOTE ")")
  | Token.IDENT, Some s => "(" +:+ s +:+ ")"
  | _, _ => ""
  end.

(** ** lexer.h: the state of the lexer *)

Record ifstream := mk_ifstream {
  unread : list ascii;
  eofbit : bool
}.

Record Lexer := mkLexer {
  name_ : string;
  lineNo_ : Z;            (* int *)
  charNo_ : Z;            (* int *)
  chr_ : ascii;
  is_ : ifstream;
  tk_ : Token
}.

Definition set_chr (c : ascii) (lx : Lexer) : Lexer :=
  {| name_ := name_ lx; lineNo_ := lineNo_ lx; charNo_ := charNo_ lx;
     chr_ := c; is_ := is_ lx; tk_ := tk_ lx |}.

Definition set_pos (line col : Z) (lx : Lexer) : Lexer :=
  {| name_ := name_ lx; lineNo_ := line; charNo_ := col;
     chr_ := chr_ lx; is_ := is_ lx; tk_ := tk_ lx |}.

Definition set_is (s : ifstream) (lx : Lexer) : Lexer :=
  {| name_ := name_ lx; lineNo_ := lineNo_ lx; charNo_ := charNo_ lx;
     chr_ := chr_ lx; is_ := s; tk_ := tk_ lx |}.

Definition set_tk (tk : Token) (lx : Lexer) : Lexer :=
  {| name_ := name_ lx; lineNo_ := lineNo_ lx; charNo_ := charNo_ lx;
     chr_ := chr_ lx; is_ := is_ lx; tk_ := tk |}.

(** How the front end is left other than by a result. *)
Inductive Stop :=
| LexerError (loc : Location) (msg : string)
| ParserError (loc : Location) (msg : string)
| Assertion (msg : string)
| UB (msg : string)
| Fuel.                     (* the model ran out of fuel *)

Definition Front (A : Type) : Type := Lexer → Stop + (A * Lexer).

Global Instance Front_ret : MRet Front := λ A a lx, inr (a, lx).
Global Instance Front_bind : MBind Front := λ A B f m lx,
  match m lx with
  | inl e => inl e
  | inr (a, lx') => f a lx'
  end.

Definition stop {A} (e : Stop) : Front A := λ _, inl e.

(** [Lexer::GetLocation] *)
Definition GetLocation : Front Location := λ lx,
  inr ({| Name := name_ lx; Line := lineNo_ lx; Column := charNo_ lx |}, lx).

Definition get_chr : Front ascii := λ lx, inr (chr_ lx, lx).

(** [tk_ = t], the value of the assignment being the token. *)
Definition assign_tk (t : Token) : Front Token := λ lx, inr (t, set_tk t lx).

(** [Lexer::Error] *)
Definition Lexer_Error {A} (msg : string) : Front A :=
  loc ← GetLocation; stop (LexerError loc msg).

(** ** The character classes of the "C" locale *)

Definition char_code (c : ascii) : Z := Z.of_N (N_of_ascii c).
Definition INT_MAX : Z := 2 ^ 31 - 1.

(** The values of a [char] that may be passed to a classifier: those
    representable as [unsigned char], and -1, which is [EOF]. *)
Definition ctype_defined (c : ascii) : bool :=
  bool_decide (char_code c < 128 ∨ char_code c = 255).

Definition ctype (test : Z → bool) (c : ascii) : Front bool :=
  if ctype_defined c then mret (test (char_code c))
  else stop (UB "character classification of a negative char").

Definition isspace : ascii → Front bool :=
  ctype (λ n, bool_decide (n = 32 ∨ 9 ≤ n ≤ 13)).
Definition isalpha : ascii → Front bool :=
  ctype (λ n, bool_decide (65 ≤ n ≤ 90 ∨ 97 ≤ n ≤ 122)).
Definition isdigit : ascii → Front bool :=
  ctype (λ n, bool_decide (48 ≤ n ≤ 57)).

(** [IsIdentStart], [IsIdentLetter]: the right operand of [||] is only
    evaluated when the left one is false. *)
Definition IsIdentStart (chr : ascii) : Front bool :=
  if decide (chr = "_"%char) then mret true else isalpha chr.

Definition IsIdentLetter (chr : ascii) : Front bool :=
  b ← IsIdentStart chr; if b : bool then mret true else isdigit chr.

(** ** lexer.cpp: characters *)

(** [is_.get(chr_)] *)
Definition is_get (lx : Lexer) : Lexer :=
  match unread (is_ lx) with
  | c :: cs => set_chr c (set_is {| unread := cs; eofbit := false |} lx)
  | [] => set_is {| unread := []; eofbit := true |} lx
  end.

(** [Lexer::NextChar]; the increment of an [int] must not overflow. *)
Definition NextChar : Front unit := λ lx,
  if eofbit (is_ lx) then inr (tt, set_chr NUL lx)
  else if decide (chr_ lx = "010"%char) then
    if decide (lineNo_ lx < INT_MAX)
    then inr (tt, is_get (set_pos (lineNo_ lx + 1) 1 lx))
    else inl (UB "signed integer overflow")
  else
    if decide (charNo_ lx < INT_MAX)
    then inr (tt, is_get (set_pos (lineNo_ lx) (charNo_ lx + 1) lx))
    else inl (UB "signed integer overflow").

(** ** lexer.cpp: tokens *)

(** [while (isspace(chr_)) { NextChar(); }] *)
Fixpoint skip_space (fuel : nat) : Front unit :=
  match fuel with
  | O => stop Fuel
  | S fuel' =>
      c ← get_chr;
      b ← isspace c;
      if b : bool then NextChar;; skip_space fuel' else mret tt
  end.

(** The loop of the string literal, up to the closing quote:
    [while (chr_ != QUOTE) { word.push_back(chr_); NextChar();
                             if (chr_ == NUL) Error(...); }] *)
Fixpoint read_string (fuel : nat) (word : string) : Front string :=
  match fuel with
  | O => stop Fuel
  | S fuel' =>
      c ← get_chr;
      if decide (c = QUOTE) then mret word
      else
        NextChar;;
        c' ← get_chr;
        if decide (c' = NUL) then Lexer_Error "string not terminated"
        else read_string fuel' (word +:+ String c "")
  end.

(** The loop of a word:
    [do { word.push_back(chr_); NextChar(); } while (IsIdentLetter(chr_));] *)
Fixpoint read_word (fuel : nat) (word : string) : Front string :=
  match fuel with
  | O => stop Fuel
  | S fuel' =>
      c ← get_chr;
      NextChar;;
      c' ← get_chr;
      b ← IsIdentLetter c';
      if b : bool then read_word fuel' (word +:+ String c "")
      else mret (word +:+ String c "")
  end.

(** The tokens without payload, by their character. *)
Definition symbol_kind (c : ascii) : option Token.Kind :=
  if decide (c = "("%char) then Some Token.LPAREN
  else if decide (c = ")"%char) then Some Token.RPAREN
  else if decide (c = "{"%char) then Some Token.LBRACE
  else if decide (c = "}"%char) then Some Token.RBRACE
  else if decide (c = ":"%char) then Some Token.COLON
  else if decide (c = ";"%char) then Some Token.SEMI
  else if decide (c = "="%char) then Some Token.EQUAL
  else if decide (c = "+"%char) then Some Token.PLUS
  else if decide (c = ","%char) then Some Token.COMMA
  else None.

Definition word_kind (word : string) : Token.Kind :=
  if decide (word = "func") then Token.FUNC
  else if decide (word = "return") then Token.RETURN
  else if decide (word = "while") then Token.WHILE
  else Token.IDENT.

(** [Lexer::Next]. Each of its loops calls [NextChar] in every turn, so
    that the number of unread characters bounds the turns. *)
Definition Next : Front Token := λ lx,
  let fuel := (3 + length (unread (is_ lx)))%nat in
  (skip_space fuel;;
   loc ← GetLocation;
   c ← get_chr;
   if decide (c = NUL) then assign_tk (mkToken loc Token.END None)
   else
     match symbol_kind c with
     | Some kind => NextChar;; assign_tk (mkToken loc kind None)
     | None =>
         if decide (c = QUOTE) then
           NextChar;;
           word ← read_string fuel "";
           NextChar;;
           assign_tk (mkToken loc Token.STRING (Some word))
         else
           b ← IsIdentStart c;
           if b : bool then
             word ← read_word fuel "";
             match word_kind word with
             | Token.IDENT => assign_tk (mkToken loc Token.IDENT (Some word))
             | kind => assign_tk (mkToken loc kind None)
             end
           else
             Lexer_Error ("unknown character '" +:+ String c "'")
     end) lx.

(** [Lexer::Lexer(name)], for a file that is opened and holds [file]. The
    token [tk_] is default-constructed: END, with a location that is never
    read, since [Next] assigns [tk_] before the constructor returns. *)
Definition Lexer_open (name : string) (file : list ascii) : Lexer :=
  {| name_ := name; lineNo_ := 1; charNo_ := 1; chr_ := NUL;
     is_ := {| unread := file; eofbit := false |};
     tk_ := mkToken (mkLocation "" 0 0) Token.END None |}.

Definition Lexer_new (name : string) (file : list ascii) : Stop + Lexer :=
  match (NextChar;; Next) (Lexer_open name file) with
  | inl e => inl e
  | inr (_, lx) => inr lx
  end.

(** [Lexer::GetToken] *)
Definition GetToken : Front Token := λ lx, inr (tk_ lx, lx).

(** ** parser.cpp: the parser *)

(** [Parser::Current] *)
Definition Current : Front Token := GetToken.

(** [Parser::Error] *)
Definition Parser_Error {A} (loc : Location) (msg : string) : Front A :=
  stop (ParserError loc msg).

(** [Parser::Check] *)
Definition Check (kind : Token.Kind) : Front Token :=
  tk ← Current;
  if decide (kind ≠ kind_ tk)
  then Parser_Error (loc_ tk)
         ("unexpected " +:+ print_Token tk +:+ ", expecting " +:+ print_Kind kind)
  else mret tk.

(** [Parser::Expect] *)
Definition Expect (kind : Token.Kind) : Front Token :=
  Next;; Check kind.

(** [Token::GetIdent] and [Token::GetString], with their assertion. *)
Definition GetIdent (tk : Token) : Front string :=
  if decide (kind_ tk = Token.IDENT)
  then mret (default "" (value_ tk))
  else stop (Assertion "not an identifier").

Definition GetString (tk : Token) : Front string :=
  if decide (kind_ tk = Token.STRING)
  then mret (default "" (value_ tk))
  else stop (Assertion "not an identifier").

(** [Parser::ParseTermExpr] *)
Definition ParseTermExpr : Front Expr :=
  tk ← Current;
  match kind_ tk with
  | Token.IDENT => ident ← GetIdent tk; Next;; mret (RefExpr ident)
  | _ =>
      Parser_Error (loc_ tk)
        ("unexpected " +:+ print_Token tk +:+ ", expecting term")
  end.

(** The expression parser. [ParseExpr] is [ParseAddSubExpr]; the loops of
    [ParseCallExpr] and [ParseAddSubExpr] are functions of their own, and
    every call takes one unit of fuel. *)
Fixpoint ParseAddSubExpr (fuel : nat) : Front Expr :=
  match fuel with
  | O => stop Fuel
  | S fuel' => term ← ParseCallExpr fuel'; add_loop fuel' term
  end
(** [while (Current().Is(PLUS)) { Next(); rhs = ParseCallExpr();
                                  term = BinaryExpr(ADD, term, rhs); }] *)
with add_loop (fuel : nat) (term : Expr) : Front Expr :=
  match fuel with
  | O => stop Fuel
  | S fuel' =>
      tk ← Current;
      if decide (kind_ tk = Token.PLUS) then
        Next;;
        rhs ← ParseCallExpr fuel';
        add_loop fuel' (BinaryExpr ADD_KIND term rhs)
      else mret term
  end
with ParseCallExpr (fuel : nat) : Front Expr :=
  match fuel with
  | O => stop Fuel
  | S fuel' => callee ← ParseTermExpr; call_loop fuel' callee
  end
(** [while (Current().Is(LPAREN)) { args; Check(RPAREN); Next();
                                    callee = CallExpr(callee, args); }] *)
with call_loop (fuel : nat) (callee : Expr) : Front Expr :=
  match fuel with
  | O => stop Fuel
  | S fuel' =>
      tk ← Current;
      if decide (kind_ tk = Token.LPAREN) then
        args ← args_loop fuel' [];
        Check Token.RPAREN;;
        Next;;
        call_loop fuel' (CallExpr callee args)
      else mret callee
  end
(** [while (!Next().Is(RPAREN)) { args.push_back(ParseExpr());
                                  if (!Current().Is(COMMA)) break; }] *)
with args_loop (fuel : nat) (args : list Expr) : Front (list Expr) :=
  match fuel with
  | O => stop Fuel
  | S fuel' =>
      tk ← Next;
      if decide (kind_ tk = Token.RPAREN) then mret args
      else
        e ← ParseAddSubExpr fuel';
        tk' ← Current;
        if decide (kind_ tk' = Token.COMMA) then args_loop fuel' (args ++ [e])
        else mret (args ++ [e])
  end.

(** [Parser::ParseExpr] *)
Definition ParseExpr (fuel : nat) : Front Expr := ParseAddSubExpr fuel.

(** [Parser::ParseReturnStmt] *)
Definition ParseReturnStmt (fuel : nat) : Front Stmt :=
  Check Token.RETURN;;
  Next;;
  expr ← ParseExpr fuel;
  mret (ReturnStmt expr).

(** The statement parser; [ParseBlockStmt] gives the statements of the
    block. *)
Fixpoint ParseStmt (fuel : nat) : Front Stmt :=
  match fuel with
  | O => stop Fuel
  | S fuel' =>
      tk ← Current;
      match kind_ tk with
      | Token.RETURN => ParseReturnStmt fuel'
      | Token.WHILE => ParseWhileStmt fuel'
      | Token.LBRACE => body ← ParseBlockStmt fuel'; mret (BlockStmt body)
      | _ => e ← ParseExpr fuel'; mret (ExprStmt e)
      end
  end
with ParseBlockStmt (fuel : nat) : Front (list Stmt) :=
  match fuel with
  | O => stop Fuel
  | S fuel' =>
      Check Token.LBRACE;;
      body ← block_loop fuel' [];
      Check Token.RBRACE;;
      Next;;
      mret body
  end
(** [while (!Next().Is(RBRACE)) { body.push_back(ParseStmt());
                                  if (!Current().Is(SEMI)) break; }] *)
with block_loop (fuel : nat) (body : list Stmt) : Front (list Stmt) :=
  match fuel with
  | O => stop Fuel
  | S fuel' =>
      tk ← Next;
      if decide (kind_ tk = Token.RBRACE) then mret body
      else
        s ← ParseStmt fuel';
        tk' ← Current;
        if decide (kind_ tk' = Token.SEMI) then block_loop fuel' (body ++ [s])
        else mret (body ++ [s])
  end
with ParseWhileStmt (fuel : nat) : Front Stmt :=
  match fuel with
  | O => stop Fuel
  | S fuel' =>
      Check Token.WHILE;;
      Expect Token.LPAREN;;
      Next;;
      cond ← ParseExpr fuel';
      Check Token.RPAREN;;
      Next;;
      stmt ← ParseStmt fuel';
      mret (WhileStmt cond stmt)
  end.

(** The parameter loop of [ParseModule]:
    [while (!Next().Is(RPAREN)) { arg = Current().GetIdent(); Expect(COLON);
       type = Expect(IDENT).GetIdent(); args.emplace_back(arg, type);
       if (!Next().Is(COMMA)) break; }] *)
Fixpoint params_loop (fuel : nat) (args : ArgList) : Front ArgList :=
  match fuel with
  | O => stop Fuel
  | S fuel' =>
      tk ← Next;
      if decide (kind_ tk = Token.RPAREN) then mret args
      else
        tka ← Current;
        arg ← GetIdent tka;
        Expect Token.COLON;;
        tkt ← Expect Token.IDENT;
        type ← GetIdent tkt;
        tk' ← Next;
        if decide (kind_ tk' = Token.COMMA)
        then params_loop fuel' (args ++ [(arg, type)])
        else mret (args ++ [(arg, type)])
  end.

(** The loop of [ParseModule]: [while (auto tk = Current()) { ... }], a
    token being true when it is not END. *)
Fixpoint module_loop (fuel : nat) (body : Module_) : Front Module_ :=
  match fuel with
  | O => stop Fuel
  | S fuel' =>
      tk ← Current;
      if decide (kind_ tk = Token.END) then mret body
      else if decide (kind_ tk = Token.FUNC) then
        tkn ← Expect Token.IDENT;
        name ← GetIdent tkn;
        Expect Token.LPAREN;;
        args ← params_loop fuel' [];
        Check Token.RPAREN;;
        Expect Token.COLON;;
        tkt ← Expect Token.IDENT;
        type ← GetIdent tkt;
        tk' ← Next;
        if decide (kind_ tk' = Token.EQUAL) then
          tkp ← Expect Token.STRING;
          primitive ← GetString tkp;
          Next;;
          module_loop fuel'
            (body ++ [TopProto (mkProtoDecl name args type primitive)])
        else
          block ← ParseBlockStmt fuel';
          module_loop fuel' (body ++ [TopFunc (mkFuncDecl name args type block)])
      else
        s ← ParseStmt fuel';
        module_loop fuel' (body ++ [TopStmt s])
  end.

(** [Parser::ParseModule] *)
Definition ParseModule (fuel : nat) : Front Module_ := module_loop fuel [].

(** [Parser(lexer).ParseModule()] on a file that holds [file]. *)
Definition parse_file (fuel : nat) (name : string) (file : list ascii)
  : Stop + Module_ :=
  match Lexer_new name file with
  | inl e => inl e
  | inr lx =>
      match ParseModule fuel lx with
      | inl e => inl e
      | inr (mod_, _) => inr mod_
      end
  end.

(** ** Notions used by the properties of the front end *)

(** [n] calls of [NextChar] in a row. *)
Fixpoint NextChars (n : nat) : Front unit :=
  match n with
  | O => mret tt
  | S n' => NextChar;; NextChars n'
  end.

(** What the stream still holds: the unread characters and the end of the
    file, as long as no read has hit it. *)
Definition unread_size (lx : Lexer) : nat :=
  (length (unread (is_ lx)) + (if eofbit (is_ lx) then 0 else 1))%nat.

(** What is left to be lexed: the stream and the current character. *)
Definition lexer_size (lx : Lexer) : nat :=
  (unread_size lx + (if decide (chr_ lx = NUL) then 0 else 1))%nat.

(** The keywords. *)
Definition keywords : list string := ["func"; "return"; "while"].

(** A token as [Next] makes them: the payload is there for the kinds STRING
    and IDENT only, an identifier is a non-empty word that is no keyword,
    and the kind is never INT. *)
Definition token_wf (tk : Token) : Prop :=
  kind_ tk ≠ Token.INT ∧
  match kind_ tk with
  | Token.IDENT => ∃ w, value_ tk = Some w ∧ w ≠ "" ∧ w ∉ keywords
  | Token.STRING => is_Some (value_ tk)
  | _ => value_ tk = None
  end.

(** The shapes of the syntax tree the parser builds: the callee of a call
    is a name or a call, and the right operand of an addition is no
    addition (additions associate to the left). *)
Definition is_binary (e : Expr) : bool :=
  match e with
  | BinaryExpr _ _ _ => true
  | _ => false
  end.

Fixpoint parsed_shape (e : Expr) : bool :=
  match e with
  | RefExpr _ => true
  | BinaryExpr _ lhs rhs =>
      parsed_shape lhs && parsed_shape rhs && negb (is_binary rhs)
  | CallExpr callee args =>
      parsed_shape callee && negb (is_binary callee) &&
      (fix go (l : list Expr) : bool :=
         match l with
         | [] => true
         | a :: l' => parsed_shape a && go l'
         end) args
  end.

(** Every expression of the module satisfies [ok]. *)
Definition top_all (ok : Expr → bool) (t : TopLevelStmt) : bool :=
  match t with
  | TopFunc f => stmts_all ok (func_body f)
  | TopProto _ => true
  | TopStmt s => stmt_all ok s
  end.

Definition module_all (ok : Expr → bool) (mod_ : Module_) : bool :=
  forallb (top_all ok) mod_.

(** What is left to be parsed: what is left to be lexed, and the current
    token unless it is END. *)
Definition parser_size (lx : Lexer) : nat :=
  (2 * lexer_size lx +
   (if decide (kind_ (tk_ lx) = Token.END) then 0 else 1))%nat.

(** The fuel that is enough for the parser in the state [lx]. *)
Definition parser_fuel (lx : Lexer) : nat := (3 * parser_size lx + 4)%nat.

(** An outcome other than the lack of fuel. *)
Definition is_fuel (e : Stop) : bool :=
  match e with
  | Fuel => true
  | _ => false
  end.

Definition ends {A} (r : Stop + A) : Prop :=
  match r with
  | inl e => is_fuel e = false
  | inr _ => True
  end.

(** An action of the parser that ends, and that leaves less to be parsed
    ([strict]) or no more than there was. *)
Definition consumes {A} (strict : bool) (lx : Lexer) (r : Stop + A * Lexer)
  : Prop :=
  match r with
  | inl e => is_fuel e = false
  | inr (_, lx') =>
      if strict then (parser_size lx' < parser_size lx)%nat
      else (parser_size lx' ≤ parser_size lx)%nat
  end.

(** What the lexer does to its state between two tokens: the file name and
    the current token are kept, and nothing is put back. *)
Definition lexes (lx lx' : Lexer) : Prop :=
  name_ lx' = name_ lx ∧ tk_ lx' = tk_ lx ∧
  (unread_size lx' ≤ unread_size lx)%nat ∧
  (lexer_size lx' ≤ lexer_size lx)%nat.

(** The stops of the lexer: undefined behaviour and its own error, never
    the lack of fuel. *)
Definition lexer_stop (e : Stop) : Prop :=
  (∃ m, e = UB m) ∨ (∃ loc m, e = LexerError loc m).

(** * Properties *)

(** ** The encoding *)

Lemma length_le_bytes n v : length (le_bytes n v) = n.
Proof. revert v. induction n as [|n IH]; intros v; simpl; [done|]. by rewrite IH. Qed.

Lemma le_value_le_bytes n v : le_value (le_bytes n v) = v mod 256 ^ Z.of_nat n.
Proof.
  revert v. induction n as [|n IH]; intros v.
  - simpl. by rewrite Z.mod_1_r.
  - rewrite Nat2Z.inj_succ, Z.pow_succ_r by lia.
    cbn [le_bytes le_value]. rewrite IH.
    rewrite Z.rem_mul_r by lia. reflexivity.
Qed.

Lemma le_value_le_bytes_4 v : le_value (le_bytes 4 v) = wrap32 v.
Proof. by rewrite le_value_le_bytes. Qed.

Lemma le_value_le_bytes_8 v : le_value (le_bytes 8 v) = wrap64 v.
Proof. by rewrite le_value_le_bytes. Qed.

Lemma le_value_app bs1 bs2 :
  le_value (bs1 ++ bs2) = le_value bs1 + 256 ^ Z.of_nat (length bs1) * le_value bs2.
Proof.
  induction bs1 as [|b bs1 IH]; [simpl; lia|].
  cbn [app le_value length]. rewrite IH, Nat2Z.inj_succ, Z.pow_succ_r by lia. ring.
Qed.

Lemma wrap32_small z : 0 ≤ z < 2 ^ 32 → wrap32 z = z.
Proof. intros. unfold wrap32. by rewrite Z.mod_small. Qed.

Lemma wrap64_small z : 0 ≤ z < 2 ^ 64 → wrap64 z = z.
Proof. intros. unfold wrap64. by rewrite Z.mod_small. Qed.

Lemma wrap32_range z : 0 ≤ wrap32 z < 2 ^ 32.
Proof. unfold wrap32. apply Z.mod_pos_bound. lia. Qed.

Lemma wrap32_le z : 0 ≤ z → wrap32 z ≤ z.
Proof. intros. unfold wrap32. apply Z.mod_le; lia. Qed.

Lemma Opcode_of_byte_byte op : Opcode_of_byte (Opcode_byte op) = Some op.
Proof. by destruct op. Qed.

(** ** Reading the container *)

Lemma code_at_length code pc bs :
  code_at code pc bs → pc + Z.of_nat (length bs) ≤ Z.of_nat (length code).
Proof. by intros (_ & Hlen & _). Qed.

Lemma code_at_app code pc bs1 bs2 :
  code_at code pc (bs1 ++ bs2) →
  code_at code pc bs1 ∧ code_at code (pc + Z.of_nat (length bs1)) bs2.
Proof.
  intros (Hpc & Hlen & Hbs). rewrite length_app in Hlen.
  split; (split; [lia|split; [lia|]]).
  - apply (f_equal (take (length bs1))) in Hbs.
    rewrite take_take, length_app, take_app_length in Hbs.
    by replace (length bs1 `min` (length bs1 + length bs2))%nat
      with (length bs1) in Hbs by lia.
  - apply (f_equal (drop (length bs1))) in Hbs.
    rewrite drop_app_length, length_app in Hbs.
    rewrite <- take_drop_commute, drop_drop in Hbs.
    by replace (Z.to_nat (pc + Z.of_nat (length bs1)))
      with (Z.to_nat pc + length bs1)%nat by lia.
Qed.

Lemma Read_at n code st bs :
  Z.of_nat (length code) < 2 ^ 64 →
  code_at code (pc_ st) bs → length bs = n →
  Read n code st = inr (le_value bs, set_pc (pc_ st + Z.of_nat n) st).
Proof.
  intros Hsz Hat Hn. pose proof (code_at_length _ _ _ Hat) as Hlen.
  destruct Hat as (Hpc & _ & Hbs). unfold Read. rewrite Hn in *.
  rewrite wrap64_small by lia.
  rewrite !decide_True by lia. by rewrite Hbs.
Qed.

Lemma bind_inr {A B} (m : VM A) (f : A → VM B) st a st' :
  m st = inr (a, st') → (m ≫= f) st = f a st'.
Proof. intros H. unfold mbind, VM_bind. by rewrite H. Qed.

Lemma bind_inl {A B} (m : VM A) (f : A → VM B) st e :
  m st = inl e → (m ≫= f) st = inl e.
Proof. intros H. unfold mbind, VM_bind. by rewrite H. Qed.

Lemma le_value_singleton b : le_value [b] = b.
Proof. simpl. lia. Qed.

Section InterpreterFacts.

Variable fn_ptr : RuntimeFn → Z.
Variable code : list Z.
Hypothesis code_size : Z.of_nat (length code) < 2 ^ 64.

(** Fetching the opcode at [pc_]. *)
Lemma Step_fetch st op rest :
  code_at code (pc_ st) (Opcode_byte op :: rest) →
  Step fn_ptr code st = dispatch fn_ptr code (Some op) (set_pc (pc_ st + 1) st) ∧
  code_at code (pc_ st + 1) rest.
Proof.
  intros Hat. apply (code_at_app _ _ [_]) in Hat as [Hop Hrest]. split; [|done].
  unfold Step. erewrite bind_inr; [|by apply Read_at].
  by rewrite le_value_singleton, Opcode_of_byte_byte.
Qed.

Lemma Run_fault fuel st f st' :
  Step fn_ptr code st = inl (f, st') → Run fn_ptr (S fuel) code st = Faulted f st'.
Proof. intros H. simpl. by rewrite H. Qed.

Lemma Run_continue fuel st st' :
  Step fn_ptr code st = inr (Continue, st') →
  Run fn_ptr (S fuel) code st = Run fn_ptr fuel code st'.
Proof. intros H. simpl. by rewrite H. Qed.

Lemma Run_add n m st :
  Run fn_ptr (n + m) code st =
    match Run fn_ptr n code st with
    | OutOfFuel st' => Run fn_ptr m code st'
    | r => r
    end.
Proof.
  revert st. induction n as [|n IH]; intros st; [done|].
  cbn [Nat.add Run].
  destruct (Step fn_ptr code st) as [[f st']|[[|] st']]; [done| |done].
  apply IH.
Qed.

(** PEEK with the operand [idx] over a stack that has the slot [idx]. *)
Lemma Step_PEEK st idx v :
  0 ≤ idx < 2 ^ 32 →
  code_at code (pc_ st) (Opcode_byte PEEK :: le_bytes 4 idx) →
  stack_ st !! Z.to_nat idx = Some v →
  Step fn_ptr code st =
    inr (Continue, set_stack (v :: stack_ st) (set_pc (pc_ st + 5) st)).
Proof.
  intros Hidx Hat Hslot.
  destruct (Step_fetch st _ _ Hat) as [-> Hop].
  cbn [dispatch]. unfold do_PEEK.
  erewrite bind_inr; [|apply Read_at; [done|exact Hop|apply length_le_bytes]].
  rewrite le_value_le_bytes_4, wrap32_small by lia.
  erewrite bind_inr; [|unfold stack_at; cbn [stack_ set_pc]; by rewrite Hslot].
  destruct st as [pc stk ci co]. unfold mbind, VM_bind, Push, mret, VM_ret,
    set_pc, set_stack. cbn [pc_ stack_ cin_ cout_].
  do 3 f_equal. lia.
Qed.

(** CALL of a code address. *)
Lemma Step_CALL_addr st entry s :
  code_at code (pc_ st) [Opcode_byte CALL] →
  stack_ st = VAddr entry :: s →
  Step fn_ptr code st =
    inr (Continue, set_pc entry (set_stack (VAddr (pc_ st + 1) :: s) st)).
Proof.
  intros Hat Hstk.
  destruct (Step_fetch st _ _ Hat) as [-> _].
  cbn [dispatch]. unfold do_CALL.
  erewrite bind_inr; [|unfold Pop; cbn [stack_ set_pc]; by rewrite Hstk].
  reflexivity.
Qed.

Lemma shrink_app (temps rest : list Value) n st :
  stack_ st = temps ++ rest → Z.of_nat (length temps) = n →
  shrink n st = inr (tt, set_stack rest st).
Proof.
  intros Hst Hn. unfold shrink. rewrite Hst, length_app.
  rewrite decide_True by lia.
  replace (Z.to_nat n) with (length temps) by lia.
  by rewrite drop_app_length.
Qed.

(** RET with the operands [depth] and [nargs] over a frame with [depth]
    temporaries and [nargs] arguments. *)
Lemma Step_RET st depth nargs v (temps args base : list Value) ret :
  0 ≤ depth < 2 ^ 32 → 0 ≤ nargs < 2 ^ 32 →
  code_at code (pc_ st)
    (Opcode_byte RET :: le_bytes 4 depth ++ le_bytes 4 nargs) →
  stack_ st = v :: temps ++ VAddr ret :: args ++ base →
  Z.of_nat (length temps) = depth →
  Z.of_nat (length args) = nargs →
  Step fn_ptr code st =
    inr (Continue, set_stack (v :: base) (set_pc ret st)).
Proof.
  intros Hd Hn Hat Hstk Htemps Hargs.
  destruct (Step_fetch st _ _ Hat) as [-> Hops].
  apply code_at_app in Hops as [Hop1 Hop2]. rewrite length_le_bytes in Hop2.
  cbn [dispatch]. unfold do_RET.
  erewrite bind_inr; [|apply Read_at; [done|exact Hop1|apply length_le_bytes]].
  erewrite bind_inr;
    [|apply Read_at; [done|cbn [pc_ set_pc]; exact Hop2|apply length_le_bytes]].
  rewrite !le_value_le_bytes_4, !wrap32_small by lia.
  erewrite bind_inr; [|unfold Pop; cbn [stack_ set_pc]; by rewrite Hstk].
  erewrite bind_inr; [|by eapply shrink_app].
  unfold PopAddr.
  erewrite bind_inr; [|erewrite bind_inr; [|reflexivity]; reflexivity].
  erewrite bind_inr; [|reflexivity].
  erewrite bind_inr; [|by eapply shrink_app].
  reflexivity.
Qed.

(** ADD: the sum is pushed, or the instruction faults without output. *)
Lemma Step_ADD st rhs lhs s :
  code_at code (pc_ st) [Opcode_byte ADD] →
  stack_ st = rhs :: lhs :: s →
  (∃ f st', Step fn_ptr code st = inl (f, st') ∧ cout_ st' = cout_ st) ∨
  (∃ v, Step fn_ptr code st =
          inr (Continue, set_stack (v :: s) (set_pc (pc_ st + 1) st))).
Proof.
  intros Hat Hstk.
  destruct (Step_fetch st _ _ Hat) as [-> _].
  cbn [dispatch]. unfold do_ADD, PopInt.
  destruct st as [pc stk ci co]. cbn in Hstk. subst stk.
  destruct rhs as [p|a|n]; [left; by eexists _, _..|].
  destruct lhs as [p|a|m]; [left; by eexists _, _..|].
  unfold mbind, VM_bind, Pop, mret, VM_ret. cbn [stack_ set_pc set_stack pc_ cin_ cout_].
  case_decide.
  - right. by eexists.
  - left. by eexists _, _.
Qed.

End InterpreterFacts.

(** ** Boolean coercion and the conditional branch *)

(** C8. Boolean coercion of a value: the integer 0 is false; every other
    integer, every code address and every native identity is true. The
    instruction JUMP_FALSE pops one value of any kind, completes without a
    fault, and continues at its target exactly when the popped value coerces
    to false (otherwise behind its operand). *)
Theorem C8_boolean_coercion_and_branch :
  Value_bool (VInt 0) = false ∧
  (∀ n, n ≠ 0 → Value_bool (VInt n) = true) ∧
  (∀ a, Value_bool (VAddr a) = true) ∧
  (∀ p, Value_bool (VProto p) = true) ∧
  (∀ fn_ptr code st v s target,
     Z.of_nat (length code) < 2 ^ 64 →
     0 ≤ target < 2 ^ 64 →
     code_at code (pc_ st) (Opcode_byte JUMP_FALSE :: le_bytes 8 target) →
     stack_ st = v :: s →
     Step fn_ptr code st =
       inr (Continue,
            set_pc (if Value_bool v then pc_ st + 9 else target)
              (set_stack s st))).
Proof.
  split; [done|]. split.
  { intros n Hn. simpl. by rewrite bool_decide_true. }
  do 2 (split; [done|]).
  intros fn_ptr code st v s target Hsz Htgt Hat Hst.
  destruct (Step_fetch fn_ptr code Hsz st _ _ Hat) as [-> Hop].
  cbn [dispatch]. unfold do_JUMP_FALSE.
  erewrite bind_inr; [|unfold Pop; cbn [stack_ set_pc]; by rewrite Hst].
  erewrite bind_inr; [|apply Read_at; [done|exact Hop|apply length_le_bytes]].
  rewrite le_value_le_bytes_8, wrap64_small by done.
  destruct st as [pc stk ci co]. cbn [pc_ stack_ cin_ cout_] in *.
  destruct (Value_bool v); unfold mbind, VM_bind, mret, VM_ret, put_pc, set_pc,
    set_stack; cbn [pc_ stack_ cin_ cout_]; [|done].
  do 3 f_equal. lia.
Qed.

(** A conditional branch over the integer 0: the branch is taken. *)
Lemma C8_witness :
  Step sample_fn_ptr (Opcode_byte JUMP_FALSE :: le_bytes 8 9 ++ [Opcode_byte STOP])
    (mkInterp 0 [VInt 0] [] []) =
  inr (Continue, mkInterp 9 [] [] []).
Proof.
  exact (proj2 (proj2 (proj2 (proj2 C8_boolean_coercion_and_branch)))
           sample_fn_ptr
           (Opcode_byte JUMP_FALSE :: le_bytes 8 9 ++ [Opcode_byte STOP])
           (mkInterp 0 [VInt 0] [] []) (VInt 0) [] 9
           ltac:(vm_compute; reflexivity) ltac:(lia)
           ltac:(vm_compute; repeat split; discriminate)
           ltac:(reflexivity)).
Defined.

(** ** Runtime type errors *)

(** C7. When CALL pops a plain integer the interpreter throws the
    [RuntimeError] "cannot call integer": the exception leaves [Run] at once,
    and the output at the end of [Run] is the output at the point of
    failure. *)
Theorem C7_call_integer_throws fn_ptr code st n s fuel :
  Z.of_nat (length code) < 2 ^ 64 →
  code_at code (pc_ st) [Opcode_byte CALL] →
  stack_ st = VInt n :: s →
  let st' := set_stack s (set_pc (pc_ st + 1) st) in
  Step fn_ptr code st = inl (Throw (RuntimeError "cannot call integer"), st') ∧
  Run fn_ptr (S fuel) code st =
    Faulted (Throw (RuntimeError "cannot call integer")) st' ∧
  cout_ st' = cout_ st.
Proof.
  intros Hsz Hat Hst st'.
  assert (Step fn_ptr code st =
          inl (Throw (RuntimeError "cannot call integer"), st')) as HS.
  { destruct (Step_fetch fn_ptr code Hsz st _ _ Hat) as [-> _].
    cbn [dispatch]. unfold do_CALL.
    erewrite bind_inr; [|unfold Pop; cbn [stack_ set_pc]; by rewrite Hst].
    reflexivity. }
  split; [done|]. split; [by apply Run_fault|done].
Qed.

(** The call of a plain integer after one line of output. *)
Lemma C7_witness :
  Run sample_fn_ptr 1 [Opcode_byte CALL] (mkInterp 0 [VInt 7] [] [1]) =
    Faulted (Throw (RuntimeError "cannot call integer")) (mkInterp 1 [] [] [1]).
Proof.
  exact (proj1 (proj2
    (C7_call_integer_throws sample_fn_ptr [Opcode_byte CALL]
       (mkInterp 0 [VInt 7] [] [1]) 7 [] 0
       ltac:(vm_compute; reflexivity)
       ltac:(vm_compute; repeat split; discriminate)
       ltac:(reflexivity)))).
Defined.

(** Scenario D: the call of the sum of two inputs throws before the output
    primitive is reached; nothing is printed. *)
Example scenario_D_run :
  ∃ code st,
    Translate sample_fn_ptr scenario_D = Some code ∧
    Run sample_fn_ptr 6 code (Interp_new [1; 2]) =
      Faulted (Throw (RuntimeError "cannot call integer")) st ∧
    cout_ st = [].
Proof.
  eexists _, _. split; [vm_compute; reflexivity|].
  split; [vm_compute; reflexivity|reflexivity].
Qed.

(** C6, as stated, fails: ADD over a code address does not throw a
    [RuntimeError] (the failure of CALL on an integer); the assertion of
    [PopInt] fails instead. *)
Lemma C6_counterexample :
  let code := [Opcode_byte ADD] in
  let st := mkInterp 0 [VAddr 0; VInt 1] [] [] in
  code_at code (pc_ st) [Opcode_byte ADD] ∧
  is_int (VAddr 0) = false ∧
  Step sample_fn_ptr code st =
    inl (AssertFail "v.Kind == Value::Kind::INT", mkInterp 1 [VInt 1] [] []) ∧
  ¬ (∃ msg st', Step sample_fn_ptr code st = inl (Throw (RuntimeError msg), st')).
Proof.
  cbn zeta. split; [vm_compute; repeat split; discriminate|].
  do 2 (split; [reflexivity|]).
  intros (msg & st' & H). vm_compute in H. discriminate.
Qed.

(** C6, amended. When ADD is executed and one of the two popped operands is
    not an integer, the assertion of [PopInt] fails: the instruction does not
    complete, no sum is pushed, nothing is printed, and [Run] ends with that
    failed assertion; it is not the [RuntimeError] exception thrown when an
    integer is called. *)
Theorem C6_add_non_integer_asserts fn_ptr code st rhs lhs s fuel :
  Z.of_nat (length code) < 2 ^ 64 →
  code_at code (pc_ st) [Opcode_byte ADD] →
  stack_ st = rhs :: lhs :: s →
  is_int rhs && is_int lhs = false →
  ∃ st',
    Step fn_ptr code st = inl (AssertFail "v.Kind == Value::Kind::INT", st') ∧
    Run fn_ptr (S fuel) code st =
      Faulted (AssertFail "v.Kind == Value::Kind::INT") st' ∧
    (∀ e, AssertFail "v.Kind == Value::Kind::INT" ≠ Throw e) ∧
    stack_ st' = (if is_int rhs then s else lhs :: s) ∧
    cout_ st' = cout_ st.
Proof.
  intros Hsz Hat Hst Hty.
  destruct (Step_fetch fn_ptr code Hsz st _ _ Hat) as [HS _].
  assert (∃ st', Step fn_ptr code st =
                   inl (AssertFail "v.Kind == Value::Kind::INT", st') ∧
                 stack_ st' = (if is_int rhs then s else lhs :: s) ∧
                 cout_ st' = cout_ st) as (st' & HS' & Hstk & Hout).
  { rewrite HS. cbn [dispatch]. unfold do_ADD, PopInt.
    destruct st as [pc stk ci co]. cbn in Hst. subst stk.
    destruct rhs as [p|a|n]; [by eexists..|].
    destruct lhs as [p|a|m]; [by eexists..|done]. }
  exists st'. split; [done|]. split; [by apply Run_fault|].
  split; [done|]. by split.
Qed.

(** ADD over a native identity and an integer. *)
Lemma C6_witness :
  ∃ st',
    Step sample_fn_ptr [Opcode_byte ADD] (mkInterp 0 [VInt 1; VProto 4198400] [] []) =
      inl (AssertFail "v.Kind == Value::Kind::INT", st') ∧
    Run sample_fn_ptr 1 [Opcode_byte ADD] (mkInterp 0 [VInt 1; VProto 4198400] [] []) =
      Faulted (AssertFail "v.Kind == Value::Kind::INT") st' ∧
    (∀ e, AssertFail "v.Kind == Value::Kind::INT" ≠ Throw e) ∧
    stack_ st' = [] ∧
    cout_ st' = [].
Proof.
  exact (C6_add_non_integer_asserts sample_fn_ptr [Opcode_byte ADD]
           (mkInterp 0 [VInt 1; VProto 4198400] [] []) (VInt 1) (VProto 4198400) [] 0
           ltac:(vm_compute; reflexivity)
           ltac:(vm_compute; repeat split; discriminate)
           ltac:(reflexivity) ltac:(reflexivity)).
Defined.


(** ** The calling convention *)

Lemma le_bytes_Opcode op : le_bytes 1 (Opcode_byte op) = [Opcode_byte op].
Proof. by destruct op. Qed.

Lemma EmitOpcode_code op cg :
  code_ (EmitOpcode op cg) = code_ cg ++ [Opcode_byte op].
Proof. unfold EmitOpcode, Emit. cbn [code_ set_code]. by rewrite le_bytes_Opcode. Qed.

Lemma EmitPeek_code index cg :
  code_ (EmitPeek index cg) = code_ cg ++ Opcode_byte PEEK :: le_bytes 4 index.
Proof.
  unfold EmitPeek, Emit at 1. cbn [code_ set_code].
  by rewrite EmitOpcode_code, <- app_assoc.
Qed.

Lemma EmitReturn_code cg cg' :
  EmitReturn cg = Some cg' →
  0 < depth_ cg ∧ depth_ cg' = depth_ cg - 1 ∧
  code_ cg' =
    code_ cg ++ Opcode_byte RET :: le_bytes 4 (depth_ cg - 1) ++
      le_bytes 4 (match func_ cg with Some f => arg_size f | None => 0 end).
Proof.
  unfold EmitReturn. case_decide; [|done]. intros [= <-].
  split; [done|]. split; [done|].
  unfold Emit at 1 2. cbn [code_ set_code].
  by rewrite EmitOpcode_code, <- !app_assoc.
Qed.

(** Call and return on a frame that holds what the generator counts. A
    function [f] of arity [k] is called with its [k] arguments on the stack
    above [base]: CALL replaces the callee by the resumption address and
    jumps to the entry. If, at a return emitted by [EmitReturn] inside [f],
    the frame holds the result [v] and as many temporaries as the static
    depth says above the resumption address, RET resumes behind the call
    with the stack [v :: base]. (The frame of a body that has called the
    output primitive holds one value more for each call.) *)
Lemma call_return_counted_frame
  fn_ptr (f : FuncDecl) (cg cg' : Codegen) (code : list Z)
  (st_call st_ret : Interp) (entry : Z) (args temps base : list Value)
  (v : Value) :
  Z.of_nat (length code) < 2 ^ 64 →
  func_ cg = Some f →
  EmitReturn cg = Some cg' →
  depth_ cg ≤ 2 ^ 32 →
  arg_size f < 2 ^ 32 →
  code_at code (pc_ st_call) [Opcode_byte CALL] →
  stack_ st_call = VAddr entry :: args ++ base →
  Z.of_nat (length args) = arg_size f →
  code_at code (pc_ st_ret) (drop (length (code_ cg)) (code_ cg')) →
  stack_ st_ret = v :: temps ++ VAddr (pc_ st_call + 1) :: args ++ base →
  Z.of_nat (length temps) = depth_ cg' →
  ∃ st1 st2,
    Step fn_ptr code st_call = inr (Continue, st1) ∧
    pc_ st1 = entry ∧
    stack_ st1 = VAddr (pc_ st_call + 1) :: args ++ base ∧
    Step fn_ptr code st_ret = inr (Continue, st2) ∧
    pc_ st2 = pc_ st_call + 1 ∧
    stack_ st2 = v :: base ∧
    length (stack_ st2) = S (length base).
Proof.
  intros Hsz Hf Hret Hd Hk Hcall Hstk Hargs Hat Hstk' Htemps.
  apply EmitReturn_code in Hret as (Hpos & Hd' & Hcode).
  rewrite Hcode, drop_app_length, Hf in Hat. rewrite Hd' in Htemps.
  eexists _, _.
  split; [by apply Step_CALL_addr|]. split; [done|]. split; [done|].
  split; [apply (Step_RET fn_ptr code Hsz st_ret (depth_ cg - 1) (arg_size f)
                  v temps args base (pc_ st_call + 1)); (done || lia)|].
  by repeat split.
Qed.

(** The return of the two-argument function [add], called with 2 and 3. *)
Lemma call_return_counted_frame_example :
  ∃ st1 st2,
    Step sample_fn_ptr
      (Opcode_byte CALL :: Opcode_byte RET :: le_bytes 4 0 ++ le_bytes 4 2)
      (mkInterp 0 [VAddr 1; VInt 2; VInt 3] [] []) = inr (Continue, st1) ∧
    pc_ st1 = 1 ∧
    stack_ st1 = [VAddr 1; VInt 2; VInt 3] ∧
    Step sample_fn_ptr
      (Opcode_byte CALL :: Opcode_byte RET :: le_bytes 4 0 ++ le_bytes 4 2)
      (mkInterp 1 [VInt 5; VAddr 1; VInt 2; VInt 3] [] []) = inr (Continue, st2) ∧
    pc_ st2 = 1 ∧
    stack_ st2 = [VInt 5] ∧
    length (stack_ st2) = 1%nat.
Proof.
  exact (call_return_counted_frame sample_fn_ptr
           (mkFuncDecl "add" [("a", "int"); ("b", "int")] "int"
              [ReturnStmt (BinaryExpr ADD_KIND (RefExpr "a") (RefExpr "b"))])
           (mkCodegen [Opcode_byte CALL] 1
              (Some (mkFuncDecl "add" [("a", "int"); ("b", "int")] "int"
                 [ReturnStmt (BinaryExpr ADD_KIND (RefExpr "a") (RefExpr "b"))]))
              0 ∅ ∅ ∅)
           (mkCodegen
              (Opcode_byte CALL :: Opcode_byte RET :: le_bytes 4 0 ++ le_bytes 4 2) 0
              (Some (mkFuncDecl "add" [("a", "int"); ("b", "int")] "int"
                 [ReturnStmt (BinaryExpr ADD_KIND (RefExpr "a") (RefExpr "b"))]))
              0 ∅ ∅ ∅)
           (Opcode_byte CALL :: Opcode_byte RET :: le_bytes 4 0 ++ le_bytes 4 2)
           (mkInterp 0 [VAddr 1; VInt 2; VInt 3] [] [])
           (mkInterp 1 [VInt 5; VAddr 1; VInt 2; VInt 3] [] [])
           1 [VInt 2; VInt 3] [] [] (VInt 5)
           ltac:(vm_compute; reflexivity) ltac:(reflexivity) ltac:(reflexivity)
           ltac:(vm_compute; discriminate) ltac:(vm_compute; reflexivity)
           ltac:(vm_compute; repeat split; discriminate)
           ltac:(reflexivity) ltac:(reflexivity)
           ltac:(vm_compute; repeat split; discriminate)
           ltac:(reflexivity) ltac:(reflexivity)).
Defined.

(** A reference to an argument on a frame that holds what the generator
    counts. A reference that resolves to the argument slot [i] while the
    static depth is [d] is lowered to PEEK with the operand [d + i + 1] (and
    the depth becomes [d + 1]). If the frame holds [d] temporaries above
    the resumption address, executing that PEEK leaves the stack as it is
    and pushes a copy of the slot [d + i + 1] below the top, which is the
    argument [i] of the call. (The frame of a body that has called the
    output primitive holds one value more for each call.) *)
Lemma argument_reference_counted_frame
  fn_ptr (scope : Scope) (name : string) (i : Z) (cg : Codegen)
  (code : list Z) (st : Interp) (temps args base : list Value)
  (ret : Z) (a : Value) :
  Lookup scope name = Some (ARG i) →
  0 ≤ depth_ cg → 0 ≤ i → depth_ cg + i + 1 < 2 ^ 32 →
  Z.of_nat (length code) < 2 ^ 64 →
  code_at code (pc_ st) (Opcode_byte PEEK :: le_bytes 4 (depth_ cg + i + 1)) →
  stack_ st = temps ++ VAddr ret :: args ++ base →
  Z.of_nat (length temps) = depth_ cg →
  args !! Z.to_nat i = Some a →
  ∃ cg',
    LowerExpr fn_ptr scope (RefExpr name) cg = Some cg' ∧
    code_ cg' =
      code_ cg ++ Opcode_byte PEEK :: le_bytes 4 (depth_ cg + i + 1) ∧
    depth_ cg' = depth_ cg + 1 ∧
    stack_ st !! Z.to_nat (depth_ cg + i + 1) = Some a ∧
    Step fn_ptr code st =
      inr (Continue, set_stack (a :: stack_ st) (set_pc (pc_ st + 5) st)).
Proof.
  intros Hlk Hd Hi Hsum Hsz Hat Hstk Htemps Ha.
  eexists. split.
  { cbn [LowerExpr]. unfold LowerRefExpr. rewrite Hlk. reflexivity. }
  rewrite (wrap32_small (_ + _ + 1)) by lia.
  split; [apply EmitPeek_code|].
  split; [cbn; apply wrap32_small; lia|].
  assert (stack_ st !! Z.to_nat (depth_ cg + i + 1) = Some a) as Hslot.
  { rewrite Hstk. rewrite lookup_app_r by lia.
    replace (Z.to_nat (depth_ cg + i + 1) - length temps)%nat
      with (S (Z.to_nat i)) by lia.
    cbn. by apply lookup_app_l_Some. }
  split; [done|].
  apply (Step_PEEK fn_ptr code Hsz st (depth_ cg + i + 1) a); (done || lia).
Qed.

(** The reference to the second parameter of [add(a, b)], lowered after the
    copy of [a] has been pushed, in the call [add(2, 3)]. *)
Lemma argument_reference_counted_frame_example :
  ∃ cg',
    LowerExpr sample_fn_ptr
      (FuncScope (GlobalScope ∅ ∅) (func_arg_map [("a", "int"); ("b", "int")]))
      (RefExpr "b") (mkCodegen [] 1 None 0 ∅ ∅ ∅) = Some cg' ∧
    code_ cg' = [] ++ Opcode_byte PEEK :: le_bytes 4 (1 + 1 + 1) ∧
    depth_ cg' = 1 + 1 ∧
    [VInt 2; VAddr 30; VInt 2; VInt 3] !! Z.to_nat (1 + 1 + 1) = Some (VInt 3) ∧
    Step sample_fn_ptr (Opcode_byte PEEK :: le_bytes 4 3)
      (mkInterp 0 [VInt 2; VAddr 30; VInt 2; VInt 3] [] []) =
      inr (Continue,
           mkInterp (0 + 5) [VInt 3; VInt 2; VAddr 30; VInt 2; VInt 3] [] []).
Proof.
  exact (argument_reference_counted_frame sample_fn_ptr
           (FuncScope (GlobalScope ∅ ∅) (func_arg_map [("a", "int"); ("b", "int")]))
           "b" 1 (mkCodegen [] 1 None 0 ∅ ∅ ∅)
           (Opcode_byte PEEK :: le_bytes 4 3)
           (mkInterp 0 [VInt 2; VAddr 30; VInt 2; VInt 3] [] [])
           [VInt 2] [VInt 2; VInt 3] [] 30 (VInt 3)
           ltac:(vm_compute; reflexivity) ltac:(vm_compute; discriminate)
           ltac:(lia) ltac:(vm_compute; reflexivity)
           ltac:(vm_compute; reflexivity)
           ltac:(vm_compute; repeat split; discriminate)
           ltac:(reflexivity) ltac:(reflexivity) ltac:(reflexivity)).
Defined.


(** ** Bytes of the container under appending and patching *)

Lemma take_drop_app_old (code extra : list Z) (p n : nat) :
  (p + n ≤ length code)%nat →
  take n (drop p (code ++ extra)) = take n (drop p code).
Proof.
  intros H. rewrite drop_app_le by lia.
  apply take_app_le. rewrite length_drop. lia.
Qed.

Lemma memcpy_length code loc src code' :
  memcpy code loc src = Some code' → length code' = length code.
Proof.
  unfold memcpy. case_decide; [|done]. intros [= <-].
  rewrite !length_app, length_take, length_drop. lia.
Qed.

Lemma memcpy_written code loc src code' :
  memcpy code loc src = Some code' →
  take (length src) (drop loc code') = src.
Proof.
  unfold memcpy. case_decide; [|done]. intros [= <-].
  rewrite drop_app_length' by (rewrite length_take; lia).
  apply take_app_length.
Qed.

Lemma memcpy_frame code loc src code' (p n : nat) :
  memcpy code loc src = Some code' →
  (p + n ≤ loc ∨ loc + length src ≤ p)%nat →
  take n (drop p code') = take n (drop p code).
Proof.
  unfold memcpy. case_decide as Hle; [|done]. intros [= <-] [Hlt|Hge].
  - rewrite drop_app_le by (rewrite length_take; lia).
    rewrite take_app_le by (rewrite length_drop, length_take; lia).
    rewrite !take_drop_commute, take_take. do 2 f_equal. lia.
  - rewrite app_assoc, drop_app_ge by (rewrite length_app, length_take; lia).
    rewrite length_app, length_take, drop_drop. do 2 f_equal. lia.
Qed.

Lemma patch_fixups_spec address locs code :
  (∀ loc, loc ∈ locs → (loc + 8 ≤ length code)%nat) →
  (∀ loc1 loc2, loc1 ∈ locs → loc2 ∈ locs →
     loc1 = loc2 ∨ (loc1 + 8 ≤ loc2)%nat ∨ (loc2 + 8 ≤ loc1)%nat) →
  ∃ code',
    patch_fixups address locs code = Some code' ∧
    length code' = length code ∧
    (∀ loc, loc ∈ locs → take 4 (drop loc code') = le_bytes 4 address) ∧
    (∀ p n, (∀ loc, loc ∈ locs → (p + n ≤ loc ∨ loc + 4 ≤ p)%nat) →
       take n (drop p code') = take n (drop p code)).
Proof.
  revert code. induction locs as [|loc locs IH]; intros code Hb Ha.
  { exists code. split; [done|]. split; [done|]. split; [|done].
    intros loc Hin. by apply elem_of_nil in Hin. }
  assert (∃ code1, memcpy code loc (le_bytes 4 address) = Some code1)
    as [code1 H1].
  { unfold memcpy. rewrite decide_True; [by eexists|].
    rewrite length_le_bytes. specialize (Hb loc ltac:(left)). lia. }
  pose proof (memcpy_length _ _ _ _ H1) as Hlen1.
  destruct (IH code1) as (code' & HP & Hlen & Hw & Hf).
  { intros l Hl. rewrite Hlen1. apply Hb. by right. }
  { intros l1 l2 Hl1 Hl2. apply Ha; by right. }
  exists code'. cbn [patch_fixups]. rewrite H1. cbn. split; [done|].
  split; [lia|]. split.
  - intros l Hl. destruct (decide (l ∈ locs)) as [Hin|Hnin]; [by apply Hw|].
    apply elem_of_cons in Hl as [->|Hl]; [|done].
    rewrite Hf.
    + apply (memcpy_written _ _ _ _ H1).
    + intros l' Hl'. destruct (Ha loc l' ltac:(left) ltac:(by right))
        as [->|[?|?]]; [done|lia..].
  - intros p n Hpn. rewrite Hf by (intros l Hl; apply Hpn; by right).
    apply (memcpy_frame _ _ _ _ _ _ H1). rewrite length_le_bytes.
    apply Hpn. left.
Qed.

(** ** The fixup table under emission *)

Lemma extends_refl cg : extends cg cg.
Proof. by split. Qed.

Lemma extends_trans cg1 cg2 cg3 :
  extends cg1 cg2 → extends cg2 cg3 → extends cg1 cg3.
Proof.
  intros [] []. split; [auto|auto|congruence|lia].
Qed.

Lemma no_dangling_weaken (P Q : Z → Prop) cg :
  (∀ l, P l → Q l) → no_dangling P cg → no_dangling Q cg.
Proof. intros HPQ H l loc Hin. destruct (H l loc Hin); auto. Qed.

Lemma gen_inv_weaken (P Q : Z → Prop) cg :
  (∀ l, P l → Q l) → gen_inv P cg → gen_inv Q cg.
Proof. intros HPQ [? ?]. split; [done|by eapply no_dangling_weaken]. Qed.

Lemma low4_app_old code extra loc :
  (loc + 8 ≤ length code)%nat → low4 (code ++ extra) loc = low4 code loc.
Proof. intros. unfold low4. by rewrite take_drop_app_old by lia. Qed.

Lemma high4_app_old code extra loc :
  (loc + 8 ≤ length code)%nat → high4 (code ++ extra) loc = high4 code loc.
Proof. intros. unfold high4. by rewrite take_drop_app_old by lia. Qed.

Lemma take_8_split (bs : list Z) : take 8 bs = take 4 bs ++ take 4 (drop 4 bs).
Proof. do 4 (destruct bs as [|? bs]; [done|]). done. Qed.

Lemma operand_split code loc :
  (loc + 8 ≤ length code)%nat →
  operand code loc = low4 code loc + 2 ^ 32 * high4 code loc.
Proof.
  intros H. unfold operand, low4, high4.
  rewrite take_8_split, drop_drop, le_value_app, length_take, length_drop.
  by replace (4 `min` (length code - loc))%nat with 4%nat by lia.
Qed.

(** Appending bytes (and changing the fields the table does not depend on)
    keeps the invariant. *)
Lemma gen_inv_append P cg cg' extra :
  code_ cg' = code_ cg ++ extra →
  fixups_ cg' = fixups_ cg →
  labelToAddress_ cg' = labelToAddress_ cg →
  funcs_ cg' = funcs_ cg →
  gen_inv P cg → gen_inv P cg' ∧ extends cg cg'.
Proof.
  intros Hc Hf Hl Hfs [[Hb Ha Hh Hlo Hz He] Hd].
  assert (∀ l, fixup_locs cg' l = fixup_locs cg l) as Hlocs.
  { intros l. unfold fixup_locs. by rewrite Hf. }
  assert (∀ l, placed cg' l ↔ placed cg l) as Hpl.
  { intros l. unfold placed. by rewrite Hl. }
  split; [split; [split|]|split].
  - intros l loc. rewrite Hlocs, Hc, length_app. intros ?%Hb. lia.
  - intros l1 l2 loc1 loc2. rewrite !Hlocs. apply Ha.
  - intros l loc. rewrite Hlocs, Hc. intros Hin.
    rewrite take_drop_app_old by (apply Hb in Hin; lia). eauto.
  - intros l loc. rewrite Hlocs, Hc. intros Hin.
    rewrite low4_app_old by eauto. rewrite length_app.
    specialize (Hlo l loc Hin). lia.
  - intros l loc. rewrite Hlocs, Hpl, Hc. intros Hin Hnp.
    rewrite take_drop_app_old by (apply Hb in Hin; lia). eauto.
  - intros l. rewrite Hf, Hpl. apply He.
  - intros l loc. rewrite Hlocs, Hpl. apply Hd.
  - intros l. by rewrite Hpl.
  - intros l loc. by rewrite Hlocs.
  - done.
  - rewrite Hc, length_app. lia.
Qed.

Lemma gen_inv_Emit P n t cg :
  gen_inv P cg → gen_inv P (Emit n t cg) ∧ extends cg (Emit n t cg).
Proof. by apply (gen_inv_append P cg _ (le_bytes n t)). Qed.

Lemma gen_inv_set_depth P d cg :
  gen_inv P cg → gen_inv P (set_depth d cg) ∧ extends cg (set_depth d cg).
Proof. apply (gen_inv_append P cg _ []); try done. cbn. by rewrite app_nil_r. Qed.

Lemma gen_inv_set_func P f cg :
  gen_inv P cg → gen_inv P (set_func f cg) ∧ extends cg (set_func f cg).
Proof. apply (gen_inv_append P cg _ []); try done. cbn. by rewrite app_nil_r. Qed.

Lemma gen_inv_set_nextLabel P n cg :
  gen_inv P cg → gen_inv P (set_nextLabel n cg) ∧ extends cg (set_nextLabel n cg).
Proof. apply (gen_inv_append P cg _ []); try done. cbn. by rewrite app_nil_r. Qed.

Lemma placed_emplace cg cg' l a l' :
  labelToAddress_ cg' = emplace l a (labelToAddress_ cg) →
  placed cg' l' ↔ placed cg l' ∨ l' = l.
Proof.
  unfold placed. intros ->. unfold emplace.
  destruct (labelToAddress_ cg !! l) as [a0|] eqn:Hl.
  - split; [by left|]. intros [?| ->]; [done|by rewrite Hl].
  - destruct (decide (l = l')) as [<-|Hne].
    + rewrite lookup_insert_eq. split; [by right|done].
    + rewrite lookup_insert_ne by done. split; [by left|].
      intros [?|?]; [done|congruence].
Qed.

Lemma fixup_locs_insert cg cg' l v l' :
  fixups_ cg' = <[l := v]> (fixups_ cg) →
  fixup_locs cg' l' = if decide (l = l') then v else fixup_locs cg l'.
Proof.
  intros H. unfold fixup_locs. rewrite H. case_decide as Hl.
  - subst. by rewrite lookup_insert_eq.
  - by rewrite lookup_insert_ne.
Qed.

(** A reference to a label: the address itself when the label is placed,
    else a recorded placeholder of eight zero bytes. *)
Lemma EmitFixup_placed l a cg :
  labelToAddress_ cg !! l = Some a →
  EmitFixup l cg = Emit 8 a cg.
Proof. intros H. unfold EmitFixup. by rewrite H. Qed.

Lemma EmitFixup_pending l cg :
  labelToAddress_ cg !! l = None →
  code_ (EmitFixup l cg) = code_ cg ++ [0; 0; 0; 0; 0; 0; 0; 0] ∧
  fixups_ (EmitFixup l cg) =
    <[l := fixup_locs cg l ++ [length (code_ cg)]]> (fixups_ cg) ∧
  labelToAddress_ (EmitFixup l cg) = labelToAddress_ cg ∧
  funcs_ (EmitFixup l cg) = funcs_ cg ∧
  depth_ (EmitFixup l cg) = depth_ cg.
Proof. intros H. unfold EmitFixup. by rewrite H. Qed.

Lemma gen_inv_EmitFixup P l cg :
  gen_inv P cg → placed cg l ∨ P l →
  gen_inv P (EmitFixup l cg) ∧ extends cg (EmitFixup l cg).
Proof.
  intros Hinv HP.
  destruct (labelToAddress_ cg !! l) as [a|] eqn:Hl.
  { rewrite (EmitFixup_placed _ _ _ Hl). by apply gen_inv_Emit. }
  destruct (EmitFixup_pending _ _ Hl) as (Hc & Hf & Hla & Hfs & _).
  set (cg' := EmitFixup l cg) in *.
  destruct Hinv as [[Hb Ha Hh Hlo Hz He] Hd].
  assert (∀ l' loc, loc ∈ fixup_locs cg' l' ↔
            loc ∈ fixup_locs cg l' ∨ (l' = l ∧ loc = length (code_ cg)))
    as Hmem.
  { intros l' loc. rewrite (fixup_locs_insert _ _ _ _ l' Hf).
    case_decide as Hll.
    - subst l'. rewrite elem_of_app, list_elem_of_singleton.
      split; (intros [?|?]; [by left|right]); [done|tauto].
    - split; [by left|]. intros [?|[? _]]; [done|congruence]. }
  assert (∀ l', placed cg' l' ↔ placed cg l') as Hpl.
  { intros l'. unfold placed. by rewrite Hla. }
  assert (take 4 (drop (length (code_ cg) + 4) (code_ cg')) = [0; 0; 0; 0])
    as Hnh.
  { rewrite Hc. rewrite drop_app_ge by lia.
    by replace (length (code_ cg) + 4 - length (code_ cg))%nat with 4%nat by lia. }
  assert (take 4 (drop (length (code_ cg)) (code_ cg')) = [0; 0; 0; 0]) as Hnl.
  { rewrite Hc. by rewrite drop_app_length. }
  assert (length (code_ cg') = length (code_ cg) + 8)%nat as Hlen.
  { by rewrite Hc, length_app. }
  split; [split; [split|]|split].
  - intros l' loc [Hin|[-> ->]]%Hmem; [apply Hb in Hin|]; lia.
  - intros l1 l2 loc1 loc2 [H1|[-> ->]]%Hmem [H2|[-> ->]]%Hmem.
    + by apply (Ha l1 l2).
    + apply Hb in H1. right. left. lia.
    + apply Hb in H2. right. right. lia.
    + by left.
  - intros l' loc [Hin|[-> ->]]%Hmem; [|done].
    rewrite Hc, take_drop_app_old by (apply Hb in Hin; lia). eauto.
  - intros l' loc [Hin|[-> ->]]%Hmem; [|unfold low4; rewrite Hnl; cbn; lia].
    replace (low4 (code_ cg') loc) with (low4 (code_ cg) loc)
      by (rewrite Hc, low4_app_old; eauto).
    specialize (Hlo l' loc Hin). lia.
  - intros l' loc [Hin|[-> ->]]%Hmem Hnp; [|done].
    rewrite Hc, take_drop_app_old by (apply Hb in Hin; lia).
    apply (Hz l'); [done|by rewrite <- Hpl].
  - intros l'. rewrite Hf, Hpl. destruct (decide (l = l')) as [<-|Hne].
    + rewrite lookup_insert_eq. intros [= Heq].
      by apply app_eq_nil in Heq as [_ ?].
    + rewrite lookup_insert_ne by done. apply He.
  - intros l' loc [Hin|[-> ->]]%Hmem; rewrite Hpl; eauto.
  - intros l'. by rewrite Hpl.
  - intros l' loc Hin. apply Hmem. by left.
  - done.
  - lia.
Qed.

(** Placing a label: the recorded operands get the four low-order bytes of
    the address, nothing else in the container changes, the address is
    recorded unless the label has one, and the entry of the label in the
    fixup table is written back as it was. *)
Lemma EmitLabel_spec l cg :
  fixups_wf cg →
  ∃ cg',
    EmitLabel l cg = Some cg' ∧
    length (code_ cg') = length (code_ cg) ∧
    fixups_ cg' = <[l := fixup_locs cg l]> (fixups_ cg) ∧
    labelToAddress_ cg' =
      emplace l (wrap32 (Z.of_nat (length (code_ cg)))) (labelToAddress_ cg) ∧
    funcs_ cg' = funcs_ cg ∧ depth_ cg' = depth_ cg ∧ func_ cg' = func_ cg ∧
    (∀ loc, loc ∈ fixup_locs cg l →
       take 4 (drop loc (code_ cg')) =
         le_bytes 4 (Z.of_nat (length (code_ cg)))) ∧
    (∀ p n, (∀ loc, loc ∈ fixup_locs cg l → (p + n ≤ loc ∨ loc + 4 ≤ p)%nat) →
       take n (drop p (code_ cg')) = take n (drop p (code_ cg))).
Proof.
  intros [Hb Ha _ _ _ _].
  destruct (patch_fixups_spec (Z.of_nat (length (code_ cg)))
              (fixup_locs cg l) (code_ cg))
    as (code' & HP & Hlen & Hw & Hf).
  { intros loc. apply Hb. }
  { intros loc1 loc2 H1 H2. destruct (Ha l l loc1 loc2 H1 H2) as [[_ ?]|?]; auto. }
  eexists. unfold EmitLabel. fold (fixup_locs cg l). rewrite HP. cbn.
  split; [reflexivity|]. by repeat split.
Qed.

Lemma gen_inv_EmitLabel (P P' : Z → Prop) l cg cg' :
  gen_inv P' cg → (∀ l', P' l' → P l' ∨ l' = l) →
  EmitLabel l cg = Some cg' →
  gen_inv P cg' ∧ extends cg cg' ∧ placed cg' l.
Proof.
  intros [Hwf Hd] HP HE.
  destruct (EmitLabel_spec l cg Hwf)
    as (cg0 & HE0 & Hlen & Hf & Hla & Hfs & _ & _ & Hw & Hfr).
  rewrite HE in HE0. injection HE0 as <-.
  destruct Hwf as [Hb Ha Hh Hlo Hz He].
  assert (∀ l', fixup_locs cg' l' = fixup_locs cg l') as Hlocs.
  { intros l'. rewrite (fixup_locs_insert _ _ _ _ l' Hf).
    case_decide; by subst. }
  pose proof (λ l', placed_emplace _ _ _ _ l' Hla) as Hpl.
  assert (∀ l' loc, loc ∈ fixup_locs cg l' →
            take 4 (drop (loc + 4) (code_ cg')) =
              take 4 (drop (loc + 4) (code_ cg))) as Hhigh.
  { intros l' loc Hin. apply Hfr. intros loc0 Hin0.
    destruct (Ha l' l loc loc0 Hin Hin0) as [[_ ->]|[?|?]]; lia. }
  assert (∀ l' loc, loc ∈ fixup_locs cg l' → loc ∉ fixup_locs cg l →
            take 4 (drop loc (code_ cg')) = take 4 (drop loc (code_ cg)))
    as Hlow.
  { intros l' loc Hin Hnin. apply Hfr. intros loc0 Hin0.
    destruct (Ha l' l loc loc0 Hin Hin0) as [[_ ->]|[?|?]]; [done|lia..]. }
  assert (∀ loc, loc ∈ fixup_locs cg l →
            low4 (code_ cg') loc = wrap32 (Z.of_nat (length (code_ cg))))
    as Hnew.
  { intros loc Hin. unfold low4. rewrite (Hw loc Hin).
    apply le_value_le_bytes_4. }
  split; [split; [split|]|split; [split|]].
  - intros l' loc. rewrite Hlocs, Hlen. apply Hb.
  - intros l1 l2 loc1 loc2. rewrite !Hlocs. apply Ha.
  - intros l' loc. rewrite Hlocs. intros Hin. rewrite (Hhigh l') by done. eauto.
  - intros l' loc. rewrite Hlocs, Hlen. intros Hin.
    destruct (decide (loc ∈ fixup_locs cg l)) as [Hl|Hl].
    + rewrite (Hnew loc Hl).
      pose proof (wrap32_range (Z.of_nat (length (code_ cg)))).
      pose proof (wrap32_le (Z.of_nat (length (code_ cg)))). lia.
    + unfold low4. rewrite (Hlow l') by done. by apply (Hlo l').
  - intros l' loc. rewrite Hlocs, Hpl. intros Hin Hnp.
    assert (loc ∉ fixup_locs cg l) as Hnin.
    { intros Hin'. destruct (Ha l' l loc loc Hin Hin') as [[-> _]|[?|?]];
        [|lia..]. apply Hnp. by right. }
    rewrite (Hlow l') by done. apply (Hz l'); [done|]. intros ?. apply Hnp. by left.
  - intros l'. rewrite Hf, Hpl. destruct (decide (l = l')) as [<-|Hne].
    + intros _. by right.
    + rewrite lookup_insert_ne by done. intros ?%He. by left.
  - intros l' loc. rewrite Hlocs, Hpl. intros Hin.
    destruct (Hd l' loc Hin) as [?|[?|?]%HP]; auto.
  - intros l'. rewrite Hpl. by left.
  - intros l' loc. by rewrite Hlocs.
  - done.
  - lia.
  - apply Hpl. by right.
Qed.

(** ** The fixup table under lowering *)

Lemma LowerExpr_call fn_ptr scope callee args cg :
  LowerExpr fn_ptr scope (CallExpr callee args) cg =
    (cg1 ← LowerArgs fn_ptr scope args cg;
     cg2 ← LowerExpr fn_ptr scope callee cg1;
     let cg3 := EmitCall (Z.of_nat (length args)) cg2 in
     Some (set_depth (wrap32 (depth_ cg3 - Z.of_nat (length args))) cg3)).
Proof.
  cbn [LowerExpr]. f_equal. revert cg.
  induction args as [|a args IH]; intros cg; [done|].
  cbn [LowerArgs]. by rewrite <- IH.
Qed.

Lemma LowerStmt_block fn_ptr scope body cg :
  LowerStmt fn_ptr scope (BlockStmt body) cg =
    (cg1 ← LowerStmts fn_ptr (BlockScope scope) body cg;
     if decide (depth_ cg1 = depth_ cg) then Some cg1 else None).
Proof.
  cbn [LowerStmt]. f_equal. revert cg.
  induction body as [|s body IH]; intros cg; [done|].
  cbn [LowerStmts]. destruct (LowerStmt fn_ptr (BlockScope scope) s cg); [|done].
  cbn. apply IH.
Qed.

Section Lowering.

Variable fn_ptr : RuntimeFn → Z.
Implicit Type P : Z → Prop.

Lemma keeps_trans P cg1 cg2 cg3 : keeps P cg1 cg2 → keeps P cg2 cg3 → keeps P cg1 cg3.
Proof.
  intros H12 H23 H1. destruct (H12 H1) as [H2 E12].
  destruct (H23 H2) as [H3 E23]. split; [done|by eapply extends_trans].
Qed.

Lemma keeps_refl P cg : keeps P cg cg.
Proof. intros H. split; [done|apply extends_refl]. Qed.

Lemma keeps_Emit P n t cg : keeps P cg (Emit n t cg).
Proof. intros H. by apply gen_inv_Emit. Qed.

Lemma keeps_EmitOpcode P op cg : keeps P cg (EmitOpcode op cg).
Proof. intros H. by apply gen_inv_Emit. Qed.

Lemma keeps_set_depth P d cg : keeps P cg (set_depth d cg).
Proof. intros H. by apply gen_inv_set_depth. Qed.

Lemma keeps_EmitFixup P l cg :
  (gen_inv P cg → placed cg l ∨ P l) → keeps P cg (EmitFixup l cg).
Proof. intros H Hinv. apply gen_inv_EmitFixup; [done|by apply H]. Qed.

Lemma keeps_EmitPop P cg cg' : EmitPop cg = Some cg' → keeps P cg cg'.
Proof.
  unfold EmitPop. case_decide; [|done]. intros [= <-].
  eapply keeps_trans; [apply keeps_set_depth|apply keeps_EmitOpcode].
Qed.

Lemma keeps_EmitAdd P cg cg' : EmitAdd cg = Some cg' → keeps P cg cg'.
Proof.
  unfold EmitAdd. case_decide; [|done]. intros [= <-].
  eapply keeps_trans; [apply keeps_set_depth|apply keeps_EmitOpcode].
Qed.

Lemma keeps_EmitReturn P cg cg' : EmitReturn cg = Some cg' → keeps P cg cg'.
Proof.
  unfold EmitReturn. case_decide; [|done]. intros [= <-].
  eapply keeps_trans; [apply keeps_set_depth|].
  eapply keeps_trans; [apply keeps_EmitOpcode|].
  eapply keeps_trans; apply keeps_Emit.
Qed.

Lemma keeps_EmitPushProto P fn cg : keeps P cg (EmitPushProto fn_ptr fn cg).
Proof.
  eapply keeps_trans; [apply keeps_set_depth|].
  eapply keeps_trans; [apply keeps_EmitOpcode|apply keeps_Emit].
Qed.

Lemma keeps_EmitPeek P index cg : keeps P cg (EmitPeek index cg).
Proof.
  eapply keeps_trans; [apply keeps_set_depth|].
  eapply keeps_trans; [apply keeps_EmitOpcode|apply keeps_Emit].
Qed.

Lemma keeps_EmitPushFunc P entry cg : P entry → keeps P cg (EmitPushFunc entry cg).
Proof.
  intros HP.
  eapply keeps_trans; [apply keeps_set_depth|].
  eapply keeps_trans; [apply keeps_EmitOpcode|].
  apply keeps_EmitFixup. auto.
Qed.

Lemma keeps_LowerExpr P scope e :
  scope_labels P scope →
  ∀ cg cg', LowerExpr fn_ptr scope e cg = Some cg' → keeps P cg cg'.
Proof.
  intros Hscope. induction e as [name|kind lhs rhs IHl IHr|callee args IHc IHargs]
    using Expr_ind; intros cg cg'.
  - cbn [LowerExpr]. unfold LowerRefExpr.
    destruct (Lookup scope name) as [[entry|fn|index]|] eqn:Hlk; [..|done];
      intros [= <-].
    + apply keeps_EmitPushFunc. by eapply Hscope.
    + apply keeps_EmitPushProto.
    + apply keeps_EmitPeek.
  - cbn [LowerExpr]. destruct kind.
    destruct (LowerExpr fn_ptr scope lhs cg) as [cg1|] eqn:H1; [|done].
    cbn. destruct (LowerExpr fn_ptr scope rhs cg1) as [cg2|] eqn:H2; [|done].
    cbn. intros H3.
    eapply keeps_trans; [by eapply IHl|].
    eapply keeps_trans; [by eapply IHr|by apply keeps_EmitAdd].
  - rewrite LowerExpr_call.
    destruct (LowerArgs fn_ptr scope args cg) as [cg1|] eqn:H1; [|done].
    cbn. destruct (LowerExpr fn_ptr scope callee cg1) as [cg2|] eqn:H2; [|done].
    cbn. intros [= <-].
    assert (keeps P cg cg1) as K1.
    { clear H2. revert cg cg1 H1.
      induction IHargs as [|a args Ha _ IH]; intros cg cg1.
      - intros [= <-]. apply keeps_refl.
      - cbn [LowerArgs].
        destruct (LowerArgs fn_ptr scope args cg) as [cg0|] eqn:H0; [|done].
        cbn. intros Ha'.
        eapply keeps_trans; [by eapply IH|by eapply Ha]. }
    eapply keeps_trans; [exact K1|].
    eapply keeps_trans; [by eapply IHc|].
    eapply keeps_trans; [apply keeps_EmitOpcode|apply keeps_set_depth].
Qed.

Lemma keeps_set_nextLabel P n cg : keeps P cg (set_nextLabel n cg).
Proof. intros H. by apply gen_inv_set_nextLabel. Qed.

Lemma keeps_set_func P f cg : keeps P cg (set_func f cg).
Proof. intros H. by apply gen_inv_set_func. Qed.

Lemma keeps_MakeLabel P cg l cg' : MakeLabel cg = (l, cg') → keeps P cg cg'.
Proof. intros [= _ <-]. apply keeps_set_nextLabel. Qed.

Lemma keeps_EmitLabel P l cg cg' : EmitLabel l cg = Some cg' → keeps P cg cg'.
Proof.
  intros HE Hinv.
  destruct (gen_inv_EmitLabel P P l cg cg' Hinv) as (? & ? & _); auto.
Qed.

Lemma scope_labels_weaken P Q scope :
  (∀ l, P l → Q l) → scope_labels P scope → scope_labels Q scope.
Proof. intros HPQ H name entry Hlk. eauto. Qed.

Lemma keeps_LowerStmt s :
  ∀ P scope, scope_labels P scope →
  ∀ cg cg', LowerStmt fn_ptr scope s cg = Some cg' → keeps P cg cg'.
Proof.
  induction s as [body IHbody|cond body IHb|expr|expr] using Stmt_ind;
    intros P scope Hscope cg cg'.
  - rewrite LowerStmt_block.
    destruct (LowerStmts fn_ptr (BlockScope scope) body cg) as [cg1|] eqn:H1;
      [|done].
    cbn. case_decide; [|done]. intros [= <-]. clear H.
    revert cg H1. induction IHbody as [|s body Hs _ IH]; intros cg.
    + intros [= <-]. apply keeps_refl.
    + cbn [LowerStmts].
      destruct (LowerStmt fn_ptr (BlockScope scope) s cg) as [cg0|] eqn:H0;
        [|done].
      cbn. intros H1.
      eapply keeps_trans; [|by eapply IH].
      by eapply (Hs P (BlockScope scope)).
  - cbn [LowerStmt].
    destruct (MakeLabel cg) as [entry cg1] eqn:M1.
    destruct (MakeLabel cg1) as [exit cg2] eqn:M2.
    destruct (EmitLabel entry cg2) as [cg3|] eqn:H3; [|done]. cbn.
    destruct (LowerExpr fn_ptr scope cond cg3) as [cg4|] eqn:H4; [|done]. cbn.
    destruct (EmitJumpFalse exit cg4) as [cg5|] eqn:H5; [|done]. cbn.
    destruct (LowerStmt fn_ptr scope body cg5) as [cg6|] eqn:H6; [|done]. cbn.
    intros H7 Hinv.
    destruct (keeps_MakeLabel P _ _ _ M1 Hinv) as [I1 E1].
    destruct (keeps_MakeLabel P _ _ _ M2 I1) as [I2 E2].
    destruct (gen_inv_EmitLabel P P entry cg2 cg3 I2) as (I3 & E3 & Pl3);
      [auto|done|].
    destruct (keeps_LowerExpr P scope cond Hscope _ _ H4 I3) as [I4 E4].
    set (P' := λ l, P l ∨ l = exit).
    assert (gen_inv P' cg4) as I4'.
    { eapply gen_inv_weaken; [|exact I4]. intros l ?. by left. }
    assert (keeps P' cg4 cg5) as K5.
    { revert H5. unfold EmitJumpFalse. case_decide; [|done]. intros [= <-].
      eapply keeps_trans; [apply keeps_set_depth|].
      eapply keeps_trans; [apply keeps_EmitOpcode|].
      apply keeps_EmitFixup. intros _. right. by right. }
    destruct (K5 I4') as [I5 E5].
    assert (keeps P' cg5 cg6) as K6.
    { eapply IHb; [|exact H6].
      eapply scope_labels_weaken; [|exact Hscope]. intros l ?. by left. }
    destruct (K6 I5) as [I6 E6].
    assert (keeps P' cg6 (EmitJump entry cg6)) as K7.
    { eapply keeps_trans; [apply keeps_EmitOpcode|].
      apply keeps_EmitFixup. intros _. left.
      apply ext_placed with (cg := cg6);
        [exact (proj2 (gen_inv_Emit P' _ _ cg6 I6))|].
      apply (ext_placed _ _ E6), (ext_placed _ _ E5), (ext_placed _ _ E4).
      exact Pl3. }
    destruct (K7 I6) as [I7 E7].
    destruct (gen_inv_EmitLabel P P' exit _ cg' I7) as (I8 & E8 & _);
      [by intros l [?|?]; auto|done|].
    split; [done|].
    repeat (eapply extends_trans; [eassumption|]). apply extends_refl.
  - cbn [LowerStmt]. unfold LowerExprStmt.
    destruct (LowerExpr fn_ptr scope expr cg) as [cg1|] eqn:H1; [|done].
    cbn. intros H2.
    eapply keeps_trans; [by eapply keeps_LowerExpr|by apply keeps_EmitPop].
  - cbn [LowerStmt]. unfold LowerReturnStmt.
    destruct (LowerExpr fn_ptr scope expr cg) as [cg1|] eqn:H1; [|done].
    cbn. intros H2.
    eapply keeps_trans; [by eapply keeps_LowerExpr|by apply keeps_EmitReturn].
Qed.

End Lowering.

(** ** The fixup table after a translation *)

Section Translation.

Variable fn_ptr : RuntimeFn → Z.
Implicit Type P : Z → Prop.

Lemma scope_labels_FuncScope P scope args :
  scope_labels P scope → scope_labels P (FuncScope scope args).
Proof.
  intros H name entry. cbn [Lookup].
  destruct (args !! name); [done|]. apply H.
Qed.

Lemma scope_labels_GlobalScope funcs protos :
  scope_labels (λ l, ∃ name, funcs !! name = Some l) (GlobalScope funcs protos).
Proof.
  intros name entry. cbn [Lookup].
  destruct (funcs !! name) as [e|] eqn:Hf.
  - intros [= <-]. by exists name.
  - by destruct (protos !! name).
Qed.

Lemma LowerFuncDecl_inv P global decl cg cg' :
  scope_labels P global →
  LowerFuncDecl fn_ptr global decl cg = Some cg' →
  gen_inv P cg →
  gen_inv P cg' ∧ extends cg cg' ∧
  ∃ l, funcs_ cg !! func_name decl = Some l ∧ placed cg' l.
Proof.
  intros Hscope. unfold LowerFuncDecl.
  destruct (funcs_ cg !! func_name decl) as [label|] eqn:Hl; [|done]. cbn [mbind option_bind].
  destruct (EmitLabel label cg) as [cg1|] eqn:H1; [|done]. cbn [mbind option_bind].
  case_decide; [|done].
  destruct (LowerBlockStmt fn_ptr
              (FuncScope global (func_arg_map (func_args decl)))
              (func_body decl) (set_func (Some decl) cg1))
    as [cg3|] eqn:H3; [|done]. cbn [mbind option_bind].
  case_decide; [|done]. intros [= <-] Hinv.
  destruct (gen_inv_EmitLabel P P label cg cg1 Hinv) as (I1 & E1 & Pl1);
    [auto|done|].
  destruct (keeps_set_func P (Some decl) cg1 I1) as [I2 E2].
  destruct (keeps_LowerStmt fn_ptr _ P _
              (scope_labels_FuncScope P global _ Hscope) _ _ H3 I2) as [I3 E3].
  destruct (keeps_set_func P None cg3 I3) as [I4 E4].
  split; [done|]. split.
  - repeat (eapply extends_trans; [eassumption|]). apply extends_refl.
  - exists label. split; [done|].
    apply (ext_placed _ _ E4), (ext_placed _ _ E3), (ext_placed _ _ E2), Pl1.
Qed.

Lemma lower_top_stmts_keeps P global mod_ :
  scope_labels P global →
  ∀ cg cg', lower_top_stmts fn_ptr global mod_ cg = Some cg' → keeps P cg cg'.
Proof.
  intros Hscope. induction mod_ as [|[f|p|s] rest IH]; intros cg cg';
    cbn [lower_top_stmts]; try apply IH.
  - intros [= <-]. apply keeps_refl.
  - destruct (LowerStmt fn_ptr global s cg) as [cg1|] eqn:H1; [|done]. cbn.
    intros H2. eapply keeps_trans; [by eapply keeps_LowerStmt|by apply IH].
Qed.

Lemma lower_top_funcs_inv P global mod_ :
  scope_labels P global →
  ∀ cg cg', lower_top_funcs fn_ptr global mod_ cg = Some cg' →
  gen_inv P cg →
  gen_inv P cg' ∧ extends cg cg' ∧
  ∀ f, TopFunc f ∈ mod_ →
    ∃ l, funcs_ cg !! func_name f = Some l ∧ placed cg' l.
Proof.
  intros Hscope. induction mod_ as [|item rest IH]; intros cg cg'.
  { intros [= <-] Hinv. split; [done|]. split; [apply extends_refl|].
    intros f Hin. by apply elem_of_nil in Hin. }
  assert (∀ item', (∀ f, item' ≠ TopFunc f) →
            lower_top_funcs fn_ptr global rest cg = Some cg' →
            gen_inv P cg →
            gen_inv P cg' ∧ extends cg cg' ∧
            ∀ f, TopFunc f ∈ item' :: rest →
              ∃ l, funcs_ cg !! func_name f = Some l ∧ placed cg' l) as Hskip.
  { intros item' Hne Hrest Hinv.
    destruct (IH _ _ Hrest Hinv) as (I & E & Hpl). split; [done|]. split; [done|].
    intros f [Heq|Hin]%elem_of_cons; [by destruct (Hne f)|by apply Hpl]. }
  destruct item as [f|p|s]; cbn [lower_top_funcs];
    [|by apply Hskip..].
  destruct (LowerFuncDecl fn_ptr global f cg) as [cg1|] eqn:H1; [|done]. cbn.
  intros Hrest Hinv.
  destruct (LowerFuncDecl_inv P _ _ _ _ Hscope H1 Hinv) as (I1 & E1 & l & Hl & Pl).
  destruct (IH _ _ Hrest I1) as (I & E & Hpl).
  split; [done|]. split; [by eapply extends_trans|].
  intros f' [[= ->]|Hin]%elem_of_cons.
  - exists l. split; [done|]. by apply (ext_placed _ _ E).
  - destruct (Hpl f' Hin) as (l' & Hl' & Pl'). exists l'.
    split; [|done]. by rewrite <- (ext_funcs _ _ E1).
Qed.

Lemma lookup_emplace_Some `{Countable K} {V} (m : gmap K V) k v k' v' :
  emplace k v m !! k' = Some v' → m !! k' = Some v' ∨ k' = k.
Proof.
  unfold emplace. destruct (m !! k) eqn:Hk; [by left|].
  destruct (decide (k = k')) as [<-|Hne]; [by right|].
  rewrite lookup_insert_ne by done. by left.
Qed.

Lemma collect_decls_spec mod_ :
  ∀ protos cg protos' cg',
  collect_decls mod_ protos cg = Some (protos', cg') →
  code_ cg' = code_ cg ∧ fixups_ cg' = fixups_ cg ∧
  labelToAddress_ cg' = labelToAddress_ cg ∧
  depth_ cg' = depth_ cg ∧ func_ cg' = func_ cg ∧
  ∀ name l, funcs_ cg' !! name = Some l →
    funcs_ cg !! name = Some l ∨ ∃ f, TopFunc f ∈ mod_ ∧ func_name f = name.
Proof.
  induction mod_ as [|[f|p|s] rest IH]; intros protos cg protos' cg';
    cbn [collect_decls].
  - intros [= _ <-]. repeat split; auto.
  - intros Hrest. apply IH in Hrest as (Hc & Hf & Hla & Hd & Hfn & Hfs).
    cbn in *. repeat split; try done.
    intros name l Hl. destruct (Hfs name l Hl) as [Hin|(f' & Hin & Hn)].
    + apply lookup_emplace_Some in Hin as [?| ->]; [by left|].
      right. exists f. split; [left|done].
    + right. exists f'. split; [by right|done].
  - destruct (kRuntimeFns !! proto_primitive p) as [fn|]; [|done]. cbn.
    intros Hrest. apply IH in Hrest as (Hc & Hf & Hla & Hd & Hfn & Hfs).
    repeat split; try done.
    intros name l Hl. destruct (Hfs name l Hl) as [Hin|(f' & Hin & Hn)];
      [by left|]. right. exists f'. split; [by right|done].
  - intros Hrest. apply IH in Hrest as (Hc & Hf & Hla & Hd & Hfn & Hfs).
    repeat split; try done.
    intros name l Hl. destruct (Hfs name l Hl) as [Hin|(f' & Hin & Hn)];
      [by left|]. right. exists f'. split; [by right|done].
Qed.

Lemma gen_inv_empty P cg :
  code_ cg = [] → fixups_ cg = ∅ → gen_inv P cg.
Proof.
  intros Hc Hf.
  assert (∀ l loc, loc ∈ fixup_locs cg l → False) as Hno.
  { intros l loc. unfold fixup_locs. rewrite Hf, lookup_empty. cbn.
    apply not_elem_of_nil. }
  split; [split|]; try (intros l loc Hin; by destruct (Hno l loc Hin)).
  - intros l1 l2 loc1 loc2 Hin. by destruct (Hno l1 loc1 Hin).
  - intros l. by rewrite Hf, lookup_empty.
Qed.

(** After a translation the fixup table is well formed and every label in it
    is placed. *)
Lemma Translate_from_inv cg0 mod_ cg :
  fixups_ cg0 = ∅ → funcs_ cg0 = ∅ →
  Translate_from fn_ptr cg0 mod_ = Some cg →
  fixups_wf cg ∧ (∀ l loc, loc ∈ fixup_locs cg l → placed cg l).
Proof.
  intros Hf0 Hfs0. unfold Translate_from. case_decide as Hc0; [|done].
  destruct (collect_decls mod_ ∅ cg0) as [[protos cg1]|] eqn:H1; [|done]. cbn.
  destruct (lower_top_stmts fn_ptr (GlobalScope (funcs_ cg1) protos) mod_ cg1)
    as [cg2|] eqn:H2; [|done]. cbn.
  intros H3.
  apply collect_decls_spec in H1 as (Hc & Hf & Hla & _ & _ & Hfs).
  set (P := λ l, ∃ name, funcs_ cg1 !! name = Some l) in *.
  pose proof (scope_labels_GlobalScope (funcs_ cg1) protos) as Hscope.
  assert (gen_inv P cg1) as I1.
  { apply gen_inv_empty; congruence. }
  destruct (lower_top_stmts_keeps P _ _ Hscope _ _ H2 I1) as [I2 E2].
  destruct (keeps_EmitOpcode P STOP cg2 I2) as [I3 E3].
  destruct (lower_top_funcs_inv P _ _ Hscope _ _ H3 I3) as (I4 & E4 & Hpl).
  destruct I4 as [Hwf Hd]. split; [done|].
  intros l loc Hin. destruct (Hd l loc Hin) as [?|[name Hname]]; [done|].
  destruct (Hfs name l Hname) as [Hold|(f & Hfin & Hfn)].
  { by rewrite Hfs0, lookup_empty in Hold. }
  destruct (Hpl f Hfin) as (l' & Hl' & Pl').
  rewrite (ext_funcs _ _ E3), (ext_funcs _ _ E2), Hfn, Hname in Hl'.
  by injection Hl' as <-.
Qed.

End Translation.

(** ** Labels are placed once *)

Lemma fixups_wf_gen_inv cg : fixups_wf cg ↔ gen_inv (λ _, True) cg.
Proof.
  split; [|by intros [? _]]. intros H. split; [done|].
  intros l loc _. by right.
Qed.

Lemma quiet_refl cg : quiet cg cg.
Proof. by intros ? ?. Qed.

Lemma quiet_trans cg1 cg2 cg3 : quiet cg1 cg2 → quiet cg2 cg3 → quiet cg1 cg3.
Proof.
  intros H12 H23 Hw Hl. destruct (H12 Hw Hl) as (Hw2 & Hl2 & Hn2 & Ha2).
  destruct (H23 Hw2 Hl2) as (Hw3 & Hl3 & Hn3 & Ha3).
  split; [done|]. split; [done|]. split; congruence.
Qed.

Lemma quiet_append cg cg' extra :
  code_ cg' = code_ cg ++ extra →
  fixups_ cg' = fixups_ cg →
  labelToAddress_ cg' = labelToAddress_ cg →
  funcs_ cg' = funcs_ cg →
  nextLabel_ cg' = nextLabel_ cg →
  quiet cg cg'.
Proof.
  intros Hc Hf Hla Hfs Hn Hw [Hnx Hpl Hpa].
  destruct (gen_inv_append (λ _, True) cg cg' extra Hc Hf Hla Hfs) as [[Hw' _] _].
  { by apply fixups_wf_gen_inv. }
  split; [done|]. split; [|done]. split.
  - by rewrite Hn.
  - intros l. unfold placed. rewrite Hla, Hn. apply Hpl.
  - intros l loc a. unfold fixup_locs. rewrite Hf, Hla, Hc. intros Hin Ha.
    rewrite low4_app_old by (by eapply (wf_bound _ Hw)). by eapply Hpa.
Qed.

Lemma quiet_Emit n t cg : quiet cg (Emit n t cg).
Proof. by apply (quiet_append cg _ (le_bytes n t)). Qed.

Lemma quiet_EmitOpcode op cg : quiet cg (EmitOpcode op cg).
Proof. apply quiet_Emit. Qed.

Lemma quiet_set_depth d cg : quiet cg (set_depth d cg).
Proof. apply (quiet_append cg _ []); try done. cbn. by rewrite app_nil_r. Qed.

Lemma quiet_set_func f cg : quiet cg (set_func f cg).
Proof. apply (quiet_append cg _ []); try done. cbn. by rewrite app_nil_r. Qed.

Lemma quiet_EmitFixup l cg : quiet cg (EmitFixup l cg).
Proof.
  destruct (labelToAddress_ cg !! l) as [a|] eqn:Hl.
  { rewrite (EmitFixup_placed _ _ _ Hl). apply quiet_Emit. }
  intros Hw [Hnx Hpl Hpa].
  destruct (gen_inv_EmitFixup (λ _, True) l cg) as [[Hw' _] _];
    [by apply fixups_wf_gen_inv|by right|].
  destruct (EmitFixup_pending _ _ Hl) as (Hc & Hf & Hla & Hfs & _).
  assert (nextLabel_ (EmitFixup l cg) = nextLabel_ cg) as Hn.
  { unfold EmitFixup. by rewrite Hl. }
  split; [done|]. split; [|done]. split.
  - by rewrite Hn.
  - intros l'. unfold placed. rewrite Hla, Hn. apply Hpl.
  - intros l' loc a. rewrite (fixup_locs_insert _ _ _ _ l' Hf), Hla, Hc.
    case_decide as Hll.
    + subst l'. by rewrite Hl.
    + intros Hin Ha.
      rewrite low4_app_old by (by eapply (wf_bound _ Hw)). by eapply Hpa.
Qed.

Section QuietLowering.

Variable fn_ptr : RuntimeFn → Z.

Lemma quiet_EmitPop cg cg' : EmitPop cg = Some cg' → quiet cg cg'.
Proof.
  unfold EmitPop. case_decide; [|done]. intros [= <-].
  eapply quiet_trans; [apply quiet_set_depth|apply quiet_EmitOpcode].
Qed.

Lemma quiet_EmitAdd cg cg' : EmitAdd cg = Some cg' → quiet cg cg'.
Proof.
  unfold EmitAdd. case_decide; [|done]. intros [= <-].
  eapply quiet_trans; [apply quiet_set_depth|apply quiet_EmitOpcode].
Qed.

Lemma quiet_EmitReturn cg cg' : EmitReturn cg = Some cg' → quiet cg cg'.
Proof.
  unfold EmitReturn. case_decide; [|done]. intros [= <-].
  eapply quiet_trans; [apply quiet_set_depth|].
  eapply quiet_trans; [apply quiet_EmitOpcode|].
  eapply quiet_trans; apply quiet_Emit.
Qed.

Lemma quiet_EmitJumpFalse l cg cg' : EmitJumpFalse l cg = Some cg' → quiet cg cg'.
Proof.
  unfold EmitJumpFalse. case_decide; [|done]. intros [= <-].
  eapply quiet_trans; [apply quiet_set_depth|].
  eapply quiet_trans; [apply quiet_EmitOpcode|apply quiet_EmitFixup].
Qed.

Lemma quiet_EmitJump l cg : quiet cg (EmitJump l cg).
Proof. eapply quiet_trans; [apply quiet_EmitOpcode|apply quiet_EmitFixup]. Qed.

Lemma quiet_LowerExpr scope e :
  ∀ cg cg', LowerExpr fn_ptr scope e cg = Some cg' → quiet cg cg'.
Proof.
  induction e as [name|kind lhs rhs IHl IHr|callee args IHc IHargs]
    using Expr_ind; intros cg cg'.
  - cbn [LowerExpr]. unfold LowerRefExpr.
    destruct (Lookup scope name) as [[entry|fn|index]|] eqn:Hlk; [..|done];
      intros [= <-].
    + eapply quiet_trans; [apply quiet_set_depth|].
      eapply quiet_trans; [apply quiet_EmitOpcode|apply quiet_EmitFixup].
    + eapply quiet_trans; [apply quiet_set_depth|].
      eapply quiet_trans; [apply quiet_EmitOpcode|apply quiet_Emit].
    + eapply quiet_trans; [apply quiet_set_depth|].
      eapply quiet_trans; [apply quiet_EmitOpcode|apply quiet_Emit].
  - cbn [LowerExpr]. destruct kind.
    destruct (LowerExpr fn_ptr scope lhs cg) as [cg1|] eqn:H1; [|done].
    cbn. destruct (LowerExpr fn_ptr scope rhs cg1) as [cg2|] eqn:H2; [|done].
    cbn. intros H3.
    eapply quiet_trans; [by eapply IHl|].
    eapply quiet_trans; [by eapply IHr|by apply quiet_EmitAdd].
  - rewrite LowerExpr_call.
    destruct (LowerArgs fn_ptr scope args cg) as [cg1|] eqn:H1; [|done].
    cbn. destruct (LowerExpr fn_ptr scope callee cg1) as [cg2|] eqn:H2; [|done].
    cbn. intros [= <-].
    assert (quiet cg cg1) as K1.
    { clear H2. revert cg cg1 H1.
      induction IHargs as [|a args Ha _ IH]; intros cg cg1.
      - intros [= <-]. apply quiet_refl.
      - cbn [LowerArgs].
        destruct (LowerArgs fn_ptr scope args cg) as [cg0|] eqn:H0; [|done].
        cbn. intros Ha'.
        eapply quiet_trans; [by eapply IH|by eapply Ha]. }
    eapply quiet_trans; [exact K1|].
    eapply quiet_trans; [by eapply IHc|].
    eapply quiet_trans; [apply quiet_EmitOpcode|apply quiet_set_depth].
Qed.

End QuietLowering.

Lemma while_count_block body :
  while_count (BlockStmt body) = while_count_list body.
Proof.
  cbn [while_count]. induction body as [|s body IH]; [done|].
  cbn [while_count_list]. by rewrite IH.
Qed.

Lemma labels_MakeLabel cg l cg' :
  fixups_wf cg → labels_wf cg → nextLabel_ cg + 1 < 2 ^ 32 →
  MakeLabel cg = (l, cg') →
  fixups_wf cg' ∧ labels_wf cg' ∧ l = nextLabel_ cg + 1 ∧
  nextLabel_ cg' = nextLabel_ cg + 1 ∧
  labelToAddress_ cg' = labelToAddress_ cg.
Proof.
  intros Hw [Hnx Hpl Hpa] Hb [= <- <-].
  rewrite wrap32_small by lia.
  destruct (gen_inv_set_nextLabel (λ _, True) (nextLabel_ cg + 1) cg)
    as [[Hw' _] _]; [by apply fixups_wf_gen_inv|].
  split; [done|]. split; [|done]. split; cbn.
  - lia.
  - intros l Hl. specialize (Hpl l Hl). lia.
  - done.
Qed.

(** Placing a label that is not placed yet: its fixups now hold the address
    recorded for it. *)
Lemma labels_EmitLabel l cg cg' :
  fixups_wf cg → labels_wf cg →
  ¬ placed cg l → 0 < l ≤ nextLabel_ cg →
  EmitLabel l cg = Some cg' →
  fixups_wf cg' ∧ labels_wf cg' ∧
  nextLabel_ cg' = nextLabel_ cg ∧
  (∀ l', placed cg' l' ↔ placed cg l' ∨ l' = l).
Proof.
  intros Hw [Hnx Hpl Hpa] Hnp Hl HE.
  destruct (gen_inv_EmitLabel (λ _, True) (λ _, True) l cg cg')
    as ([Hw' _] & _ & _); [by apply fixups_wf_gen_inv|auto|done|].
  destruct (EmitLabel_spec l cg Hw)
    as (cg0 & HE0 & Hlen & Hf & Hla & _ & _ & _ & Hwr & Hfr).
  rewrite HE in HE0. injection HE0 as <-.
  assert (nextLabel_ cg' = nextLabel_ cg) as Hn.
  { revert HE. unfold EmitLabel.
    destruct (patch_fixups _ _ _); [|done]. by intros [= <-]. }
  pose proof (λ l', placed_emplace _ _ _ _ l' Hla) as Hplaced.
  assert (∀ l', fixup_locs cg' l' = fixup_locs cg l') as Hlocs.
  { intros l'. rewrite (fixup_locs_insert _ _ _ _ l' Hf).
    case_decide; by subst. }
  split; [done|]. split; [|done]. split.
  - by rewrite Hn.
  - intros l' [Hp| ->]%Hplaced; rewrite Hn; [by apply Hpl|done].
  - intros l' loc a. rewrite Hlocs, Hla. intros Hin Ha.
    assert (labelToAddress_ cg !! l = None) as Hnone.
    { destruct (labelToAddress_ cg !! l) eqn:E; [|done].
      destruct Hnp. by eexists. }
    unfold emplace in Ha. rewrite Hnone in Ha.
    destruct (decide (l = l')) as [<-|Hne].
    + rewrite lookup_insert_eq in Ha. injection Ha as <-.
      unfold low4. rewrite (Hwr loc Hin). apply le_value_le_bytes_4.
    + rewrite lookup_insert_ne in Ha by done.
      unfold low4. rewrite Hfr; [by apply (Hpa l')|].
      intros loc0 Hin0.
      destruct (wf_apart _ Hw l' l loc loc0 Hin Hin0) as [[? _]|[?|?]];
        [congruence|lia..].
Qed.

Section FreshLowering.

Variable fn_ptr : RuntimeFn → Z.

Lemma fixups_wf_LowerExpr scope e cg cg' :
  LowerExpr fn_ptr scope e cg = Some cg' → fixups_wf cg → labels_wf cg →
  fixups_wf cg' ∧ labels_wf cg' ∧
  nextLabel_ cg' = nextLabel_ cg ∧ labelToAddress_ cg' = labelToAddress_ cg.
Proof. intros H. by apply (quiet_LowerExpr fn_ptr scope e). Qed.

(** Lowering a statement makes two labels for each of its loops and places
    no label that was made before. *)
Lemma labels_LowerStmt s :
  ∀ scope cg cg',
  fixups_wf cg → labels_wf cg →
  nextLabel_ cg + 2 * Z.of_nat (while_count s) < 2 ^ 32 →
  LowerStmt fn_ptr scope s cg = Some cg' →
  fixups_wf cg' ∧ labels_wf cg' ∧
  nextLabel_ cg' = nextLabel_ cg + 2 * Z.of_nat (while_count s) ∧
  (∀ l, placed cg' l → placed cg l ∨ nextLabel_ cg < l).
Proof.
  induction s as [body IHbody|cond body IHb|expr|expr] using Stmt_ind;
    intros scope cg cg' Hw Hl Hb.
  - rewrite LowerStmt_block, while_count_block in *.
    destruct (LowerStmts fn_ptr (BlockScope scope) body cg) as [cg1|] eqn:H1;
      [|done].
    cbn. case_decide; [|done]. intros [= <-]. clear H.
    revert cg Hw Hl Hb H1. induction IHbody as [|s body Hs _ IH]; intros cg Hw Hl Hb.
    + intros [= <-]. cbn. split; [done|]. split; [done|]. split; [lia|auto].
    + cbn [LowerStmts while_count_list] in *.
      destruct (LowerStmt fn_ptr (BlockScope scope) s cg) as [cg0|] eqn:H0;
        [|done].
      cbn. intros H1.
      destruct (Hs (BlockScope scope) cg cg0 Hw Hl ltac:(lia) H0)
        as (Hw0 & Hl0 & Hn0 & Hp0).
      destruct (IH cg0 Hw0 Hl0 ltac:(lia) H1) as (Hw1 & Hl1 & Hn1 & Hp1).
      split; [done|]. split; [done|]. split; [lia|].
      intros l [Hp|Hp]%Hp1; [|right; lia].
      destruct (Hp0 l Hp); auto.
  - cbn [LowerStmt while_count] in *.
    destruct (MakeLabel cg) as [entry cg1] eqn:M1.
    destruct (MakeLabel cg1) as [exit cg2] eqn:M2.
    destruct (EmitLabel entry cg2) as [cg3|] eqn:H3; [|done]. cbn.
    destruct (LowerExpr fn_ptr scope cond cg3) as [cg4|] eqn:H4; [|done]. cbn.
    destruct (EmitJumpFalse exit cg4) as [cg5|] eqn:H5; [|done]. cbn.
    destruct (LowerStmt fn_ptr scope body cg5) as [cg6|] eqn:H6; [|done]. cbn.
    intros H7.
    pose proof (lw_next _ Hl) as Hnx.
    destruct (labels_MakeLabel _ _ _ Hw Hl ltac:(lia) M1)
      as (Hw1 & Hl1 & -> & Hn1 & Ha1).
    destruct (labels_MakeLabel _ _ _ Hw1 Hl1 ltac:(lia) M2)
      as (Hw2 & Hl2 & -> & Hn2 & Ha2).
    assert (∀ l, placed cg2 l ↔ placed cg l) as Hp2.
    { intros l. unfold placed. by rewrite Ha2, Ha1. }
    destruct (labels_EmitLabel (nextLabel_ cg + 1) cg2 cg3 Hw2 Hl2)
      as (Hw3 & Hl3 & Hn3 & Hp3); [| |exact H3|].
    { intros Hp%Hp2. apply (lw_placed _ Hl) in Hp. lia. }
    { lia. }
    destruct (fixups_wf_LowerExpr _ _ _ _ H4 Hw3 Hl3) as (Hw4 & Hl4 & Hn4 & Ha4).
    destruct (quiet_EmitJumpFalse _ _ _ H5 Hw4 Hl4) as (Hw5 & Hl5 & Hn5 & Ha5).
    destruct (IHb scope cg5 cg6 Hw5 Hl5 ltac:(lia) H6) as (Hw6 & Hl6 & Hn6 & Hp6).
    destruct (quiet_EmitJump (nextLabel_ cg + 1) cg6 Hw6 Hl6)
      as (Hw7 & Hl7 & Hn7 & Ha7).
    assert (∀ l, placed cg5 l ↔ placed cg l ∨ l = nextLabel_ cg + 1) as Hp5.
    { intros l. unfold placed. rewrite Ha5, Ha4. fold (placed cg3 l).
      rewrite Hp3, Hp2. done. }
    destruct (labels_EmitLabel (nextLabel_ cg1 + 1) _ cg' Hw7 Hl7)
      as (Hw8 & Hl8 & Hn8 & Hp8); [| |exact H7|].
    { unfold placed. rewrite Ha7. fold (placed cg6 (nextLabel_ cg1 + 1)).
      intros [Hp|Hp]%Hp6; [|lia].
      apply Hp5 in Hp as [Hp|Hp]; [|lia].
      apply (lw_placed _ Hl) in Hp. lia. }
    { lia. }
    split; [done|]. split; [done|]. split; [lia|].
    intros l [Hp| ->]%Hp8; [|right; lia].
    revert Hp. unfold placed. rewrite Ha7. fold (placed cg6 l).
    intros [Hp|Hp]%Hp6; [|right; lia].
    apply Hp5 in Hp as [Hp| ->]; [by left|right; lia].
  - cbn [LowerStmt while_count]. unfold LowerExprStmt.
    destruct (LowerExpr fn_ptr scope expr cg) as [cg1|] eqn:H1; [|done].
    cbn. intros H2.
    destruct (quiet_trans _ _ _ (quiet_LowerExpr fn_ptr _ _ _ _ H1)
                (quiet_EmitPop _ _ H2) Hw Hl) as (Hw' & Hl' & Hn' & Ha').
    split; [done|]. split; [done|]. split; [lia|].
    intros l. unfold placed. rewrite Ha'. by left.
  - cbn [LowerStmt while_count]. unfold LowerReturnStmt.
    destruct (LowerExpr fn_ptr scope expr cg) as [cg1|] eqn:H1; [|done].
    cbn. intros H2.
    destruct (quiet_trans _ _ _ (quiet_LowerExpr fn_ptr _ _ _ _ H1)
                (quiet_EmitReturn _ _ H2) Hw Hl) as (Hw' & Hl' & Hn' & Ha').
    split; [done|]. split; [done|]. split; [lia|].
    intros l. unfold placed. rewrite Ha'. by left.
Qed.

End FreshLowering.

Section FreshTranslation.

Variable fn_ptr : RuntimeFn → Z.

Lemma labels_LowerFuncDecl global decl cg cg' label :
  fixups_wf cg → labels_wf cg →
  funcs_ cg !! func_name decl = Some label →
  ¬ placed cg label → 0 < label ≤ nextLabel_ cg →
  nextLabel_ cg + 2 * Z.of_nat (while_count_list (func_body decl)) < 2 ^ 32 →
  LowerFuncDecl fn_ptr global decl cg = Some cg' →
  fixups_wf cg' ∧ labels_wf cg' ∧
  nextLabel_ cg' =
    nextLabel_ cg + 2 * Z.of_nat (while_count_list (func_body decl)) ∧
  funcs_ cg' = funcs_ cg ∧
  (∀ l, placed cg' l → placed cg l ∨ l = label ∨ nextLabel_ cg < l).
Proof.
  intros Hw Hl Hlab Hnp Hrange Hb. unfold LowerFuncDecl.
  rewrite Hlab. cbn [mbind option_bind].
  destruct (EmitLabel label cg) as [cg1|] eqn:H1; [|done].
  cbn [mbind option_bind]. case_decide; [|done].
  destruct (LowerBlockStmt fn_ptr
              (FuncScope global (func_arg_map (func_args decl)))
              (func_body decl) (set_func (Some decl) cg1))
    as [cg3|] eqn:H3; [|done]. cbn [mbind option_bind].
  case_decide; [|done]. intros [= <-].
  destruct (labels_EmitLabel label cg cg1 Hw Hl Hnp Hrange H1)
    as (Hw1 & Hl1 & Hn1 & Hp1).
  destruct (quiet_set_func (Some decl) cg1 Hw1 Hl1) as (Hw2 & Hl2 & Hn2 & Ha2).
  destruct (labels_LowerStmt fn_ptr (BlockStmt (func_body decl))
              (FuncScope global (func_arg_map (func_args decl)))
              (set_func (Some decl) cg1) cg3 Hw2 Hl2)
    as (Hw3 & Hl3 & Hn3 & Hp3); [rewrite while_count_block; lia|exact H3|].
  rewrite while_count_block in Hn3.
  destruct (quiet_set_func None cg3 Hw3 Hl3) as (Hw4 & Hl4 & Hn4 & Ha4).
  split; [done|]. split; [done|]. split; [lia|]. split.
  - cbn [funcs_ set_func].
    destruct (keeps_LowerStmt fn_ptr (BlockStmt (func_body decl)) (λ _, True)
                (FuncScope global (func_arg_map (func_args decl)))
                ltac:(by intros ? ? ?) _ _ H3) as [_ E3];
      [by apply fixups_wf_gen_inv|].
    rewrite (ext_funcs _ _ E3). cbn [funcs_ set_func].
    destruct (EmitLabel_spec label cg Hw) as (cg0 & HE0 & _ & _ & _ & Hfs & _).
    rewrite H1 in HE0. by injection HE0 as <-.
  - intros l. unfold placed. rewrite Ha4. fold (placed cg3 l).
    intros [Hp|Hp]%Hp3; [|right; right; lia].
    revert Hp. unfold placed. rewrite Ha2. fold (placed cg1 l).
    intros [Hp|Hp]%Hp1; auto.
Qed.

Lemma labels_lower_top_stmts global mod_ :
  ∀ cg cg',
  fixups_wf cg → labels_wf cg →
  nextLabel_ cg + 2 * Z.of_nat (top_whiles mod_) < 2 ^ 32 →
  lower_top_stmts fn_ptr global mod_ cg = Some cg' →
  fixups_wf cg' ∧ labels_wf cg' ∧
  nextLabel_ cg' = nextLabel_ cg + 2 * Z.of_nat (top_whiles mod_) ∧
  funcs_ cg' = funcs_ cg ∧
  (∀ l, placed cg' l → placed cg l ∨ nextLabel_ cg < l).
Proof.
  induction mod_ as [|[f|p|s] rest IH]; intros cg cg' Hw Hl Hb;
    cbn [lower_top_stmts top_whiles] in *; try (by apply IH).
  - intros [= <-]. split; [done|]. split; [done|]. split; [lia|]. auto.
  - destruct (LowerStmt fn_ptr global s cg) as [cg1|] eqn:H1; [|done].
    cbn [mbind option_bind]. intros H2.
    destruct (labels_LowerStmt fn_ptr s global cg cg1 Hw Hl ltac:(lia) H1)
      as (Hw1 & Hl1 & Hn1 & Hp1).
    destruct (IH cg1 cg' Hw1 Hl1 ltac:(lia) H2) as (Hw2 & Hl2 & Hn2 & Hf2 & Hp2).
    destruct (keeps_LowerStmt fn_ptr s (λ _, True) global
                ltac:(by intros ? ? ?) _ _ H1) as [_ E1];
      [by apply fixups_wf_gen_inv|].
    split; [done|]. split; [done|]. split; [lia|]. split.
    + by rewrite Hf2, (ext_funcs _ _ E1).
    + intros l [Hp|Hp]%Hp2; [|right; lia].
      destruct (Hp1 l Hp); auto.
Qed.

Lemma labels_lower_top_funcs global mod_ :
  ∀ cg cg',
  fixups_wf cg → labels_wf cg → funcs_ok cg →
  NoDup (func_names mod_) →
  (∀ name l, name ∈ func_names mod_ → funcs_ cg !! name = Some l →
     ¬ placed cg l) →
  nextLabel_ cg + 2 * Z.of_nat (body_whiles mod_) < 2 ^ 32 →
  lower_top_funcs fn_ptr global mod_ cg = Some cg' →
  fixups_wf cg' ∧ labels_wf cg'.
Proof.
  induction mod_ as [|[f|p|s] rest IH]; intros cg cg' Hw Hl Hok Hnd Hun Hb;
    cbn [lower_top_funcs func_names body_whiles] in *; try (by apply IH).
  - by intros [= <-].
  - destruct (LowerFuncDecl fn_ptr global f cg) as [cg1|] eqn:H1; [|done].
    cbn [mbind option_bind]. intros H2.
    destruct (funcs_ cg !! func_name f) as [label|] eqn:Hlab;
      [|by unfold LowerFuncDecl in H1; rewrite Hlab in H1].
    destruct Hok as [Hrange Hinj].
    apply NoDup_cons in Hnd as [Hnin Hnd].
    destruct (labels_LowerFuncDecl global f cg cg1 label Hw Hl Hlab)
      as (Hw1 & Hl1 & Hn1 & Hf1 & Hp1);
      [apply (Hun (func_name f)); [left|done]
      |by apply (Hrange (func_name f))|lia|exact H1|].
    apply (IH cg1 cg' Hw1 Hl1); [|done| |lia|done].
    + split; rewrite Hf1; [|done].
      intros name l Hn. specialize (Hrange name l Hn). lia.
    + intros name l Hin. rewrite Hf1. intros Hname [Hp|[->|Hp]]%Hp1.
      * apply (Hun name l); [by right|done|done].
      * apply Hnin. by rewrite (Hinj _ _ _ Hlab Hname).
      * specialize (Hrange name l Hname). lia.
Qed.

Lemma collect_decls_labels mod_ :
  ∀ protos cg protos' cg',
  0 ≤ nextLabel_ cg → funcs_ok cg →
  nextLabel_ cg + Z.of_nat (length (func_names mod_)) < 2 ^ 32 →
  collect_decls mod_ protos cg = Some (protos', cg') →
  nextLabel_ cg' = nextLabel_ cg + Z.of_nat (length (func_names mod_)) ∧
  funcs_ok cg'.
Proof.
  induction mod_ as [|[f|p|s] rest IH]; intros protos cg protos' cg' Hnx Hok Hb;
    cbn [collect_decls func_names length] in *.
  - intros [= _ <-]. split; [lia|done].
  - unfold MakeLabel. rewrite wrap32_small by lia.
    cbn [funcs_ set_nextLabel]. intros Hrest.
    apply IH in Hrest as [Hn Hok']; cbn [nextLabel_ set_funcs set_nextLabel funcs_] in *.
    + split; [lia|done].
    + lia.
    + destruct Hok as [Hrange Hinj].
      unfold funcs_ok. cbn [nextLabel_ funcs_ set_funcs set_nextLabel]. split.
      * intros name l. unfold emplace.
        destruct (funcs_ cg !! func_name f) as [l0|] eqn:Hf.
        -- intros Hl. specialize (Hrange _ _ Hl). lia.
        -- destruct (decide (func_name f = name)) as [<-|Hne].
           ++ rewrite lookup_insert_eq. intros [= <-]. lia.
           ++ rewrite lookup_insert_ne by done. intros Hl.
              specialize (Hrange _ _ Hl). lia.
      * intros n1 n2 l. unfold emplace.
        destruct (funcs_ cg !! func_name f) as [l0|] eqn:Hf; [apply Hinj|].
        destruct (decide (func_name f = n1)) as [<-|Hn1];
          destruct (decide (func_name f = n2)) as [<-|Hn2];
          rewrite ?lookup_insert_eq, ?lookup_insert_ne by done; try done.
        -- intros [= <-] H2. specialize (Hrange _ _ H2). lia.
        -- intros H1 [= <-]. specialize (Hrange _ _ H1). lia.
        -- apply Hinj.
    + lia.
  - destruct (kRuntimeFns !! proto_primitive p) as [fn|]; [|done].
    cbn [mbind option_bind]. by apply IH.
  - by apply IH.
Qed.

Lemma labels_wf_empty cg :
  0 ≤ nextLabel_ cg → fixups_ cg = ∅ → labelToAddress_ cg = ∅ → labels_wf cg.
Proof.
  intros Hn Hf Hla. split; [done| |].
  - intros l [a Ha]. by rewrite Hla, lookup_empty in Ha.
  - intros l loc a _. by rewrite Hla, lookup_empty.
Qed.

(** After the translation of a module whose functions have distinct names
    and which needs fewer than 2^32 labels, every recorded fixup holds the
    address recorded for its label. *)
Lemma Translate_labels_wf mod_ cg :
  NoDup (func_names mod_) →
  Z.of_nat (label_count mod_) < 2 ^ 32 →
  Translate_state fn_ptr mod_ = Some cg →
  fixups_wf cg ∧ labels_wf cg.
Proof.
  intros Hnd Hcount. unfold label_count in Hcount.
  unfold Translate_state, Translate_from. rewrite decide_True by done.
  destruct (collect_decls mod_ ∅ Codegen_new) as [[protos cg1]|] eqn:H1;
    [|done]. cbn [mbind option_bind].
  destruct (lower_top_stmts fn_ptr (GlobalScope (funcs_ cg1) protos) mod_ cg1)
    as [cg2|] eqn:H2; [|done]. cbn [mbind option_bind].
  intros H3.
  pose proof (collect_decls_spec _ _ _ _ _ H1) as (Hc & Hf & Hla & _ & _ & _).
  destruct (collect_decls_labels mod_ ∅ Codegen_new protos cg1) as [Hn1 Hok1];
    [done|by split; cbn; intros *; rewrite lookup_empty|cbn; lia|exact H1|].
  cbn [nextLabel_ Codegen_new] in Hn1.
  assert (fixups_wf cg1) as Hw1.
  { apply fixups_wf_gen_inv, gen_inv_empty; [by rewrite Hc|by rewrite Hf]. }
  assert (labels_wf cg1) as Hl1.
  { apply labels_wf_empty; [lia|by rewrite Hf|by rewrite Hla]. }
  destruct (labels_lower_top_stmts (GlobalScope (funcs_ cg1) protos) mod_
              cg1 cg2 Hw1 Hl1) as (Hw2 & Hl2 & Hn2 & Hf2 & Hp2);
    [lia|exact H2|].
  destruct (quiet_EmitOpcode STOP cg2 Hw2 Hl2) as (Hw3 & Hl3 & Hn3 & Ha3).
  apply (labels_lower_top_funcs (GlobalScope (funcs_ cg1) protos) mod_
           (EmitOpcode STOP cg2) cg Hw3 Hl3); [|done| | |exact H3].
  - destruct Hok1 as [Hrange Hinj]. split.
    + intros name l. cbn. rewrite Hf2. intros Hn%Hrange. lia.
    + intros n1 n2 l. cbn. rewrite Hf2. apply Hinj.
  - intros name l _. cbn. rewrite Hf2. intros Hname.
    unfold placed. rewrite Ha3. fold (placed cg2 l).
    intros [Hp|Hp]%Hp2.
    + destruct Hp as [a Ha]. rewrite Hla in Ha.
      change (labelToAddress_ Codegen_new) with (∅ : gmap Z Z) in Ha.
      by rewrite lookup_empty in Ha.
    + destruct Hok1 as [Hrange _]. specialize (Hrange _ _ Hname). lia.
  - lia.
Qed.

End FreshTranslation.

(** ** Placing a label *)

(** C5, as stated, fails: after [EmitLabel] the entry of the label is still
    in the fixup table with its offset, and after the translation of a
    forward call the table still holds the entry of the placed label of the
    function. The entry that is kept is even used again when a function is
    declared twice: the second declaration places the label of the name
    once more, and the placeholder of the forward call, patched to the
    first entry 12, is patched again to 30, while the address recorded for
    the label stays 12. *)
Lemma C5_counterexample :
  (∃ cg',
     EmitLabel 1 (EmitFixup 1 Codegen_new) = Some cg' ∧
     placed cg' 1 ∧
     fixups_ cg' !! 1 = Some [0%nat]) ∧
  (∃ cg,
     Translate_state sample_fn_ptr forward_call = Some cg ∧
     labelToAddress_ cg !! 1 = Some 12 ∧
     fixups_ cg !! 1 = Some [1%nat]) ∧
  (∃ cg,
     Translate_state sample_fn_ptr twice_declared = Some cg ∧
     labelToAddress_ cg !! 1 = Some 12 ∧
     fixups_ cg !! 1 = Some [1%nat] ∧
     operand (code_ cg) 1 = 30).
Proof.
  split; [|split].
  - eexists. split; [vm_compute; reflexivity|]. split; [|reflexivity].
    eexists. vm_compute. reflexivity.
  - eexists. split; [vm_compute; reflexivity|]. split; reflexivity.
  - eexists. split; [vm_compute; reflexivity|].
    split; [reflexivity|]. split; reflexivity.
Qed.

(** C5, amended. When a label is placed, every fixup recorded for it is
    rewritten: its four low-order bytes become those of the address and the
    operand then holds the address (modulo 2^32). The label is then placed,
    and the address recorded for it is this address, unless the label had
    been placed before (a function declared twice): then the recorded
    address stays the older one, while the fixups are rewritten to the new
    one. The entry of the label in the fixup table is not cleared but
    written back as it was, and the other entries are not touched; a later
    reference to the label is emitted directly and leaves the table as it
    is. After a translation every label with an entry in the fixup table is
    placed. *)
Theorem C5_placed_label_keeps_entry :
  (∀ cg l,
     fixups_wf cg →
     ∃ cg',
       EmitLabel l cg = Some cg' ∧
       placed cg' l ∧
       labelToAddress_ cg' !! l =
         Some (default (wrap32 (Z.of_nat (length (code_ cg))))
                 (labelToAddress_ cg !! l)) ∧
       (∀ loc, loc ∈ fixup_locs cg l →
          take 4 (drop loc (code_ cg')) =
            le_bytes 4 (Z.of_nat (length (code_ cg))) ∧
          operand (code_ cg') loc = wrap32 (Z.of_nat (length (code_ cg)))) ∧
       fixups_ cg' !! l = Some (fixup_locs cg l) ∧
       (∀ l', l' ≠ l → fixups_ cg' !! l' = fixups_ cg !! l') ∧
       fixups_ (EmitFixup l cg') = fixups_ cg') ∧
  (∀ fn_ptr mod_ cg l,
     Translate_state fn_ptr mod_ = Some cg →
     is_Some (fixups_ cg !! l) → placed cg l).
Proof.
  split.
  - intros cg l Hwf.
    destruct (EmitLabel_spec l cg Hwf)
      as (cg' & HE & Hlen & Hf & Hla & _ & _ & _ & Hw & Hfr).
    pose proof (λ l', placed_emplace _ _ _ _ l' Hla) as Hpl.
    assert (placed cg' l) as Pl by (apply Hpl; by right).
    exists cg'. split; [done|]. split; [done|].
    split; [|split; [|split; [|split]]].
    + rewrite Hla. unfold emplace.
      destruct (labelToAddress_ cg !! l) as [a0|] eqn:Ha0; [done|].
      by rewrite lookup_insert_eq.
    + intros loc Hin. split; [by apply Hw|].
      pose proof (wf_bound _ Hwf l loc Hin) as Hb.
      rewrite operand_split by lia. unfold low4, high4.
      rewrite (Hw loc Hin), le_value_le_bytes_4.
      rewrite Hfr, (wf_high _ Hwf l loc Hin); [cbn; lia|].
      intros loc0 Hin0.
      destruct (wf_apart _ Hwf l l loc loc0 Hin Hin0) as [[_ ->]|[?|?]]; lia.
    + by rewrite Hf, lookup_insert_eq.
    + intros l' Hne. by rewrite Hf, lookup_insert_ne.
    + destruct Pl as [a Ha]. by rewrite (EmitFixup_placed _ _ _ Ha).
  - intros fn_ptr mod_ cg l HT [locs Hlocs].
    destruct (Translate_from_inv fn_ptr Codegen_new mod_ cg) as [Hwf Hpl];
      [done..|].
    destruct locs as [|loc locs]; [by apply (wf_entry _ Hwf)|].
    apply (Hpl l loc). unfold fixup_locs. rewrite Hlocs. left.
Qed.

Lemma fixups_wf_pending_reference l :
  fixups_wf (EmitFixup l Codegen_new).
Proof.
  apply (gen_inv_EmitFixup (λ _, True)); [|by right].
  by apply gen_inv_empty.
Qed.

(** The placeholder of a forward reference, and the forward call. *)
Lemma C5_witness :
  (∃ cg',
     EmitLabel 1 (EmitFixup 1 Codegen_new) = Some cg' ∧
     placed cg' 1 ∧
     labelToAddress_ cg' !! 1 =
       Some (default (wrap32 (Z.of_nat (length (code_ (EmitFixup 1 Codegen_new)))))
               (labelToAddress_ (EmitFixup 1 Codegen_new) !! 1)) ∧
     (∀ loc, loc ∈ fixup_locs (EmitFixup 1 Codegen_new) 1 →
        take 4 (drop loc (code_ cg')) =
          le_bytes 4 (Z.of_nat (length (code_ (EmitFixup 1 Codegen_new)))) ∧
        operand (code_ cg') loc =
          wrap32 (Z.of_nat (length (code_ (EmitFixup 1 Codegen_new))))) ∧
     fixups_ cg' !! 1 = Some (fixup_locs (EmitFixup 1 Codegen_new) 1) ∧
     (∀ l', l' ≠ 1 → fixups_ cg' !! l' = fixups_ (EmitFixup 1 Codegen_new) !! l') ∧
     fixups_ (EmitFixup 1 cg') = fixups_ cg') ∧
  (∃ cg, Translate_state sample_fn_ptr forward_call = Some cg ∧ placed cg 1).
Proof.
  split.
  - exact (proj1 C5_placed_label_keeps_entry (EmitFixup 1 Codegen_new) 1
             (fixups_wf_pending_reference 1)).
  - eexists. split; [vm_compute; reflexivity|].
    refine (proj2 C5_placed_label_keeps_entry sample_fn_ptr forward_call _ 1 _ _).
    + vm_compute. reflexivity.
    + eexists. vm_compute. reflexivity.
Defined.

(** ** The width of a patched address *)




(** ** Native calls and the static depth *)

(** C2, on the code. The call [output(input())] is lowered with the static
    depth 1 after its CALL instruction, but when the interpreter has
    completed that CALL (the fourth instruction) the stack holds two values:
    [PrintInt] peeks at its argument and pushes it once more instead of
    popping it, so a call of the native output primitive leaves one value
    more than the generator counts. *)
Theorem C2_native_call_depth_mismatch :
  ∃ cg st,
    LowerExpr sample_fn_ptr proto_scope print_call Codegen_new = Some cg ∧
    depth_ cg = 1 ∧
    Run sample_fn_ptr 4 (code_ cg) (Interp_new [7]) = OutOfFuel st ∧
    pc_ st = Z.of_nat (length (code_ cg)) ∧
    cout_ st = [7] ∧
    stack_ st = [VInt 7; VInt 7] ∧
    Z.of_nat (length (stack_ st)) ≠ depth_ cg.
Proof.
  eexists _, _. split; [vm_compute; reflexivity|].
  split; [reflexivity|]. split; [vm_compute; reflexivity|].
  split; [reflexivity|]. split; [reflexivity|]. split; [reflexivity|].
  vm_compute. discriminate.
Qed.

(** C1, on the code. The translated Scenario A runs to the STOP instruction
    and the output primitive observes the integer 5 exactly once, but the
    operand stack is not empty at the end: it still holds the integer 5
    that [PrintInt] has pushed on top of its argument. *)
Theorem C1_scenario_A_residual_stack :
  ∃ code,
    Translate sample_fn_ptr scenario_A = Some code ∧
    Run sample_fn_ptr 14 code (Interp_new scenario_A_input) =
      Stopped (mkInterp 42 [VInt 5] [] [5]) ∧
    stack_ (mkInterp 42 [VInt 5] [] [5]) ≠ [].
Proof.
  eexists. split; [vm_compute; reflexivity|].
  split; [vm_compute; reflexivity|discriminate].
Qed.


(** C3, on the code. In [f(input())] with
    [func f(a: int): int { output(a); return rd(a) }] and the input 7 9, the
    stack is empty before the argument is pushed. After three instructions
    the CALL finds the callee and the one argument; the RET of [f] (the
    twelfth instruction) resumes behind that CALL, and the stack then holds
    three values, not one: the result, and below it the resumption address
    and the argument, which RET has not removed. [PrintInt] has left one
    value more than the generator counts in the frame of [f], so the
    operands of RET (the static depth 0 and the arity 1) remove the wrong
    slots. *)
Theorem C3_call_return_asymmetry :
  ∃ code st_call st_ret st',
    Translate sample_fn_ptr stray_call = Some code ∧
    stack_ (Interp_new stray_call_input) = [] ∧
    Run sample_fn_ptr 3 code (Interp_new stray_call_input) =
      OutOfFuel st_call ∧
    code_at code (pc_ st_call) [Opcode_byte CALL] ∧
    stack_ st_call = [VAddr 22; VInt 7] ∧
    Run sample_fn_ptr 11 code (Interp_new stray_call_input) =
      OutOfFuel st_ret ∧
    code_at code (pc_ st_ret) (Opcode_byte RET :: le_bytes 4 0 ++ le_bytes 4 1) ∧
    Step sample_fn_ptr code st_ret = inr (Continue, st') ∧
    pc_ st' = pc_ st_call + 1 ∧
    stack_ st' = [VInt 9; VAddr 20; VInt 7] ∧
    length (stack_ st') ≠ S (length (stack_ (Interp_new stray_call_input))).
Proof.
  eexists _, _, _, _. split; [vm_compute; reflexivity|].
  split; [reflexivity|]. split; [vm_compute; reflexivity|].
  split; [vm_compute; repeat split; discriminate|].
  split; [reflexivity|]. split; [vm_compute; reflexivity|].
  split; [vm_compute; repeat split; discriminate|].
  split; [vm_compute; reflexivity|].
  split; [reflexivity|]. split; [reflexivity|].
  vm_compute. discriminate.
Qed.

(** C9, on the code. In the body of
    [func f(a: int): int { output(a); return rd(a) }] the static depth is 0
    again after the statement [output(a)], and the next reference to [a]
    (slot 0) is lowered to PEEK with the operand 0 + 0 + 1. When the
    program [f(input())] reaches that PEEK (ninth instruction, input 7 9),
    the frame holds one value above the resumption address, the one
    [PrintInt] has left, so that the slot 1 below the top is the resumption
    address: PEEK pushes a copy of it, not of the argument 7. *)
Theorem C9_argument_reference_misses :
  ∃ cg1 cg2 code st st',
    Lookup stray_scope "a" = Some (ARG 0) ∧
    LowerStmt sample_fn_ptr stray_scope
      (ExprStmt (CallExpr (RefExpr "output") [RefExpr "a"])) Codegen_new =
      Some cg1 ∧
    depth_ cg1 = 0 ∧
    LowerExpr sample_fn_ptr stray_scope (RefExpr "a") cg1 = Some cg2 ∧
    code_ cg2 =
      code_ cg1 ++ Opcode_byte PEEK :: le_bytes 4 (depth_ cg1 + 0 + 1) ∧
    Translate sample_fn_ptr stray_call = Some code ∧
    Run sample_fn_ptr 8 code (Interp_new stray_call_input) = OutOfFuel st ∧
    code_at code (pc_ st) (Opcode_byte PEEK :: le_bytes 4 (0 + 0 + 1)) ∧
    stack_ st = [VInt 7; VAddr 20; VInt 7] ∧
    Step sample_fn_ptr code st = inr (Continue, st') ∧
    stack_ st' = VAddr 20 :: stack_ st ∧
    stack_ st !! Z.to_nat (0 + 0 + 1) ≠ Some (VInt 7).
Proof.
  eexists _, _, _, _, _. split; [vm_compute; reflexivity|].
  split; [vm_compute; reflexivity|]. split; [reflexivity|].
  split; [vm_compute; reflexivity|]. split; [vm_compute; reflexivity|].
  split; [vm_compute; reflexivity|]. split; [vm_compute; reflexivity|].
  split; [vm_compute; repeat split; discriminate|].
  split; [reflexivity|]. split; [vm_compute; reflexivity|].
  split; [reflexivity|]. vm_compute. discriminate.
Qed.

(** ** Functions over their parameters: the static depth at run time *)

Lemma EmitAdd_spec cg :
  0 < depth_ cg →
  ∃ cg', EmitAdd cg = Some cg' ∧
    code_ cg' = code_ cg ++ [Opcode_byte ADD] ∧
    depth_ cg' = depth_ cg - 1 ∧ func_ cg' = func_ cg.
Proof.
  intros Hd. unfold EmitAdd. rewrite decide_True by done.
  eexists. split; [done|]. split; [by rewrite EmitOpcode_code|done].
Qed.

Section LeafFunctions.

Variable fn_ptr : RuntimeFn → Z.
Variable scope : Scope.
Variable args : list Value.

Hypothesis scope_args :
  ∀ name i, Lookup scope name = Some (ARG i) →
    0 ≤ i < Z.of_nat (length args).

(** An expression over the parameters, lowered at the static depth [d] and
    run on a frame with [d] temporaries: its instructions push exactly one
    value on top of the frame, unless an addition faults. *)
Lemma arg_only_expr_runs e :
  arg_only scope e = true →
  ∀ cg,
  0 ≤ depth_ cg →
  depth_ cg + Z.of_nat (instr_count e) + Z.of_nat (length args) < 2 ^ 32 →
  ∃ cg' bytes,
    LowerExpr fn_ptr scope e cg = Some cg' ∧
    code_ cg' = code_ cg ++ bytes ∧
    depth_ cg' = depth_ cg + 1 ∧
    func_ cg' = func_ cg ∧
    ∀ code st temps ret base,
      Z.of_nat (length code) < 2 ^ 64 →
      code_at code (pc_ st) bytes →
      stack_ st = temps ++ VAddr ret :: args ++ base →
      Z.of_nat (length temps) = depth_ cg →
      (∃ f st', Run fn_ptr (instr_count e) code st = Faulted f st' ∧
                cout_ st' = cout_ st) ∨
      (∃ v, Run fn_ptr (instr_count e) code st =
              OutOfFuel (set_stack (v :: stack_ st)
                           (set_pc (pc_ st + Z.of_nat (length bytes)) st))).
Proof.
  induction e as [name|kind lhs rhs IHl IHr|callee cargs _ _] using Expr_ind;
    cbn [arg_only instr_count]; [| |done].
  - destruct (Lookup scope name) as [[?|?|i]|] eqn:Hlk; try done.
    intros _ cg Hd Hsum. destruct (scope_args _ _ Hlk) as [Hi0 Hi].
    eexists _, _. split.
    { cbn [LowerExpr]. unfold LowerRefExpr. rewrite Hlk. reflexivity. }
    rewrite (wrap32_small (_ + _ + 1)) by lia.
    split; [apply EmitPeek_code|].
    split; [cbn; apply wrap32_small; lia|]. split; [done|].
    intros code st temps ret base Hsz Hat Hstk Htemps. right.
    assert (is_Some (args !! Z.to_nat i)) as [a Ha].
    { apply lookup_lt_is_Some. lia. }
    assert (stack_ st !! Z.to_nat (depth_ cg + i + 1) = Some a) as Hslot.
    { rewrite Hstk, lookup_app_r by lia.
      replace (Z.to_nat (depth_ cg + i + 1) - length temps)%nat
        with (S (Z.to_nat i)) by lia.
      cbn. by apply lookup_app_l_Some. }
    exists a. rewrite (Run_continue fn_ptr code 0 st _
      (Step_PEEK fn_ptr code Hsz st (depth_ cg + i + 1) a ltac:(lia) Hat Hslot)).
    cbn [Run length]. rewrite length_le_bytes. do 3 f_equal.
  - intros [Hal Har]%andb_prop cg Hd Hsum.
    destruct (IHl Hal cg Hd ltac:(lia))
      as (cg1 & bs1 & HL1 & Hc1 & Hd1 & Hf1 & Hrun1).
    destruct (IHr Har cg1 ltac:(lia) ltac:(lia))
      as (cg2 & bs2 & HL2 & Hc2 & Hd2 & Hf2 & Hrun2).
    destruct (EmitAdd_spec cg2 ltac:(lia)) as (cg3 & HA & Hc3 & Hd3 & Hf3).
    exists cg3, (bs1 ++ bs2 ++ [Opcode_byte ADD]). split.
    { cbn [LowerExpr]. destruct kind. rewrite HL1. cbn. rewrite HL2. cbn. done. }
    split; [by rewrite Hc3, Hc2, Hc1, <- !app_assoc|].
    split; [lia|]. split; [congruence|].
    intros code st temps ret base Hsz Hat Hstk Htemps.
    apply code_at_app in Hat as [Hat1 Hat23].
    apply code_at_app in Hat23 as [Hat2 Hat3].
    rewrite <- Nat.add_assoc, Run_add.
    destruct (Hrun1 code st temps ret base Hsz Hat1 Hstk Htemps)
      as [(f & st' & -> & Hout)|(v1 & ->)]; [left; by eexists _, _|].
    pose (st1 := set_stack (v1 :: stack_ st)
                   (set_pc (pc_ st + Z.of_nat (length bs1)) st)).
    fold st1. rewrite Run_add.
    destruct (Hrun2 code st1 (v1 :: temps) ret base Hsz Hat2)
      as [(f & st' & -> & Hout)|(v2 & ->)].
    { subst st1. cbn [stack_ set_stack set_pc]. by rewrite Hstk. }
    { cbn [length]. lia. }
    { left. by eexists _, _. }
    pose (st2 := set_stack (v2 :: stack_ st1)
                   (set_pc (pc_ st1 + Z.of_nat (length bs2)) st1)).
    fold st2.
    destruct (Step_ADD fn_ptr code Hsz st2 v2 v1 (stack_ st) Hat3 eq_refl)
      as [(f & st' & HS & Hout)|(v & HS)].
    + left. exists f, st'. split; [by apply Run_fault|done].
    + right. exists v. rewrite (Run_continue _ _ 0 _ _ HS). cbn [Run].
      subst st2 st1. destruct st as [pc stk ci co].
      unfold set_stack, set_pc. cbn [pc_ stack_ cin_ cout_].
      rewrite !length_app. cbn [length]. do 2 f_equal. lia.
Qed.

End LeafFunctions.
Lemma func_arg_map_index params name i :
  func_arg_map params !! name = Some i →
  0 ≤ i < Z.of_nat (length params).
Proof.
  unfold func_arg_map.
  assert (∀ (acc : gmap string Z) (n : nat),
            (size acc ≤ n)%nat →
            (∀ name i, acc !! name = Some i → 0 ≤ i < Z.of_nat n) →
            ∀ name i,
              foldl (λ (args : gmap string Z) (p : string * string),
                       <[p.1 := wrap32 (Z.of_nat (size args))]> args)
                acc params !! name = Some i →
              0 ≤ i < Z.of_nat (n + length params)) as Haux.
  { induction params as [|p params IH]; intros acc n Hsize Hacc name' i'.
    - cbn. intros H%Hacc. lia.
    - cbn [foldl length]. intros H.
      replace (n + S (length params))%nat with (S n + length params)%nat by lia.
      eapply IH; [| |exact H].
      + destruct (acc !! p.1) eqn:Hp.
        * rewrite map_size_insert_Some by done. lia.
        * rewrite map_size_insert_None by done. lia.
      + intros nm j. destruct (decide (p.1 = nm)) as [<-|Hne].
        * rewrite lookup_insert_eq. intros [= <-].
          pose proof (wrap32_range (Z.of_nat (size acc))).
          pose proof (wrap32_le (Z.of_nat (size acc))). lia.
        * rewrite lookup_insert_ne by done. intros H'%Hacc. lia. }
  intros H. apply (Haux ∅ 0%nat) in H; [done|by rewrite map_size_empty|].
  intros nm j. by rewrite lookup_empty.
Qed.

Lemma arg_only_BlockScope scope e :
  arg_only (BlockScope scope) e = arg_only scope e.
Proof.
  induction e as [name|kind lhs rhs IHl IHr|callee cargs _ _] using Expr_ind;
    cbn [arg_only Lookup]; [done| |done].
  by rewrite IHl, IHr.
Qed.

(** Call/return symmetry, run through: a function whose body returns an
    expression over its parameters is called with its arguments above
    [base]. From the CALL, the body and its RET run in [instr_count + 2]
    turns of the loop and leave the interpreter behind the call with one
    result on top of [base]; the only other outcome is a fault raised by an
    addition, without any output. *)
Lemma leaf_function_call_return
  fn_ptr funcs protos (f : FuncDecl) (e : Expr) (cg : Codegen)
  (code : list Z) (st : Interp) (entry : Z) (args base : list Value) :
  let scope := FuncScope (GlobalScope funcs protos) (func_arg_map (func_args f)) in
  func_body f = [ReturnStmt e] →
  arg_only scope e = true →
  depth_ cg = 0 → func_ cg = Some f →
  Z.of_nat (instr_count e) + arg_size f < 2 ^ 32 →
  ∃ cg',
    LowerBlockStmt fn_ptr scope (func_body f) cg = Some cg' ∧
    depth_ cg' = 0 ∧
    (Z.of_nat (length code) < 2 ^ 64 →
     code_at code (pc_ st) [Opcode_byte CALL] →
     code_at code entry (drop (length (code_ cg)) (code_ cg')) →
     stack_ st = VAddr entry :: args ++ base →
     length args = length (func_args f) →
     (∃ fault st',
        Run fn_ptr (instr_count e + 2) code st = Faulted fault st' ∧
        cout_ st' = cout_ st) ∨
     (∃ v,
        Run fn_ptr (instr_count e + 2) code st =
          OutOfFuel (set_stack (v :: base) (set_pc (pc_ st + 1) st)))).
Proof.
  intros scope Hbody Harg Hd0 Hfn Hsum. unfold arg_size in Hsum.
  assert (∀ (args : list Value), length args = length (func_args f) →
            ∀ name i, Lookup (BlockScope scope) name = Some (ARG i) →
              0 ≤ i < Z.of_nat (length args)) as Hscope.
  { intros args' Hlen name i. cbn [Lookup scope].
    destruct (func_arg_map (func_args f) !! name) as [j|] eqn:Hj.
    - intros [= <-]. rewrite Hlen. by eapply func_arg_map_index.
    - destruct (funcs !! name); [done|]. by destruct (protos !! name). }
  rewrite <- arg_only_BlockScope in Harg.
  destruct (arg_only_expr_runs fn_ptr (BlockScope scope)
              (replicate (length (func_args f)) (VInt 0))
              (Hscope _ (length_replicate _ _)) e Harg cg)
    as (cg1 & bs & HL & Hc1 & Hd1 & Hf1 & _).
  { lia. } { rewrite length_replicate. lia. }
  destruct (EmitReturn cg1) as [cg2|] eqn:HR;
    [|unfold EmitReturn in HR; rewrite decide_True in HR by lia; done].
  destruct (EmitReturn_code _ _ HR) as (_ & Hd2 & Hc2).
  exists cg2. split.
  { unfold LowerBlockStmt. rewrite LowerStmt_block, Hbody. cbn [LowerStmts].
    cbn [LowerStmt]. unfold LowerReturnStmt. rewrite HL. cbn [mbind option_bind].
    rewrite HR. cbn [mbind option_bind]. rewrite decide_True by lia. done. }
  split; [lia|].
  intros Hsz Hcall Hbodyat Hstk Hlen.
  rewrite Hc2, Hc1, <- app_assoc, drop_app_length in Hbodyat.
  apply code_at_app in Hbodyat as [Hat1 Hat2].
  replace (instr_count e + 2)%nat with (1 + (instr_count e + 1))%nat by lia.
  rewrite Run_add.
  rewrite (Run_continue _ _ 0 _ _ (Step_CALL_addr fn_ptr code Hsz st _ _ Hcall Hstk)).
  cbn [Run]. rewrite Run_add.
  pose (st1 := set_pc entry (set_stack (VAddr (pc_ st + 1) :: args ++ base) st)).
  fold st1.
  destruct (arg_only_expr_runs fn_ptr (BlockScope scope) args
              (Hscope _ Hlen) e Harg cg ltac:(lia) ltac:(lia))
    as (cg1' & bs' & HL' & Hc1' & _ & _ & Hrun).
  rewrite HL in HL'. injection HL' as <-.
  rewrite Hc1 in Hc1'. apply app_inv_head in Hc1' as <-.
  destruct (Hrun code st1 [] (pc_ st + 1) base Hsz Hat1 eq_refl ltac:(cbn; lia))
    as [(fault & st' & -> & Hout)|(v & ->)]; [left; by eexists _, _|].
  right. exists v.
  pose (st2 := set_stack (v :: stack_ st1)
                 (set_pc (pc_ st1 + Z.of_nat (length bs)) st1)).
  fold st2.
  assert (Step fn_ptr code st2 =
            inr (Continue, set_stack (v :: base) (set_pc (pc_ st + 1) st2)))
    as HS.
  { apply (Step_RET fn_ptr code Hsz st2 (depth_ cg1 - 1)
             (Z.of_nat (length (func_args f))) v [] args base (pc_ st + 1));
      [lia|lia| |done|cbn; lia|lia].
    rewrite Hf1, Hfn in Hat2. exact Hat2. }
  rewrite (Run_continue _ _ 0 _ _ HS). cbn [Run]. by destruct st.
Qed.

(** The function [add] of Scenario A is such a function. *)
Example add_call_return (code : list Z) (st : Interp) (entry : Z)
  (a b : Value) (base : list Value) :
  ∃ cg',
    LowerBlockStmt sample_fn_ptr
      (FuncScope (GlobalScope ∅ ∅) (func_arg_map (func_args add_decl)))
      (func_body add_decl) (set_func (Some add_decl) Codegen_new) = Some cg' ∧
    depth_ cg' = 0 ∧
    (Z.of_nat (length code) < 2 ^ 64 →
     code_at code (pc_ st) [Opcode_byte CALL] →
     code_at code entry (drop 0 (code_ cg')) →
     stack_ st = VAddr entry :: [a; b] ++ base →
     length [a; b] = length (func_args add_decl) →
     (∃ fault st',
        Run sample_fn_ptr (3 + 2) code st = Faulted fault st' ∧
        cout_ st' = cout_ st) ∨
     (∃ v,
        Run sample_fn_ptr (3 + 2) code st =
          OutOfFuel (set_stack (v :: base) (set_pc (pc_ st + 1) st)))).
Proof.
  exact (leaf_function_call_return sample_fn_ptr ∅ ∅ add_decl
           (BinaryExpr ADD_KIND (RefExpr "a") (RefExpr "b"))
           (set_func (Some add_decl) Codegen_new) code st entry [a; b] base
           eq_refl ltac:(vm_compute; reflexivity) eq_refl eq_refl
           ltac:(vm_compute; reflexivity)).
Qed.

(** * Further properties of the interpreter *)

(** ** The container as a wire format *)

(** X1. What [Emit<T>] appends, [Read<T>] returns: a value that fits in
    [sizeof(T)] bytes is read back unchanged at the offset it was emitted
    at, whatever is emitted after it, and the program counter moves behind
    it. *)
Theorem Emit_Read_roundtrip
  (n : nat) (v : Z) (cg : Codegen) (more : list Z) (st : Interp) :
  0 ≤ v < 256 ^ Z.of_nat n →
  pc_ st = Z.of_nat (length (code_ cg)) →
  Z.of_nat (length (code_ (Emit n v cg) ++ more)) < 2 ^ 64 →
  Read n (code_ (Emit n v cg) ++ more) st =
    inr (v, set_pc (pc_ st + Z.of_nat n) st).
Proof.
  intros Hv Hpc Hsz.
  rewrite <- (Z.mod_small v (256 ^ Z.of_nat n)) at 2 by done.
  rewrite <- le_value_le_bytes.
  apply Read_at; [done| |apply length_le_bytes].
  unfold Emit. cbn [code_ set_code]. rewrite <- app_assoc.
  unfold code_at. rewrite Hpc, Nat2Z.id, drop_app_length, take_app_length.
  rewrite !length_app. split; [lia|]. split; [lia|done].
Qed.

Lemma Emit_Read_roundtrip_witness :
  Read 4 (code_ (Emit 4 70000 (EmitOpcode PEEK Codegen_new)) ++ [Opcode_byte STOP])
    (mkInterp 1 [] [] []) =
  inr (70000, set_pc (1 + Z.of_nat 4) (mkInterp 1 [] [] [])).
Proof.
  exact (Emit_Read_roundtrip 4 70000 (EmitOpcode PEEK Codegen_new)
           [Opcode_byte STOP] (mkInterp 1 [] [] [])
           ltac:(vm_compute; split; [discriminate|reflexivity])
           ltac:(reflexivity) ltac:(vm_compute; reflexivity)).
Defined.

(** ** Edge cases of the main loop *)

(** X2. The switch of [Run] has no default case: a byte that is not one of
    the ten opcodes is skipped, the loop goes on with the next byte and
    neither the stack nor the streams change. *)
Theorem Step_unknown_opcode fn_ptr (code : list Z) (st : Interp) (b : Z) :
  Z.of_nat (length code) < 2 ^ 64 →
  code_at code (pc_ st) [b] →
  b < 0 ∨ 9 < b →
  Step fn_ptr code st = inr (Continue, set_pc (pc_ st + 1) st).
Proof.
  intros Hsz Hat Hb. unfold Step.
  erewrite bind_inr; [|by apply Read_at].
  rewrite le_value_singleton.
  assert (Opcode_of_byte b = None) as ->; [|done].
  unfold Opcode_of_byte. repeat (rewrite decide_False by lia). done.
Qed.

Lemma Step_unknown_opcode_witness :
  Step sample_fn_ptr [200; Opcode_byte STOP] (mkInterp 0 [VInt 1] [2] [3]) =
  inr (Continue, set_pc (0 + 1) (mkInterp 0 [VInt 1] [2] [3])).
Proof.
  exact (Step_unknown_opcode sample_fn_ptr [200; Opcode_byte STOP]
           (mkInterp 0 [VInt 1] [2] [3]) 200
           ltac:(vm_compute; reflexivity)
           ltac:(vm_compute; repeat split; discriminate)
           ltac:(right; lia)).
Defined.

(** X3. Running off the end of the container: when the program counter is
    at or behind the last byte, the assertion of [Program::Read] fails, the
    state is left as it was and the run ends there. A function body that
    does not end in a return reaches this point when no other code
    follows. *)
Theorem Step_end_of_code fn_ptr (code : list Z) (st : Interp) (fuel : nat) :
  Z.of_nat (length code) ≤ pc_ st →
  pc_ st + 1 < 2 ^ 64 →
  Step fn_ptr code st =
    inl (AssertFail "pc + sizeof(T) <= code_.size()", st) ∧
  Run fn_ptr (S fuel) code st =
    Faulted (AssertFail "pc + sizeof(T) <= code_.size()") st.
Proof.
  intros Hpc Hmax.
  assert (Step fn_ptr code st =
            inl (AssertFail "pc + sizeof(T) <= code_.size()", st)) as HS.
  { unfold Step. apply bind_inl. unfold Read.
    rewrite wrap64_small by lia. rewrite decide_False by lia. done. }
  split; [done|]. by apply Run_fault.
Qed.

Lemma Step_end_of_code_witness :
  Step sample_fn_ptr [Opcode_byte POP] (mkInterp 1 [] [] []) =
    inl (AssertFail "pc + sizeof(T) <= code_.size()", mkInterp 1 [] [] []) ∧
  Run sample_fn_ptr 1 [Opcode_byte POP] (mkInterp 1 [] [] []) =
    Faulted (AssertFail "pc + sizeof(T) <= code_.size()") (mkInterp 1 [] [] []).
Proof.
  exact (Step_end_of_code sample_fn_ptr [Opcode_byte POP] (mkInterp 1 [] [] []) 0
           ltac:(vm_compute; discriminate) ltac:(vm_compute; reflexivity)).
Defined.

(** X4. Stack underflow: POP, CALL, ADD and JUMP_FALSE on an empty stack
    fail the assertion of [Interp::Pop] right after the opcode has been
    read; nothing is pushed, printed or read. *)
Theorem Step_empty_stack fn_ptr (code : list Z) (st : Interp) (op : Opcode) :
  Z.of_nat (length code) < 2 ^ 64 →
  op ∈ [POP; CALL; ADD; JUMP_FALSE] →
  code_at code (pc_ st) [Opcode_byte op] →
  stack_ st = [] →
  Step fn_ptr code st =
    inl (AssertFail "stack empty", set_pc (pc_ st + 1) st).
Proof.
  intros Hsz Hop Hat Hstk.
  destruct (Step_fetch fn_ptr code Hsz st _ _ Hat) as [-> _].
  assert (Pop (set_pc (pc_ st + 1) st) =
            inl (AssertFail "stack empty", set_pc (pc_ st + 1) st)) as HP.
  { unfold Pop. cbn [stack_ set_pc]. by rewrite Hstk. }
  repeat (apply elem_of_cons in Hop as [->|Hop]);
    [..|by apply elem_of_nil in Hop]; cbn [dispatch].
  - by apply bind_inl.
  - unfold do_CALL. by apply bind_inl.
  - unfold do_ADD, PopInt. apply bind_inl. by apply bind_inl.
  - unfold do_JUMP_FALSE. by apply bind_inl.
Qed.

Lemma Step_empty_stack_witness :
  Step sample_fn_ptr [Opcode_byte ADD] (mkInterp 0 [] [] []) =
    inl (AssertFail "stack empty", set_pc (0 + 1) (mkInterp 0 [] [] [])).
Proof.
  exact (Step_empty_stack sample_fn_ptr [Opcode_byte ADD] (mkInterp 0 [] [] []) ADD
           ltac:(vm_compute; reflexivity)
           ltac:(do 2 right; left)
           ltac:(vm_compute; repeat split; discriminate)
           ltac:(reflexivity)).
Defined.

(** X5. PEEK is not bounds checked: with an operand that is not below the
    height of the stack, [*(stack_.rbegin() + idx)] is outside the vector
    and the behaviour is undefined; the model stops with that fault, the
    stack and the streams as they were. *)
Theorem Step_PEEK_outside fn_ptr (code : list Z) (st : Interp) (idx : Z) :
  Z.of_nat (length code) < 2 ^ 64 →
  0 ≤ idx < 2 ^ 32 →
  code_at code (pc_ st) (Opcode_byte PEEK :: le_bytes 4 idx) →
  Z.of_nat (length (stack_ st)) ≤ idx →
  Step fn_ptr code st =
    inl (Undefined "peek below the stack", set_pc (pc_ st + 5) st).
Proof.
  intros Hsz Hidx Hat Hlen.
  destruct (Step_fetch fn_ptr code Hsz st _ _ Hat) as [-> Hop].
  cbn [dispatch]. unfold do_PEEK.
  erewrite bind_inr; [|apply Read_at; [done|exact Hop|apply length_le_bytes]].
  rewrite le_value_le_bytes_4, wrap32_small by lia.
  apply bind_inl. unfold stack_at. cbn [stack_ set_pc pc_].
  assert (stack_ st !! Z.to_nat idx = None) as ->
    by (apply lookup_ge_None; lia).
  destruct st. unfold set_pc. cbn [pc_ stack_ cin_ cout_].
  by replace (pc_0 + 1 + Z.of_nat 4) with (pc_0 + 5) by lia.
Qed.

Lemma Step_PEEK_outside_witness :
  Step sample_fn_ptr (Opcode_byte PEEK :: le_bytes 4 1)
    (mkInterp 0 [VInt 7] [] []) =
    inl (Undefined "peek below the stack",
         set_pc (0 + 5) (mkInterp 0 [VInt 7] [] [])).
Proof.
  exact (Step_PEEK_outside sample_fn_ptr (Opcode_byte PEEK :: le_bytes 4 1)
           (mkInterp 0 [VInt 7] [] []) 1
           ltac:(vm_compute; reflexivity) ltac:(lia)
           ltac:(vm_compute; repeat split; discriminate)
           ltac:(vm_compute; discriminate)).
Defined.

(** X6. RET over a frame that is not the one the generator lays out ends
    in a fault and never reads outside the stack: fewer values than the
    depth operand under the return value make [resize] throw, no value at
    all under the temporaries fails the assertion of [Pop], a value there
    that is no code address fails the assertion of [PopAddr], and fewer
    arguments than the second operand make the second [resize] throw. *)
Theorem Step_RET_bad_frame fn_ptr (code : list Z) (st : Interp)
    (depth nargs : Z) (v : Value) (s : list Value) :
  Z.of_nat (length code) < 2 ^ 64 →
  0 ≤ depth < 2 ^ 32 → 0 ≤ nargs < 2 ^ 32 →
  code_at code (pc_ st)
    (Opcode_byte RET :: le_bytes 4 depth ++ le_bytes 4 nargs) →
  stack_ st = v :: s →
  (Z.of_nat (length s) < depth →
     fault_of (Step fn_ptr code st) = Some (Throw length_error)) ∧
  (Z.of_nat (length s) = depth →
     fault_of (Step fn_ptr code st) = Some (AssertFail "stack empty")) ∧
  (∀ x, s !! Z.to_nat depth = Some x → (∀ a, x ≠ VAddr a) →
     fault_of (Step fn_ptr code st) =
       Some (AssertFail "v.Kind == Value::Kind::ADDR")) ∧
  (∀ ret rest, drop (Z.to_nat depth) s = VAddr ret :: rest →
     Z.of_nat (length rest) < nargs →
     fault_of (Step fn_ptr code st) = Some (Throw length_error)).
Proof.
  intros Hsz Hd Hn Hat Hstk.
  destruct (Step_fetch fn_ptr code Hsz st _ _ Hat) as [-> Hops].
  apply code_at_app in Hops as [Hop1 Hop2]. rewrite length_le_bytes in Hop2.
  cbn [dispatch]. unfold do_RET.
  erewrite bind_inr; [|apply Read_at; [done|exact Hop1|apply length_le_bytes]].
  erewrite bind_inr;
    [|apply Read_at; [done|cbn [pc_ set_pc]; exact Hop2|apply length_le_bytes]].
  rewrite !le_value_le_bytes_4, !wrap32_small by lia.
  erewrite bind_inr; [|unfold Pop; cbn [stack_ set_pc]; by rewrite Hstk].
  set (st1 := set_stack s _).
  assert (stack_ st1 = s) as Hs1 by done.
  repeat split.
  - intros Hlt. rewrite (bind_inl _ _ _ (Throw length_error, st1)); [done|].
    unfold shrink. rewrite Hs1. by rewrite decide_False by lia.
  - intros Heq. erewrite bind_inr; [|apply (shrink_app code s []); [by rewrite app_nil_r|done]].
    rewrite (bind_inl _ _ _ (AssertFail "stack empty", set_stack [] st1));
      [done|].
    unfold PopAddr. by apply bind_inl.
  - intros x Hx Hna.
    pose proof (lookup_lt_Some _ _ _ Hx) as Hlt.
    erewrite bind_inr;
      [|apply (shrink_app code (take (Z.to_nat depth) s) (drop (Z.to_nat depth) s));
        [by rewrite take_drop|rewrite length_take; lia]].
    erewrite (drop_S _ _ _ Hx).
    set (st2 := set_stack (x :: _) _).
    assert (PopAddr st2 =
              inl (AssertFail "v.Kind == Value::Kind::ADDR",
                   set_stack (drop (S (Z.to_nat depth)) s) st2)) as HP.
    { unfold PopAddr. erewrite bind_inr; [|reflexivity].
      destruct x; [done| |done]. by edestruct Hna. }
    by rewrite (bind_inl _ _ _ _ HP).
  - intros ret rest Hdrop Hlt.
    assert (Z.to_nat depth ≤ length s)%nat as Hle.
    { destruct (decide (Z.to_nat depth ≤ length s)%nat); [done|].
      rewrite drop_ge in Hdrop by lia. done. }
    erewrite bind_inr;
      [|apply (shrink_app code (take (Z.to_nat depth) s) (drop (Z.to_nat depth) s));
        [by rewrite take_drop|rewrite length_take; lia]].
    rewrite Hdrop. unfold PopAddr.
    erewrite bind_inr; [|erewrite bind_inr; [|reflexivity]; reflexivity].
    erewrite bind_inr; [|reflexivity].
    set (st3 := set_pc ret _).
    rewrite (bind_inl _ _ _ (Throw length_error, st3)); [done|].
    unfold shrink. cbn [stack_ set_stack set_pc st3].
    by rewrite decide_False by lia.
Qed.

Lemma Step_RET_bad_frame_witness :
  fault_of (Step sample_fn_ptr (Opcode_byte RET :: le_bytes 4 1 ++ le_bytes 4 0)
              (mkInterp 0 [VInt 1; VInt 2; VInt 3] [] [])) =
    Some (AssertFail "v.Kind == Value::Kind::ADDR").
Proof.
  exact (proj1 (proj2 (proj2
           (Step_RET_bad_frame sample_fn_ptr
              (Opcode_byte RET :: le_bytes 4 1 ++ le_bytes 4 0)
              (mkInterp 0 [VInt 1; VInt 2; VInt 3] [] []) 1 0
              (VInt 1) [VInt 2; VInt 3]
              ltac:(vm_compute; reflexivity) ltac:(lia) ltac:(lia)
              ltac:(vm_compute; repeat split; discriminate)
              ltac:(reflexivity))))
           (VInt 3) ltac:(reflexivity) ltac:(discriminate)).
Defined.

(** ** Native calls *)

(** X7. CALL of the native [print_int]: with the prototype on top of an
    integer [n], the call prints [n], reads nothing, and leaves the stack
    ONE HIGHER than before the callee was pushed: the argument is peeked
    at, not popped, and a copy of it is pushed as the result. *)
Theorem Step_CALL_print_int fn_ptr (code : list Z) (st : Interp)
    (n : Z) (s : list Value) :
  Z.of_nat (length code) < 2 ^ 64 →
  code_at code (pc_ st) [Opcode_byte CALL] →
  stack_ st = VProto (fn_ptr PrintInt) :: VInt n :: s →
  Step fn_ptr code st =
    inr (Continue,
         {| pc_ := pc_ st + 1; stack_ := VInt n :: VInt n :: s;
            cin_ := cin_ st; cout_ := cout_ st ++ [n] |}).
Proof.
  intros Hsz Hat Hstk.
  destruct (Step_fetch fn_ptr code Hsz st _ _ Hat) as [-> _].
  cbn [dispatch]. unfold do_CALL.
  erewrite bind_inr; [|unfold Pop; cbn [stack_ set_pc]; by rewrite Hstk].
  unfold fn_at. rewrite decide_True by done. reflexivity.
Qed.

Lemma Step_CALL_print_int_witness :
  Step sample_fn_ptr [Opcode_byte CALL]
    (mkInterp 0 [VProto (sample_fn_ptr PrintInt); VInt 7; VInt 8] [1] [2]) =
  inr (Continue, mkInterp (0 + 1) [VInt 7; VInt 7; VInt 8] [1] ([2] ++ [7])).
Proof.
  exact (Step_CALL_print_int sample_fn_ptr [Opcode_byte CALL]
           (mkInterp 0 [VProto (sample_fn_ptr PrintInt); VInt 7; VInt 8] [1] [2])
           7 [VInt 8]
           ltac:(vm_compute; reflexivity)
           ltac:(vm_compute; repeat split; discriminate)
           ltac:(reflexivity)).
Defined.

(** X8. CALL of the native [read_int], when the two primitives have
    different addresses, prints nothing and pushes in place of the callee
    what [std::cin >> val] extracts: the next integer of the input when it
    fits [int64_t]; [INT64_MAX] or [INT64_MIN] when it is too large or too
    small, and then the stream has failed and nothing more can be read. On
    an exhausted or failed input the extraction leaves [val] without a value
    and the push of it is undefined, which the model reports as a fault
    with the input still empty. *)
Theorem Step_CALL_read_int fn_ptr (code : list Z) (st : Interp)
    (s : list Value) :
  fn_ptr ReadInt ≠ fn_ptr PrintInt →
  Z.of_nat (length code) < 2 ^ 64 →
  code_at code (pc_ st) [Opcode_byte CALL] →
  stack_ st = VProto (fn_ptr ReadInt) :: s →
  Step fn_ptr code st =
    match cin_ st with
    | v :: rest =>
        if decide (- 2 ^ 63 ≤ v ≤ 2 ^ 63 - 1) then
          inr (Continue,
               {| pc_ := pc_ st + 1; stack_ := VInt v :: s;
                  cin_ := rest; cout_ := cout_ st |})
        else
          inr (Continue,
               {| pc_ := pc_ st + 1;
                  stack_ :=
                    VInt (if decide (v < - 2 ^ 63) then - 2 ^ 63
                          else 2 ^ 63 - 1) :: s;
                  cin_ := []; cout_ := cout_ st |})
    | [] =>
        inl (Undefined "val is not initialised",
             set_stack s (set_pc (pc_ st + 1) st))
    end.
Proof.
  intros Hne Hsz Hat Hstk.
  destruct (Step_fetch fn_ptr code Hsz st _ _ Hat) as [-> _].
  cbn [dispatch]. unfold do_CALL.
  erewrite bind_inr; [|unfold Pop; cbn [stack_ set_pc]; by rewrite Hstk].
  unfold fn_at. rewrite decide_False by done. rewrite decide_True by done.
  destruct st as [pc stk ci co]. cbn [cin_].
  unfold run_RuntimeFn, run_ReadInt, mbind, VM_bind, cin_get.
  cbn [cin_ set_stack set_pc pc_ stack_ cout_].
  destruct ci as [|v rest]; [done|].
  change INT64_MIN with (- 2 ^ 63). change INT64_MAX with (2 ^ 63 - 1).
  by destruct (decide (- 2 ^ 63 ≤ v ≤ 2 ^ 63 - 1)).
Qed.

Lemma Step_CALL_read_int_witness :
  Step sample_fn_ptr [Opcode_byte CALL]
    (mkInterp 0 [VProto (sample_fn_ptr ReadInt); VInt 8]
       [9223372036854775808; 6] [2]) =
  inr (Continue,
       mkInterp (0 + 1) [VInt 9223372036854775807; VInt 8] [] [2]).
Proof.
  exact (Step_CALL_read_int sample_fn_ptr [Opcode_byte CALL]
           (mkInterp 0 [VProto (sample_fn_ptr ReadInt); VInt 8]
              [9223372036854775808; 6] [2])
           [VInt 8]
           ltac:(vm_compute; discriminate)
           ltac:(vm_compute; reflexivity)
           ltac:(vm_compute; repeat split; discriminate)
           ltac:(reflexivity)).
Defined.

(** X9. CALL of a prototype whose pointer is the address of neither
    primitive jumps through a wild function pointer: nothing defined
    follows, and the model stops with that fault, the streams untouched. A
    [PUSH_PROTO] operand is never checked against the table of
    primitives. *)
Theorem Step_CALL_wild_pointer fn_ptr (code : list Z) (st : Interp)
    (p : Z) (s : list Value) :
  p ≠ fn_ptr PrintInt → p ≠ fn_ptr ReadInt →
  Z.of_nat (length code) < 2 ^ 64 →
  code_at code (pc_ st) [Opcode_byte CALL] →
  stack_ st = VProto p :: s →
  Step fn_ptr code st =
    inl (Undefined "call through a wild pointer",
         set_stack s (set_pc (pc_ st + 1) st)).
Proof.
  intros Hp Hr Hsz Hat Hstk.
  destruct (Step_fetch fn_ptr code Hsz st _ _ Hat) as [-> _].
  cbn [dispatch]. unfold do_CALL.
  erewrite bind_inr; [|unfold Pop; cbn [stack_ set_pc]; by rewrite Hstk].
  unfold fn_at. by rewrite !decide_False by done.
Qed.

Lemma Step_CALL_wild_pointer_witness :
  Step sample_fn_ptr [Opcode_byte CALL] (mkInterp 0 [VProto 0] [] []) =
  inl (Undefined "call through a wild pointer",
       set_stack [] (set_pc (0 + 1) (mkInterp 0 [VProto 0] [] []))).
Proof.
  exact (Step_CALL_wild_pointer sample_fn_ptr [Opcode_byte CALL]
           (mkInterp 0 [VProto 0] [] []) 0 []
           ltac:(vm_compute; discriminate) ltac:(vm_compute; discriminate)
           ltac:(vm_compute; reflexivity)
           ltac:(vm_compute; repeat split; discriminate)
           ltac:(reflexivity)).
Defined.

(** ** The streams *)

Lemma streams_same_refl st : streams_same st st.
Proof. by split. Qed.

Lemma streams_same_grow st st' : streams_same st st' → streams_grow st st'.
Proof. intros [Ho Hi]. split; [by rewrite Ho|by rewrite Hi]. Qed.

Lemma streams_grow_trans st1 st2 st3 :
  streams_grow st1 st2 → streams_grow st2 st3 → streams_grow st1 st3.
Proof. intros [Ho1 Hi1] [Ho2 Hi2]. split; by etrans. Qed.

Lemma streams_same_trans st1 st2 st3 :
  streams_same st1 st2 → streams_same st2 st3 → streams_same st1 st3.
Proof. intros [Ho1 Hi1] [Ho2 Hi2]. split; congruence. Qed.

Lemma stream_quiet_safe {A} (m : VM A) : stream_quiet m → stream_safe m.
Proof. intros H st. apply streams_same_grow, H. Qed.

Lemma stream_quiet_bind {A B} (m : VM A) (f : A → VM B) :
  stream_quiet m → (∀ a, stream_quiet (f a)) → stream_quiet (m ≫= f).
Proof.
  intros Hm Hf st. specialize (Hm st). unfold mbind, VM_bind.
  destruct (m st) as [[e st']|[a st']]; [done|].
  eapply streams_same_trans; [exact Hm|apply Hf].
Qed.

Lemma stream_safe_bind {A B} (m : VM A) (f : A → VM B) :
  stream_safe m → (∀ a, stream_safe (f a)) → stream_safe (m ≫= f).
Proof.
  intros Hm Hf st. specialize (Hm st). unfold mbind, VM_bind.
  destruct (m st) as [[e st']|[a st']]; [done|].
  eapply streams_grow_trans; [exact Hm|apply Hf].
Qed.

Lemma stream_quiet_ret {A} (a : A) : stream_quiet (mret a : VM A).
Proof. intros st. apply streams_same_refl. Qed.

Lemma stream_quiet_fault {A} f : stream_quiet (fault f : VM A).
Proof. intros st. apply streams_same_refl. Qed.

Lemma stream_quiet_get_pc : stream_quiet get_pc.
Proof. intros st. apply streams_same_refl. Qed.

Lemma stream_quiet_put_pc a : stream_quiet (put_pc a).
Proof. intros st. by split. Qed.

Lemma stream_quiet_Push v : stream_quiet (Push v).
Proof. intros st. by split. Qed.

Lemma stream_quiet_Pop : stream_quiet Pop.
Proof. intros st. unfold Pop. by destruct (stack_ st). Qed.

Lemma stream_quiet_PopInt : stream_quiet PopInt.
Proof.
  apply stream_quiet_bind; [apply stream_quiet_Pop|].
  intros [p|a|n]; (apply stream_quiet_ret || apply stream_quiet_fault).
Qed.

Lemma stream_quiet_PopAddr : stream_quiet PopAddr.
Proof.
  apply stream_quiet_bind; [apply stream_quiet_Pop|].
  intros [p|a|n]; (apply stream_quiet_ret || apply stream_quiet_fault).
Qed.

Lemma stream_quiet_PeekInt : stream_quiet PeekInt.
Proof. intros st. unfold PeekInt. by destruct (stack_ st) as [|[]]. Qed.

Lemma stream_quiet_shrink n : stream_quiet (shrink n).
Proof. intros st. unfold shrink. by case_decide. Qed.

Lemma stream_quiet_Read n code : stream_quiet (Read n code).
Proof. intros st. unfold Read. by repeat case_decide. Qed.

Lemma stream_quiet_stack_at idx : stream_quiet (stack_at idx).
Proof. intros st. unfold stack_at. by destruct (_ !! _). Qed.

Lemma stream_safe_cout_put v : stream_safe (cout_put v).
Proof. intros st. split; [by apply prefix_app_r|done]. Qed.

Lemma stream_safe_cin_get : stream_safe cin_get.
Proof.
  intros st. unfold cin_get. destruct (cin_ st) as [|v rest] eqn:E.
  - apply streams_same_grow, streams_same_refl.
  - case_decide.
    + split; [done|]. cbn [final_state cin_]. rewrite E.
      by apply suffix_cons_r.
    + split; [done|]. cbn [final_state cin_]. apply suffix_nil.
Qed.

Lemma stream_safe_run_RuntimeFn fn : stream_safe (run_RuntimeFn fn).
Proof.
  destruct fn; cbn [run_RuntimeFn].
  - apply stream_safe_bind; [apply stream_quiet_safe, stream_quiet_PeekInt|].
    intros v. apply stream_safe_bind; [apply stream_safe_cout_put|].
    intros _. apply stream_quiet_safe, stream_quiet_Push.
  - apply stream_safe_bind; [apply stream_safe_cin_get|].
    intros v. apply stream_quiet_safe, stream_quiet_Push.
Qed.

Create HintDb streams.

#[local] Hint Resolve stream_quiet_ret stream_quiet_fault stream_quiet_get_pc
  stream_quiet_put_pc stream_quiet_Push stream_quiet_Pop stream_quiet_PopInt
  stream_quiet_PopAddr stream_quiet_PeekInt stream_quiet_shrink
  stream_quiet_Read stream_quiet_stack_at : streams.

Ltac stream_quiet_tac :=
  repeat first
    [ apply stream_quiet_bind; [|intros ?]
    | case_decide
    | match goal with |- stream_quiet (match ?x with _ => _ end) => destruct x end
    | solve [auto with streams] ].

Lemma stream_safe_do_CALL fn_ptr : stream_safe (do_CALL fn_ptr).
Proof.
  apply stream_safe_bind; [apply stream_quiet_safe, stream_quiet_Pop|].
  intros [p|a|n].
  - destruct (fn_at fn_ptr p).
    + apply stream_safe_bind; [apply stream_safe_run_RuntimeFn|].
      intros _. apply stream_quiet_safe, stream_quiet_ret.
    + apply stream_quiet_safe, stream_quiet_fault.
  - apply stream_quiet_safe. stream_quiet_tac.
  - apply stream_quiet_safe, stream_quiet_fault.
Qed.

Lemma stream_quiet_dispatch fn_ptr code op :
  op ≠ Some CALL → stream_quiet (dispatch fn_ptr code op).
Proof.
  intros Hop. destruct op as [[]|]; try done; cbn [dispatch];
    unfold do_PEEK, do_ADD, do_RET, do_JUMP_FALSE; stream_quiet_tac.
Qed.

Lemma stream_safe_Step fn_ptr code : stream_safe (Step fn_ptr code).
Proof.
  apply stream_safe_bind; [apply stream_quiet_safe, stream_quiet_Read|].
  intros b. destruct (Opcode_of_byte b) as [op|];
    [destruct op; try apply stream_safe_do_CALL|];
    by apply stream_quiet_safe, stream_quiet_dispatch.
Qed.

Lemma Opcode_of_byte_Some b op : Opcode_of_byte b = Some op → b = Opcode_byte op.
Proof.
  unfold Opcode_of_byte. intros H.
  repeat (case_decide; [simplify_eq; done|]). done.
Qed.

(** X10. Whatever the container holds and however the run ends (at STOP,
    in a fault, or still going), the interpreter only appends to the output
    and only takes integers from the front of the input: what has been
    printed is never changed or taken back, and input is never put back or
    read twice. *)
Theorem Run_streams_grow fn_ptr (fuel : nat) (code : list Z) (st : Interp) :
  streams_grow st (result_state (Run fn_ptr fuel code st)).
Proof.
  revert st. induction fuel as [|fuel IH]; intros st.
  { apply streams_same_grow, streams_same_refl. }
  cbn [Run]. pose proof (stream_safe_Step fn_ptr code st) as HS.
  destruct (Step fn_ptr code st) as [[f st']|[[|] st']]; [done| |done].
  eapply streams_grow_trans; [exact HS|apply IH].
Qed.

(** X11. Only CALL touches the streams: a turn of the loop at a byte that
    is not the CALL opcode, whether it completes or faults, leaves the
    output and the input exactly as they were. *)
Theorem Step_streams_only_CALL fn_ptr (code : list Z) (st : Interp) :
  0 ≤ pc_ st →
  ¬ code_at code (pc_ st) [Opcode_byte CALL] →
  streams_same st (final_state (Step fn_ptr code st)).
Proof.
  intros Hpc Hno. unfold Step, mbind, VM_bind.
  pose proof (stream_quiet_Read 1 code st) as HR.
  destruct (Read 1 code st) as [[e st']|[b st']] eqn:ER; [done|].
  eapply streams_same_trans; [exact HR|].
  apply stream_quiet_dispatch. intros Hb%Opcode_of_byte_Some.
  apply Hno. unfold Read in ER. repeat case_decide; simplify_eq.
  unfold code_at. cbn [length]. split; [done|]. split; [lia|].
  destruct (drop (Z.to_nat (pc_ st)) code) as [|x l] eqn:Ed.
  { apply (f_equal length) in Ed. rewrite length_drop in Ed. cbn in Ed. lia. }
  rewrite <- H1. change (take 1 (x :: l)) with [x].
  by rewrite le_value_singleton.
Qed.

Lemma Step_streams_only_CALL_witness :
  streams_same (mkInterp 0 [VInt 1; VInt 2] [4] [5])
    (final_state (Step sample_fn_ptr [Opcode_byte ADD]
                    (mkInterp 0 [VInt 1; VInt 2] [4] [5]))).
Proof.
  exact (Step_streams_only_CALL sample_fn_ptr [Opcode_byte ADD]
           (mkInterp 0 [VInt 1; VInt 2] [4] [5])
           ltac:(vm_compute; discriminate)
           ltac:(intros (_ & _ & H); vm_compute in H; discriminate)).
Defined.

(** * Further properties of the generator *)

(** ** The static depth *)

Lemma wrap32_add_l a b : wrap32 (wrap32 a + b) = wrap32 (a + b).
Proof. unfold wrap32. by rewrite Zplus_mod_idemp_l. Qed.

Lemma wrap32_sub_l a b : wrap32 (wrap32 a - b) = wrap32 (a - b).
Proof. unfold wrap32. by rewrite Zminus_mod_idemp_l. Qed.

Lemma wrap32_idem a : wrap32 (wrap32 a) = wrap32 a.
Proof. unfold wrap32. by rewrite Z.mod_mod. Qed.

Lemma wrap32_succ_pred d : 0 < wrap32 (wrap32 d + 1) → wrap32 (wrap32 d + 1) - 1 = wrap32 d.
Proof.
  pose proof (wrap32_range d) as Hr.
  destruct (decide (wrap32 d + 1 < 2 ^ 32)) as [Hlt|Hge].
  - rewrite wrap32_small by lia. lia.
  - replace (wrap32 d + 1) with (2 ^ 32) by lia. unfold wrap32 at 1 3.
    rewrite Z.mod_same by lia. lia.
Qed.

Lemma wrap32_succ_pred_small d :
  0 ≤ d < 2 ^ 32 → 0 < wrap32 (d + 1) → wrap32 (d + 1) - 1 = d.
Proof.
  intros Hd. pose proof (wrap32_succ_pred d) as H.
  by rewrite (wrap32_small d) in H.
Qed.

Lemma appends_refl cg : appends cg cg.
Proof. split; [exists []; by rewrite app_nil_r|done]. Qed.

Lemma appends_trans cg1 cg2 cg3 :
  appends cg1 cg2 → appends cg2 cg3 → appends cg1 cg3.
Proof.
  intros ([b1 Hb1] & ? & ? & ? & ?) ([b2 Hb2] & ? & ? & ? & ?).
  split; [exists (b1 ++ b2); by rewrite Hb2, Hb1, app_assoc|].
  repeat split; congruence.
Qed.

Lemma appends_Emit n t cg : appends cg (Emit n t cg).
Proof. split; [by eexists|done]. Qed.

Lemma appends_set_depth d cg : appends cg (set_depth d cg).
Proof. split; [exists []; by rewrite app_nil_r|done]. Qed.

Lemma appends_EmitFixup l cg : appends cg (EmitFixup l cg).
Proof.
  unfold EmitFixup. destruct (labelToAddress_ cg !! l).
  - apply appends_Emit.
  - split; [by eexists|done].
Qed.

Lemma depth_Emit n t cg : depth_ (Emit n t cg) = depth_ cg.
Proof. done. Qed.

Lemma depth_EmitFixup l cg : depth_ (EmitFixup l cg) = depth_ cg.
Proof. unfold EmitFixup. by destruct (labelToAddress_ cg !! l). Qed.

Lemma LowerRefExpr_depth fn_ptr scope name cg cg' :
  LowerRefExpr fn_ptr scope name cg = Some cg' →
  depth_ cg' = wrap32 (depth_ cg + 1) ∧ appends cg cg'.
Proof.
  unfold LowerRefExpr.
  destruct (Lookup scope name) as [[entry|fn|index]|]; [..|done]; intros [= <-].
  - unfold EmitPushFunc. rewrite depth_EmitFixup. split; [done|].
    eapply appends_trans; [apply appends_set_depth|].
    eapply appends_trans; [apply appends_Emit|apply appends_EmitFixup].
  - unfold EmitPushProto. split; [done|].
    eapply appends_trans; [apply appends_set_depth|].
    eapply appends_trans; apply appends_Emit.
  - unfold EmitPeek. split; [done|].
    eapply appends_trans; [apply appends_set_depth|].
    eapply appends_trans; apply appends_Emit.
Qed.

Lemma LowerExpr_depth_appends fn_ptr scope e :
  ∀ cg cg', LowerExpr fn_ptr scope e cg = Some cg' →
  depth_ cg' = wrap32 (depth_ cg + 1) ∧ appends cg cg'.
Proof.
  induction e as [name|kind lhs rhs IHl IHr|callee args IHc IHargs]
    using Expr_ind; intros cg cg'.
  - apply LowerRefExpr_depth.
  - cbn [LowerExpr]. destruct kind.
    destruct (LowerExpr fn_ptr scope lhs cg) as [cg1|] eqn:H1; [|done].
    cbn. destruct (LowerExpr fn_ptr scope rhs cg1) as [cg2|] eqn:H2; [|done].
    cbn. unfold EmitAdd. case_decide as Hpos; [|done]. intros [= <-].
    destruct (IHl _ _ H1) as [D1 A1]. destruct (IHr _ _ H2) as [D2 A2].
    split.
    + cbn [depth_ EmitOpcode Emit set_code set_depth].
      rewrite D2, D1 in *. by apply wrap32_succ_pred.
    + eapply appends_trans; [exact A1|].
      eapply appends_trans; [exact A2|].
      eapply appends_trans; [apply appends_set_depth|apply appends_Emit].
  - rewrite LowerExpr_call.
    destruct (LowerArgs fn_ptr scope args cg) as [cg1|] eqn:H1; [|done].
    cbn. destruct (LowerExpr fn_ptr scope callee cg1) as [cg2|] eqn:H2; [|done].
    cbn. intros [= <-].
    assert (wrap32 (depth_ cg1) = wrap32 (depth_ cg + Z.of_nat (length args))
            ∧ appends cg cg1) as [D1 A1].
    { clear H2. revert cg1 H1.
      induction IHargs as [|a args Ha _ IH]; intros cg1.
      - intros [= <-]. cbn. split; [f_equal; lia|apply appends_refl].
      - cbn [LowerArgs length].
        destruct (LowerArgs fn_ptr scope args cg) as [cg0|] eqn:H0; [|done].
        cbn. intros H1. destruct (IH cg0 eq_refl) as [D0 A0].
        destruct (Ha _ _ H1) as [D1 A1]. split.
        + rewrite D1, wrap32_idem.
          rewrite <- (wrap32_add_l (depth_ cg0)), D0, wrap32_add_l.
          f_equal. lia.
        + by eapply appends_trans. }
    destruct (IHc _ _ H2) as [D2 A2]. split.
    + cbn [depth_ set_depth EmitCall EmitOpcode Emit set_code].
      rewrite D2, wrap32_sub_l.
      replace (depth_ cg1 + 1 - Z.of_nat (length args))
        with (depth_ cg1 + (1 - Z.of_nat (length args))) by lia.
      rewrite <- (wrap32_add_l (depth_ cg1)), D1, wrap32_add_l.
      f_equal. lia.
    + eapply appends_trans; [exact A1|].
      eapply appends_trans; [exact A2|].
      eapply appends_trans; [apply appends_Emit|apply appends_set_depth].
Qed.

(** X12. Lowering an expression, when it succeeds, leaves the static depth
    exactly one higher (in [unsigned] arithmetic), whatever the expression
    is: the pushes of the arguments and of the callee are taken back by the
    call, those of the operands by the addition. It only appends to the
    container and neither makes nor places a label. *)
Theorem LowerExpr_pushes_one fn_ptr (scope : Scope) (e : Expr)
    (cg cg' : Codegen) :
  LowerExpr fn_ptr scope e cg = Some cg' →
  depth_ cg' = wrap32 (depth_ cg + 1) ∧ appends cg cg'.
Proof. apply LowerExpr_depth_appends. Qed.

Lemma LowerExpr_pushes_one_witness :
  ∃ cg', LowerExpr sample_fn_ptr proto_scope print_call Codegen_new = Some cg' ∧
         depth_ cg' = wrap32 (depth_ Codegen_new + 1) ∧
         appends Codegen_new cg'.
Proof.
  eexists. split; [vm_compute; reflexivity|].
  exact (LowerExpr_pushes_one sample_fn_ptr proto_scope print_call Codegen_new _
           ltac:(vm_compute; reflexivity)).
Defined.

Lemma depth_EmitLabel l cg cg' :
  EmitLabel l cg = Some cg' → depth_ cg' = depth_ cg ∧ func_ cg' = func_ cg.
Proof.
  unfold EmitLabel. destruct (patch_fixups _ _ _); [|done]. by intros [= <-].
Qed.

Lemma LowerStmt_depth fn_ptr s :
  ∀ scope cg cg',
  0 ≤ depth_ cg < 2 ^ 32 →
  LowerStmt fn_ptr scope s cg = Some cg' →
  depth_ cg' = depth_ cg ∧ func_ cg' = func_ cg.
Proof.
  induction s as [body IHbody|cond body IHb|expr|expr] using Stmt_ind;
    intros scope cg cg' Hd.
  - rewrite LowerStmt_block.
    destruct (LowerStmts fn_ptr (BlockScope scope) body cg) as [cg1|] eqn:H1;
      [|done].
    cbn. case_decide as Heq; [|done]. intros [= <-]. split; [done|].
    clear Heq. revert cg Hd H1.
    induction IHbody as [|s body Hs _ IH]; intros cg Hd.
    + by intros [= <-].
    + cbn [LowerStmts].
      destruct (LowerStmt fn_ptr (BlockScope scope) s cg) as [cg0|] eqn:H0;
        [|done].
      cbn. intros H1. destruct (Hs _ _ _ Hd H0) as [D0 F0].
      rewrite <- F0. apply IH; [by rewrite D0|done].
  - cbn [LowerStmt].
    destruct (MakeLabel cg) as [entry cg1] eqn:M1.
    destruct (MakeLabel cg1) as [exit cg2] eqn:M2.
    injection M1 as <- <-. injection M2 as <- <-.
    destruct (EmitLabel _ _) as [cg3|] eqn:H3; [|done]. cbn.
    destruct (LowerExpr fn_ptr scope cond cg3) as [cg4|] eqn:H4; [|done]. cbn.
    destruct (EmitJumpFalse _ cg4) as [cg5|] eqn:H5; [|done]. cbn.
    destruct (LowerStmt fn_ptr scope body cg5) as [cg6|] eqn:H6; [|done]. cbn.
    intros H7.
    apply depth_EmitLabel in H3 as [D3 F3]. cbn in D3, F3.
    apply LowerExpr_depth_appends in H4 as [D4 (_ & _ & _ & _ & F4)].
    unfold EmitJumpFalse in H5. case_decide as Hpos; [|done].
    injection H5 as <-.
    assert (depth_ cg4 - 1 = depth_ cg) as D5.
    { rewrite D4, D3 in *. by apply wrap32_succ_pred_small. }
    apply IHb in H6 as [D6 F6];
      [|by rewrite depth_EmitFixup; cbn; rewrite D5].
    apply depth_EmitLabel in H7 as [D7 F7].
    unfold EmitJump in *. rewrite depth_EmitFixup in D7.
    rewrite depth_EmitFixup in D6. cbn in D6, D7.
    split; [lia|].
    rewrite F7. unfold EmitFixup. destruct (labelToAddress_ _ !! _); cbn;
      rewrite F6; unfold EmitFixup; destruct (labelToAddress_ _ !! _); cbn;
      congruence.
  - cbn [LowerStmt]. unfold LowerExprStmt.
    destruct (LowerExpr fn_ptr scope expr cg) as [cg1|] eqn:H1; [|done]. cbn.
    unfold EmitPop. case_decide as Hpos; [|done]. intros [= <-].
    apply LowerExpr_depth_appends in H1 as [D1 (_ & _ & _ & _ & F1)].
    split; [|done]. cbn. rewrite D1 in *. by apply wrap32_succ_pred_small.
  - cbn [LowerStmt]. unfold LowerReturnStmt.
    destruct (LowerExpr fn_ptr scope expr cg) as [cg1|] eqn:H1; [|done]. cbn.
    intros HR. pose proof (EmitReturn_code _ _ HR) as (Hpos & D2 & _).
    apply LowerExpr_depth_appends in H1 as [D1 (_ & _ & _ & _ & F1)].
    split.
    + rewrite D2, D1 in *. by apply wrap32_succ_pred_small.
    + unfold EmitReturn in HR. case_decide; [|done]. by injection HR as <-.
Qed.

(** X13. Lowering a statement, when it succeeds, leaves the static depth as
    it found it (for a depth that is an [unsigned] value) and keeps the
    current function: every value an expression statement, a condition or a
    return pushes is counted off again by the POP, JUMP_FALSE or RET that
    follows. *)
Theorem LowerStmt_conserves_depth fn_ptr (scope : Scope) (s : Stmt)
    (cg cg' : Codegen) :
  0 ≤ depth_ cg < 2 ^ 32 →
  LowerStmt fn_ptr scope s cg = Some cg' →
  depth_ cg' = depth_ cg ∧ func_ cg' = func_ cg.
Proof. apply LowerStmt_depth. Qed.

Lemma LowerStmt_conserves_depth_witness :
  ∃ cg',
    LowerStmt sample_fn_ptr proto_scope
      (WhileStmt (RefExpr "input") (ExprStmt print_call)) Codegen_new = Some cg' ∧
    depth_ cg' = depth_ Codegen_new ∧ func_ cg' = func_ Codegen_new.
Proof.
  eexists. split; [vm_compute; reflexivity|].
  exact (LowerStmt_conserves_depth sample_fn_ptr proto_scope
           (WhileStmt (RefExpr "input") (ExprStmt print_call)) Codegen_new _
           ltac:(vm_compute; split; [discriminate|reflexivity])
           ltac:(vm_compute; reflexivity)).
Defined.

Lemma LowerStmts_depth fn_ptr scope body :
  ∀ cg cg',
  0 ≤ depth_ cg < 2 ^ 32 →
  LowerStmts fn_ptr scope body cg = Some cg' →
  depth_ cg' = depth_ cg ∧ func_ cg' = func_ cg.
Proof.
  induction body as [|s body IH]; intros cg cg' Hd; cbn [LowerStmts].
  - by intros [= <-].
  - destruct (LowerStmt fn_ptr scope s cg) as [cg0|] eqn:H0; [|done].
    cbn. intros H1. destruct (LowerStmt_depth _ _ _ _ _ Hd H0) as [D0 F0].
    rewrite <- D0, <- F0. apply IH; [by rewrite D0|done].
Qed.

Lemma LowerBlockStmt_LowerStmts fn_ptr scope body cg :
  0 ≤ depth_ cg < 2 ^ 32 →
  LowerBlockStmt fn_ptr scope body cg =
    LowerStmts fn_ptr (BlockScope scope) body cg.
Proof.
  intros Hd. unfold LowerBlockStmt. rewrite LowerStmt_block.
  destruct (LowerStmts fn_ptr (BlockScope scope) body cg) as [cg1|] eqn:H1;
    [|done].
  cbn. apply LowerStmts_depth in H1 as [D1 _]; [|done].
  by rewrite decide_True.
Qed.

(** X14. The assertion [depth_ == depthIn] at the end of [LowerBlockStmt]
    never fails: a block is lowered exactly when its statements are, one
    after the other in a [BlockScope], and to the same code. *)
Theorem LowerBlockStmt_assert_holds fn_ptr (scope : Scope) (body : list Stmt)
    (cg : Codegen) :
  0 ≤ depth_ cg < 2 ^ 32 →
  LowerBlockStmt fn_ptr scope body cg =
    LowerStmts fn_ptr (BlockScope scope) body cg.
Proof. apply LowerBlockStmt_LowerStmts. Qed.

Lemma LowerBlockStmt_assert_holds_witness :
  LowerBlockStmt sample_fn_ptr proto_scope
    [ExprStmt print_call; ExprStmt print_call] Codegen_new =
  LowerStmts sample_fn_ptr (BlockScope proto_scope)
    [ExprStmt print_call; ExprStmt print_call] Codegen_new.
Proof.
  exact (LowerBlockStmt_assert_holds sample_fn_ptr proto_scope
           [ExprStmt print_call; ExprStmt print_call] Codegen_new
           ltac:(vm_compute; split; [discriminate|reflexivity])).
Defined.


(** ** When the translation succeeds *)

Lemma expr_size_call callee args :
  expr_size (CallExpr callee args) = S (expr_size callee + exprs_size args).
Proof.
  cbn [expr_size]. do 2 f_equal.
Qed.

Lemma expr_closed_call known callee args :
  expr_closed known (CallExpr callee args) =
    expr_closed known callee && exprs_closed known args.
Proof.
  cbn [expr_closed]. f_equal.
  induction args as [|a args IH]; [done|]. cbn [exprs_closed]. by rewrite IH.
Qed.

Lemma stmt_all_block ok body :
  stmt_all ok (BlockStmt body) = stmts_all ok body.
Proof.
  cbn [stmt_all].
  induction body as [|s body IH]; [done|]. cbn [stmts_all]. by rewrite IH.
Qed.

Lemma expr_size_pos e : (1 ≤ expr_size e)%nat.
Proof. destruct e; cbn [expr_size]; lia. Qed.

Lemma exprs_size_length l : (length l ≤ exprs_size l)%nat.
Proof.
  induction l as [|a l IH]; cbn [length exprs_size]; [done|].
  pose proof (expr_size_pos a). lia.
Qed.

Section Progress.

Variable fn_ptr : RuntimeFn → Z.
Implicit Type P : Z → Prop.

(** An expression whose names are bound is lowered, as long as the static
    depth stays an [unsigned] value. *)
Lemma LowerExpr_progress scope known e :
  (∀ name, known name = true → is_Some (Lookup scope name)) →
  expr_closed known e = true →
  ∀ cg, 0 ≤ depth_ cg →
  depth_ cg + Z.of_nat (expr_size e) < 2 ^ 32 →
  ∃ cg', LowerExpr fn_ptr scope e cg = Some cg' ∧ depth_ cg' = depth_ cg + 1.
Proof.
  intros Hknown.
  induction e as [name|kind lhs rhs IHl IHr|callee args IHc IHargs]
    using Expr_ind; intros Hcl cg Hd Hb.
  - cbn [expr_closed expr_size] in *. cbn [LowerExpr].
    destruct (Hknown name Hcl) as [b Hb'].
    assert (∃ cg', LowerRefExpr fn_ptr scope name cg = Some cg') as [cg' H'].
    { unfold LowerRefExpr. rewrite Hb'. destruct b; by eexists. }
    exists cg'. split; [done|].
    apply LowerRefExpr_depth in H' as [-> _]. apply wrap32_small. lia.
  - cbn [expr_closed expr_size] in *. apply andb_prop in Hcl as [Hl Hr].
    destruct (IHl Hl cg Hd ltac:(lia)) as (cg1 & H1 & D1).
    destruct (IHr Hr cg1 ltac:(lia) ltac:(lia)) as (cg2 & H2 & D2).
    cbn [LowerExpr]. destruct kind. rewrite H1. cbn. rewrite H2. cbn.
    destruct (EmitAdd_spec cg2 ltac:(lia)) as (cg3 & H3 & _ & D3 & _).
    exists cg3. split; [done|]. lia.
  - rewrite expr_closed_call in Hcl. rewrite expr_size_call in Hb.
    apply andb_prop in Hcl as [Hc Ha].
    assert (∃ cg1, LowerArgs fn_ptr scope args cg = Some cg1 ∧
                   depth_ cg1 = depth_ cg + Z.of_nat (length args))
      as (cg1 & H1 & D1).
    { assert (depth_ cg + Z.of_nat (exprs_size args) < 2 ^ 32) as Hb1 by lia.
      clear Hb Hc. revert Ha Hb1.
      induction IHargs as [|a args Hfa _ IH]; intros Ha Hb1.
      - exists cg. split; [done|]. cbn. lia.
      - cbn [exprs_closed exprs_size length] in *.
        apply andb_prop in Ha as [Ha1 Ha2].
        destruct (IH Ha2 ltac:(lia)) as (cg0 & H0 & D0).
        pose proof (exprs_size_length args).
        destruct (Hfa Ha1 cg0 ltac:(lia) ltac:(lia)) as (cg1 & H1 & D1).
        exists cg1. cbn [LowerArgs]. rewrite H0. cbn. split; [done|]. lia. }
    pose proof (exprs_size_length args).
    destruct (IHc Hc cg1 ltac:(lia) ltac:(lia)) as (cg2 & H2 & D2).
    rewrite LowerExpr_call, H1. cbn. rewrite H2. cbn.
    eexists. split; [done|].
    cbn [depth_ set_depth EmitCall EmitOpcode Emit set_code].
    rewrite wrap32_small; lia.
Qed.

(** The converse: an expression that is lowered has all its names bound. *)
Lemma LowerExpr_closed scope known e :
  (∀ name, is_Some (Lookup scope name) → known name = true) →
  ∀ cg cg', LowerExpr fn_ptr scope e cg = Some cg' →
  expr_closed known e = true.
Proof.
  intros Hknown.
  induction e as [name|kind lhs rhs IHl IHr|callee args IHc IHargs]
    using Expr_ind; intros cg cg'.
  - cbn [LowerExpr expr_closed]. unfold LowerRefExpr.
    destruct (Lookup scope name) as [b|] eqn:Hb; [|done]. intros _.
    apply Hknown. by rewrite Hb.
  - cbn [LowerExpr expr_closed]. destruct kind.
    destruct (LowerExpr fn_ptr scope lhs cg) as [cg1|] eqn:H1; [|done].
    cbn. destruct (LowerExpr fn_ptr scope rhs cg1) as [cg2|] eqn:H2; [|done].
    intros _. apply andb_true_intro. split; [by eapply IHl|by eapply IHr].
  - rewrite LowerExpr_call, expr_closed_call.
    destruct (LowerArgs fn_ptr scope args cg) as [cg1|] eqn:H1; [|done].
    cbn. destruct (LowerExpr fn_ptr scope callee cg1) as [cg2|] eqn:H2; [|done].
    intros _. apply andb_true_intro. split; [by eapply IHc|].
    clear H2. revert cg1 H1. induction IHargs as [|a args Hfa _ IH]; intros cg1.
    + done.
    + cbn [LowerArgs exprs_closed].
      destruct (LowerArgs fn_ptr scope args cg) as [cg0|] eqn:H0; [|done].
      cbn. intros H1. apply andb_true_intro.
      split; [by eapply Hfa|by eapply IH].
Qed.

Lemma Lookup_BlockScope scope name :
  Lookup (BlockScope scope) name = Lookup scope name.
Proof. done. Qed.

(** A statement whose names are bound and whose expressions are small is
    lowered from depth 0 in every state the generator reaches. *)
Lemma LowerStmt_progress known s :
  ∀ P scope cg,
  scope_labels P scope →
  (∀ name, known name = true → is_Some (Lookup scope name)) →
  stmt_all (expr_closed known) s = true →
  stmt_all expr_small s = true →
  gen_inv P cg → depth_ cg = 0 →
  ∃ cg', LowerStmt fn_ptr scope s cg = Some cg'.
Proof.
  induction s as [body IHbody|cond body IHb|expr|expr] using Stmt_ind;
    intros P scope cg Hscope Hknown Hcl Hsm Hinv Hd.
  - rewrite stmt_all_block in Hcl, Hsm.
    change (LowerStmt fn_ptr scope (BlockStmt body) cg)
      with (LowerBlockStmt fn_ptr scope body cg).
    rewrite LowerBlockStmt_LowerStmts by lia.
    revert cg Hcl Hsm Hinv Hd.
    induction IHbody as [|s body Hs _ IH]; intros cg Hcl Hsm Hinv Hd.
    + by eexists.
    + cbn [stmts_all] in Hcl, Hsm.
      apply andb_prop in Hcl as [Hc1 Hc2]. apply andb_prop in Hsm as [Hs1 Hs2].
      destruct (Hs P (BlockScope scope) cg) as [cg0 H0]; try done.
      cbn [LowerStmts]. rewrite H0. cbn.
      apply IH; try done.
      * by apply (keeps_LowerStmt fn_ptr s P (BlockScope scope) Hscope _ _ H0).
      * destruct (LowerStmt_depth fn_ptr s (BlockScope scope) cg cg0
                    ltac:(lia) H0) as [-> _]. done.
  - cbn [stmt_all] in Hcl, Hsm.
    apply andb_prop in Hcl as [Hc1 Hc2]. apply andb_prop in Hsm as [Hs1 Hs2].
    apply bool_decide_eq_true in Hs1.
    cbn [LowerStmt].
    destruct (MakeLabel cg) as [entry cg1] eqn:M1.
    destruct (MakeLabel cg1) as [exit cg2] eqn:M2.
    destruct (keeps_MakeLabel P _ _ _ M1 Hinv) as [I1 E1].
    destruct (keeps_MakeLabel P _ _ _ M2 I1) as [I2 E2].
    assert (depth_ cg2 = 0) as D2.
    { injection M1 as _ <-. injection M2 as _ <-. done. }
    destruct (EmitLabel_spec entry cg2 (proj1 I2))
      as (cg3 & H3 & _ & _ & _ & _ & D3 & _).
    rewrite H3. cbn [mbind option_bind].
    destruct (gen_inv_EmitLabel P P entry cg2 cg3 I2) as (I3 & E3 & Pl3);
      [auto|done|].
    destruct (LowerExpr_progress scope known cond Hknown Hc1 cg3)
      as (cg4 & H4 & D4); [lia|lia|].
    rewrite H4. cbn [mbind option_bind].
    destruct (keeps_LowerExpr fn_ptr P scope cond Hscope _ _ H4 I3) as [I4 E4].
    set (P' := λ l, P l ∨ l = exit).
    assert (gen_inv P' cg4) as I4'.
    { eapply gen_inv_weaken; [|exact I4]. intros l ?. by left. }
    unfold EmitJumpFalse. rewrite decide_True by lia. cbn [mbind option_bind].
    set (cg5 := EmitFixup exit _).
    assert (keeps P' cg4 cg5) as K5.
    { eapply keeps_trans; [apply keeps_set_depth|].
      eapply keeps_trans; [apply keeps_EmitOpcode|].
      apply keeps_EmitFixup. intros _. right. by right. }
    destruct (K5 I4') as [I5 E5].
    assert (scope_labels P' scope) as Hscope'.
    { eapply scope_labels_weaken; [|exact Hscope]. intros l ?. by left. }
    destruct (IHb P' scope cg5 Hscope' Hknown Hc2 Hs2 I5) as [cg6 H6].
    { unfold cg5. rewrite depth_EmitFixup. cbn. lia. }
    rewrite H6. cbn [mbind option_bind].
    destruct (keeps_LowerStmt fn_ptr body P' scope Hscope' _ _ H6 I5) as [I6 E6].
    assert (keeps P' cg6 (EmitJump entry cg6)) as K7.
    { eapply keeps_trans; [apply keeps_EmitOpcode|].
      apply keeps_EmitFixup. intros _. left.
      apply ext_placed with (cg := cg6);
        [exact (proj2 (gen_inv_Emit P' _ _ cg6 I6))|].
      apply (ext_placed _ _ E6), (ext_placed _ _ E5), (ext_placed _ _ E4).
      exact Pl3. }
    destruct (K7 I6) as [I7 E7].
    destruct (EmitLabel_spec exit (EmitJump entry cg6) (proj1 I7))
      as (cg8 & H8 & _). by exists cg8.
  - cbn [stmt_all] in Hcl, Hsm. apply bool_decide_eq_true in Hsm.
    destruct (LowerExpr_progress scope known expr Hknown Hcl cg)
      as (cg1 & H1 & D1); [lia|lia|].
    cbn [LowerStmt]. unfold LowerExprStmt. rewrite H1. cbn.
    unfold EmitPop. rewrite decide_True by lia. by eexists.
  - cbn [stmt_all] in Hcl, Hsm. apply bool_decide_eq_true in Hsm.
    destruct (LowerExpr_progress scope known expr Hknown Hcl cg)
      as (cg1 & H1 & D1); [lia|lia|].
    cbn [LowerStmt]. unfold LowerReturnStmt. rewrite H1. cbn.
    unfold EmitReturn. rewrite decide_True by lia. by eexists.
Qed.

End Progress.

Lemma func_arg_map_dom params name :
  is_Some (func_arg_map params !! name) ↔ name ∈ params.*1.
Proof.
  unfold func_arg_map.
  assert (∀ acc : gmap string Z,
            is_Some (foldl (λ (args : gmap string Z) (p : string * string),
                              <[p.1 := wrap32 (Z.of_nat (size args))]> args)
                       acc params !! name) ↔
            is_Some (acc !! name) ∨ name ∈ params.*1) as Haux.
  { induction params as [|p params IH]; intros acc; cbn [foldl fmap list_fmap].
    - split; [by left|]. intros [?|H]; [done|]. by apply elem_of_nil in H.
    - rewrite IH, elem_of_cons.
      destruct (decide (p.1 = name)) as [<-|Hne].
      + rewrite lookup_insert_eq. split; [intros _; right; by left|].
        intros _. left. by eexists.
      + rewrite lookup_insert_ne by done. split; [tauto|].
        intros [?|[->|?]]; [by left|done|by right]. }
  rewrite Haux, lookup_empty. split; [|by right].
  intros [H|?]; [|done]. by destruct H.
Qed.

Lemma Lookup_GlobalScope_is_Some funcs protos name :
  is_Some (Lookup (GlobalScope funcs protos) name) ↔
  is_Some (funcs !! name) ∨ is_Some (protos !! name).
Proof.
  cbn [Lookup]. destruct (funcs !! name) as [l|].
  { split; [by left|by eexists]. }
  destruct (protos !! name) as [fn|].
  { split; [by right|by eexists]. }
  split; [by intros []|]. by intros [[]|[]].
Qed.

Lemma Lookup_FuncScope_is_Some parent args name :
  is_Some (Lookup (FuncScope parent args) name) ↔
  is_Some (args !! name) ∨ is_Some (Lookup parent name).
Proof.
  cbn [Lookup]. destruct (args !! name) as [i|].
  { split; [by left|by eexists]. }
  split; [by right|]. by intros [[]|?].
Qed.

Lemma is_Some_emplace `{Countable K} {V} (m : gmap K V) k v k' :
  is_Some (emplace k v m !! k') ↔ is_Some (m !! k') ∨ k' = k.
Proof.
  unfold emplace. destruct (m !! k) as [v0|] eqn:Hk.
  - split; [by left|]. intros [?| ->]; [done|]. by rewrite Hk.
  - destruct (decide (k = k')) as [<-|Hne].
    + rewrite lookup_insert_eq. split; [by right|by eexists].
    + rewrite lookup_insert_ne by done. split; [by left|].
      by intros [?| ->].
Qed.

(** The first pass: it fails only at a prototype whose primitive is not in
    the registry, and it declares exactly the names of the module. *)
Lemma collect_decls_dom mod_ :
  ∀ protos cg protos' cg',
  collect_decls mod_ protos cg = Some (protos', cg') →
  (∀ name, is_Some (funcs_ cg' !! name) ↔
             is_Some (funcs_ cg !! name) ∨ name ∈ func_names mod_) ∧
  (∀ name, is_Some (protos' !! name) ↔
             is_Some (protos !! name) ∨ name ∈ proto_names mod_) ∧
  (∀ p, TopProto p ∈ mod_ → is_Some (kRuntimeFns !! proto_primitive p)).
Proof.
  induction mod_ as [|[f|p|s] rest IH]; intros protos cg protos' cg';
    cbn [collect_decls func_names proto_names].
  - intros [= <- <-]. split; [|split].
    + intros name. split; [by left|]. intros [?|H]; [done|].
      by apply elem_of_nil in H.
    + intros name. split; [by left|]. intros [?|H]; [done|].
      by apply elem_of_nil in H.
    + intros p H. by apply elem_of_nil in H.
  - intros Hrest. apply IH in Hrest as (Hf & Hp & Hk).
    cbn [funcs_ set_funcs set_nextLabel] in Hf. split; [|split].
    + intros name. rewrite Hf, is_Some_emplace, elem_of_cons. tauto.
    + done.
    + intros p [?|?]%elem_of_cons; [done|by apply Hk].
  - destruct (kRuntimeFns !! proto_primitive p) as [fn|] eqn:Hfn; [|done]. cbn.
    intros Hrest. apply IH in Hrest as (Hf & Hp & Hk). split; [|split].
    + done.
    + intros name. rewrite Hp, is_Some_emplace, elem_of_cons. tauto.
    + intros p' [[= ->]|?]%elem_of_cons; [by rewrite Hfn|by apply Hk].
  - intros Hrest. apply IH in Hrest as (Hf & Hp & Hk). split; [|split].
    + done.
    + done.
    + intros p [?|?]%elem_of_cons; [done|by apply Hk].
Qed.

Lemma collect_decls_progress mod_ :
  ∀ protos cg,
  (∀ p, TopProto p ∈ mod_ → is_Some (kRuntimeFns !! proto_primitive p)) →
  ∃ protos' cg', collect_decls mod_ protos cg = Some (protos', cg').
Proof.
  induction mod_ as [|[f|p|s] rest IH]; intros protos cg Hk;
    cbn [collect_decls].
  - by eexists _, _.
  - apply IH. intros p ?. apply Hk. by right.
  - destruct (Hk p ltac:(left)) as [fn ->]. cbn.
    apply IH. intros p' ?. apply Hk. by right.
  - apply IH. intros p ?. apply Hk. by right.
Qed.

Lemma forallb_elem_of {A} (f : A → bool) (l : list A) :
  forallb f l = true ↔ ∀ x, x ∈ l → f x = true.
Proof.
  rewrite forallb_forall. split; intros H x Hx; apply H;
    by apply list_elem_of_In.
Qed.

Section ModuleProgress.

Variable fn_ptr : RuntimeFn → Z.
Implicit Type P : Z → Prop.

Lemma lower_top_stmts_progress P global known items :
  scope_labels P global →
  (∀ name, known name = true → is_Some (Lookup global name)) →
  (∀ s, TopStmt s ∈ items →
     stmt_all (expr_closed known) s = true ∧ stmt_all expr_small s = true) →
  ∀ cg, gen_inv P cg → depth_ cg = 0 →
  ∃ cg', lower_top_stmts fn_ptr global items cg = Some cg' ∧
         gen_inv P cg' ∧ depth_ cg' = 0 ∧ funcs_ cg' = funcs_ cg.
Proof.
  intros Hscope Hknown.
  induction items as [|[f|p|s] rest IH]; intros Hok cg Hinv Hd;
    cbn [lower_top_stmts].
  - by exists cg.
  - apply IH; [|done..]. intros s ?. apply Hok. by right.
  - apply IH; [|done..]. intros s ?. apply Hok. by right.
  - destruct (Hok s ltac:(left)) as [Hc Hs].
    destruct (LowerStmt_progress fn_ptr known s P global cg) as [cg1 H1];
      try done.
    rewrite H1. cbn [mbind option_bind].
    destruct (keeps_LowerStmt fn_ptr s P global Hscope _ _ H1 Hinv) as [I1 E1].
    destruct (LowerStmt_depth fn_ptr s global cg cg1 ltac:(lia) H1) as [D1 _].
    destruct (IH ltac:(intros s' ?; apply Hok; by right) cg1 I1 ltac:(lia))
      as (cg' & H' & I' & D' & F').
    exists cg'. split; [done|]. split; [done|]. split; [done|].
    by rewrite F', (ext_funcs _ _ E1).
Qed.

Lemma LowerFuncDecl_progress P global known f cg :
  scope_labels P global →
  (∀ name, known name = true →
     is_Some (Lookup (FuncScope global (func_arg_map (func_args f))) name)) →
  stmts_all (expr_closed known) (func_body f) = true →
  stmts_all expr_small (func_body f) = true →
  is_Some (funcs_ cg !! func_name f) →
  gen_inv P cg → depth_ cg = 0 →
  ∃ cg', LowerFuncDecl fn_ptr global f cg = Some cg' ∧
         gen_inv P cg' ∧ depth_ cg' = 0 ∧ funcs_ cg' = funcs_ cg.
Proof.
  intros Hscope Hknown Hcl Hsm [label Hlab] Hinv Hd.
  unfold LowerFuncDecl. rewrite Hlab. cbn [mbind option_bind].
  destruct (EmitLabel_spec label cg (proj1 Hinv))
    as (cg1 & H1 & _ & _ & _ & _ & D1 & _).
  rewrite H1. cbn [mbind option_bind].
  destruct (gen_inv_EmitLabel P P label cg cg1 Hinv) as (I1 & E1 & _);
    [auto|done|].
  rewrite decide_True by (cbn; lia).
  destruct (keeps_set_func P (Some f) cg1 I1) as [I2 E2].
  pose proof (scope_labels_FuncScope P global (func_arg_map (func_args f))
                Hscope) as Hscope'.
  destruct (LowerStmt_progress fn_ptr known (BlockStmt (func_body f)) P
              (FuncScope global (func_arg_map (func_args f)))
              (set_func (Some f) cg1)) as [cg3 H3]; try done.
  { by rewrite stmt_all_block. }
  { by rewrite stmt_all_block. }
  { cbn. lia. }
  unfold LowerBlockStmt. rewrite H3. cbn [mbind option_bind].
  destruct (keeps_LowerStmt fn_ptr _ P _ Hscope' _ _ H3 I2) as [I3 E3].
  destruct (LowerStmt_depth fn_ptr (BlockStmt (func_body f))
              (FuncScope global (func_arg_map (func_args f)))
              (set_func (Some f) cg1) cg3
              ltac:(cbn [depth_ set_func]; lia) H3) as [D3 _].
  cbn [depth_ set_func] in D3.
  rewrite decide_True by lia.
  destruct (keeps_set_func P None cg3 I3) as [I4 E4].
  eexists. split; [done|]. split; [done|]. split; [cbn; lia|].
  cbn [funcs_ set_func].
  rewrite (ext_funcs _ _ E3). cbn [funcs_ set_func]. by rewrite (ext_funcs _ _ E1).
Qed.

Lemma lower_top_funcs_progress P global known_of items :
  scope_labels P global →
  (∀ f, TopFunc f ∈ items →
     (∀ name, known_of f name = true →
        is_Some (Lookup (FuncScope global (func_arg_map (func_args f))) name)) ∧
     stmts_all (expr_closed (known_of f)) (func_body f) = true ∧
     stmts_all expr_small (func_body f) = true) →
  ∀ cg,
  (∀ f, TopFunc f ∈ items → is_Some (funcs_ cg !! func_name f)) →
  gen_inv P cg → depth_ cg = 0 →
  ∃ cg', lower_top_funcs fn_ptr global items cg = Some cg'.
Proof.
  intros Hscope.
  induction items as [|[f|p|s] rest IH]; intros Hok cg Hfs Hinv Hd;
    cbn [lower_top_funcs].
  - by exists cg.
  - destruct (Hok f ltac:(left)) as (Hk & Hc & Hs).
    destruct (LowerFuncDecl_progress P global (known_of f) f cg)
      as (cg1 & H1 & I1 & D1 & F1); try done.
    { apply Hfs. left. }
    rewrite H1. cbn [mbind option_bind].
    apply IH; [|by rewrite F1; intros f' ?; apply Hfs; right|done..].
    intros f' ?. apply Hok. by right.
  - apply IH; [|by intros f' ?; apply Hfs; right|done..].
    intros f' ?. apply Hok. by right.
  - apply IH; [|by intros f' ?; apply Hfs; right|done..].
    intros f' ?. apply Hok. by right.
Qed.

Lemma func_names_elem_of mod_ f : TopFunc f ∈ mod_ → func_name f ∈ func_names mod_.
Proof.
  induction mod_ as [|[f'|p|s] rest IH]; cbn [func_names].
  - intros H. by apply elem_of_nil in H.
  - intros [[= ->]|?]%elem_of_cons; [left|right; auto].
  - intros [?|?]%elem_of_cons; [done|auto].
  - intros [?|?]%elem_of_cons; [done|auto].
Qed.

Lemma Translate_progress mod_ :
  module_closed mod_ = true → module_small mod_ = true →
  is_Some (Translate fn_ptr mod_).
Proof.
  unfold module_closed, module_small. rewrite !forallb_elem_of.
  intros Hcl Hsm.
  unfold Translate, Translate_state, Translate_from.
  rewrite decide_True by done.
  destruct (collect_decls_progress mod_ ∅ Codegen_new) as (protos & cg1 & H1).
  { intros p Hp. specialize (Hcl _ Hp). by apply bool_decide_eq_true in Hcl. }
  rewrite H1. cbn [mbind option_bind].
  pose proof (collect_decls_spec _ _ _ _ _ H1) as (Hc & Hf & _ & Hd & _ & _).
  pose proof (collect_decls_dom _ _ _ _ _ H1) as (Hfd & Hpd & _).
  set (global := GlobalScope (funcs_ cg1) protos).
  set (P := λ l, ∃ name, funcs_ cg1 !! name = Some l).
  pose proof (scope_labels_GlobalScope (funcs_ cg1) protos) as Hscope.
  fold global P in Hscope.
  assert (gen_inv P cg1) as I1 by (by apply gen_inv_empty).
  assert (∀ name, name ∈ func_names mod_ ∨ name ∈ proto_names mod_ →
            is_Some (Lookup global name)) as Hglobal.
  { intros name Hn. apply Lookup_GlobalScope_is_Some.
    rewrite Hfd, Hpd. cbn [funcs_ Codegen_new]. tauto. }
  destruct (lower_top_stmts_progress P global (declared mod_ []) mod_ Hscope)
    with (cg := cg1) as (cg2 & H2 & I2 & D2 & F2); try done.
  { intros name Hn. apply bool_decide_eq_true in Hn as [Hn|Hn].
    - by apply elem_of_nil in Hn.
    - by apply Hglobal. }
  { intros s Hs. split; [exact (Hcl _ Hs)|exact (Hsm _ Hs)]. }
  rewrite H2. cbn [mbind option_bind].
  destruct (keeps_EmitOpcode P STOP cg2 I2) as [I3 E3].
  destruct (lower_top_funcs_progress P global
              (λ f, declared mod_ (func_args f).*1) mod_ Hscope)
    with (cg := EmitOpcode STOP cg2) as [cg4 H4]; try done.
  { intros f Hin. split; [|split; [exact (Hcl _ Hin)|exact (Hsm _ Hin)]].
    intros name Hn. apply bool_decide_eq_true in Hn as [Hn|Hn].
    - apply Lookup_FuncScope_is_Some. left. by apply func_arg_map_dom.
    - apply Lookup_FuncScope_is_Some. right. by apply Hglobal. }
  { intros f Hin. rewrite (ext_funcs _ _ E3), F2. apply Hfd. right.
    by apply func_names_elem_of. }
  rewrite H4. by eexists.
Qed.

End ModuleProgress.

Section ModuleClosed.

Variable fn_ptr : RuntimeFn → Z.

Lemma LowerStmt_closed known s :
  ∀ scope cg cg',
  (∀ name, is_Some (Lookup scope name) → known name = true) →
  LowerStmt fn_ptr scope s cg = Some cg' →
  stmt_all (expr_closed known) s = true.
Proof.
  induction s as [body IHbody|cond body IHb|expr|expr] using Stmt_ind;
    intros scope cg cg' Hknown.
  - rewrite LowerStmt_block, stmt_all_block.
    destruct (LowerStmts fn_ptr (BlockScope scope) body cg) as [cg1|] eqn:H1;
      [|done].
    intros _. revert cg H1.
    induction IHbody as [|s body Hs _ IH]; intros cg; [done|].
    cbn [LowerStmts stmts_all].
    destruct (LowerStmt fn_ptr (BlockScope scope) s cg) as [cg0|] eqn:H0;
      [|done].
    cbn. intros H1. apply andb_true_intro.
    split; [by eapply (Hs (BlockScope scope))|by eapply IH].
  - cbn [LowerStmt stmt_all].
    destruct (MakeLabel cg) as [entry cg1].
    destruct (MakeLabel cg1) as [exit cg2].
    destruct (EmitLabel entry cg2) as [cg3|]; [|done]. cbn.
    destruct (LowerExpr fn_ptr scope cond cg3) as [cg4|] eqn:H4; [|done]. cbn.
    destruct (EmitJumpFalse exit cg4) as [cg5|]; [|done]. cbn.
    destruct (LowerStmt fn_ptr scope body cg5) as [cg6|] eqn:H6; [|done].
    intros _. apply andb_true_intro.
    split; [by eapply LowerExpr_closed|by eapply IHb].
  - cbn [LowerStmt stmt_all]. unfold LowerExprStmt.
    destruct (LowerExpr fn_ptr scope expr cg) as [cg1|] eqn:H1; [|done].
    intros _. by eapply LowerExpr_closed.
  - cbn [LowerStmt stmt_all]. unfold LowerReturnStmt.
    destruct (LowerExpr fn_ptr scope expr cg) as [cg1|] eqn:H1; [|done].
    intros _. by eapply LowerExpr_closed.
Qed.

Lemma lower_top_stmts_closed global known items :
  (∀ name, is_Some (Lookup global name) → known name = true) →
  ∀ cg cg', lower_top_stmts fn_ptr global items cg = Some cg' →
  ∀ s, TopStmt s ∈ items → stmt_all (expr_closed known) s = true.
Proof.
  intros Hknown.
  induction items as [|[f|p|s] rest IH]; intros cg cg';
    cbn [lower_top_stmts].
  - intros _ s H. by apply elem_of_nil in H.
  - intros H s [?|?]%elem_of_cons; [done|by eapply IH].
  - intros H s [?|?]%elem_of_cons; [done|by eapply IH].
  - destruct (LowerStmt fn_ptr global s cg) as [cg1|] eqn:H1; [|done]. cbn.
    intros H s' [[= ->]|?]%elem_of_cons;
      [by eapply LowerStmt_closed|by eapply IH].
Qed.

Lemma lower_top_funcs_closed global known_of items :
  (∀ f name,
     is_Some (Lookup (FuncScope global (func_arg_map (func_args f))) name) →
     known_of f name = true) →
  ∀ cg cg', lower_top_funcs fn_ptr global items cg = Some cg' →
  ∀ f, TopFunc f ∈ items →
    stmts_all (expr_closed (known_of f)) (func_body f) = true.
Proof.
  intros Hknown.
  induction items as [|[f|p|s] rest IH]; intros cg cg';
    cbn [lower_top_funcs].
  - intros _ f H. by apply elem_of_nil in H.
  - destruct (LowerFuncDecl fn_ptr global f cg) as [cg1|] eqn:H1; [|done]. cbn.
    intros H f' [[= ->]|?]%elem_of_cons; [|by eapply IH].
    revert H1. unfold LowerFuncDecl.
    destruct (funcs_ cg !! func_name f) as [label|]; [|done].
    cbn [mbind option_bind].
    destruct (EmitLabel label cg) as [cg0|]; [|done]. cbn [mbind option_bind].
    case_decide; [|done]. unfold LowerBlockStmt.
    destruct (LowerStmt fn_ptr
                (FuncScope global (func_arg_map (func_args f)))
                (BlockStmt (func_body f)) (set_func (Some f) cg0))
      as [cg3|] eqn:H3; [|done].
    intros _. rewrite <- stmt_all_block.
    eapply LowerStmt_closed; [|exact H3]. apply Hknown.
  - intros H f [?|?]%elem_of_cons; [done|by eapply IH].
  - intros H f [?|?]%elem_of_cons; [done|by eapply IH].
Qed.

Lemma Translate_closed mod_ :
  is_Some (Translate fn_ptr mod_) → module_closed mod_ = true.
Proof.
  unfold Translate, Translate_state, Translate_from.
  rewrite decide_True by done.
  destruct (collect_decls mod_ ∅ Codegen_new) as [[protos cg1]|] eqn:H1;
    [|by intros []]. cbn [mbind option_bind].
  destruct (lower_top_stmts fn_ptr (GlobalScope (funcs_ cg1) protos) mod_ cg1)
    as [cg2|] eqn:H2; [|by intros []]. cbn [mbind option_bind].
  destruct (lower_top_funcs fn_ptr _ mod_ _) as [cg4|] eqn:H4; [|by intros []].
  intros _.
  pose proof (collect_decls_dom _ _ _ _ _ H1) as (Hfd & Hpd & Hprim).
  assert (∀ name, is_Some (Lookup (GlobalScope (funcs_ cg1) protos) name) →
            name ∈ func_names mod_ ∨ name ∈ proto_names mod_) as Hglobal.
  { intros name Hn. apply Lookup_GlobalScope_is_Some in Hn.
    rewrite Hfd, Hpd in Hn. cbn [funcs_ Codegen_new] in Hn.
    rewrite !lookup_empty in Hn.
    destruct Hn as [[[? [=]]|?]|[[? [=]]|?]]; auto. }
  unfold module_closed. apply forallb_elem_of. intros [f|p|s] Hin;
    cbn [top_closed].
  - eapply (lower_top_funcs_closed _ (λ f, declared mod_ (func_args f).*1));
      [|exact H4|exact Hin].
    intros f' name Hn. apply bool_decide_eq_true.
    apply Lookup_FuncScope_is_Some in Hn as [Hn|Hn].
    + left. by apply func_arg_map_dom.
    + right. by apply Hglobal.
  - apply bool_decide_eq_true. by apply Hprim.
  - eapply lower_top_stmts_closed; [|exact H2|exact Hin].
    intros name Hn. apply bool_decide_eq_true. right. by apply Hglobal.
Qed.

End ModuleClosed.

(** X15. The translation of a closed module succeeds: when every prototype
    names a primitive of the registry and every name used in a top-level
    statement or in a function body is a parameter of that function or a
    function or prototype declared anywhere in the module (before or after
    the use), no assertion of the generator fails, no [memcpy] of
    [EmitLabel] leaves the container, and [Translate] returns a program.
    The only other condition is that no expression has [2^32] nodes. *)
Theorem Translate_closed_module_succeeds fn_ptr (mod_ : Module_) :
  module_closed mod_ = true → module_small mod_ = true →
  is_Some (Translate fn_ptr mod_).
Proof. apply Translate_progress. Qed.

Lemma Translate_closed_module_succeeds_witness :
  is_Some (Translate sample_fn_ptr forward_call).
Proof.
  exact (Translate_closed_module_succeeds sample_fn_ptr forward_call
           ltac:(vm_compute; reflexivity) ltac:(vm_compute; reflexivity)).
Defined.

(** X16. Conversely, [Translate] returns a program only for a closed
    module: a prototype whose primitive is not in the registry, or a name
    that is neither a parameter of the enclosing function nor declared as a
    function or prototype, makes the translation fail (the [throw] of the
    first pass, the [assert] of [Scope::Lookup]). *)
Theorem Translate_succeeds_only_closed fn_ptr (mod_ : Module_) :
  is_Some (Translate fn_ptr mod_) → module_closed mod_ = true.
Proof. apply Translate_closed. Qed.

Lemma Translate_succeeds_only_closed_witness :
  module_closed scenario_A = true.
Proof.
  exact (Translate_succeeds_only_closed sample_fn_ptr scenario_A
           ltac:(vm_compute; eexists; reflexivity)).
Defined.

(** ** What later steps leave alone *)

Lemma frame_settled cg cg' p :
  frame cg cg' → (p < length (code_ cg))%nat → settled cg p → settled cg' p.
Proof.
  intros F Hp Hs l loc Hin.
  destruct (fr_fixups _ _ F l loc Hin) as [Hold|Hnew]; [by eapply Hs|lia].
Qed.

Lemma frame_refl cg : frame cg cg.
Proof. split; auto. Qed.

Lemma frame_trans cg1 cg2 cg3 : frame cg1 cg2 → frame cg2 cg3 → frame cg1 cg3.
Proof.
  intros F12 F23. pose proof (fr_length _ _ F12). pose proof (fr_length _ _ F23).
  split.
  - intros l a H1. by apply (fr_addr _ _ F23), (fr_addr _ _ F12).
  - intros l loc H3. destruct (fr_fixups _ _ F23 l loc H3) as [H2|?]; [|right; lia].
    destruct (fr_fixups _ _ F12 l loc H2); [by left|by right].
  - intros p Hp Hs. rewrite (fr_code _ _ F23); [by apply (fr_code _ _ F12)|lia|].
    by eapply frame_settled.
  - lia.
Qed.

Lemma frame_append cg cg' extra :
  code_ cg' = code_ cg ++ extra →
  fixups_ cg' = fixups_ cg →
  labelToAddress_ cg' = labelToAddress_ cg →
  frame cg cg'.
Proof.
  intros Hc Hf Ha. split.
  - intros l a. by rewrite Ha.
  - intros l loc. unfold fixup_locs. rewrite Hf. by left.
  - intros p Hp _. rewrite Hc. by apply lookup_app_l.
  - rewrite Hc, length_app. lia.
Qed.

Lemma frame_Emit n t cg : frame cg (Emit n t cg).
Proof. by apply (frame_append cg _ (le_bytes n t)). Qed.

Lemma frame_EmitOpcode op cg : frame cg (EmitOpcode op cg).
Proof. apply frame_Emit. Qed.

Lemma frame_set_depth d cg : frame cg (set_depth d cg).
Proof. apply (frame_append cg _ []); try done. cbn. by rewrite app_nil_r. Qed.

Lemma frame_set_func f cg : frame cg (set_func f cg).
Proof. apply (frame_append cg _ []); try done. cbn. by rewrite app_nil_r. Qed.

Lemma frame_MakeLabel cg l cg' : MakeLabel cg = (l, cg') → frame cg cg'.
Proof.
  intros [= _ <-]. apply (frame_append cg _ []); try done.
  cbn. by rewrite app_nil_r.
Qed.

Lemma frame_EmitFixup l cg : frame cg (EmitFixup l cg).
Proof.
  destruct (labelToAddress_ cg !! l) as [a|] eqn:Hl.
  { rewrite (EmitFixup_placed _ _ _ Hl). apply frame_Emit. }
  destruct (EmitFixup_pending l cg Hl) as (Hc & Hf & Ha & _ & _). split.
  - intros l' a. by rewrite Ha.
  - intros l' loc. rewrite (fixup_locs_insert _ _ _ _ l' Hf).
    case_decide as Heq; [|by left]. subst l'.
    intros [?| ->%list_elem_of_singleton]%elem_of_app; [by left|by right].
  - intros p Hp _. rewrite Hc. by apply lookup_app_l.
  - rewrite Hc, length_app. lia.
Qed.

Lemma lookup_take_drop_1 {A} (l l' : list A) p :
  take 1 (drop p l') = take 1 (drop p l) → l' !! p = l !! p.
Proof.
  intros H. apply (f_equal (λ k, k !! 0%nat)) in H.
  rewrite !lookup_take_lt, !lookup_drop in H by lia.
  by rewrite !Nat.add_0_r in H.
Qed.

Lemma frame_EmitLabel l cg cg' :
  fixups_wf cg → EmitLabel l cg = Some cg' → frame cg cg'.
Proof.
  intros Hw HE.
  destruct (EmitLabel_spec l cg Hw)
    as (cg0 & HE0 & Hlen & Hf & Hla & _ & _ & _ & _ & Hfr).
  rewrite HE in HE0. injection HE0 as <-. split.
  - intros l' a Hl'. rewrite Hla. unfold emplace.
    destruct (labelToAddress_ cg !! l) as [a0|] eqn:Hl; [done|].
    rewrite lookup_insert_ne; [done|]. intros ->. congruence.
  - intros l' loc. rewrite (fixup_locs_insert _ _ _ _ l' Hf).
    case_decide; subst; by left.
  - intros p Hp Hs. apply lookup_take_drop_1, Hfr.
    intros loc Hin. destruct (Hs l loc Hin); lia.
  - lia.
Qed.

Lemma wf_keeps cg cg' : keeps (λ _, True) cg cg' → fixups_wf cg → fixups_wf cg'.
Proof.
  intros K Hw. apply fixups_wf_gen_inv.
  by apply K, fixups_wf_gen_inv.
Qed.

Lemma scope_labels_True scope : scope_labels (λ _, True) scope.
Proof. by intros ? ? ?. Qed.

Section Frame.

Variable fn_ptr : RuntimeFn → Z.

Lemma frame_LowerExpr scope e :
  ∀ cg cg', LowerExpr fn_ptr scope e cg = Some cg' → frame cg cg'.
Proof.
  induction e as [name|kind lhs rhs IHl IHr|callee args IHc IHargs]
    using Expr_ind; intros cg cg'.
  - cbn [LowerExpr]. unfold LowerRefExpr.
    destruct (Lookup scope name) as [[entry|fn|index]|] eqn:Hlk; [..|done];
      intros [= <-].
    + eapply frame_trans; [apply frame_set_depth|].
      eapply frame_trans; [apply frame_EmitOpcode|apply frame_EmitFixup].
    + eapply frame_trans; [apply frame_set_depth|].
      eapply frame_trans; [apply frame_EmitOpcode|apply frame_Emit].
    + eapply frame_trans; [apply frame_set_depth|].
      eapply frame_trans; [apply frame_EmitOpcode|apply frame_Emit].
  - cbn [LowerExpr]. destruct kind.
    destruct (LowerExpr fn_ptr scope lhs cg) as [cg1|] eqn:H1; [|done].
    cbn. destruct (LowerExpr fn_ptr scope rhs cg1) as [cg2|] eqn:H2; [|done].
    cbn. unfold EmitAdd. case_decide; [|done]. intros [= <-].
    eapply frame_trans; [by eapply IHl|].
    eapply frame_trans; [by eapply IHr|].
    eapply frame_trans; [apply frame_set_depth|apply frame_EmitOpcode].
  - rewrite LowerExpr_call.
    destruct (LowerArgs fn_ptr scope args cg) as [cg1|] eqn:H1; [|done].
    cbn. destruct (LowerExpr fn_ptr scope callee cg1) as [cg2|] eqn:H2; [|done].
    cbn. intros [= <-].
    assert (frame cg cg1) as F1.
    { clear H2. revert cg1 H1. induction IHargs as [|a args Ha _ IH]; intros cg1.
      - intros [= <-]. apply frame_refl.
      - cbn [LowerArgs].
        destruct (LowerArgs fn_ptr scope args cg) as [cg0|] eqn:H0; [|done].
        cbn. intros H1. eapply frame_trans; [by apply IH|by eapply Ha]. }
    eapply frame_trans; [exact F1|].
    eapply frame_trans; [by eapply IHc|].
    eapply frame_trans; [apply frame_EmitOpcode|apply frame_set_depth].
Qed.

Lemma frame_LowerStmt s :
  ∀ scope cg cg',
  fixups_wf cg → LowerStmt fn_ptr scope s cg = Some cg' → frame cg cg'.
Proof.
  induction s as [body IHbody|cond body IHb|expr|expr] using Stmt_ind;
    intros scope cg cg' Hw.
  - rewrite LowerStmt_block.
    destruct (LowerStmts fn_ptr (BlockScope scope) body cg) as [cg1|] eqn:H1;
      [|done].
    cbn. case_decide as Hdep; [|done]. intros [= <-]. clear Hdep.
    revert cg Hw H1.
    induction IHbody as [|s body Hs _ IH]; intros cg Hw.
    + intros [= <-]. apply frame_refl.
    + cbn [LowerStmts].
      destruct (LowerStmt fn_ptr (BlockScope scope) s cg) as [cg0|] eqn:H0;
        [|done].
      cbn. intros H1. eapply frame_trans; [by eapply Hs|].
      apply IH; [|done].
      eapply wf_keeps; [|exact Hw].
      eapply keeps_LowerStmt; [apply scope_labels_True|exact H0].
  - cbn [LowerStmt].
    destruct (MakeLabel cg) as [entry cg1] eqn:M1.
    destruct (MakeLabel cg1) as [exit cg2] eqn:M2.
    destruct (EmitLabel entry cg2) as [cg3|] eqn:H3; [|done]. cbn.
    destruct (LowerExpr fn_ptr scope cond cg3) as [cg4|] eqn:H4; [|done]. cbn.
    destruct (EmitJumpFalse exit cg4) as [cg5|] eqn:H5; [|done]. cbn.
    destruct (LowerStmt fn_ptr scope body cg5) as [cg6|] eqn:H6; [|done]. cbn.
    intros H7.
    pose proof (wf_keeps _ _ (keeps_MakeLabel _ _ _ _ M1) Hw) as Hw1.
    pose proof (wf_keeps _ _ (keeps_MakeLabel _ _ _ _ M2) Hw1) as Hw2.
    pose proof (wf_keeps _ _ (keeps_EmitLabel _ _ _ _ H3) Hw2) as Hw3.
    pose proof (wf_keeps _ _ (keeps_LowerExpr fn_ptr _ scope cond
                                (scope_labels_True _) _ _ H4) Hw3) as Hw4.
    assert (fixups_wf cg5 ∧ frame cg4 cg5) as [Hw5 F5].
    { revert H5. unfold EmitJumpFalse. case_decide; [|done]. intros [= <-]. split.
      - eapply wf_keeps; [|exact Hw4].
        eapply keeps_trans; [apply keeps_set_depth|].
        eapply keeps_trans; [apply keeps_EmitOpcode|].
        apply keeps_EmitFixup. by right.
      - eapply frame_trans; [apply frame_set_depth|].
        eapply frame_trans; [apply frame_EmitOpcode|apply frame_EmitFixup]. }
    pose proof (wf_keeps _ _ (keeps_LowerStmt fn_ptr body _ scope
                                (scope_labels_True _) _ _ H6) Hw5) as Hw6.
    assert (fixups_wf (EmitJump entry cg6)) as Hw7.
    { eapply wf_keeps; [|exact Hw6].
      eapply keeps_trans; [apply keeps_EmitOpcode|].
      apply keeps_EmitFixup. by right. }
    eapply frame_trans; [by eapply frame_MakeLabel|].
    eapply frame_trans; [by eapply frame_MakeLabel|].
    eapply frame_trans; [by eapply frame_EmitLabel|].
    eapply frame_trans; [by eapply frame_LowerExpr|].
    eapply frame_trans; [exact F5|].
    eapply frame_trans; [by eapply IHb|].
    eapply frame_trans; [|by eapply frame_EmitLabel].
    eapply frame_trans; [apply frame_EmitOpcode|apply frame_EmitFixup].
  - cbn [LowerStmt]. unfold LowerExprStmt.
    destruct (LowerExpr fn_ptr scope expr cg) as [cg1|] eqn:H1; [|done].
    cbn. unfold EmitPop. case_decide; [|done]. intros [= <-].
    eapply frame_trans; [by eapply frame_LowerExpr|].
    eapply frame_trans; [apply frame_set_depth|apply frame_EmitOpcode].
  - cbn [LowerStmt]. unfold LowerReturnStmt.
    destruct (LowerExpr fn_ptr scope expr cg) as [cg1|] eqn:H1; [|done].
    cbn. unfold EmitReturn. case_decide; [|done]. intros [= <-].
    eapply frame_trans; [by eapply frame_LowerExpr|].
    eapply frame_trans; [apply frame_set_depth|].
    eapply frame_trans; [apply frame_EmitOpcode|].
    eapply frame_trans; apply frame_Emit.
Qed.

Lemma frame_LowerFuncDecl global decl cg cg' :
  fixups_wf cg → LowerFuncDecl fn_ptr global decl cg = Some cg' →
  frame cg cg' ∧ fixups_wf cg'.
Proof.
  intros Hw HL. split.
  - revert HL. unfold LowerFuncDecl.
    destruct (funcs_ cg !! func_name decl) as [label|]; [|done].
    cbn [mbind option_bind].
    destruct (EmitLabel label cg) as [cg1|] eqn:H1; [|done].
    cbn [mbind option_bind]. case_decide; [|done].
    destruct (LowerBlockStmt fn_ptr
                (FuncScope global (func_arg_map (func_args decl)))
                (func_body decl) (set_func (Some decl) cg1))
      as [cg3|] eqn:H3; [|done]. cbn [mbind option_bind].
    case_decide; [|done]. intros [= <-].
    pose proof (wf_keeps _ _ (keeps_EmitLabel _ _ _ _ H1) Hw) as Hw1.
    pose proof (wf_keeps _ _ (keeps_set_func _ (Some decl) cg1) Hw1) as Hw2.
    eapply frame_trans; [by eapply frame_EmitLabel|].
    eapply frame_trans; [apply frame_set_func|].
    eapply frame_trans; [by eapply frame_LowerStmt|apply frame_set_func].
  - apply fixups_wf_gen_inv.
    eapply (LowerFuncDecl_inv fn_ptr (λ _, True));
      [apply scope_labels_True|exact HL|by apply fixups_wf_gen_inv].
Qed.

Lemma frame_lower_top_stmts global items :
  ∀ cg cg', fixups_wf cg →
  lower_top_stmts fn_ptr global items cg = Some cg' → frame cg cg'.
Proof.
  induction items as [|[f|p|s] rest IH]; intros cg cg' Hw;
    cbn [lower_top_stmts]; try (by apply IH).
  - intros [= <-]. apply frame_refl.
  - destruct (LowerStmt fn_ptr global s cg) as [cg1|] eqn:H1; [|done]. cbn.
    intros H2. eapply frame_trans; [by eapply frame_LowerStmt|].
    apply IH; [|done]. eapply wf_keeps; [|exact Hw].
    eapply keeps_LowerStmt; [apply scope_labels_True|exact H1].
Qed.

Lemma frame_lower_top_funcs global items :
  ∀ cg cg', fixups_wf cg →
  lower_top_funcs fn_ptr global items cg = Some cg' → frame cg cg'.
Proof.
  induction items as [|[f|p|s] rest IH]; intros cg cg' Hw;
    cbn [lower_top_funcs]; try (by apply IH).
  - intros [= <-]. apply frame_refl.
  - destruct (LowerFuncDecl fn_ptr global f cg) as [cg1|] eqn:H1; [|done]. cbn.
    intros H2. destruct (frame_LowerFuncDecl _ _ _ _ Hw H1) as [F1 Hw1].
    eapply frame_trans; [exact F1|by apply IH].
Qed.

End Frame.

(** ** Every reference is resolved *)

Lemma take_drop_ext (l1 l2 : list Z) (p n : nat) :
  (∀ i, (p ≤ i < p + n)%nat → l2 !! i = l1 !! i) →
  take n (drop p l2) = take n (drop p l1).
Proof.
  intros H. apply list_eq. intros i.
  destruct (decide (i < n)%nat).
  - rewrite !lookup_take_lt by done. rewrite !lookup_drop. apply H. lia.
  - by rewrite !lookup_take_ge by lia.
Qed.

Lemma referenced_later cg cg' r :
  referenced cg r → frame cg cg' → extends cg cg' → referenced cg' r.
Proof.
  intros (Hpos & Hb & (op & Hop & Hat) & Hs & Hr) Hfr Hex.
  pose proof (fr_length _ _ Hfr) as Hlen.
  split; [done|]. split; [lia|]. split; [|split].
  - exists op. split; [done|]. rewrite <-Hat. apply (fr_code _ _ Hfr); [lia|done].
  - apply (frame_settled cg); [done|lia|done].
  - destruct Hr as [Hin|(a & Ha & Hbytes & Hset)].
    + left. by apply (ext_fixups _ _ Hex).
    + right. exists a. split; [by apply (fr_addr _ _ Hfr)|]. split.
      * rewrite <-Hbytes. apply take_drop_ext. intros i Hi.
        apply (fr_code _ _ Hfr); [lia|by apply Hset].
      * intros p Hp. apply (frame_settled cg); [done|lia|by apply Hset].
Qed.

Lemma advance_refl cg : fixups_wf cg → addr_ok cg → advance cg cg [].
Proof.
  intros Hw Ha. split; [done|done|apply frame_refl|apply extends_refl|].
  intros r Hr. by apply elem_of_nil in Hr.
Qed.

Lemma advance_seq cg cg1 cg2 refs1 refs2 :
  advance cg cg1 refs1 → advance cg1 cg2 refs2 →
  advance cg cg2 (refs1 ++ refs2).
Proof.
  intros [Hw1 Ha1 Hf1 He1 Hr1] [Hw2 Ha2 Hf2 He2 Hr2].
  split; [done|done|by eapply frame_trans|by eapply extends_trans|].
  intros r [Hr|Hr]%elem_of_app; [|by apply Hr2].
  apply (referenced_later cg1); [by apply Hr1|done|done].
Qed.

(** A step that appends to the container and leaves the tables as they
    are. *)
Lemma advance_append cg cg' extra :
  code_ cg' = code_ cg ++ extra →
  fixups_ cg' = fixups_ cg →
  labelToAddress_ cg' = labelToAddress_ cg →
  funcs_ cg' = funcs_ cg →
  fixups_wf cg → addr_ok cg → advance cg cg' [].
Proof.
  intros Hc Hf Hl Hfs Hw Ha.
  destruct (gen_inv_append (λ _, True) cg cg' extra Hc Hf Hl Hfs
              (proj1 (fixups_wf_gen_inv cg) Hw)) as [[Hw' _] He].
  split; [done| |by eapply frame_append|done|].
  - intros l a. rewrite Hl, Hc, length_app. intros H%Ha. lia.
  - intros r Hr. by apply elem_of_nil in Hr.
Qed.

Lemma advance_EmitOpcode op cg :
  fixups_wf cg → addr_ok cg → advance cg (EmitOpcode op cg) [].
Proof.
  apply (advance_append cg _ [Opcode_byte op]); try done.
  apply EmitOpcode_code.
Qed.

Lemma advance_set_depth d cg :
  fixups_wf cg → addr_ok cg → advance cg (set_depth d cg) [].
Proof.
  apply (advance_append cg _ []); try done. cbn. by rewrite app_nil_r.
Qed.

Lemma advance_set_func f cg :
  fixups_wf cg → addr_ok cg → advance cg (set_func f cg) [].
Proof.
  apply (advance_append cg _ []); try done. cbn. by rewrite app_nil_r.
Qed.

Lemma advance_MakeLabel cg l cg' :
  MakeLabel cg = (l, cg') → fixups_wf cg → addr_ok cg → advance cg cg' [].
Proof.
  intros [= _ <-]. apply (advance_append cg _ []); try done.
  cbn. by rewrite app_nil_r.
Qed.

(** The reference [EmitFixup] emits behind an opcode. *)
Lemma referenced_EmitFixup op l cg :
  op ∈ [PUSH_FUNC; JUMP_FALSE; JUMP] →
  fixups_wf cg →
  referenced (EmitFixup l (EmitOpcode op cg))
    (EmitFixup_ref l (EmitOpcode op cg)).
Proof.
  intros Hop Hw. unfold EmitFixup_ref, referenced. cbn [fst snd].
  set (cg1 := EmitOpcode op cg).
  assert (code_ cg1 = code_ cg ++ [Opcode_byte op]) as Hc1
    by apply EmitOpcode_code.
  assert (fixups_ cg1 = fixups_ cg) as Hf1 by done.
  assert (length (code_ cg1) = S (length (code_ cg))) as Hlen1.
  { rewrite Hc1, length_app. cbn. lia. }
  assert (∀ l' loc, loc ∈ fixup_locs cg1 l' →
            (loc + 8 ≤ length (code_ cg))%nat) as Hold.
  { intros l' loc Hin. apply (wf_bound _ Hw l' loc). by unfold fixup_locs in *. }
  destruct (labelToAddress_ cg1 !! l) as [a|] eqn:Hl.
  - rewrite (EmitFixup_placed _ _ _ Hl). unfold Emit. cbn [code_ set_code].
    assert (∀ p, (length (code_ cg) ≤ p)%nat → settled (set_code (code_ cg1 ++ le_bytes 8 a) cg1) p)
      as Hset.
    { intros p Hp l' loc Hin. apply Hold in Hin. lia. }
    split; [lia|]. split; [rewrite length_app, length_le_bytes; lia|].
    split; [|split; [apply Hset; lia|]].
    + exists op. split; [done|]. rewrite Hlen1, Hc1.
      replace (S (length (code_ cg)) - 1)%nat with (length (code_ cg)) by lia.
      rewrite <-app_assoc. cbn [app]. by apply list_lookup_middle.
    + right. exists a. split; [done|]. split.
      * rewrite drop_app_length. apply take_ge. by rewrite length_le_bytes.
      * intros p Hp. apply Hset. lia.
  - destruct (EmitFixup_pending l cg1 Hl) as (Hc & Hf & _ & _ & _).
    assert (∀ l' loc, loc ∈ fixup_locs (EmitFixup l cg1) l' →
              loc ∈ fixup_locs cg1 l' ∨ loc = length (code_ cg1)) as Hmem.
    { intros l' loc. rewrite (fixup_locs_insert _ _ _ _ l' Hf).
      case_decide as Hll; [|by left]. subst l'.
      intros [?| ->%list_elem_of_singleton]%elem_of_app; [by left|by right]. }
    split; [lia|]. split; [rewrite Hc, length_app; cbn; lia|].
    split; [|split].
    + exists op. split; [done|]. rewrite Hc, Hlen1, Hc1.
      replace (S (length (code_ cg)) - 1)%nat with (length (code_ cg)) by lia.
      rewrite <-!app_assoc. cbn [app]. by apply list_lookup_middle.
    + intros l' loc [Hin%Hold| ->]%Hmem; lia.
    + left. rewrite (fixup_locs_insert _ _ _ _ l Hf).
      rewrite decide_True by done. apply elem_of_app. right.
      by apply list_elem_of_singleton.
Qed.

Lemma advance_EmitFixup op l cg :
  op ∈ [PUSH_FUNC; JUMP_FALSE; JUMP] →
  fixups_wf cg → addr_ok cg →
  advance cg (EmitFixup l (EmitOpcode op cg))
    [EmitFixup_ref l (EmitOpcode op cg)].
Proof.
  intros Hop Hw Ha.
  destruct (advance_EmitOpcode op cg Hw Ha) as [Hw1 Ha1 Hf1 He1 _].
  destruct (gen_inv_EmitFixup (λ _, True) l (EmitOpcode op cg)
              (proj1 (fixups_wf_gen_inv _) Hw1) (or_intror I)) as [[Hw2 _] He2].
  pose proof (frame_EmitFixup l (EmitOpcode op cg)) as Hf2.
  split; [done| |by eapply frame_trans|by eapply extends_trans|].
  - intros l' a Hl'.
    assert (labelToAddress_ (EmitFixup l (EmitOpcode op cg)) =
            labelToAddress_ (EmitOpcode op cg)) as Hsame.
    { unfold EmitFixup. by destruct (labelToAddress_ _ !! l). }
    rewrite Hsame in Hl'. apply Ha1 in Hl'.
    pose proof (fr_length _ _ Hf2). lia.
  - intros r ->%list_elem_of_singleton. by apply referenced_EmitFixup.
Qed.

Lemma advance_EmitLabel l cg cg' :
  EmitLabel l cg = Some cg' → fixups_wf cg → addr_ok cg → advance cg cg' [].
Proof.
  intros HE Hw Ha.
  destruct (EmitLabel_spec l cg Hw) as (cg0 & HE0 & Hlen & _ & Hla & _).
  rewrite HE in HE0. injection HE0 as <-.
  destruct (keeps_EmitLabel (λ _, True) l cg cg' HE (proj1 (fixups_wf_gen_inv _) Hw))
    as [[Hw' _] He].
  split; [done| |by eapply frame_EmitLabel|done|].
  - intros l' a. rewrite Hla, Hlen. unfold emplace.
    destruct (labelToAddress_ cg !! l) eqn:Hl; [apply Ha|].
    destruct (decide (l' = l)) as [->|Hne].
    + rewrite lookup_insert_eq. intros [= <-]. unfold wrap32.
      pose proof (Z.mod_pos_bound (Z.of_nat (length (code_ cg))) (2 ^ 32)
                    ltac:(lia)).
      pose proof (Z.mod_le (Z.of_nat (length (code_ cg))) (2 ^ 32)
                    ltac:(lia) ltac:(lia)).
      lia.
    + rewrite lookup_insert_ne by done. apply Ha.
  - intros r Hr. by apply elem_of_nil in Hr.
Qed.

Lemma advance_ok cg cg' refs :
  advance cg cg' refs → fixups_wf cg' ∧ addr_ok cg'.
Proof. by intros [? ? _ _ _]. Qed.

Lemma advance_last cg cg1 cg2 refs :
  advance cg cg1 refs → advance cg1 cg2 [] → advance cg cg2 refs.
Proof.
  intros H1 H2. rewrite <-(app_nil_r refs). by eapply advance_seq.
Qed.

(** The steps of the generator, behind a run that has emitted [refs]. *)
Lemma adv_Emit cg x refs n t :
  advance cg x refs → advance cg (Emit n t x) refs.
Proof.
  intros H. destruct (advance_ok _ _ _ H) as [Hw Ha].
  eapply advance_last; [exact H|].
  by apply (advance_append x _ (le_bytes n t)).
Qed.

Lemma adv_EmitOpcode cg x refs op :
  advance cg x refs → advance cg (EmitOpcode op x) refs.
Proof. apply adv_Emit. Qed.

Lemma adv_set_depth cg x refs d :
  advance cg x refs → advance cg (set_depth d x) refs.
Proof.
  intros H. destruct (advance_ok _ _ _ H) as [Hw Ha].
  eapply advance_last; [exact H|by apply advance_set_depth].
Qed.

Lemma adv_set_func cg x refs f :
  advance cg x refs → advance cg (set_func f x) refs.
Proof.
  intros H. destruct (advance_ok _ _ _ H) as [Hw Ha].
  eapply advance_last; [exact H|by apply advance_set_func].
Qed.

Lemma adv_MakeLabel cg x refs l x' :
  MakeLabel x = (l, x') → advance cg x refs → advance cg x' refs.
Proof.
  intros HM H. destruct (advance_ok _ _ _ H) as [Hw Ha].
  eapply advance_last; [exact H|by eapply advance_MakeLabel].
Qed.

Lemma adv_EmitLabel cg x refs l x' :
  EmitLabel l x = Some x' → advance cg x refs → advance cg x' refs.
Proof.
  intros HE H. destruct (advance_ok _ _ _ H) as [Hw Ha].
  eapply advance_last; [exact H|by eapply advance_EmitLabel].
Qed.

Lemma adv_EmitFixup cg x refs op l :
  op ∈ [PUSH_FUNC; JUMP_FALSE; JUMP] →
  advance cg x refs →
  advance cg (EmitFixup l (EmitOpcode op x))
    (refs ++ [EmitFixup_ref l (EmitOpcode op x)]).
Proof.
  intros Hop H. destruct (advance_ok _ _ _ H) as [Hw Ha].
  eapply advance_seq; [exact H|by apply advance_EmitFixup].
Qed.

Ltac adv_quiet :=
  repeat first
    [ apply adv_Emit | apply adv_EmitOpcode | apply adv_set_depth
    | apply adv_set_func ].

Section ReferenceFacts.

Variable fn_ptr : RuntimeFn → Z.

Lemma LowerExpr_refs_call scope callee args cg :
  LowerExpr_refs fn_ptr scope (CallExpr callee args) cg =
    LowerArgs_refs fn_ptr scope args cg ++
    after (LowerArgs fn_ptr scope args cg) (LowerExpr_refs fn_ptr scope callee).
Proof.
  cbn [LowerExpr_refs]. f_equal.
  induction args as [|a args IH]; [done|]. cbn [LowerArgs_refs]. by rewrite IH.
Qed.

Lemma LowerStmt_refs_block scope body cg :
  LowerStmt_refs fn_ptr scope (BlockStmt body) cg =
    LowerStmts_refs fn_ptr (BlockScope scope) body cg.
Proof.
  cbn [LowerStmt_refs]. revert cg.
  induction body as [|s body IH]; intros cg; [done|].
  cbn [LowerStmts_refs]. f_equal.
  destruct (LowerStmt fn_ptr (BlockScope scope) s cg); [|done].
  cbn [after]. apply IH.
Qed.

Lemma adv_LowerExpr scope e :
  ∀ cg0 refs cg cg',
    advance cg0 cg refs →
    LowerExpr fn_ptr scope e cg = Some cg' →
    advance cg0 cg' (refs ++ LowerExpr_refs fn_ptr scope e cg).
Proof.
  induction e as [name|kind lhs rhs IHl IHr|callee args IHc IHargs]
    using Expr_ind; intros cg0 refs cg cg' Hadv.
  - cbn [LowerExpr LowerExpr_refs]. unfold LowerRefExpr, LowerRefExpr_refs.
    destruct (Lookup scope name) as [[entry|fn|index]|] eqn:Hlk; [..|done];
      intros [= <-]; cbn [mbind option_bind].
    + apply adv_EmitFixup; [repeat constructor|]. by apply adv_set_depth.
    + rewrite app_nil_r. unfold EmitPushProto. by adv_quiet.
    + rewrite app_nil_r. unfold EmitPeek. by adv_quiet.
  - cbn [LowerExpr LowerExpr_refs]. destruct kind.
    destruct (LowerExpr fn_ptr scope lhs cg) as [cg1|] eqn:H1; [|done].
    cbn [mbind option_bind after].
    destruct (LowerExpr fn_ptr scope rhs cg1) as [cg2|] eqn:H2; [|done].
    cbn [mbind option_bind]. unfold EmitAdd. case_decide; [|done].
    intros [= <-]. rewrite app_assoc. adv_quiet.
    eapply IHr; [|exact H2]. by eapply IHl.
  - rewrite LowerExpr_call, LowerExpr_refs_call.
    destruct (LowerArgs fn_ptr scope args cg) as [cg1|] eqn:H1; [|done].
    cbn [mbind option_bind after].
    destruct (LowerExpr fn_ptr scope callee cg1) as [cg2|] eqn:H2; [|done].
    cbn [mbind option_bind]. intros [= <-]. rewrite app_assoc.
    unfold EmitCall. adv_quiet.
    eapply IHc; [|exact H2].
    clear H2. revert cg1 H1.
    induction IHargs as [|a args Ha _ IH]; intros cg1.
    + intros [= <-]. cbn [LowerArgs_refs]. by rewrite app_nil_r.
    + cbn [LowerArgs LowerArgs_refs].
      destruct (LowerArgs fn_ptr scope args cg) as [cg3|] eqn:H3; [|done].
      cbn [mbind option_bind after]. intros H4. rewrite app_assoc.
      eapply Ha; [|exact H4]. by apply IH.
Qed.

Lemma adv_EmitJumpFalse cg0 refs label cg cg' :
  advance cg0 cg refs → EmitJumpFalse label cg = Some cg' →
  advance cg0 cg' (refs ++ EmitJumpFalse_refs label cg).
Proof.
  intros Hadv. unfold EmitJumpFalse. case_decide; [|done]. intros [= <-].
  apply adv_EmitFixup; [repeat constructor|]. by apply adv_set_depth.
Qed.

Lemma adv_LowerStmt s :
  ∀ scope cg0 refs cg cg',
    advance cg0 cg refs →
    LowerStmt fn_ptr scope s cg = Some cg' →
    advance cg0 cg' (refs ++ LowerStmt_refs fn_ptr scope s cg).
Proof.
  induction s as [body IHbody|cond body IHb|expr|expr] using Stmt_ind;
    intros scope cg0 refs cg cg' Hadv.
  - rewrite LowerStmt_block, LowerStmt_refs_block.
    destruct (LowerStmts fn_ptr (BlockScope scope) body cg) as [cg1|] eqn:H1;
      [|done].
    cbn [mbind option_bind]. case_decide as Hdep; [|done]. intros [= <-].
    clear Hdep. revert refs cg Hadv H1.
    induction IHbody as [|s body Hs _ IH]; intros refs cg Hadv.
    + intros [= <-]. cbn [LowerStmts_refs]. by rewrite app_nil_r.
    + cbn [LowerStmts LowerStmts_refs].
      destruct (LowerStmt fn_ptr (BlockScope scope) s cg) as [cg2|] eqn:H2;
        [|done].
      cbn [mbind option_bind after]. intros H3. rewrite app_assoc.
      apply (IH _ cg2); [|exact H3]. by eapply Hs.
  - cbn [LowerStmt LowerStmt_refs].
    destruct (MakeLabel cg) as [entry cg1] eqn:M1.
    destruct (MakeLabel cg1) as [exit cg2] eqn:M2.
    destruct (EmitLabel entry cg2) as [cg3|] eqn:H3; [|done].
    cbn [mbind option_bind after].
    destruct (LowerExpr fn_ptr scope cond cg3) as [cg4|] eqn:H4; [|done].
    cbn [mbind option_bind after].
    destruct (EmitJumpFalse exit cg4) as [cg5|] eqn:H5; [|done].
    cbn [mbind option_bind after].
    destruct (LowerStmt fn_ptr scope body cg5) as [cg6|] eqn:H6; [|done].
    cbn [mbind option_bind after]. intros H7.
    rewrite !app_assoc.
    eapply adv_EmitLabel; [exact H7|]. unfold EmitJump, EmitJump_refs.
    apply adv_EmitFixup; [repeat constructor|].
    eapply IHb; [|exact H6].
    eapply adv_EmitJumpFalse; [|exact H5].
    eapply adv_LowerExpr; [|exact H4].
    eapply adv_EmitLabel; [exact H3|].
    eapply adv_MakeLabel; [exact M2|].
    by eapply adv_MakeLabel.
  - cbn [LowerStmt LowerStmt_refs]. unfold LowerExprStmt.
    destruct (LowerExpr fn_ptr scope expr cg) as [cg1|] eqn:H1; [|done].
    cbn [mbind option_bind]. unfold EmitPop. case_decide; [|done].
    intros [= <-]. adv_quiet. by eapply adv_LowerExpr.
  - cbn [LowerStmt LowerStmt_refs]. unfold LowerReturnStmt.
    destruct (LowerExpr fn_ptr scope expr cg) as [cg1|] eqn:H1; [|done].
    cbn [mbind option_bind]. unfold EmitReturn. case_decide; [|done].
    intros [= <-]. adv_quiet. by eapply adv_LowerExpr.
Qed.

Lemma adv_LowerFuncDecl global decl cg0 refs cg cg' :
  advance cg0 cg refs →
  LowerFuncDecl fn_ptr global decl cg = Some cg' →
  advance cg0 cg' (refs ++ LowerFuncDecl_refs fn_ptr global decl cg).
Proof.
  intros Hadv. unfold LowerFuncDecl, LowerFuncDecl_refs.
  destruct (funcs_ cg !! func_name decl) as [label|]; [|done].
  cbn [mbind option_bind].
  destruct (EmitLabel label cg) as [cg1|] eqn:H1; [|done].
  cbn [mbind option_bind after]. case_decide; [|done].
  unfold LowerBlockStmt.
  destruct (LowerStmt fn_ptr
              (FuncScope global (func_arg_map (func_args decl)))
              (BlockStmt (func_body decl)) (set_func (Some decl) cg1))
    as [cg3|] eqn:H3; [|done]. cbn [mbind option_bind].
  case_decide; [|done]. intros [= <-].
  apply adv_set_func. eapply adv_LowerStmt; [|exact H3].
  apply adv_set_func. by eapply adv_EmitLabel.
Qed.

Lemma adv_lower_top_stmts global items :
  ∀ cg0 refs cg cg',
    advance cg0 cg refs →
    lower_top_stmts fn_ptr global items cg = Some cg' →
    advance cg0 cg' (refs ++ lower_top_stmts_refs fn_ptr global items cg).
Proof.
  induction items as [|[f|p|s] rest IH]; intros cg0 refs cg cg' Hadv;
    cbn [lower_top_stmts lower_top_stmts_refs]; try (by apply IH).
  - intros [= <-]. by rewrite app_nil_r.
  - destruct (LowerStmt fn_ptr global s cg) as [cg1|] eqn:H1; [|done].
    cbn [mbind option_bind after]. intros H2. rewrite app_assoc.
    eapply IH; [|exact H2]. by eapply adv_LowerStmt.
Qed.

Lemma adv_lower_top_funcs global items :
  ∀ cg0 refs cg cg',
    advance cg0 cg refs →
    lower_top_funcs fn_ptr global items cg = Some cg' →
    advance cg0 cg' (refs ++ lower_top_funcs_refs fn_ptr global items cg).
Proof.
  induction items as [|[f|p|s] rest IH]; intros cg0 refs cg cg' Hadv;
    cbn [lower_top_funcs lower_top_funcs_refs]; try (by apply IH).
  - intros [= <-]. by rewrite app_nil_r.
  - destruct (LowerFuncDecl fn_ptr global f cg) as [cg1|] eqn:H1; [|done].
    cbn [mbind option_bind after]. intros H2. rewrite app_assoc.
    eapply IH; [|exact H2]. by eapply adv_LowerFuncDecl.
Qed.

(** Every reference a translation has emitted is, in the end, recorded in
    the fixup table or holds the address recorded for its label. *)
Lemma Translate_referenced mod_ cg :
  Translate_state fn_ptr mod_ = Some cg →
  addr_ok cg ∧ ∀ r, r ∈ Translate_refs fn_ptr mod_ → referenced cg r.
Proof.
  unfold Translate_state, Translate_from, Translate_refs.
  rewrite decide_True by done.
  destruct (collect_decls mod_ ∅ Codegen_new) as [[protos cg1]|] eqn:H1;
    [|done]. cbn [mbind option_bind].
  destruct (lower_top_stmts fn_ptr (GlobalScope (funcs_ cg1) protos) mod_ cg1)
    as [cg2|] eqn:H2; [|done]. cbn [mbind option_bind after].
  intros H3.
  pose proof (collect_decls_spec _ _ _ _ _ H1) as (Hc & Hf & Hla & _ & _ & _).
  assert (advance cg1 cg1 []) as Hadv.
  { apply advance_refl.
    - apply fixups_wf_gen_inv.
      apply gen_inv_empty; [by rewrite Hc|by rewrite Hf].
    - intros l a. rewrite Hla. cbn. by rewrite lookup_empty. }
  pose proof (adv_lower_top_stmts _ _ _ _ _ _ Hadv H2) as Hadv2.
  pose proof (adv_lower_top_funcs _ _ _ _ _ _ (adv_EmitOpcode _ _ _ STOP Hadv2) H3)
    as [_ Ha _ _ Hr].
  split; [done|]. intros r Hin. by apply Hr.
Qed.

End ReferenceFacts.

(** C4, as stated, fails: the offset a reference holds need not lie inside
    the container. In [func f(): int { while (f) {} }] the exit of the loop
    is placed behind the last instruction, and the operand of the
    JUMP_FALSE, the reference at offset 11, is patched to 28, the size of
    the container: an offset at which no instruction can be read. *)
Lemma C4_counterexample :
  ∃ cg,
    Translate_state sample_fn_ptr end_loop = Some cg ∧
    (11%nat, 3) ∈ Translate_refs sample_fn_ptr end_loop ∧
    code_ cg !! 10%nat = Some (Opcode_byte JUMP_FALSE) ∧
    operand (code_ cg) 11 = Z.of_nat (length (code_ cg)) ∧
    fault_of
      (Step sample_fn_ptr (code_ cg)
         (mkInterp (operand (code_ cg) 11) [] [] [])) =
      Some (AssertFail "pc + sizeof(T) <= code_.size()").
Proof.
  eexists. split; [vm_compute; reflexivity|].
  split; [vm_compute; repeat constructor|].
  split; [reflexivity|]. split; [reflexivity|]. reflexivity.
Qed.

(** C4, amended. Label invariant. After a translation that completes, every
    reference to a label the generator has emitted (the address-sized
    operand [EmitFixup] has written behind the opcode of a PUSH_FUNC, a
    JUMP_FALSE or a JUMP) lies inside the container, belongs to a label that
    has been placed, and holds an offset between 0 and the size of the
    container, the size itself included (a label placed behind the last
    instruction): no reference is left dangling. When the functions of the
    module have distinct names and the module needs fewer than 2^32 labels,
    each label is placed once and the operand is the address recorded for
    its label. *)
Theorem C4_label_invariant fn_ptr (mod_ : Module_) (cg : Codegen) :
  Translate_state fn_ptr mod_ = Some cg →
  ∀ loc l, (loc, l) ∈ Translate_refs fn_ptr mod_ →
    (∃ op, op ∈ [PUSH_FUNC; JUMP_FALSE; JUMP] ∧
       code_ cg !! (loc - 1)%nat = Some (Opcode_byte op)) ∧
    placed cg l ∧
    (loc + 8 ≤ length (code_ cg))%nat ∧
    0 ≤ operand (code_ cg) loc ≤ Z.of_nat (length (code_ cg)) ∧
    (NoDup (func_names mod_) → Z.of_nat (label_count mod_) < 2 ^ 32 →
     labelToAddress_ cg !! l = Some (operand (code_ cg) loc)).
Proof.
  intros HT loc l Hin.
  destruct (Translate_referenced fn_ptr mod_ cg HT) as [Ha Hr].
  destruct (Hr _ Hin) as (_ & Hb & Hop & _ & Hcase). cbn [fst snd] in *.
  split; [done|].
  destruct Hcase as [Hloc|(a & Hl & Hbytes & _)].
  - destruct (Translate_from_inv fn_ptr Codegen_new mod_ cg) as [Hwf Hpl];
      [done..|].
    assert (operand (code_ cg) loc = low4 (code_ cg) loc) as Hlow.
    { rewrite operand_split by done. unfold high4.
      rewrite (wf_high _ Hwf l loc Hloc). cbn. lia. }
    split; [by eapply Hpl|]. split; [done|]. split.
    + rewrite Hlow. apply (wf_low _ Hwf l loc Hloc).
    + intros Hnd Hcount.
      destruct (Translate_labels_wf fn_ptr mod_ cg Hnd Hcount HT) as [_ Hlw].
      destruct (Hpl l loc Hloc) as [a Hla].
      by rewrite Hlow, (lw_patched _ Hlw l loc a Hloc Hla).
  - destruct (Ha l a Hl) as [Hrange H32].
    assert (operand (code_ cg) loc = a) as Heq.
    { unfold operand. rewrite Hbytes, le_value_le_bytes_8. unfold wrap64.
      apply Z.mod_small. lia. }
    split; [by eexists|]. split; [done|]. split; [lia|].
    intros _ _. by rewrite Heq.
Qed.

(** The forward call: the reference at offset 1, emitted for the label of
    [f] before [f] is placed, holds the entry of [f]. *)
Lemma C4_witness :
  ∃ cg,
    Translate_state sample_fn_ptr forward_call = Some cg ∧
    (∃ op, op ∈ [PUSH_FUNC; JUMP_FALSE; JUMP] ∧
       code_ cg !! (1 - 1)%nat = Some (Opcode_byte op)) ∧
    placed cg 1 ∧
    (1 + 8 ≤ length (code_ cg))%nat ∧
    0 ≤ operand (code_ cg) 1 ≤ Z.of_nat (length (code_ cg)) ∧
    labelToAddress_ cg !! 1 = Some (operand (code_ cg) 1).
Proof.
  eexists. split; [vm_compute; reflexivity|].
  pose proof (C4_label_invariant sample_fn_ptr forward_call _
                ltac:(vm_compute; reflexivity) 1%nat 1
                ltac:(vm_compute; repeat constructor))
    as (H0 & H1 & H2 & H3 & H4).
  split; [exact H0|]. split; [exact H1|]. split; [exact H2|].
  split; [exact H3|].
  apply H4.
  - apply NoDup_singleton.
  - vm_compute. reflexivity.
Defined.

(** X17. Lowering a statement or a function declaration leaves what is
    settled as it is: an address recorded for a label is kept, every
    placeholder recorded anew lies in the code emitted anew, and a byte
    emitted before is changed only if it is one of the four low-order bytes
    of a recorded placeholder. Opcodes, operands of PEEK and RET, native
    pointers and the high-order halves of addresses are final as soon as
    they are emitted. *)
Theorem lowering_leaves_settled_code fn_ptr (scope : Scope) (s : Stmt)
    (decl : FuncDecl) (cg cg' : Codegen) :
  fixups_wf cg →
  LowerStmt fn_ptr scope s cg = Some cg' ∨
    LowerFuncDecl fn_ptr scope decl cg = Some cg' →
  frame cg cg'.
Proof.
  intros Hw [H|H].
  - by eapply frame_LowerStmt.
  - by eapply frame_LowerFuncDecl.
Qed.

Lemma lowering_leaves_settled_code_witness :
  ∃ cg',
    LowerStmt sample_fn_ptr proto_scope
      (WhileStmt (RefExpr "input") (ExprStmt print_call))
      (EmitFixup 1 Codegen_new) = Some cg' ∧
    frame (EmitFixup 1 Codegen_new) cg'.
Proof.
  eexists. split; [vm_compute; reflexivity|].
  apply (lowering_leaves_settled_code sample_fn_ptr proto_scope
           (WhileStmt (RefExpr "input") (ExprStmt print_call)) add_decl
           (EmitFixup 1 Codegen_new)).
  - exact (fixups_wf_pending_reference 1).
  - left. vm_compute. reflexivity.
Defined.

Lemma lower_top_stmts_none fn_ptr global items cg :
  (∀ s, TopStmt s ∉ items) →
  lower_top_stmts fn_ptr global items cg = Some cg.
Proof.
  induction items as [|[f|p|s] rest IH]; intros Hno; cbn [lower_top_stmts].
  - done.
  - apply IH. intros s Hs. apply (Hno s). by right.
  - apply IH. intros s Hs. apply (Hno s). by right.
  - destruct (Hno s). left.
Qed.

(** X18. A module that only declares functions and prototypes translates to
    a program that stops at once: its first byte is the STOP that ends the
    (empty) top-level code, no function body placed after it changes that
    byte, and a run from the initial state ends at offset 1 with an empty
    stack, nothing printed and nothing read. *)
Theorem declarations_only_program_stops fn_ptr (mod_ : Module_)
    (code : list Z) (input : list Z) (fuel : nat) :
  (∀ s, TopStmt s ∉ mod_) →
  Translate fn_ptr mod_ = Some code →
  Z.of_nat (length code) < 2 ^ 64 →
  Run fn_ptr (S fuel) code (Interp_new input) =
    Stopped (set_pc 1 (Interp_new input)).
Proof.
  intros Hno HT Hsz. revert HT.
  unfold Translate, Translate_state, Translate_from.
  rewrite decide_True by done.
  destruct (collect_decls mod_ ∅ Codegen_new) as [[protos cg1]|] eqn:H1;
    [|done]. cbn [mbind option_bind].
  rewrite lower_top_stmts_none by done. cbn [mbind option_bind].
  destruct (lower_top_funcs fn_ptr _ mod_ _) as [cg4|] eqn:H4; [|done].
  cbn. intros [= <-].
  pose proof (collect_decls_spec _ _ _ _ _ H1) as (Hc & Hf & _).
  cbn in Hc, Hf.
  assert (gen_inv (λ _, True) cg1) as I1 by (by apply gen_inv_empty).
  assert (fixups_wf (EmitOpcode STOP cg1)) as Hw3.
  { apply fixups_wf_gen_inv. by apply keeps_EmitOpcode. }
  pose proof (frame_lower_top_funcs fn_ptr _ _ _ _ Hw3 H4) as F.
  assert (code_ cg4 !! 0%nat = Some (Opcode_byte STOP)) as H0.
  { rewrite (fr_code _ _ F).
    - by rewrite EmitOpcode_code, Hc.
    - rewrite EmitOpcode_code, Hc. cbn. lia.
    - intros l loc. unfold fixup_locs. cbn [fixups_ EmitOpcode Emit set_code].
      rewrite Hf, lookup_empty. cbn. intros Hin. by apply elem_of_nil in Hin. }
  destruct (code_ cg4) as [|b rest] eqn:Hcode; [done|].
  injection H0 as ->.
  assert (Step fn_ptr (Opcode_byte STOP :: rest) (Interp_new input) =
            inr (Return, set_pc 1 (Interp_new input))) as HS.
  { assert (code_at (Opcode_byte STOP :: rest) (pc_ (Interp_new input))
              [Opcode_byte STOP]) as Hat.
    { split; [done|]. split; [cbn [pc_ Interp_new length]; lia|done]. }
    by destruct (Step_fetch fn_ptr (Opcode_byte STOP :: rest) Hsz
                   (Interp_new input) STOP [] Hat) as [-> _]. }
  cbn [Run]. change 9 with (Opcode_byte STOP). by rewrite HS.
Qed.

Lemma declarations_only_program_stops_witness :
  ∃ code,
    Translate sample_fn_ptr [TopFunc add_decl; TopProto output_decl] = Some code ∧
    Run sample_fn_ptr 1 code (Interp_new [4; 5]) =
      Stopped (set_pc 1 (Interp_new [4; 5])).
Proof.
  eexists. split; [vm_compute; reflexivity|].
  exact (declarations_only_program_stops sample_fn_ptr
           [TopFunc add_decl; TopProto output_decl] _ [4; 5] 0
           ltac:(intros s Hs; repeat (apply elem_of_cons in Hs as [Hs|Hs];
                                      [discriminate|]);
                 by apply elem_of_nil in Hs)
           ltac:(vm_compute; reflexivity)
           ltac:(vm_compute; reflexivity)).
Defined.

(** ** The layout of a loop *)






(** ** Parameters and the functions over them *)

Lemma foldl_arg_map_notin (params : ArgList) (acc : gmap string Z) name :
  name ∉ params.*1 →
  foldl (λ (args : gmap string Z) (p : string * string),
           <[p.1 := wrap32 (Z.of_nat (size args))]> args) acc params !! name =
    acc !! name.
Proof.
  revert acc. induction params as [|p params IH]; intros acc Hno; [done|].
  cbn [foldl]. cbn [fmap list_fmap] in Hno.
  apply not_elem_of_cons in Hno as [Hne Hno].
  rewrite IH by done. by rewrite lookup_insert_ne.
Qed.

Lemma func_arg_map_param_index (params : ArgList) name :
  NoDup params.*1 →
  Z.of_nat (length params) < 2 ^ 32 →
  func_arg_map params !! name = Z.of_nat <$> param_index params.*1 name.
Proof.
  unfold func_arg_map. intros Hnd Hlen.
  assert (∀ acc : gmap string Z,
            (∀ n, n ∈ params.*1 → acc !! n = None) →
            Z.of_nat (size acc + length params) < 2 ^ 32 →
            foldl (λ (args : gmap string Z) (p : string * string),
                     <[p.1 := wrap32 (Z.of_nat (size args))]> args)
              acc params !! name =
              match param_index params.*1 name with
              | Some i => Some (Z.of_nat (size acc + i))
              | None => acc !! name
              end) as Haux.
  { clear Hlen. induction params as [|p params IH]; intros acc Hacc Hb; [done|].
    cbn [foldl fmap list_fmap param_index] in *.
    apply NoDup_cons in Hnd as [Hnin Hnd].
    assert (acc !! p.1 = None) as Hp by (apply Hacc; left).
    case_decide as Heq.
    - subst name. rewrite foldl_arg_map_notin by done.
      rewrite lookup_insert_eq, wrap32_small by (cbn [length] in Hb; lia).
      do 2 f_equal. lia.
    - rewrite IH; [|done| |].
      + rewrite map_size_insert_None by done.
        destruct (param_index params.*1 name) as [i|]; cbn.
        * do 2 f_equal. lia.
        * by rewrite lookup_insert_ne.
      + intros n Hn. rewrite lookup_insert_ne; [apply Hacc; by right|].
        intros <-. done.
      + rewrite map_size_insert_None by done. cbn [length] in Hb. lia. }
  rewrite Haux.
  - rewrite map_size_empty, lookup_empty.
    by destruct (param_index params.*1 name).
  - intros n _. apply lookup_empty.
  - rewrite map_size_empty. lia.
Qed.

(** X20. The parameter map of a function: with distinct parameter names
    (fewer than [2^32]), [LowerFuncDecl] binds every parameter to its
    position in the declaration, counted from 0, and binds no other name. *)
Theorem func_arg_map_positions (params : ArgList) (name : string) :
  NoDup params.*1 →
  Z.of_nat (length params) < 2 ^ 32 →
  func_arg_map params !! name = Z.of_nat <$> param_index params.*1 name.
Proof. apply func_arg_map_param_index. Qed.

Lemma func_arg_map_positions_witness :
  func_arg_map (func_args add_decl) !! "b" =
    Z.of_nat <$> param_index (func_args add_decl).*1 "b".
Proof.
  exact (func_arg_map_positions (func_args add_decl) "b"
           ltac:(apply NoDup_cons; split;
                   [by intros [=]%list_elem_of_singleton|apply NoDup_singleton])
           ltac:(vm_compute; reflexivity)).
Defined.

Lemma Step_ADD_int fn_ptr code st rhs lhs s :
  Z.of_nat (length code) < 2 ^ 64 →
  code_at code (pc_ st) [Opcode_byte ADD] →
  stack_ st = VInt rhs :: VInt lhs :: s →
  - 2 ^ 63 ≤ lhs + rhs < 2 ^ 63 →
  Step fn_ptr code st =
    inr (Continue, set_stack (VInt (lhs + rhs) :: s) (set_pc (pc_ st + 1) st)).
Proof.
  intros Hsz Hat Hstk Hrange.
  destruct (Step_fetch fn_ptr code Hsz st _ _ Hat) as [-> _].
  cbn [dispatch]. unfold do_ADD, PopInt.
  destruct st as [pc stk ci co]. cbn in Hstk. subst stk.
  unfold mbind, VM_bind, Pop, mret, VM_ret.
  cbn [stack_ set_pc set_stack pc_ cin_ cout_].
  by rewrite decide_True.
Qed.

Section LeafValues.

Variable fn_ptr : RuntimeFn → Z.
Variable scope : Scope.
Variable params : list string.
Variable vals : list Z.

Hypothesis scope_params :
  ∀ name i, param_index params name = Some i →
    Lookup scope name = Some (ARG (Z.of_nat i)).

(** An expression over the parameters, lowered at the static depth [d] and
    run on a frame with [d] temporaries above integer arguments: its
    instructions push its value on top of the frame. *)
Lemma param_expr_computes e :
  ∀ v, eval_params params vals e = Some v →
  ∀ cg,
  0 ≤ depth_ cg →
  depth_ cg + Z.of_nat (instr_count e) + Z.of_nat (length vals) < 2 ^ 32 →
  ∃ cg' bytes,
    LowerExpr fn_ptr scope e cg = Some cg' ∧
    code_ cg' = code_ cg ++ bytes ∧
    depth_ cg' = depth_ cg + 1 ∧
    func_ cg' = func_ cg ∧
    ∀ code st temps ret base,
      Z.of_nat (length code) < 2 ^ 64 →
      code_at code (pc_ st) bytes →
      stack_ st = temps ++ VAddr ret :: (VInt <$> vals) ++ base →
      Z.of_nat (length temps) = depth_ cg →
      Run fn_ptr (instr_count e) code st =
        OutOfFuel (set_stack (VInt v :: stack_ st)
                     (set_pc (pc_ st + Z.of_nat (length bytes)) st)).
Proof.
  induction e as [name|kind lhs rhs IHl IHr|callee cargs _ _] using Expr_ind;
    intros v; cbn [eval_params instr_count]; [| |done].
  - destruct (param_index params name) as [i|] eqn:Hi; [|done].
    cbn [mbind option_bind].
    intros Hv cg Hd Hsum. pose proof (scope_params _ _ Hi) as Hlk.
    pose proof (lookup_lt_Some _ _ _ Hv) as Hlt.
    eexists _, _. split.
    { cbn [LowerExpr]. unfold LowerRefExpr. rewrite Hlk. reflexivity. }
    rewrite (wrap32_small (_ + _ + 1)) by lia.
    split; [apply EmitPeek_code|].
    split; [cbn; apply wrap32_small; lia|]. split; [done|].
    intros code st temps ret base Hsz Hat Hstk Htemps.
    assert (stack_ st !! Z.to_nat (depth_ cg + Z.of_nat i + 1) = Some (VInt v))
      as Hslot.
    { rewrite Hstk, lookup_app_r by lia.
      replace (Z.to_nat (depth_ cg + Z.of_nat i + 1) - length temps)%nat
        with (S i) by lia.
      cbn. apply lookup_app_l_Some. by rewrite list_lookup_fmap, Hv. }
    rewrite (Run_continue fn_ptr code 0 st _
      (Step_PEEK fn_ptr code Hsz st (depth_ cg + Z.of_nat i + 1) (VInt v)
         ltac:(lia) Hat Hslot)).
    cbn [Run length]. rewrite length_le_bytes. do 3 f_equal.
  - destruct kind.
    destruct (eval_params params vals lhs) as [a|] eqn:Ha; [|done].
    cbn [mbind option_bind].
    destruct (eval_params params vals rhs) as [b|] eqn:Hb; [|done].
    cbn [mbind option_bind].
    case_decide as Hrange; [|done]. intros [= <-] cg Hd Hsum.
    destruct (IHl a eq_refl cg Hd ltac:(lia))
      as (cg1 & bs1 & HL1 & Hc1 & Hd1 & Hf1 & Hrun1).
    destruct (IHr b eq_refl cg1 ltac:(lia) ltac:(lia))
      as (cg2 & bs2 & HL2 & Hc2 & Hd2 & Hf2 & Hrun2).
    destruct (EmitAdd_spec cg2 ltac:(lia)) as (cg3 & HA & Hc3 & Hd3 & Hf3).
    exists cg3, (bs1 ++ bs2 ++ [Opcode_byte ADD]). split.
    { cbn [LowerExpr]. rewrite HL1. cbn. rewrite HL2. cbn. done. }
    split; [by rewrite Hc3, Hc2, Hc1, <- !app_assoc|].
    split; [lia|]. split; [congruence|].
    intros code st temps ret base Hsz Hat Hstk Htemps.
    apply code_at_app in Hat as [Hat1 Hat23].
    apply code_at_app in Hat23 as [Hat2 Hat3].
    rewrite <- Nat.add_assoc, Run_add.
    rewrite (Hrun1 code st temps ret base Hsz Hat1 Hstk Htemps).
    pose (st1 := set_stack (VInt a :: stack_ st)
                   (set_pc (pc_ st + Z.of_nat (length bs1)) st)).
    fold st1. rewrite Run_add.
    rewrite (Hrun2 code st1 (VInt a :: temps) ret base Hsz Hat2);
      [|by subst st1; cbn [stack_ set_stack set_pc]; rewrite Hstk
       |cbn [length]; lia].
    pose (st2 := set_stack (VInt b :: stack_ st1)
                   (set_pc (pc_ st1 + Z.of_nat (length bs2)) st1)).
    fold st2.
    rewrite (Run_continue _ _ 0 _ _
               (Step_ADD_int fn_ptr code st2 b a (stack_ st) Hsz Hat3 eq_refl
                  Hrange)).
    cbn [Run]. subst st2 st1. destruct st as [pc stk ci co].
    unfold set_stack, set_pc. cbn [pc_ stack_ cin_ cout_].
    rewrite !length_app. cbn [length]. do 2 f_equal. lia.
Qed.

End LeafValues.

(** X21. A function that returns a sum of its parameters computes it. For a
    function with distinct parameter names whose body is [return e], [e]
    built from parameters and additions: the body is lowered, and a CALL of
    its entry with integer arguments above [base] runs the body and its RET
    in [instr_count e + 2] turns of the loop and resumes behind the CALL
    with the stack [base] under one value, the integer that [e] denotes for
    these arguments, when no addition leaves [int64_t]. *)
Theorem leaf_function_computes_sum
  fn_ptr funcs protos (f : FuncDecl) (e : Expr) (cg : Codegen)
  (code : list Z) (st : Interp) (entry : Z) (vals : list Z) (v : Z)
  (base : list Value) :
  let scope := FuncScope (GlobalScope funcs protos) (func_arg_map (func_args f)) in
  func_body f = [ReturnStmt e] →
  NoDup (func_args f).*1 →
  length vals = length (func_args f) →
  eval_params (func_args f).*1 vals e = Some v →
  depth_ cg = 0 → func_ cg = Some f →
  Z.of_nat (instr_count e) + arg_size f < 2 ^ 32 →
  ∃ cg',
    LowerBlockStmt fn_ptr scope (func_body f) cg = Some cg' ∧
    (Z.of_nat (length code) < 2 ^ 64 →
     code_at code (pc_ st) [Opcode_byte CALL] →
     code_at code entry (drop (length (code_ cg)) (code_ cg')) →
     stack_ st = VAddr entry :: (VInt <$> vals) ++ base →
     Run fn_ptr (instr_count e + 2) code st =
       OutOfFuel (set_stack (VInt v :: base) (set_pc (pc_ st + 1) st))).
Proof.
  intros scope Hbody Hnd Hlen Hev Hd0 Hfn Hsum. unfold arg_size in Hsum.
  assert (∀ name i, param_index (func_args f).*1 name = Some i →
            Lookup (BlockScope scope) name = Some (ARG (Z.of_nat i))) as Hscope.
  { intros name i Hi. cbn [Lookup scope].
    rewrite func_arg_map_param_index, Hi by (done || lia). done. }
  destruct (param_expr_computes fn_ptr (BlockScope scope) (func_args f).*1 vals
              Hscope e v Hev cg ltac:(lia) ltac:(lia))
    as (cg1 & bs & HL & Hc1 & Hd1 & Hf1 & Hrun).
  destruct (EmitReturn cg1) as [cg2|] eqn:HR;
    [|unfold EmitReturn in HR; rewrite decide_True in HR by lia; done].
  destruct (EmitReturn_code _ _ HR) as (_ & Hd2 & Hc2).
  exists cg2. split.
  { unfold LowerBlockStmt. rewrite LowerStmt_block, Hbody. cbn [LowerStmts].
    cbn [LowerStmt]. unfold LowerReturnStmt. rewrite HL. cbn [mbind option_bind].
    rewrite HR. cbn [mbind option_bind]. rewrite decide_True by lia. done. }
  intros Hsz Hcall Hbodyat Hstk.
  rewrite Hc2, Hc1, <- app_assoc, drop_app_length in Hbodyat.
  apply code_at_app in Hbodyat as [Hat1 Hat2].
  replace (instr_count e + 2)%nat with (1 + (instr_count e + 1))%nat by lia.
  rewrite Run_add.
  rewrite (Run_continue _ _ 0 _ _ (Step_CALL_addr fn_ptr code Hsz st _ _ Hcall Hstk)).
  cbn [Run]. rewrite Run_add.
  pose (st1 := set_pc entry
                 (set_stack (VAddr (pc_ st + 1) :: (VInt <$> vals) ++ base) st)).
  fold st1.
  rewrite (Hrun code st1 [] (pc_ st + 1) base Hsz Hat1 eq_refl ltac:(cbn; lia)).
  pose (st2 := set_stack (VInt v :: stack_ st1)
                 (set_pc (pc_ st1 + Z.of_nat (length bs)) st1)).
  fold st2.
  assert (Step fn_ptr code st2 =
            inr (Continue, set_stack (VInt v :: base) (set_pc (pc_ st + 1) st2)))
    as HS.
  { apply (Step_RET fn_ptr code Hsz st2 (depth_ cg1 - 1)
             (Z.of_nat (length (func_args f))) (VInt v) [] (VInt <$> vals) base
             (pc_ st + 1));
      [lia|lia| |done|cbn; lia|rewrite length_fmap; lia].
    rewrite Hf1, Hfn in Hat2. exact Hat2. }
  rewrite (Run_continue _ _ 0 _ _ HS). cbn [Run]. by destruct st.
Qed.

Lemma leaf_function_computes_sum_witness :
  Run sample_fn_ptr
    (instr_count (BinaryExpr ADD_KIND (RefExpr "a") (RefExpr "b")) + 2)
    (Opcode_byte CALL ::
       (Opcode_byte PEEK :: le_bytes 4 1) ++ (Opcode_byte PEEK :: le_bytes 4 3) ++
       [Opcode_byte ADD] ++ Opcode_byte RET :: le_bytes 4 0 ++ le_bytes 4 2)
    (mkInterp 0 [VAddr 1; VInt 2; VInt 3] [] []) =
  OutOfFuel (mkInterp 1 [VInt 5] [] []).
Proof.
  destruct (leaf_function_computes_sum sample_fn_ptr ∅ ∅ add_decl
              (BinaryExpr ADD_KIND (RefExpr "a") (RefExpr "b"))
              (set_func (Some add_decl) Codegen_new)
              (Opcode_byte CALL ::
                 (Opcode_byte PEEK :: le_bytes 4 1) ++
                 (Opcode_byte PEEK :: le_bytes 4 3) ++
                 [Opcode_byte ADD] ++ Opcode_byte RET :: le_bytes 4 0 ++ le_bytes 4 2)
              (mkInterp 0 [VAddr 1; VInt 2; VInt 3] [] []) 1 [2; 3] 5 []
              eq_refl
              ltac:(apply NoDup_cons; split;
                      [by intros [=]%list_elem_of_singleton|apply NoDup_singleton])
              eq_refl ltac:(vm_compute; reflexivity) eq_refl eq_refl
              ltac:(vm_compute; reflexivity))
    as (cg' & HL & Hrun).
  vm_compute in HL. injection HL as <-.
  apply Hrun.
  - vm_compute. reflexivity.
  - vm_compute. repeat split; discriminate.
  - vm_compute. repeat split; discriminate.
  - reflexivity.
Defined.

(** * Properties of the front end *)

(** ** The character stream *)

Lemma Front_bind_eq {A B} (m : Front A) (f : A → Front B) lx :
  (m ≫= f) lx =
    match m lx with
    | inl e => inl e
    | inr (a, lx') => f a lx'
    end.
Proof. done. Qed.

Lemma Front_bind_inr {A B} (m : Front A) (f : A → Front B) lx b lx' :
  (m ≫= f) lx = inr (b, lx') →
  ∃ a lx1, m lx = inr (a, lx1) ∧ f a lx1 = inr (b, lx').
Proof.
  rewrite Front_bind_eq. destruct (m lx) as [e|[a lx1]]; [done|]. by eexists _, _.
Qed.

Lemma Front_bind_step {A B} (m : Front A) (f : A → Front B) lx a lx1 :
  m lx = inr (a, lx1) → (m ≫= f) lx = f a lx1.
Proof. intros H. by rewrite Front_bind_eq, H. Qed.

Lemma NextChar_eof lx :
  eofbit (is_ lx) = true → NextChar lx = inr (tt, set_chr NUL lx).
Proof. intros H. unfold NextChar. by rewrite H. Qed.

Lemma NextChars_eof n lx :
  eofbit (is_ lx) = true →
  ∃ lx', NextChars (S n) lx = inr (tt, lx') ∧ chr_ lx' = NUL.
Proof.
  revert lx. induction n as [|n IH]; intros lx He; cbn [NextChars].
  - eexists. rewrite (Front_bind_step _ _ _ _ _ (NextChar_eof lx He)). done.
  - rewrite (Front_bind_step _ _ _ _ _ (NextChar_eof lx He)).
    by apply IH.
Qed.

Lemma NextChar_read lx (a : Z) :
  eofbit (is_ lx) = false →
  1 ≤ lineNo_ lx ≤ a → 1 ≤ charNo_ lx ≤ a → a < INT_MAX →
  ∃ lx', NextChar lx = inr (tt, lx') ∧
    name_ lx' = name_ lx ∧ tk_ lx' = tk_ lx ∧
    1 ≤ lineNo_ lx' ≤ a + 1 ∧ 1 ≤ charNo_ lx' ≤ a + 1 ∧
    match unread (is_ lx) with
    | c :: cs => chr_ lx' = c ∧ is_ lx' = {| unread := cs; eofbit := false |}
    | [] => chr_ lx' = chr_ lx ∧ is_ lx' = {| unread := []; eofbit := true |}
    end.
Proof.
  intros He Hl Hc Ha. unfold NextChar. rewrite He.
  destruct (decide (chr_ lx = "010"%char)).
  - rewrite decide_True by lia. eexists. split; [done|].
    unfold is_get. cbn [is_ set_pos unread].
    destruct (unread (is_ lx)); cbn; repeat split; lia.
  - rewrite decide_True by lia. eexists. split; [done|].
    unfold is_get. cbn [is_ set_pos unread].
    destruct (unread (is_ lx)); cbn; repeat split; lia.
Qed.

Lemma NextChars_stream cs :
  ∀ lx (a : Z) k,
  eofbit (is_ lx) = false → unread (is_ lx) = cs →
  1 ≤ lineNo_ lx ≤ a → 1 ≤ charNo_ lx ≤ a →
  a + Z.of_nat (length cs) < INT_MAX →
  ∃ lx', NextChars (S k) lx = inr (tt, lx') ∧
    chr_ lx' =
      match cs !! k with
      | Some c => c
      | None => if decide (k = length cs) then default (chr_ lx) (last cs) else NUL
      end.
Proof.
  induction cs as [|c cs IH]; intros lx a k He Hu Hl Hc Ha.
  - destruct (NextChar_read lx a He Hl Hc ltac:(cbn in Ha; lia))
      as (lx1 & H1 & _ & _ & _ & _ & Hget).
    rewrite Hu in Hget. destruct Hget as [Hchr His].
    cbn [NextChars]. rewrite (Front_bind_step _ _ _ _ _ H1).
    destruct k as [|k].
    + exists lx1. done.
    + destruct (NextChars_eof k lx1) as (lx' & H' & Hn); [by rewrite His|].
      exists lx'. done.
  - destruct (NextChar_read lx a He Hl Hc ltac:(cbn in Ha; lia))
      as (lx1 & H1 & _ & _ & Hl1 & Hc1 & Hget).
    rewrite Hu in Hget. destruct Hget as [Hchr His].
    cbn [NextChars]. rewrite (Front_bind_step _ _ _ _ _ H1).
    destruct k as [|k].
    + exists lx1. done.
    + destruct (IH lx1 (a + 1) k) as (lx' & H' & Hk);
        [by rewrite His|by rewrite His|done|done|cbn [length] in Ha; lia|].
      exists lx'. split; [done|]. rewrite Hk, Hchr. cbn [lookup list_lookup length].
      destruct (cs !! k) eqn:E; [done|].
      destruct (decide (k = length cs)) as [->|Hne].
      * rewrite decide_True by done. rewrite last_cons.
        by destruct (last cs).
      * by rewrite decide_False by lia.
Qed.

(** X22. The characters the lexer sees. Successive calls of [NextChar] on a
    freshly opened file deliver the characters of the file, then the LAST
    CHARACTER ONCE MORE, and only then NUL for ever: [eof()] becomes true
    only when a read has failed, and the failed [get] leaves [chr_] as it
    was. (For a file of less than [INT_MAX - 2] characters, so that the
    line and column counters do not overflow.) *)
Theorem NextChar_repeats_last_character (name : string) (file : list ascii)
    (k : nat) :
  Z.of_nat (length file) + 2 < INT_MAX →
  ∃ lx, NextChars (S k) (Lexer_open name file) = inr (tt, lx) ∧
    chr_ lx =
      match file !! k with
      | Some c => c
      | None => if decide (k = length file) then default NUL (last file) else NUL
      end.
Proof.
  intros Hlen.
  apply (NextChars_stream file (Lexer_open name file) 1 k); cbn; (done || lia).
Qed.

Lemma NextChar_repeats_last_character_witness :
  ∃ lx, NextChars 3 (Lexer_open "t" ["f"; ")"]%char) = inr (tt, lx) ∧
    chr_ lx = ")"%char.
Proof.
  exact (NextChar_repeats_last_character "t" ["f"; ")"]%char 2
           ltac:(vm_compute; reflexivity)).
Defined.

(** ** Tokens *)

Lemma is_get_sizes lx :
  eofbit (is_ lx) = false →
  name_ (is_get lx) = name_ lx ∧ tk_ (is_get lx) = tk_ lx ∧
  lineNo_ (is_get lx) = lineNo_ lx ∧ charNo_ (is_get lx) = charNo_ lx ∧
  (unread_size (is_get lx) < unread_size lx)%nat ∧
  (lexer_size (is_get lx) ≤ lexer_size lx)%nat ∧
  (chr_ lx ≠ NUL → (lexer_size (is_get lx) < lexer_size lx)%nat).
Proof.
  unfold is_get, lexer_size, unread_size.
  destruct lx as [nm ln cn c [cs e] tk]. cbn [is_ eofbit unread chr_].
  intros ->. destruct cs as [|c0 cs]; cbn [is_ eofbit unread chr_ set_is set_chr
    name_ tk_ lineNo_ charNo_ length].
  - repeat split; try lia;
      try (intros Hc; rewrite (decide_False (P := c = NUL)) by done; lia).
  - repeat split; try lia;
      try (intros Hc; rewrite (decide_False (P := c = NUL)) by done);
      destruct (decide (c0 = NUL)); try destruct (decide (c = NUL)); lia.
Qed.

Lemma NextChar_inr lx lx' :
  NextChar lx = inr (tt, lx') →
  name_ lx' = name_ lx ∧ tk_ lx' = tk_ lx ∧
  (unread_size lx' ≤ unread_size lx)%nat ∧
  (eofbit (is_ lx) = false → (unread_size lx' < unread_size lx)%nat) ∧
  (eofbit (is_ lx) = true → chr_ lx' = NUL) ∧
  (lexer_size lx' ≤ lexer_size lx)%nat ∧
  (chr_ lx ≠ NUL → (lexer_size lx' < lexer_size lx)%nat).
Proof.
  unfold NextChar. destruct (eofbit (is_ lx)) eqn:He.
  - intros [= <-]. unfold lexer_size, unread_size.
    cbn [set_chr name_ tk_ is_ chr_]. rewrite He.
    rewrite (decide_True (P := NUL = NUL)) by done.
    repeat split; try done; try lia;
      try (intros Hc; rewrite decide_False by done; lia);
      destruct (decide (chr_ lx = NUL)); lia.
  - assert (∀ ln cn, lx' = is_get (set_pos ln cn lx) →
              name_ lx' = name_ lx ∧ tk_ lx' = tk_ lx ∧
              (unread_size lx' ≤ unread_size lx)%nat ∧
              (false = false → (unread_size lx' < unread_size lx)%nat) ∧
              (false = true → chr_ lx' = NUL) ∧
              (lexer_size lx' ≤ lexer_size lx)%nat ∧
              (chr_ lx ≠ NUL → (lexer_size lx' < lexer_size lx)%nat)) as Hget.
    { intros ln cn ->.
      destruct (is_get_sizes (set_pos ln cn lx) He)
        as (Hn & Ht & _ & _ & Hu & Hs & Hs').
      change (unread_size (set_pos ln cn lx)) with (unread_size lx) in *.
      change (lexer_size (set_pos ln cn lx)) with (lexer_size lx) in *.
      change (chr_ (set_pos ln cn lx)) with (chr_ lx) in *.
      repeat split; try done; lia. }
    repeat case_decide; try done; intros [= <-]; by eapply Hget.
Qed.

Lemma NextChar_inl lx e : NextChar lx = inl e → ∃ m, e = UB m.
Proof.
  unfold NextChar. destruct (eofbit (is_ lx)); [done|].
  repeat case_decide; try done; intros [= <-]; by eexists.
Qed.

Lemma ctype_inr test c lx b lx' :
  ctype test c lx = inr (b, lx') →
  lx' = lx ∧ b = test (char_code c) ∧ ctype_defined c = true.
Proof. unfold ctype. destruct (ctype_defined c); [|done]. by intros [= <- <-]. Qed.

Lemma ctype_inl test c lx e : ctype test c lx = inl e → ∃ m, e = UB m.
Proof.
  unfold ctype. destruct (ctype_defined c); [done|]. intros [= <-]. by eexists.
Qed.

Lemma isspace_NUL lx : isspace NUL lx = inr (false, lx).
Proof. done. Qed.

Lemma IsIdentStart_inr c lx b lx' :
  IsIdentStart c lx = inr (b, lx') → lx' = lx ∧ (b = true → c ≠ NUL).
Proof.
  unfold IsIdentStart. case_decide as Hc.
  - intros [= <- <-]. split; [done|]. intros _. by subst c.
  - intros (-> & -> & _)%ctype_inr. split; [done|].
    intros Hb ->. done.
Qed.

Lemma IsIdentStart_inl c lx e : IsIdentStart c lx = inl e → ∃ m, e = UB m.
Proof. unfold IsIdentStart. case_decide; [done|]. apply ctype_inl. Qed.

Lemma IsIdentLetter_inr c lx b lx' :
  IsIdentLetter c lx = inr (b, lx') → lx' = lx ∧ (b = true → c ≠ NUL).
Proof.
  unfold IsIdentLetter. intros (b0 & lx1 & H0 & H1)%Front_bind_inr.
  apply IsIdentStart_inr in H0 as [-> Hb0]. destruct b0.
  - injection H1 as <- <-. auto.
  - apply ctype_inr in H1 as (-> & -> & _). split; [done|].
    intros Hb ->. done.
Qed.

Lemma IsIdentLetter_inl c lx e : IsIdentLetter c lx = inl e → ∃ m, e = UB m.
Proof.
  unfold IsIdentLetter. rewrite Front_bind_eq.
  destruct (IsIdentStart c lx) as [e0|[b lx1]] eqn:H0.
  - intros [= <-]. by eapply IsIdentStart_inl.
  - destruct b; [done|]. apply ctype_inl.
Qed.

Lemma lexes_refl lx : lexes lx lx.
Proof. by repeat split. Qed.

Lemma lexes_trans lx1 lx2 lx3 : lexes lx1 lx2 → lexes lx2 lx3 → lexes lx1 lx3.
Proof.
  intros (? & ? & ? & ?) (? & ? & ? & ?). repeat split; (congruence || lia).
Qed.

Lemma lexes_NextChar lx lx' : NextChar lx = inr (tt, lx') → lexes lx lx'.
Proof. intros (? & ? & ? & _ & _ & ? & _)%NextChar_inr. by repeat split. Qed.

Ltac front_step :=
  repeat (rewrite Front_bind_eq;
          cbn [get_chr GetLocation GetToken Current mret Front_ret]).

Lemma skip_space_spec fuel :
  ∀ lx, (unread_size lx + 2 ≤ fuel)%nat →
  match skip_space fuel lx with
  | inl e => ∃ m, e = UB m
  | inr (_, lx') =>
      lexes lx lx' ∧ isspace (chr_ lx') lx' = inr (false, lx')
  end.
Proof.
  induction fuel as [|fuel IH]; intros lx Hf; [lia|].
  cbn [skip_space]. front_step.
  destruct (isspace (chr_ lx) lx) as [e|[b lx1]] eqn:Hs.
  { by eapply ctype_inl. }
  pose proof (ctype_inr _ _ _ _ _ Hs) as (-> & Hb & Hdef).
  destruct b.
  - front_step.
    destruct (NextChar lx) as [e|[[] lx1]] eqn:HN.
    { by eapply NextChar_inl. }
    pose proof (NextChar_inr _ _ HN) as (_ & _ & Hle & Hlt & Heof & _).
    destruct (eofbit (is_ lx)) eqn:He.
    + (* the end had been hit: the character is now NUL *)
      specialize (Heof eq_refl).
      destruct fuel as [|fuel]; [lia|]. cbn [skip_space]. front_step.
      rewrite Heof, isspace_NUL. split; [by apply lexes_NextChar|].
      by rewrite Heof.
    + specialize (Hlt eq_refl). specialize (IH lx1 ltac:(lia)).
      destruct (skip_space fuel lx1) as [e|[[] lx2]]; [done|].
      destruct IH as [L2 Hns]. split; [|done].
      eapply lexes_trans; [by apply lexes_NextChar|done].
  - cbn. split; [apply lexes_refl|]. by rewrite Hs, Hb.
Qed.

Lemma string_length_append (s1 s2 : string) :
  String.length (s1 +:+ s2) = (String.length s1 + String.length s2)%nat.
Proof.
  induction s1 as [|c s1 IH]; [done|].
  change (String c s1 +:+ s2) with (String c (s1 +:+ s2)).
  cbn [String.length Nat.add]. by rewrite IH.
Qed.

Lemma read_string_spec fuel :
  ∀ word lx, (unread_size lx + 2 ≤ fuel)%nat →
  match read_string fuel word lx with
  | inl e => lexer_stop e
  | inr (_, lx') => lexes lx lx'
  end.
Proof.
  induction fuel as [|fuel IH]; intros word lx Hf; [lia|].
  cbn [read_string]. front_step. case_decide as Hq.
  { cbn. apply lexes_refl. }
  front_step.
  destruct (NextChar lx) as [e|[[] lx1]] eqn:HN.
  { left. by eapply NextChar_inl. }
  pose proof (NextChar_inr _ _ HN) as (_ & _ & Hle & Hlt & Heof & _).
  front_step. case_decide as Hn.
  { right. by eexists _, _. }
  destruct (eofbit (is_ lx)) eqn:He; [by destruct Hn; apply Heof|].
  specialize (Hlt eq_refl).
  specialize (IH (word +:+ String (chr_ lx) "") lx1 ltac:(lia)).
  destruct (read_string fuel _ lx1) as [e|[w lx2]]; [done|].
  eapply lexes_trans; [by apply lexes_NextChar|done].
Qed.

Lemma read_word_spec fuel :
  ∀ word lx, (unread_size lx + 2 ≤ fuel)%nat → chr_ lx ≠ NUL →
  match read_word fuel word lx with
  | inl e => ∃ m, e = UB m
  | inr (w, lx') =>
      lexes lx lx' ∧ (lexer_size lx' < lexer_size lx)%nat ∧
      (String.length word < String.length w)%nat
  end.
Proof.
  induction fuel as [|fuel IH]; intros word lx Hf Hc; [lia|].
  cbn [read_word]. front_step.
  destruct (NextChar lx) as [e|[[] lx1]] eqn:HN.
  { by eapply NextChar_inl. }
  pose proof (NextChar_inr _ _ HN) as (_ & _ & Hle & Hlt & Heof & _ & Hsz).
  specialize (Hsz Hc). front_step.
  destruct (IsIdentLetter (chr_ lx1) lx1) as [e|[b lx1']] eqn:HL.
  { by eapply IsIdentLetter_inl. }
  apply IsIdentLetter_inr in HL as [-> Hb].
  assert (String.length word < String.length (word +:+ String (chr_ lx) ""))%nat
    as Hlen by (rewrite string_length_append; cbn; lia).
  destruct b.
  - specialize (Hb eq_refl).
    destruct (eofbit (is_ lx)) eqn:He; [by destruct Hb; apply Heof|].
    specialize (Hlt eq_refl).
    specialize (IH (word +:+ String (chr_ lx) "") lx1 ltac:(lia) Hb).
    destruct (read_word fuel _ lx1) as [e|[w lx2]]; [done|].
    destruct IH as (L & Hs & Hw). split; [|split; lia].
    eapply lexes_trans; [by apply lexes_NextChar|done].
  - cbn. split; [by apply lexes_NextChar|]. split; [lia|done].
Qed.

Lemma symbol_kind_Some c kind :
  symbol_kind c = Some kind →
  c ≠ NUL ∧
  kind ∈ [Token.LPAREN; Token.RPAREN; Token.LBRACE; Token.RBRACE; Token.COLON;
          Token.SEMI; Token.EQUAL; Token.PLUS; Token.COMMA].
Proof.
  unfold symbol_kind.
  repeat (destruct (decide _) as [->|_];
          [intros [= <-]; split; [done|solve [repeat constructor]]|]).
  done.
Qed.

Lemma lexes_set_tk tk lx : lexer_size (set_tk tk lx) = lexer_size lx.
Proof. done. Qed.

Ltac lex_done :=
  unfold token_wf; cbn [kind_ value_ loc_ tk_ name_ set_tk chr_ lineNo_ charNo_];
  repeat split; rewrite ?lexes_set_tk;
  try done; try lia; try congruence; try (intros _; lia).

(** What [Next] does, in one statement. *)
Lemma Next_spec lx :
  match Next lx with
  | inl e => lexer_stop e
  | inr (tk, lx') =>
      tk_ lx' = tk ∧ name_ lx' = name_ lx ∧ token_wf tk ∧
      (lexer_size lx' ≤ lexer_size lx)%nat ∧
      (kind_ tk ≠ Token.END → (lexer_size lx' < lexer_size lx)%nat) ∧
      (kind_ tk = Token.END →
         chr_ lx' = NUL ∧
         loc_ tk = mkLocation (name_ lx') (lineNo_ lx') (charNo_ lx'))
  end.
Proof.
  unfold Next. set (fuel := (3 + length (unread (is_ lx)))%nat).
  assert (unread_size lx + 2 ≤ fuel)%nat as Hfuel.
  { unfold fuel, unread_size. destruct (eofbit (is_ lx)); lia. }
  front_step.
  pose proof (skip_space_spec fuel lx Hfuel) as Hsk.
  destruct (skip_space fuel lx) as [e|[[] lx1]]; [by left|].
  destruct Hsk as [(Hn1 & Ht1 & Hu1 & Hs1) Hns].
  front_step. case_decide as Hnul.
  { (* the end *)
    cbn [assign_tk]. lex_done. }
  destruct (symbol_kind (chr_ lx1)) as [kind|] eqn:Hsym.
  { (* a symbol *)
    apply symbol_kind_Some in Hsym as [_ Hkind]. front_step.
    destruct (NextChar lx1) as [e|[[] lx2]] eqn:HN.
    { left. by eapply NextChar_inl. }
    pose proof (NextChar_inr _ _ HN) as (Hn2 & _ & _ & _ & _ & _ & Hlt).
    specialize (Hlt Hnul).
    assert (kind ≠ Token.END ∧ kind ≠ Token.INT ∧ kind ≠ Token.IDENT ∧
            kind ≠ Token.STRING) as (? & ? & ? & ?).
    { repeat (apply elem_of_cons in Hkind as [->|Hkind]; [done|]).
      by apply elem_of_nil in Hkind. }
    cbn [assign_tk]. lex_done. by destruct kind. }
  case_decide as Hq.
  { (* a string *)
    front_step.
    destruct (NextChar lx1) as [e|[[] lx2]] eqn:HN.
    { left. by eapply NextChar_inl. }
    pose proof (NextChar_inr _ _ HN) as (Hn2 & _ & Hu2 & _ & _ & _ & Hlt).
    specialize (Hlt Hnul). front_step.
    pose proof (read_string_spec fuel "" lx2 ltac:(lia)) as Hrs.
    destruct (read_string fuel "" lx2) as [e|[w lx3]]; [done|].
    destruct Hrs as (Hn3 & _ & _ & Hs3). front_step.
    destruct (NextChar lx3) as [e|[[] lx4]] eqn:HN4.
    { left. by eapply NextChar_inl. }
    pose proof (NextChar_inr _ _ HN4) as (Hn4 & _ & _ & _ & _ & Hs4 & _).
    cbn [assign_tk]. lex_done. }
  (* a word, or nothing *)
  front_step.
  destruct (IsIdentStart (chr_ lx1) lx1) as [e|[b lx1']] eqn:HI.
  { left. by eapply IsIdentStart_inl. }
  apply IsIdentStart_inr in HI as [-> _].
  destruct b.
  - front_step.
    pose proof (read_word_spec fuel "" lx1 ltac:(lia) Hnul) as Hrw.
    destruct (read_word fuel "" lx1) as [e|[w lx2]]; [by left|].
    destruct Hrw as ((Hn2 & _ & _ & _) & Hs2 & Hw).
    assert (w ≠ "") as Hne by (intros ->; cbn in Hw; lia).
    unfold word_kind. repeat case_decide; cbn [assign_tk]; lex_done.
    exists w. split; [done|]. split; [done|].
    unfold keywords. intros Hin.
    repeat (apply elem_of_cons in Hin as [->|Hin]; [done|]).
    by apply elem_of_nil in Hin.
  - right. by eexists _, _.
Qed.

Lemma skip_space_stop fuel lx :
  isspace (chr_ lx) lx = inr (false, lx) →
  skip_space (S fuel) lx = inr (tt, lx).
Proof. intros H. cbn [skip_space]. front_step. by rewrite H. Qed.

(** X23. The language has no integer literal: at a decimal digit [Next]
    throws the lexer's error for an unknown character, located at that
    digit; no case of the lexer makes an INT token. *)
Theorem Next_rejects_digits (lx : Lexer) :
  48 ≤ char_code (chr_ lx) ≤ 57 →
  Next lx =
    inl (LexerError (mkLocation (name_ lx) (lineNo_ lx) (charNo_ lx))
           ("unknown character '" +:+ String (chr_ lx) "'")).
Proof.
  intros Hc.
  assert (∀ c, char_code c < 48 ∨ 57 < char_code c → chr_ lx ≠ c) as Hne.
  { intros c Hcc E. rewrite E in Hc. lia. }
  assert (isspace (chr_ lx) lx = inr (false, lx)) as Hsp.
  { unfold isspace, ctype.
    assert (ctype_defined (chr_ lx) = true) as ->
      by (apply bool_decide_eq_true; lia).
    cbn. by rewrite bool_decide_eq_false_2 by lia. }
  assert (isalpha (chr_ lx) lx = inr (false, lx)) as Hal.
  { unfold isalpha, ctype.
    assert (ctype_defined (chr_ lx) = true) as ->
      by (apply bool_decide_eq_true; lia).
    cbn. by rewrite bool_decide_eq_false_2 by lia. }
  unfold Next. cbn [Nat.add]. front_step.
  rewrite (skip_space_stop _ _ Hsp). front_step.
  rewrite decide_False by (apply Hne; vm_compute; left; reflexivity).
  assert (symbol_kind (chr_ lx) = None) as ->.
  { unfold symbol_kind.
    repeat (rewrite decide_False;
            [|apply Hne; vm_compute; first [left; reflexivity|right; reflexivity]]).
    done. }
  rewrite decide_False by (apply Hne; vm_compute; left; reflexivity).
  front_step. unfold IsIdentStart.
  rewrite decide_False by (apply Hne; vm_compute; right; reflexivity).
  by rewrite Hal.
Qed.

Lemma Next_rejects_digits_witness :
  Next (mkLexer "t" 1 4 "7"%char (mk_ifstream [")"%char] false)
          (mkToken (mkLocation "t" 1 2) Token.LPAREN None)) =
    inl (LexerError (mkLocation "t" 1 4) "unknown character '7'").
Proof.
  exact (Next_rejects_digits
           (mkLexer "t" 1 4 "7"%char (mk_ifstream [")"%char] false)
              (mkToken (mkLocation "t" 1 2) Token.LPAREN None))
           ltac:(vm_compute; split; discriminate)).
Defined.

(** X24. [Next] always ends, and in one of three ways: with a token, with
    the lexer's error, or in undefined behaviour (a character outside
    ASCII, a counter overflow); its loops never outrun the file. The token
    is then the current token of the lexer; it is never an INT token; it
    carries a payload exactly when it is a STRING or an IDENT; and an IDENT
    is a non-empty word other than [func], [return] and [while]. *)
Theorem Next_token (lx : Lexer) :
  match Next lx with
  | inl e => lexer_stop e
  | inr (tk, lx') =>
      tk_ lx' = tk ∧ name_ lx' = name_ lx ∧ token_wf tk ∧
      (lexer_size lx' ≤ lexer_size lx)%nat
  end.
Proof.
  pose proof (Next_spec lx) as H.
  destruct (Next lx) as [e|[tk lx']]; [done|].
  destruct H as (? & ? & ? & ? & _). done.
Qed.

(** X25. The end of the input is final: once [Next] has returned the END
    token, every further call returns the same token and leaves the lexer
    as it is. A NUL character in the file has the same effect as the end of
    the file: nothing behind it is ever read. *)
Theorem Next_END_is_final (lx lx' : Lexer) (tk : Token) :
  Next lx = inr (tk, lx') →
  kind_ tk = Token.END →
  Next lx' = inr (tk, lx').
Proof.
  intros HN Hk. pose proof (Next_spec lx) as H. rewrite HN in H.
  destruct H as (Htk & _ & [_ Hwf] & _ & _ & Hend).
  destruct (Hend Hk) as [Hnul Hloc]. rewrite Hk in Hwf.
  unfold Next. cbn [Nat.add]. front_step.
  rewrite skip_space_stop by (rewrite Hnul; apply isspace_NUL).
  front_step. rewrite decide_True by done. cbn [assign_tk].
  destruct tk as [loc kind value]. cbn in *. subst.
  destruct lx' as [nm ln cn c s t]. cbn in *. by subst.
Qed.

Lemma Next_END_is_final_witness :
  ∃ tk lx',
    Next (Lexer_open "t" []) = inr (tk, lx') ∧ Next lx' = inr (tk, lx').
Proof.
  eexists _, _. split; [vm_compute; reflexivity|].
  exact (Next_END_is_final (Lexer_open "t" []) _ _
           ltac:(vm_compute; reflexivity) ltac:(reflexivity)).
Defined.

(** ** The parser *)

Lemma Check_inr kind lx tk lx' :
  Check kind lx = inr (tk, lx') →
  lx' = lx ∧ tk = tk_ lx ∧ kind_ (tk_ lx) = kind.
Proof.
  unfold Check. front_step. case_decide as Hk; [done|].
  intros [= <- <-]. repeat split; [].
  destruct (decide (kind = kind_ (tk_ lx))); [done|]. by destruct Hk.
Qed.

Lemma ParseTermExpr_inr lx e lx' :
  ParseTermExpr lx = inr (e, lx') →
  kind_ (tk_ lx) = Token.IDENT ∧ (∃ ident, e = RefExpr ident) ∧
  ∃ tk, Next lx = inr (tk, lx').
Proof.
  unfold ParseTermExpr. front_step.
  destruct (kind_ (tk_ lx)) eqn:Hk; try done.
  unfold GetIdent. rewrite decide_True by done. front_step.
  destruct (Next lx) as [?|[tk lx1]]; [done|].
  intros [= <- <-]. eauto.
Qed.

Lemma parsed_shape_call callee args :
  parsed_shape (CallExpr callee args) =
    parsed_shape callee && negb (is_binary callee) &&
    forallb parsed_shape args.
Proof. done. Qed.

Lemma stmts_all_app ok l1 l2 :
  stmts_all ok (l1 ++ l2) = stmts_all ok l1 && stmts_all ok l2.
Proof.
  induction l1 as [|s l1 IH]; [done|]. cbn [app stmts_all].
  by rewrite IH, andb_assoc.
Qed.

(** Takes a run of a sequence of actions apart. *)
Ltac front_inv :=
  repeat match goal with
  | H : (_ ≫= _) _ = inr _ |- _ =>
      let a := fresh "a" in let lx := fresh "lx" in let Ha := fresh "Ha" in
      apply Front_bind_inr in H as (a & lx & Ha & H)
  | H : Current _ = inr _ |- _ => injection H as <- <-
  | H : mret _ _ = inr _ |- _ => injection H as <- <-
  | H : stop _ _ = inr _ |- _ => discriminate H
  | H : Check _ _ = inr _ |- _ => apply Check_inr in H as (-> & -> & H)
  | H : (if decide ?P then _ else _) _ = inr _ |- _ => destruct (decide P)
  end.

(** Concludes from a hypothesis on a run that is at hand. *)
Ltac by_run IH :=
  match goal with
  | H : _ = inr _ |- _ => eapply IH; [..|exact H]; done
  end.

Lemma parse_expr_shape fuel :
  (∀ lx e lx',
     ParseAddSubExpr fuel lx = inr (e, lx') → parsed_shape e = true) ∧
  (∀ term lx e lx',
     parsed_shape term = true →
     add_loop fuel term lx = inr (e, lx') → parsed_shape e = true) ∧
  (∀ lx e lx',
     ParseCallExpr fuel lx = inr (e, lx') →
     parsed_shape e = true ∧ is_binary e = false) ∧
  (∀ callee lx e lx',
     parsed_shape callee = true → is_binary callee = false →
     call_loop fuel callee lx = inr (e, lx') →
     parsed_shape e = true ∧ is_binary e = false) ∧
  (∀ args lx l lx',
     forallb parsed_shape args = true →
     args_loop fuel args lx = inr (l, lx') →
     forallb parsed_shape l = true).
Proof.
  induction fuel as [|fuel (IHadd & IHaddl & IHcall & IHcalll & IHargs)].
  { repeat split; intros; discriminate. }
  split; [|split; [|split; [|split]]].
  - intros lx e lx' H. cbn [ParseAddSubExpr] in H. front_inv.
    apply IHcall in Ha as [? _]. eauto.
  - intros term lx e lx' Ht H. cbn [add_loop] in H. front_inv; [|done].
    match goal with
    | Hc : ParseCallExpr _ _ = inr _ |- _ => apply IHcall in Hc as [Hs Hb]
    end.
    eapply IHaddl; [|done]. cbn [parsed_shape]. by rewrite Ht, Hs, Hb.
  - intros lx e lx' H. cbn [ParseCallExpr] in H. front_inv.
    apply ParseTermExpr_inr in Ha as (_ & [ident ->] & _).
    eapply IHcalll; [| |exact H]; done.
  - intros callee lx e lx' Hc Hb H. cbn [call_loop] in H.
    front_inv; [|done].
    eapply IHcalll; [| |exact H]; [|done].
    rewrite parsed_shape_call, Hc, Hb. cbn.
    match goal with
    | Hl : args_loop _ _ _ = inr _ |- _ => by eapply IHargs; [|exact Hl]
    end.
  - intros args lx l lx' Hargs H. cbn [args_loop] in H. front_inv; [done| |].
    + eapply IHargs; [|exact H]. rewrite forallb_app, Hargs. cbn.
      by erewrite IHadd.
    + rewrite forallb_app, Hargs. cbn. by erewrite IHadd.
Qed.

Lemma ParseExpr_shape fuel lx e lx' :
  ParseExpr fuel lx = inr (e, lx') → parsed_shape e = true.
Proof. apply parse_expr_shape. Qed.

Lemma parse_stmt_shape fuel :
  (∀ lx s lx',
     ParseStmt fuel lx = inr (s, lx') → stmt_all parsed_shape s = true) ∧
  (∀ lx body lx',
     ParseBlockStmt fuel lx = inr (body, lx') →
     stmts_all parsed_shape body = true) ∧
  (∀ body0 lx body lx',
     stmts_all parsed_shape body0 = true →
     block_loop fuel body0 lx = inr (body, lx') →
     stmts_all parsed_shape body = true) ∧
  (∀ lx s lx',
     ParseWhileStmt fuel lx = inr (s, lx') → stmt_all parsed_shape s = true).
Proof.
  induction fuel as [|fuel (IHstmt & IHblock & IHloop & IHwhile)].
  { repeat split; intros; discriminate. }
  split; [|split; [|split]].
  - intros lx s lx' H. cbn [ParseStmt] in H. front_inv.
    destruct (kind_ (tk_ lx)); front_inv;
      try (cbn [stmt_all]; by eapply ParseExpr_shape);
      try (rewrite stmt_all_block; by eapply IHblock).
    + unfold ParseReturnStmt in H. front_inv. cbn [stmt_all].
      by eapply ParseExpr_shape.
    + by eapply IHwhile.
  - intros lx body lx' H. cbn [ParseBlockStmt] in H. front_inv.
    by_run IHloop.
  - intros body0 lx body lx' H0 H. cbn [block_loop] in H.
    front_inv; [done| |].
    + eapply IHloop; [|exact H]. rewrite stmts_all_app, H0. cbn [stmts_all].
      by erewrite IHstmt.
    + rewrite stmts_all_app, H0. cbn [stmts_all]. by erewrite IHstmt.
  - intros lx s lx' H. cbn [ParseWhileStmt] in H. unfold Expect in H.
    front_inv. cbn [stmt_all].
    erewrite ParseExpr_shape by done. by erewrite IHstmt.
Qed.

Lemma module_loop_shape fuel :
  ∀ body0 lx body lx',
    module_all parsed_shape body0 = true →
    module_loop fuel body0 lx = inr (body, lx') →
    module_all parsed_shape body = true.
Proof.
  unfold module_all.
  induction fuel as [|fuel IH]; intros body0 lx body lx' H0 H; [done|].
  cbn [module_loop] in H. unfold Expect in H. front_inv; [done| | |].
  - eapply IH; [|exact H]. by rewrite forallb_app, H0.
  - eapply IH; [|exact H]. rewrite forallb_app, H0. cbn.
    by erewrite (proj1 (proj2 (parse_stmt_shape _))).
  - eapply IH; [|exact H]. rewrite forallb_app, H0. cbn.
    by erewrite (proj1 (parse_stmt_shape _)).
Qed.

(** X26. The trees the parser builds. In a module that [ParseModule]
    returns, the callee of every call is a name or a call, never an
    addition, and the right operand of every addition is a name or a call:
    additions associate to the left, and the grammar has no parentheses to
    group them otherwise. *)
Theorem ParseModule_shape (fuel : nat) (lx lx' : Lexer) (mod_ : Module_) :
  ParseModule fuel lx = inr (mod_, lx') →
  module_all parsed_shape mod_ = true.
Proof. by apply module_loop_shape. Qed.

Lemma ParseModule_shape_witness :
  ∃ mod_ lx',
    ParseModule 60
      (mkLexer "t" 1 3 "("%char
         (mk_ifstream ["a"; "+"; "b"; ")"; " "]%char false)
         (mkToken (mkLocation "t" 1 2) Token.IDENT (Some "f"))) =
      inr (mod_, lx') ∧
    module_all parsed_shape mod_ = true.
Proof.
  eexists _, _. split; [vm_compute; reflexivity|].
  eapply (ParseModule_shape 60
            (mkLexer "t" 1 3 "("%char
               (mk_ifstream ["a"; "+"; "b"; ")"; " "]%char false)
               (mkToken (mkLocation "t" 1 2) Token.IDENT (Some "f")))).
  vm_compute. reflexivity.
Defined.

(** *** The parser ends *)

Lemma Next_parser_size lx :
  match Next lx with
  | inl e => is_fuel e = false
  | inr (tk, lx') =>
      tk_ lx' = tk ∧
      (parser_size lx' ≤ parser_size lx)%nat ∧
      (kind_ (tk_ lx) ≠ Token.END → (parser_size lx' < parser_size lx)%nat)
  end.
Proof.
  pose proof (Next_spec lx) as H.
  destruct (Next lx) as [e|[tk lx']].
  - by destruct H as [[m ->]|(loc & m & ->)].
  - destruct H as (Htk & _ & _ & Hle & Hlt & _). split; [done|].
    unfold parser_size. rewrite Htk.
    destruct (decide (kind_ tk = Token.END)) as [Hk|Hk];
      destruct (decide (kind_ (tk_ lx) = Token.END)) as [Hc|Hc];
      try specialize (Hlt Hk); split; try intros Hne; try done; lia.
Qed.

Lemma Check_spec kind lx :
  match Check kind lx with
  | inl e => is_fuel e = false
  | inr (tk, lx') => lx' = lx ∧ tk = tk_ lx ∧ kind_ (tk_ lx) = kind
  end.
Proof.
  destruct (Check kind lx) as [e|[tk lx']] eqn:H.
  - unfold Check in H. revert H. front_step. case_decide; [|done].
    by intros [= <-].
  - by apply Check_inr.
Qed.

Lemma Expect_spec kind lx :
  match Expect kind lx with
  | inl e => is_fuel e = false
  | inr (tk, lx') =>
      tk = tk_ lx' ∧ kind_ (tk_ lx') = kind ∧
      (parser_size lx' ≤ parser_size lx)%nat ∧
      (kind_ (tk_ lx) ≠ Token.END → (parser_size lx' < parser_size lx)%nat)
  end.
Proof.
  unfold Expect. rewrite Front_bind_eq.
  pose proof (Next_parser_size lx) as HN.
  destruct (Next lx) as [e|[tk1 lx1]]; [done|].
  pose proof (Check_spec kind lx1) as HC.
  destruct (Check kind lx1) as [e|[tk lx']]; [done|].
  destruct HC as (-> & -> & HC), HN as (_ & ? & ?). done.
Qed.

Lemma GetIdent_spec tk lx :
  match GetIdent tk lx with
  | inl e => is_fuel e = false
  | inr (_, lx') => lx' = lx
  end.
Proof. unfold GetIdent. by case_decide. Qed.

Lemma GetString_spec tk lx :
  match GetString tk lx with
  | inl e => is_fuel e = false
  | inr (_, lx') => lx' = lx
  end.
Proof. unfold GetString. by case_decide. Qed.

Lemma ParseTermExpr_spec lx : consumes true lx (ParseTermExpr lx).
Proof.
  unfold consumes.
  destruct (ParseTermExpr lx) as [e|[t lx']] eqn:H.
  - unfold ParseTermExpr in H. revert H. front_step.
    destruct (kind_ (tk_ lx)) eqn:Hk; try by intros [= <-].
    rewrite Front_bind_eq. pose proof (GetIdent_spec (tk_ lx) lx) as HG.
    destruct (GetIdent (tk_ lx) lx) as [e'|[i lx1]]; [congruence|]. subst lx1.
    rewrite Front_bind_eq. pose proof (Next_parser_size lx) as HN.
    destruct (Next lx) as [e'|[tk lx1]]; [congruence|done].
  - apply ParseTermExpr_inr in H as (Hk & _ & tk & HN).
    pose proof (Next_parser_size lx) as HS. rewrite HN in HS.
    apply HS. by rewrite Hk.
Qed.

(** One step of a sequence of actions: the lemma [lem] on the first one
    settles the case where it stops. *)
Ltac run_step lem :=
  rewrite Front_bind_eq;
  let H := fresh "Hstep" in
  pose proof lem as H; unfold consumes in H;
  match type of H with
  | match ?r with _ => _ end =>
      let e := fresh "e" in let a := fresh "a" in let lx := fresh "lx" in
      destruct r as [e|[a lx]]; [exact H|]
  end;
  cbv beta iota.

Ltac run_last lem :=
  let H := fresh "Hstep" in
  pose proof lem as H; unfold consumes in H |- *;
  match type of H with
  | match ?r with _ => _ end => destruct r as [?|[? ?]]; [exact H|]
  end.

Ltac run_ret := unfold consumes; cbn [mret Front_ret]; lia.

Ltac run_current :=
  rewrite Front_bind_eq; cbn [Current GetToken].

Lemma parse_expr_ends fuel :
  (∀ lx, (3 * parser_size lx + 2 ≤ fuel)%nat →
     consumes true lx (ParseAddSubExpr fuel lx)) ∧
  (∀ term lx, (3 * parser_size lx + 1 ≤ fuel)%nat →
     consumes false lx (add_loop fuel term lx)) ∧
  (∀ lx, (3 * parser_size lx + 1 ≤ fuel)%nat →
     consumes true lx (ParseCallExpr fuel lx)) ∧
  (∀ callee lx, (3 * parser_size lx + 2 ≤ fuel)%nat →
     consumes false lx (call_loop fuel callee lx)) ∧
  (∀ args lx, kind_ (tk_ lx) ≠ Token.END →
     (3 * parser_size lx + 1 ≤ fuel)%nat →
     consumes true lx (args_loop fuel args lx)).
Proof.
  induction fuel as [|fuel (IHadd & IHaddl & IHcall & IHcalll & IHargs)].
  { repeat split; intros; lia. }
  split; [|split; [|split; [|split]]].
  - intros lx Hf. cbn [ParseAddSubExpr].
    run_step (IHcall lx ltac:(lia)).
    run_last (IHaddl a lx0 ltac:(lia)). lia.
  - intros term lx Hf. cbn [add_loop]. run_current.
    destruct (decide (kind_ (tk_ lx) = Token.PLUS)) as [Hk|Hk]; [|run_ret].
    run_step (Next_parser_size lx). destruct Hstep as (_ & _ & Hlt).
    specialize (Hlt ltac:(by rewrite Hk)).
    run_step (IHcall lx0 ltac:(lia)).
    run_last (IHaddl (BinaryExpr ADD_KIND term a0) lx1 ltac:(lia)). lia.
  - intros lx Hf. cbn [ParseCallExpr].
    run_step (ParseTermExpr_spec lx).
    run_last (IHcalll a lx0 ltac:(lia)). lia.
  - intros callee lx Hf. cbn [call_loop]. run_current.
    destruct (decide (kind_ (tk_ lx) = Token.LPAREN)) as [Hk|Hk]; [|run_ret].
    run_step (IHargs [] lx ltac:(by rewrite Hk) ltac:(lia)).
    run_step (Check_spec Token.RPAREN lx0). destruct Hstep0 as (-> & _ & _).
    run_step (Next_parser_size lx0). destruct Hstep0 as (_ & Hle & _).
    run_last (IHcalll (CallExpr callee a) lx1 ltac:(lia)). lia.
  - intros args lx Hk Hf. cbn [args_loop].
    run_step (Next_parser_size lx). destruct Hstep as (Htk & _ & Hlt).
    specialize (Hlt Hk).
    destruct (decide (kind_ a = Token.RPAREN)); [run_ret|].
    run_step (IHadd lx0 ltac:(lia)). run_current.
    destruct (decide (kind_ (tk_ lx1) = Token.COMMA)) as [Hc|Hc]; [|run_ret].
    run_last (IHargs (args ++ [a0]) lx1 ltac:(by rewrite Hc) ltac:(lia)).
    lia.
Qed.

Lemma ParseExpr_ends fuel lx :
  (3 * parser_size lx + 2 ≤ fuel)%nat → consumes true lx (ParseExpr fuel lx).
Proof. apply parse_expr_ends. Qed.

Lemma ParseReturnStmt_ends fuel lx :
  (3 * parser_size lx ≤ fuel)%nat →
  consumes true lx (ParseReturnStmt fuel lx).
Proof.
  intros Hf. unfold ParseReturnStmt.
  run_step (Check_spec Token.RETURN lx). destruct Hstep as (-> & _ & Hk).
  run_step (Next_parser_size lx). destruct Hstep as (_ & _ & Hlt).
  specialize (Hlt ltac:(by rewrite Hk)).
  run_step (ParseExpr_ends fuel lx0 ltac:(lia)).
  run_ret.
Qed.

Lemma parse_stmt_ends fuel :
  (∀ lx, (3 * parser_size lx + 3 ≤ fuel)%nat →
     consumes true lx (ParseStmt fuel lx)) ∧
  (∀ lx, (3 * parser_size lx + 2 ≤ fuel)%nat →
     consumes true lx (ParseBlockStmt fuel lx)) ∧
  (∀ body lx, kind_ (tk_ lx) ≠ Token.END →
     (3 * parser_size lx + 1 ≤ fuel)%nat →
     consumes true lx (block_loop fuel body lx)) ∧
  (∀ lx, (3 * parser_size lx + 1 ≤ fuel)%nat →
     consumes true lx (ParseWhileStmt fuel lx)).
Proof.
  induction fuel as [|fuel (IHstmt & IHblock & IHloop & IHwhile)].
  { repeat split; intros; lia. }
  split; [|split; [|split]].
  - intros lx Hf. cbn [ParseStmt]. run_current.
    destruct (kind_ (tk_ lx)) eqn:Hk;
      try (run_step (ParseExpr_ends fuel lx ltac:(lia)); run_ret).
    + by apply ParseReturnStmt_ends; lia.
    + by apply IHwhile; lia.
    + run_step (IHblock lx ltac:(lia)). run_ret.
  - intros lx Hf. cbn [ParseBlockStmt].
    run_step (Check_spec Token.LBRACE lx). destruct Hstep as (-> & _ & Hk).
    run_step (IHloop [] lx ltac:(by rewrite Hk) ltac:(lia)).
    run_step (Check_spec Token.RBRACE lx0). destruct Hstep0 as (-> & _ & _).
    run_step (Next_parser_size lx0). destruct Hstep0 as (_ & Hle & _).
    run_ret.
  - intros body lx Hk Hf. cbn [block_loop].
    run_step (Next_parser_size lx). destruct Hstep as (Htk & _ & Hlt).
    specialize (Hlt Hk).
    destruct (decide (kind_ a = Token.RBRACE)); [run_ret|].
    run_step (IHstmt lx0 ltac:(lia)). run_current.
    destruct (decide (kind_ (tk_ lx1) = Token.SEMI)) as [Hc|Hc]; [|run_ret].
    run_last (IHloop (body ++ [a0]) lx1 ltac:(by rewrite Hc) ltac:(lia)).
    lia.
  - intros lx Hf. cbn [ParseWhileStmt].
    run_step (Check_spec Token.WHILE lx). destruct Hstep as (-> & _ & Hk).
    run_step (Expect_spec Token.LPAREN lx).
    destruct Hstep as (_ & Hk0 & _ & Hlt). specialize (Hlt ltac:(by rewrite Hk)).
    run_step (Next_parser_size lx0). destruct Hstep as (_ & Hle & _).
    run_step (ParseExpr_ends fuel lx1 ltac:(lia)).
    run_step (Check_spec Token.RPAREN lx2). destruct Hstep0 as (-> & _ & _).
    run_step (Next_parser_size lx2). destruct Hstep0 as (_ & Hle' & _).
    run_step (IHstmt lx3 ltac:(lia)).
    run_ret.
Qed.

Lemma params_loop_ends fuel :
  ∀ args lx, kind_ (tk_ lx) ≠ Token.END →
    (3 * parser_size lx + 1 ≤ fuel)%nat →
    consumes true lx (params_loop fuel args lx).
Proof.
  induction fuel as [|fuel IH]; intros args lx Hk Hf; [lia|].
  cbn [params_loop].
  run_step (Next_parser_size lx). destruct Hstep as (Htk & _ & Hlt).
  specialize (Hlt Hk).
  destruct (decide (kind_ a = Token.RPAREN)); [run_ret|].
  run_current.
  run_step (GetIdent_spec (tk_ lx0) lx0). subst lx1.
  run_step (Expect_spec Token.COLON lx0). destruct Hstep as (_ & _ & Hle1 & _).
  run_step (Expect_spec Token.IDENT lx1). destruct Hstep as (_ & _ & Hle2 & _).
  run_step (GetIdent_spec a2 lx2). subst lx3.
  run_step (Next_parser_size lx2). destruct Hstep as (Htk' & Hle3 & _).
  destruct (decide (kind_ a4 = Token.COMMA)) as [Hc|Hc]; [|run_ret].
  run_last (IH (args ++ [(a0, a3)]) lx3 ltac:(by rewrite Htk', Hc) ltac:(lia)).
  lia.
Qed.

Lemma module_loop_ends fuel :
  ∀ body lx, (3 * parser_size lx + 4 ≤ fuel)%nat →
    consumes false lx (module_loop fuel body lx).
Proof.
  induction fuel as [|fuel IH]; intros body lx Hf; [lia|].
  cbn [module_loop]. run_current.
  destruct (decide (kind_ (tk_ lx) = Token.END)) as [He|He]; [run_ret|].
  destruct (decide (kind_ (tk_ lx) = Token.FUNC)) as [Hk|Hk].
  - run_step (Expect_spec Token.IDENT lx).
    destruct Hstep as (_ & _ & _ & Hlt). specialize (Hlt He).
    run_step (GetIdent_spec a lx0). subst lx1.
    run_step (Expect_spec Token.LPAREN lx0).
    destruct Hstep as (_ & Hk1 & Hle1 & _).
    run_step (params_loop_ends fuel [] lx1 ltac:(by rewrite Hk1) ltac:(lia)).
    run_step (Check_spec Token.RPAREN lx2). destruct Hstep0 as (-> & _ & _).
    run_step (Expect_spec Token.COLON lx2).
    destruct Hstep0 as (_ & _ & Hle2 & _).
    run_step (Expect_spec Token.IDENT lx3).
    destruct Hstep0 as (_ & _ & Hle3 & _).
    run_step (GetIdent_spec a5 lx4). subst lx5.
    run_step (Next_parser_size lx4). destruct Hstep0 as (_ & Hle4 & _).
    destruct (decide (kind_ a7 = Token.EQUAL)) as [Hq|Hq].
    + run_step (Expect_spec Token.STRING lx5).
      destruct Hstep0 as (_ & _ & Hle5 & _).
      run_step (GetString_spec a8 lx6). subst lx7.
      run_step (Next_parser_size lx6). destruct Hstep0 as (_ & Hle6 & _).
      run_last (IH (body ++ [TopProto (mkProtoDecl a0 a2 a6 a9)]) lx7
                  ltac:(lia)).
      lia.
    + run_step (proj1 (proj2 (parse_stmt_ends fuel)) lx5 ltac:(lia)).
      run_last (IH (body ++ [TopFunc (mkFuncDecl a0 a2 a6 a8)]) lx6
                  ltac:(lia)).
      lia.
  - run_step (proj1 (parse_stmt_ends fuel) lx ltac:(lia)).
    run_last (IH (body ++ [TopStmt a]) lx0 ltac:(lia)). lia.
Qed.

Lemma consumes_ends {A} s lx (r : Stop + A * Lexer) : consumes s lx r → ends r.
Proof. by destruct r as [e|[a lx']]. Qed.

Lemma Lexer_new_size name file :
  match Lexer_new name file with
  | inl e => is_fuel e = false
  | inr lx => (parser_size lx ≤ 2 * length file + 3)%nat
  end.
Proof.
  unfold Lexer_new. rewrite Front_bind_eq.
  destruct (NextChar (Lexer_open name file)) as [e|[[] lx1]] eqn:H1.
  { apply NextChar_inl in H1 as [m ->]. done. }
  apply NextChar_inr in H1 as (_ & _ & _ & _ & _ & Hle & _).
  pose proof (Next_spec lx1) as HN.
  destruct (Next lx1) as [e|[tk lx]].
  { by destruct HN as [[m ->]|(loc & m & ->)]. }
  destruct HN as (_ & _ & _ & Hle' & _).
  assert (lexer_size (Lexer_open name file) = S (length file)) as Hs.
  { unfold lexer_size, unread_size, Lexer_open. cbn [chr_ is_ unread eofbit].
    rewrite decide_True by done. lia. }
  unfold parser_size. case_decide; lia.
Qed.

(** *** The fuel does not matter *)

Lemma stable_bind {A B} (m m' : Front A) (k k' : A → Front B) lx :
  ends ((m ≫= k) lx) →
  (ends (m lx) → m' lx = m lx) →
  (∀ a lx1, m lx = inr (a, lx1) → ends (k a lx1) → k' a lx1 = k a lx1) →
  (m' ≫= k') lx = (m ≫= k) lx.
Proof.
  rewrite !Front_bind_eq. intros He Hm Hk.
  destruct (m lx) as [e|[a lx1]] eqn:Hr.
  - by rewrite Hm.
  - rewrite Hm by done. by apply Hk.
Qed.

(** Compares two runs of the same actions that differ by their fuel. *)
Ltac stable_tac :=
  lazymatch goal with
  | |- (_ ≫= _) _ = (_ ≫= _) _ =>
      apply stable_bind;
      [assumption
      |intros ?; first [reflexivity|auto; fail]
      |let H := fresh "He" in intros ? ? _ H; cbv beta in H; stable_tac]
  | |- (if decide ?P then _ else _) _ = _ =>
      let H := fresh in destruct (decide P) as [H|H]; stable_tac
  | |- (match kind_ ?t with _ => _ end) _ = _ =>
      let H := fresh in destruct (kind_ t) eqn:H; stable_tac
  | |- _ => first [reflexivity|auto; fail]
  end.

(** Unfolds both sides of [f (S (S fuel)) .. = f (S fuel) ..] by one call. *)
Ltac one_call f fuel He :=
  cbn [f] in He;
  match goal with
  | |- _ = ?r =>
      let R := fresh "R" in let HR := fresh "HR" in
      let n := fresh "n" in let Hn := fresh "Hn" in
      remember r as R eqn:HR; cbn [f] in HR;
      remember (S fuel) as n eqn:Hn; cbn [f]; subst n; subst R
  end.

Lemma parse_expr_stable fuel :
  (∀ lx, ends (ParseAddSubExpr fuel lx) →
     ParseAddSubExpr (S fuel) lx = ParseAddSubExpr fuel lx) ∧
  (∀ term lx, ends (add_loop fuel term lx) →
     add_loop (S fuel) term lx = add_loop fuel term lx) ∧
  (∀ lx, ends (ParseCallExpr fuel lx) →
     ParseCallExpr (S fuel) lx = ParseCallExpr fuel lx) ∧
  (∀ callee lx, ends (call_loop fuel callee lx) →
     call_loop (S fuel) callee lx = call_loop fuel callee lx) ∧
  (∀ args lx, ends (args_loop fuel args lx) →
     args_loop (S fuel) args lx = args_loop fuel args lx).
Proof.
  induction fuel as [|fuel (IHadd & IHaddl & IHcall & IHcalll & IHargs)].
  { repeat split; intros; done. }
  split; [|split; [|split; [|split]]].
  - intros lx He. one_call ParseAddSubExpr fuel He. stable_tac.
  - intros term lx He. one_call add_loop fuel He. stable_tac.
  - intros lx He. one_call ParseCallExpr fuel He. stable_tac.
  - intros callee lx He. one_call call_loop fuel He. stable_tac.
  - intros args lx He. one_call args_loop fuel He. stable_tac.
Qed.

Lemma ParseExpr_stable fuel lx :
  ends (ParseExpr fuel lx) → ParseExpr (S fuel) lx = ParseExpr fuel lx.
Proof. apply parse_expr_stable. Qed.

Lemma ParseReturnStmt_stable fuel lx :
  ends (ParseReturnStmt fuel lx) →
  ParseReturnStmt (S fuel) lx = ParseReturnStmt fuel lx.
Proof.
  intros He. unfold ParseReturnStmt in He |- *.
  pose proof ParseExpr_stable as IHexpr. stable_tac.
Qed.

Lemma parse_stmt_stable fuel :
  (∀ lx, ends (ParseStmt fuel lx) →
     ParseStmt (S fuel) lx = ParseStmt fuel lx) ∧
  (∀ lx, ends (ParseBlockStmt fuel lx) →
     ParseBlockStmt (S fuel) lx = ParseBlockStmt fuel lx) ∧
  (∀ body lx, ends (block_loop fuel body lx) →
     block_loop (S fuel) body lx = block_loop fuel body lx) ∧
  (∀ lx, ends (ParseWhileStmt fuel lx) →
     ParseWhileStmt (S fuel) lx = ParseWhileStmt fuel lx).
Proof.
  pose proof ParseExpr_stable as IHexpr.
  pose proof ParseReturnStmt_stable as IHret.
  induction fuel as [|fuel (IHstmt & IHblock & IHloop & IHwhile)].
  { repeat split; intros; done. }
  split; [|split; [|split]].
  - intros lx He. one_call ParseStmt fuel He. stable_tac.
  - intros lx He. one_call ParseBlockStmt fuel He. stable_tac.
  - intros body lx He. one_call block_loop fuel He. stable_tac.
  - intros lx He. one_call ParseWhileStmt fuel He. stable_tac.
Qed.

Lemma params_loop_stable fuel :
  ∀ args lx, ends (params_loop fuel args lx) →
    params_loop (S fuel) args lx = params_loop fuel args lx.
Proof.
  induction fuel as [|fuel IH]; intros args lx He; [done|].
  one_call params_loop fuel He. stable_tac.
Qed.

Lemma module_loop_stable fuel :
  ∀ body lx, ends (module_loop fuel body lx) →
    module_loop (S fuel) body lx = module_loop fuel body lx.
Proof.
  pose proof params_loop_stable as IHparams.
  pose proof (λ fuel, proj1 (parse_stmt_stable fuel)) as IHstmt.
  pose proof (λ fuel, proj1 (proj2 (parse_stmt_stable fuel))) as IHblock.
  induction fuel as [|fuel IH]; intros body lx He; [done|].
  one_call module_loop fuel He. stable_tac.
Qed.

Lemma module_loop_fuel fuel fuel' body lx :
  (fuel ≤ fuel')%nat → ends (module_loop fuel body lx) →
  module_loop fuel' body lx = module_loop fuel body lx.
Proof.
  induction 1 as [|fuel' _ IH]; [done|]. intros He.
  rewrite module_loop_stable; rewrite IH; done.
Qed.

Lemma ParseModule_enough_fuel fuel lx :
  (parser_fuel lx ≤ fuel)%nat →
  ends (ParseModule fuel lx) ∧
  ParseModule fuel lx = ParseModule (parser_fuel lx) lx.
Proof.
  intros Hf. unfold ParseModule.
  assert (ends (module_loop (parser_fuel lx) [] lx)) as He.
  { eapply consumes_ends, module_loop_ends. unfold parser_fuel. lia. }
  rewrite (module_loop_fuel (parser_fuel lx) fuel) by done. done.
Qed.

(** X27. [ParseModule] ends on every state of the lexer: with the module,
    with the error of the lexer or of the parser, with a failed assertion
    of [GetIdent] or [GetString], or in undefined behaviour of the lexer.
    Every loop and every recursive call of the parser follows a call of
    [Next] on a token other than END, so that a fuel linear in what is left
    of the file is never used up, and the outcome is the same for every
    larger fuel. *)
Theorem ParseModule_ends (fuel : nat) (lx : Lexer) :
  (parser_fuel lx ≤ fuel)%nat →
  ends (ParseModule fuel lx) ∧
  ParseModule fuel lx = ParseModule (parser_fuel lx) lx.
Proof. apply ParseModule_enough_fuel. Qed.

Lemma ParseModule_ends_witness :
  let lx := mkLexer "t" 1 3 "("%char
              (mk_ifstream ["a"; "+"; "b"; ")"; " "]%char false)
              (mkToken (mkLocation "t" 1 2) Token.IDENT (Some "f")) in
  ends (ParseModule 60 lx) ∧
  ParseModule 60 lx = ParseModule (parser_fuel lx) lx.
Proof.
  apply ParseModule_ends. vm_compute. lia.
Defined.

(** X28. The front end as a whole: on every file, the constructor of the
    lexer followed by [ParseModule] ends, in a number of calls that is
    linear in the length of the file. *)
Theorem parse_file_ends (name : string) (file : list ascii) :
  ends (parse_file (6 * length file + 13) name file).
Proof.
  unfold parse_file. pose proof (Lexer_new_size name file) as Hn.
  destruct (Lexer_new name file) as [e|lx]; [done|].
  destruct (ParseModule_enough_fuel (6 * length file + 13) lx) as [He _].
  { unfold parser_fuel. lia. }
  by destruct (ParseModule (6 * length file + 13) lx) as [e|[m lx']].
Qed.

(** *** Where a module ends, and where it cannot go on *)

Lemma module_loop_END fuel :
  ∀ body lx mod_ lx',
    module_loop fuel body lx = inr (mod_, lx') →
    kind_ (tk_ lx') = Token.END ∧ ∃ rest, mod_ = body ++ rest.
Proof.
  induction fuel as [|fuel IH]; intros body lx mod_ lx' H; [done|].
  cbn [module_loop] in H. unfold Expect in H. front_inv.
  - split; [done|]. exists []. by rewrite app_nil_r.
  - apply IH in H as [? [rest ->]]. split; [done|].
    rewrite <-app_assoc. by eexists.
  - apply IH in H as [? [rest ->]]. split; [done|].
    rewrite <-app_assoc. by eexists.
  - apply IH in H as [? [rest ->]]. split; [done|].
    rewrite <-app_assoc. by eexists.
Qed.

(** X29. [ParseModule] returns a module only at the END token: nothing of
    the input is left out, up to the end of the file or to the first NUL
    character in it. *)
Theorem ParseModule_stops_at_END
    (fuel : nat) (lx lx' : Lexer) (mod_ : Module_) :
  ParseModule fuel lx = inr (mod_, lx') →
  kind_ (tk_ lx') = Token.END.
Proof. intros H. by apply module_loop_END in H as [? _]. Qed.

Lemma ParseModule_stops_at_END_witness :
  ∃ mod_ lx',
    ParseModule 60
      (mkLexer "t" 1 3 "("%char
         (mk_ifstream [")"; " "]%char false)
         (mkToken (mkLocation "t" 1 2) Token.IDENT (Some "f"))) =
      inr (mod_, lx') ∧
    kind_ (tk_ lx') = Token.END.
Proof.
  eexists _, _. split; [vm_compute; reflexivity|].
  eapply (ParseModule_stops_at_END 60
            (mkLexer "t" 1 3 "("%char
               (mk_ifstream [")"; " "]%char false)
               (mkToken (mkLocation "t" 1 2) Token.IDENT (Some "f")))).
  vm_compute. reflexivity.
Defined.

Lemma ParseTermExpr_no_term lx :
  kind_ (tk_ lx) ≠ Token.IDENT →
  ParseTermExpr lx =
    inl (ParserError (loc_ (tk_ lx))
           ("unexpected " +:+ print_Token (tk_ lx) +:+ ", expecting term")).
Proof.
  intros Hk. unfold ParseTermExpr. front_step.
  by destruct (kind_ (tk_ lx)).
Qed.

Lemma ParseExpr_no_term fuel lx :
  kind_ (tk_ lx) ≠ Token.IDENT →
  ParseExpr (S (S fuel)) lx =
    inl (ParserError (loc_ (tk_ lx))
           ("unexpected " +:+ print_Token (tk_ lx) +:+ ", expecting term")).
Proof.
  intros Hk. unfold ParseExpr. cbn [ParseAddSubExpr].
  rewrite Front_bind_eq. cbn [ParseCallExpr].
  by rewrite Front_bind_eq, ParseTermExpr_no_term.
Qed.

Lemma module_loop_no_term fuel body lx :
  kind_ (tk_ lx) ∈
    [Token.LPAREN; Token.RPAREN; Token.RBRACE; Token.COLON; Token.SEMI;
     Token.EQUAL; Token.COMMA; Token.PLUS; Token.STRING] →
  module_loop (4 + fuel) body lx =
    inl (ParserError (loc_ (tk_ lx))
           ("unexpected " +:+ print_Token (tk_ lx) +:+ ", expecting term")).
Proof.
  intros Hk.
  assert (∀ kind,
            kind ∈ [Token.IDENT; Token.END; Token.FUNC; Token.RETURN;
                    Token.WHILE; Token.LBRACE] →
            kind_ (tk_ lx) ≠ kind) as Hne.
  { intros kind Hin E. rewrite E in Hk.
    repeat (apply elem_of_cons in Hin as [->|Hin];
            [repeat (apply elem_of_cons in Hk as [Hk|Hk]; [discriminate|]);
             by apply elem_of_nil in Hk|]).
    by apply elem_of_nil in Hin. }
  pose proof (ParseExpr_no_term fuel lx (Hne _ ltac:(repeat constructor)))
    as HE.
  change (4 + fuel)%nat with (S (S (S (S fuel)))).
  remember (S (S (S fuel))) as n eqn:Hn. cbn [module_loop]. subst n.
  run_current.
  rewrite decide_False by (apply Hne; repeat constructor).
  rewrite decide_False by (apply Hne; repeat constructor).
  rewrite Front_bind_eq.
  remember (S (S fuel)) as n eqn:Hn. cbn [ParseStmt]. subst n.
  run_current.
  pose proof (Hne Token.RETURN ltac:(repeat constructor)) as Hr.
  pose proof (Hne Token.WHILE ltac:(repeat constructor)) as Hw.
  pose proof (Hne Token.LBRACE ltac:(repeat constructor)) as Hb.
  destruct (kind_ (tk_ lx)) eqn:E; try congruence;
    by rewrite Front_bind_eq, HE.
Qed.

(** X30. What a top-level construct can begin with. When [ParseModule]
    finds, where a function or a statement is to begin, a token of the
    lexer other than [func], [return], [while], an opening brace, a name or
    END, it throws
    the error of the parser, located at this token, that a term was
    expected. So a semicolon does not separate top-level statements as it
    separates those of a block, and no statement begins with a
    parenthesis or a string. *)
Theorem ParseModule_expects_term (fuel : nat) (lx : Lexer) :
  token_wf (tk_ lx) →
  kind_ (tk_ lx) ∈
    [Token.LPAREN; Token.RPAREN; Token.RBRACE; Token.COLON; Token.SEMI;
     Token.EQUAL; Token.COMMA; Token.PLUS; Token.STRING] →
  ParseModule (4 + fuel) lx =
    inl (ParserError (loc_ (tk_ lx))
           ("unexpected " +:+ print_Token (tk_ lx) +:+ ", expecting term")).
Proof. intros _. apply module_loop_no_term. Qed.

Lemma ParseModule_expects_term_witness :
  ParseModule 4
    (mkLexer "t" 1 4 " "%char (mk_ifstream ["g"]%char false)
       (mkToken (mkLocation "t" 1 3) Token.SEMI None)) =
    inl (ParserError (mkLocation "t" 1 3) "unexpected ;, expecting term").
Proof.
  apply (ParseModule_expects_term 0
           (mkLexer "t" 1 4 " "%char (mk_ifstream ["g"]%char false)
              (mkToken (mkLocation "t" 1 3) Token.SEMI None))).
  - split; [discriminate|reflexivity].
  - cbn [tk_ kind_]. repeat constructor.
Defined.
